(** * GameBox: a verification development for the multiplayer game clients

    The development embeds the parts of the repository that the checked
    properties talk about:

    - [Js]       the JavaScript values that travel through the replicated
                 store (objects are finite maps from property names to values);
    - [LocalDb]  the bundled [LocalDatabase] / [LocalRef] mock of the
                 replicated store (js/main.js);
    - [Omok]     board encodings and start-up of the five-in-a-row client
                 (js/omok.js in its two revisions);
    - [Tetris]   synchronisation and elimination logic of js/tetris.js;
    - [Arena]    the bomb-arena engine, whose source file is not part of
                 the tree and which is therefore modelled from the
                 specification text;
    - [LocalRefs]   reads, writes and subscriptions of the local store seen
                    from its references;
    - [OmokMoves]   win detection and the placing of stones;
    - [TetrisBoard] rotation, collision, ghost, line clearing and locking
                    on the Tetris board;
    - [TetrisPlay]  the player's own Tetris game: spawning, holding,
                    dropping, garbage, and what every event keeps true;
    - [TetrisGarbage] the garbage counters of the store, from the client
                    that clears lines to the opponent that receives them. *)

From Stdlib Require Import Ascii ZArith Lia QArith Qround.
From stdpp Require Import gmap strings list fin_maps pretty.

#[local] Set Warnings "-register-all".

(* ===================================================================== *)
(** * JavaScript values                                                   *)
(* ===================================================================== *)

Module Js.

(** The values that can sit in the store tree.  Numbers are the integral
    ones (no NaN, no fractions); arrays and functions are not represented.
    Only own properties are modelled: a read of an inherited member
    ([constructor], [toString], the [length] and indices of a primitive
    string) yields [VUndef]. *)
Inductive Value : Type :=
| VUndef
| VNull
| VBool (b : bool)
| VNum (n : Z)
| VStr (s : string)
| VObj (m : gmap string Value).

(** [!!v] in JavaScript. *)
Definition truthy (v : Value) : bool :=
  match v with
  | VUndef | VNull => false
  | VBool b => b
  | VNum n => negb (n =? 0)%Z
  | VStr s => negb (String.eqb s "")
  | VObj _ => true
  end.

(** [typeof v === 'object'] (true of [null] as well). *)
Definition is_object (v : Value) : bool :=
  match v with
  | VObj _ | VNull => true
  | _ => false
  end.

(** [v[key]] for a [v] that is not nullish. *)
Definition prop (v : Value) (key : string) : Value :=
  match v with
  | VObj m => default VUndef (m !! key)
  | _ => VUndef
  end.

(** [v === 'literal'] and [v === number]. *)
Definition is_str (v : Value) (literal : string) : bool :=
  match v with
  | VStr s => String.eqb s literal
  | _ => false
  end.

Definition is_num (v : Value) (number : Z) : bool :=
  match v with
  | VNum n => (n =? number)%Z
  | _ => false
  end.

(** [a || b]. *)
Definition or_else (a b : Value) : Value := if truthy a then a else b.

(** The own enumerable properties copied by an object spread [{...v}].
    A primitive string spreads into its characters keyed by index. *)
Fixpoint spread_chars (i : nat) (s : string) : gmap string Value :=
  match s with
  | EmptyString => ∅
  | String c rest => <[pretty i := VStr (String c EmptyString)]> (spread_chars (S i) rest)
  end.

Definition spread (v : Value) : gmap string Value :=
  match v with
  | VObj m => m
  | VStr s => spread_chars 0 s
  | _ => ∅
  end.

(** [String(v)], which is also how a value is turned into a property
    name. *)
Definition to_string (v : Value) : string :=
  match v with
  | VUndef => "undefined"
  | VNull => "null"
  | VBool true => "true"
  | VBool false => "false"
  | VNum n => pretty n
  | VStr s => s
  | VObj _ => "[object Object]"
  end.

(** [s.split(sep)] for a one-character separator. *)
Fixpoint split_on (sep : Ascii.ascii) (s : string) : list string :=
  match s with
  | EmptyString => [EmptyString]
  | String c rest =>
      if Ascii.eqb c sep then EmptyString :: split_on sep rest
      else match split_on sep rest with
           | [] => [String c EmptyString]
           | seg :: segs => String c seg :: segs
           end
  end.

(** [s.startsWith(p)]. *)
Definition startsWith (s p : string) : bool := String.prefix p s.

End Js.

(* ===================================================================== *)
(** * The bundled local store (js/main.js)                                *)
(* ===================================================================== *)

Module LocalDb.
Import Js.

(** Subscribed callbacks are opaque to the store; they are identified by
    a number and an invocation is recorded together with the snapshot
    value handed to the callback. *)
Definition Callback := nat.
Definition Invocation : Type := Callback * Value.

(** [this.data] is the root object; [this.listeners] is a [Map] from path
    strings to [Set]s of callbacks, both enumerated in insertion order. *)
Record LocalDatabase : Type := {
  data : gmap string Value;
  listeners : list (string * list Callback)
}.

(** [path.split('/').filter(k => k)] *)
Definition keys_of (path : string) : list string :=
  List.filter (fun k => negb (String.eqb k "")) (split_on "/"%char path).

(** The loop of [get]: walk down, giving up with [undefined] as soon as
    the current node is falsy or not an object. *)
Fixpoint get_keys (current : Value) (keys : list string) : Value :=
  match keys with
  | [] => current
  | key :: rest =>
      if negb (truthy current) || negb (is_object current) then VUndef
      else get_keys (prop current key) rest
  end.

Definition get (db : LocalDatabase) (path : string) : Value :=
  get_keys (VObj (data db)) (keys_of path).

(** The child the loop of [set] descends into: [current[key]] when that
    is a truthy object, a fresh [{}] otherwise. *)
Definition child_or_fresh (current : gmap string Value) (key : string)
  : gmap string Value :=
  match current !! key with
  | Some (VObj m) => m
  | _ => ∅
  end.

(** The mutation done by [set].  With no key at all [lastKey] is
    [keys[-1]], that is [undefined], and the assignment lands on the
    property named "undefined" of the root. *)
Fixpoint set_keys (current : gmap string Value) (keys : list string)
         (value : Value) : gmap string Value :=
  match keys with
  | [] => <["undefined" := value]> current
  | [lastKey] => <[lastKey := value]> current
  | key :: rest =>
      <[key := VObj (set_keys (child_or_fresh current key) rest value)]> current
  end.

(** The mutation done by [remove]; [None] is the early [return] taken
    when an intermediate [current[key]] is falsy.  A truthy primitive on
    the way is walked into; with own properties only, the next read on it
    is [undefined] and a [delete] on it changes nothing (the indices and
    the [length] of a primitive string, which JavaScript would read and
    refuse to delete, are not modelled: the properties proved below do not
    depend on this case). *)
Fixpoint remove_keys (current : gmap string Value) (keys : list string)
  : option (gmap string Value) :=
  match keys with
  | [] => Some (delete "undefined" current)
  | [lastKey] => Some (delete lastKey current)
  | key :: rest =>
      let next := default VUndef (current !! key) in
      if truthy next then
        match next with
        | VObj m =>
            match remove_keys m rest with
            | Some m' => Some (<[key := VObj m']> current)
            | None => None
            end
        | _ => match rest with
               | [_] => Some current
               | _ => None
               end
        end
      else None
  end.

(** [notifyListeners]: every entry of the listener map whose path is a
    textual prefix of the written path, or has it as a prefix, gets each
    of its callbacks invoked with the value now at the entry's path. *)
Definition affects (path listenerPath : string) : bool :=
  startsWith path listenerPath || startsWith listenerPath path.

Definition notify_entry (db : LocalDatabase) (path : string)
           (entry : string * list Callback) : list Invocation :=
  if affects path entry.1 then
    let snapshot := get db entry.1 in
    List.map (fun callback => (callback, snapshot)) entry.2
  else [].

Definition notifyListeners (db : LocalDatabase) (path : string)
  : list Invocation :=
  List.flat_map (notify_entry db path) (listeners db).

Definition with_data (db : LocalDatabase) (d : gmap string Value)
  : LocalDatabase :=
  {| data := d; listeners := listeners db |}.

Definition set (db : LocalDatabase) (path : string) (value : Value)
  : LocalDatabase * list Invocation :=
  let db' := with_data db (set_keys (data db) (keys_of path) value) in
  (db', notifyListeners db' path).

(** [update]: [{ ...(get(path) || {}), ...updates }] written with [set]. *)
Definition merged (current updates : Value) : Value :=
  VObj (spread updates ∪ spread (or_else current (VObj ∅))).

Definition update (db : LocalDatabase) (path : string) (updates : Value)
  : LocalDatabase * list Invocation :=
  set db path (merged (get db path) updates).

Definition remove (db : LocalDatabase) (path : string)
  : LocalDatabase * list Invocation :=
  match remove_keys (data db) (keys_of path) with
  | Some d =>
      let db' := with_data db d in
      (db', notifyListeners db' path)
  | None => (db, [])
  end.



Definition removeListener (db : LocalDatabase) (path : string)
           (callback : Callback) : LocalDatabase :=
  {| data := data db;
     listeners :=
       List.map (fun e : string * list Callback =>
                   if String.eqb e.1 path
                   then (e.1, List.filter (fun c => negb (c =? callback)%nat) e.2)
                   else e)
                (listeners db) |}.


(** ** Reading after writing *)

Section Paths.
Implicit Types (d m : gmap string Value) (ks qs : list string) (v : Value).

Lemma default_Some v w : default v (Some w) = w.
Proof. reflexivity. Qed.

Lemma get_keys_obj m k ks :
  get_keys (VObj m) (k :: ks) = get_keys (default VUndef (m !! k)) ks.
Proof. reflexivity. Qed.

Lemma get_keys_undef ks : get_keys VUndef ks = VUndef.
Proof. by destruct ks. Qed.

Lemma get_keys_not_obj v ks :
  (∀ m, v ≠ VObj m) → ks ≠ [] → get_keys v ks = VUndef.
Proof.
  intros Hv Hks. destruct ks as [|k ks]; [done|].
  destruct v; simpl; try done.
  - by destruct b.
  - by destruct (n =? 0)%Z.
  - by destruct (String.eqb s "").
  - by destruct (Hv m).
Qed.

(** Descending into [current[key]] or into the fresh object that [set]
    puts in its place makes no difference to a read that goes deeper. *)
Lemma get_keys_child_or_fresh d k qs :
  qs ≠ [] →
  get_keys (VObj (child_or_fresh d k)) qs
  = get_keys (default VUndef (d !! k)) qs.
Proof.
  intros Hqs. unfold child_or_fresh.
  assert (get_keys (VObj ∅) qs = VUndef) as Hfresh.
  { destruct qs as [|q qs]; [done|].
    by rewrite get_keys_obj, lookup_empty, get_keys_undef. }
  destruct (d !! k) as [[| |b|n|s|m]|]; rewrite ?default_Some; try done;
    rewrite Hfresh; symmetry; by apply get_keys_not_obj.
Qed.

Lemma set_keys_cons d k k' ks v :
  set_keys d (k :: k' :: ks) v
  = <[k := VObj (set_keys (child_or_fresh d k) (k' :: ks) v)]> d.
Proof. reflexivity. Qed.

Lemma get_set_keys_app d ks qs v :
  ks ≠ [] →
  get_keys (VObj (set_keys d ks v)) (ks ++ qs) = get_keys v qs.
Proof.
  revert d. induction ks as [|k ks IH]; intros d Hks; [done|].
  destruct ks as [|k' ks].
  - simpl app. rewrite get_keys_obj. simpl set_keys.
    by rewrite lookup_insert_eq.
  - rewrite set_keys_cons. rewrite <- app_comm_cons, get_keys_obj.
    rewrite lookup_insert_eq. rewrite ?default_Some. by apply IH.
Qed.

Lemma get_set_keys_same d ks v :
  ks ≠ [] → get_keys (VObj (set_keys d ks v)) ks = v.
Proof.
  intros Hks. rewrite <- (app_nil_r ks) at 2.
  by rewrite get_set_keys_app.
Qed.

(** Frame: a write at [ks] is invisible at every path that neither
    lies below [ks] nor above it. *)
Lemma get_set_keys_frame d ks qs v :
  ¬ ks `prefix_of` qs → ¬ qs `prefix_of` ks →
  get_keys (VObj (set_keys d ks v)) qs = get_keys (VObj d) qs.
Proof.
  revert d qs. induction ks as [|k ks IH]; intros d qs Hkq Hqk.
  { destruct Hkq. apply prefix_nil. }
  destruct qs as [|q qs]; [destruct Hqk; apply prefix_nil|].
  rewrite !get_keys_obj.
  destruct (decide (k = q)) as [->|Hne].
  - assert (¬ ks `prefix_of` qs) as Hkq'
      by (intros H; apply Hkq; by apply prefix_cons).
    assert (¬ qs `prefix_of` ks) as Hqk'
      by (intros H; apply Hqk; by apply prefix_cons).
    destruct ks as [|k' ks]; [destruct Hkq'; apply prefix_nil|].
    rewrite set_keys_cons, lookup_insert_eq. rewrite ?default_Some.
    rewrite IH by done.
    apply get_keys_child_or_fresh.
    intros ->. apply Hqk', prefix_nil.
  - destruct ks as [|k' ks].
    + simpl set_keys. by rewrite lookup_insert_ne.
    + rewrite set_keys_cons. by rewrite lookup_insert_ne.
Qed.

(** When an object already sits at [ks], every node above it is an
    object too, and [set] rebuilds exactly the spine down to [ks]. *)
Lemma get_keys_app v ks qs :
  get_keys v (ks ++ qs) = get_keys (get_keys v ks) qs.
Proof.
  revert v. induction ks as [|k ks IH]; intros v; [done|].
  simpl. destruct (negb (truthy v) || negb (is_object v)).
  - by rewrite get_keys_undef.
  - apply IH.
Qed.



Lemma remove_keys_cons d k k' ks :
  remove_keys d (k :: k' :: ks)
  = let next := default VUndef (d !! k) in
    if truthy next then
      match next with
      | VObj m =>
          match remove_keys m (k' :: ks) with
          | Some m' => Some (<[k := VObj m']> d)
          | None => None
          end
      | _ => match k' :: ks with
             | [_] => Some d
             | _ => None
             end
      end
    else None.
Proof. reflexivity. Qed.








End Paths.

(** ** Subscribers and the fan-out *)











(** Store used to exhibit [update] on the empty path. *)
Definition flat_store : LocalDatabase :=
  {| data := {["score" := VNum 1]}; listeners := [] |}.






(** ** Field patches *)



(** The empty path is the one place where [update] does not patch: the
    root object is what [get] returns there, yet [update] leaves the field
    named by the patch as it was and stores the merged copy under a new
    root property called "undefined".  No reference of the game clients
    has the empty path. *)
Lemma update_on_empty_path :
  get flat_store "" = VObj {["score" := VNum 1]}
  ∧ get (update flat_store "" (VObj {["score" := VNum 2]})).1 "score" = VNum 1
  ∧ get (update flat_store "" (VObj {["score" := VNum 2]})).1 "undefined/score"
    = VNum 2.
Proof. repeat split; vm_compute; reflexivity. Qed.

(** ** Paths built from identifiers *)

(** A segment is a non-empty string without a slash: what room and player
    identifiers are. *)
Fixpoint slash_free (s : string) : bool :=
  match s with
  | EmptyString => true
  | String c rest => negb (Ascii.eqb c "/"%char) && slash_free rest
  end.

Definition segment (s : string) : Prop := s ≠ "" ∧ slash_free s = true.

Lemma split_on_nonempty sep s : split_on sep s ≠ [].
Proof.
  destruct s as [|c s]; simpl; [done|].
  destruct (Ascii.eqb c sep); [done|]. by destruct (split_on sep s).
Qed.

Lemma split_on_append sep s1 s2 :
  split_on sep (s1 +:+ String sep s2) = split_on sep s1 ++ split_on sep s2.
Proof.
  induction s1 as [|c s1 IH]; simpl.
  - by rewrite Ascii.eqb_refl.
  - destruct (Ascii.eqb c sep); [by rewrite IH|].
    rewrite IH. pose proof (split_on_nonempty sep s1).
    by destruct (split_on sep s1).
Qed.

Lemma split_on_slash_free s :
  slash_free s = true → split_on "/"%char s = [s].
Proof.
  induction s as [|c s IH]; simpl; [done|].
  intros [Hc Hs]%andb_true_iff. apply negb_true_iff in Hc.
  by rewrite Hc, IH.
Qed.

Lemma keys_of_append s1 s2 :
  keys_of (s1 +:+ "/" +:+ s2) = keys_of s1 ++ keys_of s2.
Proof.
  unfold keys_of.
  change (s1 +:+ "/" +:+ s2) with (s1 +:+ String "/"%char s2).
  by rewrite split_on_append, List.filter_app.
Qed.

Lemma keys_of_segment s : segment s → keys_of s = [s].
Proof.
  intros [Hne Hfree]. unfold keys_of. rewrite split_on_slash_free by done.
  simpl. destruct (String.eqb s "") eqn:E; [|done].
  by apply String.eqb_eq in E.
Qed.

(** Reading one property off a value is one step of [get]. *)
Lemma get_keys_prop v k : get_keys v [k] = prop v k.
Proof. by destruct v as [| |[]|n|s|m]; simpl; try destruct (_ =? _)%Z; try destruct (String.eqb _ _). Qed.

Lemma get_keys_cons_prop v k ks :
  get_keys v (k :: ks) = get_keys (prop v k) ks.
Proof.
  destruct v as [| |b|n|s|m]; simpl; rewrite ?get_keys_undef; try done.
  - destruct b; simpl; by rewrite ?get_keys_undef.
  - destruct (n =? 0)%Z; simpl; by rewrite ?get_keys_undef.
  - destruct (String.eqb s ""); simpl; by rewrite ?get_keys_undef.
Qed.

(** A read that finds something went through objects only. *)
Lemma get_keys_found v k ks :
  get_keys v (k :: ks) ≠ VUndef → ∃ m, v = VObj m.
Proof.
  intros Hfound.
  destruct v as [| |b|n|s|m]; [| | | | |by exists m];
    destruct Hfound; apply get_keys_not_obj; done.
Qed.

(** [update] keeps what lies under a field the patch does not name,
    wherever a read finds something there. *)
Lemma get_update_keep (d : gmap string Value) ks patch field rest :
  ks ≠ [] →
  spread patch !! field = None →
  get_keys (VObj d) (ks ++ field :: rest) ≠ VUndef →
  get_keys (VObj (set_keys d ks (merged (get_keys (VObj d) ks) patch)))
           (ks ++ field :: rest)
  = get_keys (VObj d) (ks ++ field :: rest).
Proof.
  intros Hks Hfield Hfound. rewrite get_set_keys_app by done.
  rewrite get_keys_app in Hfound |- *.
  destruct (get_keys_found _ _ _ Hfound) as [m ->].
  unfold merged, or_else. simpl truthy. cbv iota. simpl spread.
  rewrite !get_keys_obj. by rewrite lookup_union_r.
Qed.

(** [update] makes a field the patch names read as the patch says. *)
Lemma get_update_hit (d : gmap string Value) ks patch field v :
  ks ≠ [] →
  spread patch !! field = Some v →
  get_keys (VObj (set_keys d ks (merged (get_keys (VObj d) ks) patch)))
           (ks ++ [field])
  = v.
Proof.
  intros Hks Hfield. rewrite get_set_keys_app by done.
  unfold merged. rewrite get_keys_obj.
  by rewrite (lookup_union_Some_l _ _ _ _ Hfield).
Qed.

Lemma data_set db path value :
  data (set db path value).1 = set_keys (data db) (keys_of path) value.
Proof. reflexivity. Qed.

Lemma data_update db path patch :
  data (update db path patch).1
  = set_keys (data db) (keys_of path)
             (merged (get_keys (VObj (data db)) (keys_of path)) patch).
Proof. reflexivity. Qed.

(** ** Store commands *)

(** The two writes the game clients issue, and what they do to the store. *)
Inductive Write : Type :=
| WSet (path : string) (value : Value)
| WUpdate (path : string) (patch : Value).

Definition apply_write (db : LocalDatabase) (w : Write)
  : LocalDatabase * list Invocation :=
  match w with
  | WSet path value => set db path value
  | WUpdate path patch => update db path patch
  end.

End LocalDb.

(* ===================================================================== *)
(** * The five-in-a-row client (js/omok.js)                               *)
(* ===================================================================== *)

Module Omok.
Import Js.

(** [CONFIG.BOARD_SIZE] *)
Definition BOARD_SIZE : nat := 15.

(** [STONE_COLOR] *)
Definition BLACK : Value := VStr "black".
Definition WHITE : Value := VStr "white".
Definition EMPTY : Value := VNum 0.

(** A board is an array of rows, a row an array of cells. *)
Abbreviation Board := (list (list Value)).

(** [board[y][x]]: a [TypeError] ([None]) when there is no row [y], and
    [undefined] when the row is too short. *)
Definition cell_at (board : Board) (y x : nat) : option Value :=
  match board !! y with
  | Some row => Some (default VUndef (row !! x))
  | None => None
  end.

(** The board built by [initBoard] and at the head of the decoders. *)
Definition empty_board : Board :=
  replicate BOARD_SIZE (replicate BOARD_SIZE EMPTY).

(** ** Flat-array representation (first revision) *)

(** [flattenBoard]: the cells row after row. *)
Definition flattenBoard (board : Board) : option (list Value) :=
  rows ← mapM (λ y, mapM (λ x, cell_at board y x) (seq 0 BOARD_SIZE))
              (seq 0 BOARD_SIZE);
  Some (concat rows).

(** What the store hands back for the [board] field: an array, or some
    other value. *)
Inductive Stored : Type :=
| IsArray (flat : list Value)
| NotArray (v : Value).

(** [unflattenBoard]: cell [(x, y)] is [flat[y * BOARD_SIZE + x] || EMPTY];
    anything that is not an array gives the empty board. *)
Definition unflattenBoard (stored : Stored) : Board :=
  match stored with
  | NotArray _ => empty_board
  | IsArray flat =>
      (λ y, (λ x, or_else (default VUndef (flat !! (y * BOARD_SIZE + x))) EMPTY)
              <$> seq 0 BOARD_SIZE)
        <$> seq 0 BOARD_SIZE
  end.

(** ** Sparse-object representation (second revision) *)

(** The property name [`${x}_${y}`]. *)
Definition cell_key (x y : nat) : string := pretty x +:+ "_" +:+ pretty y.

(** One pass of the inner loop body of [encodeBoard]. *)
Definition encode_cell (sparse : gmap string Value) (x y : nat) (cell : Value)
  : gmap string Value :=
  if is_str cell "black" then <[cell_key x y := VNum 1]> sparse
  else if is_str cell "white" then <[cell_key x y := VNum 2]> sparse
  else sparse.

(** The cells in the order the two loops visit them. *)
Definition coordinates : list (nat * nat) :=
  y ← seq 0 BOARD_SIZE; x ← seq 0 BOARD_SIZE; [(x, y)].

Definition encodeBoard (board : Board) : option (gmap string Value) :=
  foldl (λ acc xy, sparse ← acc;
                   cell ← cell_at board xy.2 xy.1;
                   Some (encode_cell sparse xy.1 xy.2 cell))
        (Some ∅) coordinates.

(** [Number(s)] on the strings that occur as halves of a key: a run of
    decimal digits (the empty run reads as 0); every other string is read
    as [NaN], here [None]. *)
Definition digit_of (c : ascii) : option nat :=
  let n := nat_of_ascii c in
  if (48 <=? n) && (n <=? 57) then Some (n - 48) else None.

Fixpoint parse_digits (acc : nat) (s : string) : option nat :=
  match s with
  | EmptyString => Some acc
  | String c rest =>
      match digit_of c with
      | Some d => parse_digits (10 * acc + d) rest
      | None => None
      end
  end.

Definition Number (s : string) : option nat := parse_digits 0 s.

(** [row[x] = v] on an array: in range it replaces, beyond the end it
    extends the array (the skipped slots read as [undefined]). *)
Definition array_set (row : list Value) (x : nat) (v : Value) : list Value :=
  if decide (x < length row) then <[x := v]> row
  else row ++ replicate (x - length row) VUndef ++ [v].

(** One pass of the loop body of [decodeBoard].  [None] is the [TypeError]
    raised by [board[y][x] = ...] when [board[y]] is [undefined]; an [x]
    that is not a number sets a property that is no cell. *)
Definition decode_entry (board : Board) (entry : string * Value) : option Board :=
  let parts := Number <$> split_on "_"%char entry.1 in
  let x := parts !! 0 in
  let y := parts !! 1 in
  let put (stone : Value) : option Board :=
    match y with
    | Some (Some yn) =>
        match board !! yn with
        | Some row =>
            match x with
            | Some (Some xn) => Some (<[yn := array_set row xn stone]> board)
            | _ => Some board
            end
        | None => None
        end
    | _ => None
    end in
  if is_num entry.2 1 then put BLACK
  else if is_num entry.2 2 then put WHITE
  else Some board.

(** The [for ... in] loop over an enumeration of the own properties. *)
Definition decode_entries (entries : list (string * Value)) : option Board :=
  foldl (λ acc entry, board ← acc; decode_entry board entry)
        (Some empty_board) entries.

(** [decodeBoard]: only a truthy object is walked. *)
Definition decodeBoard (sparse : Value) : option Board :=
  match sparse with
  | VObj m => decode_entries (map_to_list m)
  | _ => Some empty_board
  end.

(** ** Round trips *)

(** The boards of the game: 15 rows of 15 cells, each cell 0, 'black' or
    'white'. *)
Definition stone (cell : Value) : Prop :=
  cell = EMPTY ∨ cell = BLACK ∨ cell = WHITE.

Definition rectangular (board : Board) : Prop :=
  length board = BOARD_SIZE ∧ Forall (λ row, length row = BOARD_SIZE) board.

Definition well_formed (board : Board) : Prop :=
  rectangular board ∧ Forall (Forall stone) board.

Section Grid.
Implicit Types (board : Board) (row : list Value) (x y : nat).

Lemma rectangular_row board y :
  rectangular board → y < BOARD_SIZE →
  ∃ row, board !! y = Some row ∧ length row = BOARD_SIZE.
Proof.
  intros [Hlen Hrows] Hy.
  destruct (lookup_lt_is_Some_2 board y) as [row Hrow]; [lia|].
  exists row. split; [done|].
  by apply (Forall_lookup_1 _ _ _ _ Hrows Hrow).
Qed.

Lemma rectangular_cell board y x :
  rectangular board → y < BOARD_SIZE → x < BOARD_SIZE →
  ∃ row cell, board !! y = Some row ∧ row !! x = Some cell
              ∧ cell_at board y x = Some cell.
Proof.
  intros Hrect Hy Hx.
  destruct (rectangular_row board y Hrect Hy) as (row & Hrow & Hlen).
  destruct (lookup_lt_is_Some_2 row x) as [cell Hcell]; [lia|].
  exists row, cell. unfold cell_at. by rewrite Hrow, Hcell.
Qed.

Lemma well_formed_stone board y x cell :
  well_formed board → cell_at board y x = Some cell →
  x < BOARD_SIZE → y < BOARD_SIZE → stone cell.
Proof.
  intros [Hrect Hst] Hcell Hx Hy.
  destruct (rectangular_cell board y x Hrect Hy Hx) as (row & c & Hrow & Hc & Hat).
  rewrite Hat in Hcell. injection Hcell as <-.
  eapply Forall_lookup_1; [|exact Hc].
  eapply Forall_lookup_1; [exact Hst|exact Hrow].
Qed.

(** Two rectangular boards with the same cells are the same board. *)
Lemma board_ext board board' :
  rectangular board → rectangular board' →
  (∀ y x, y < BOARD_SIZE → x < BOARD_SIZE →
          cell_at board y x = cell_at board' y x) →
  board = board'.
Proof.
  intros Hr Hr' Hcells. apply list_eq_same_length with BOARD_SIZE;
    [apply Hr'|apply Hr|].
  intros y row row' Hy Hrow Hrow'.
  destruct (rectangular_row _ _ Hr Hy) as (r & Hr1 & Hl).
  destruct (rectangular_row _ _ Hr' Hy) as (r' & Hr1' & Hl').
  simplify_eq.
  apply list_eq_same_length with BOARD_SIZE; [done|done|].
  intros x c c' Hx Hc Hc'.
  specialize (Hcells y x Hy Hx). unfold cell_at in Hcells.
  rewrite Hrow, Hrow', Hc, Hc' in Hcells. by simplify_eq.
Qed.

(** Rebuilding a rectangular board cell by cell gives the board back. *)
Lemma rebuild_board board (f : nat → nat → Value) :
  rectangular board →
  (∀ y x, y < BOARD_SIZE → x < BOARD_SIZE → cell_at board y x = Some (f y x)) →
  (λ y, (λ x, f y x) <$> seq 0 BOARD_SIZE) <$> seq 0 BOARD_SIZE = board.
Proof.
  intros Hrect Hf. symmetry. apply board_ext; [done| |].
  - split; [by rewrite length_fmap, length_seq|].
    apply Forall_forall. intros row [y [-> _]]%list_elem_of_fmap.
    by rewrite length_fmap, length_seq.
  - intros y x Hy Hx. rewrite Hf by done. unfold cell_at.
    rewrite list_lookup_fmap, lookup_seq_lt by done.
    cbn [fmap option_fmap option_map].
    by rewrite list_lookup_fmap, lookup_seq_lt by done.
Qed.

Lemma flattenBoard_rectangular board :
  rectangular board → flattenBoard board = Some (concat board).
Proof.
  intros Hrect. unfold flattenBoard.
  assert (mapM (λ y, mapM (λ x, cell_at board y x) (seq 0 BOARD_SIZE))
               (seq 0 BOARD_SIZE) = Some board) as ->; [|done].
  apply mapM_Some, Forall2_same_length_lookup_2.
  { rewrite length_seq. symmetry. apply Hrect. }
  intros i y row [-> Hy]%lookup_seq Hrow. cbv beta.
  destruct (rectangular_row _ _ Hrect Hy) as (row' & Hrow' & Hlen).
  simplify_eq.
  apply mapM_Some, Forall2_same_length_lookup_2.
  { by rewrite length_seq. }
  intros j x cell [-> Hx]%lookup_seq Hcell. cbv beta.
  unfold cell_at. cbn [Nat.add]. by rewrite Hrow, Hcell.
Qed.

Lemma lookup_concat_rows (rows : list (list Value)) (w y x : nat) :
  Forall (λ row, length row = w) rows → x < w →
  concat rows !! (y * w + x) = rows !! y ≫= (.!! x).
Proof.
  revert y. induction rows as [|row rows IH]; intros y Hw Hx.
  { by rewrite !lookup_nil. }
  apply Forall_cons in Hw as [Hrow Hrows]. simpl concat.
  destruct y as [|y]; simpl.
  - apply lookup_app_l. lia.
  - rewrite lookup_app_r by lia.
    replace (w + y * w + x - length row) with (y * w + x) by lia.
    by apply IH.
Qed.

Lemma or_else_stone cell : stone cell → or_else cell EMPTY = cell.
Proof. by intros [->|[->| ->]]. Qed.

Lemma unflatten_flatten board :
  well_formed board →
  ∃ flat, flattenBoard board = Some flat ∧ unflattenBoard (IsArray flat) = board.
Proof.
  intros Hwf. pose proof Hwf as [Hrect _].
  exists (concat board). split; [by apply flattenBoard_rectangular|].
  unfold unflattenBoard. apply rebuild_board; [done|].
  intros y x Hy Hx.
  destruct (rectangular_cell _ _ _ Hrect Hy Hx) as (row & cell & Hrow & Hcell & Hat).
  rewrite (lookup_concat_rows _ BOARD_SIZE) by (done || apply Hrect).
  rewrite Hrow. simpl. rewrite Hcell. simpl.
  rewrite or_else_stone; [done|].
  by eapply well_formed_stone.
Qed.

(** *** Keys *)

Lemma coordinates_spec x y :
  (x, y) ∈ coordinates ↔ x < BOARD_SIZE ∧ y < BOARD_SIZE.
Proof.
  unfold coordinates. rewrite list_elem_of_bind. split.
  - intros (y' & Hin & Hy'). apply list_elem_of_bind in Hin as (x' & Hin & Hx').
    apply list_elem_of_singleton in Hin. simplify_eq.
    apply elem_of_seq in Hx', Hy'. lia.
  - intros [Hx Hy]. exists y. split; [|apply elem_of_seq; lia].
    apply list_elem_of_bind. exists x. split; [|apply elem_of_seq; lia].
    by apply list_elem_of_singleton.
Qed.

Lemma coordinates_NoDup : NoDup coordinates.
Proof. apply (bool_decide_unpack _). by vm_compute. Qed.

(** Splitting a key at the underscore and reading the halves as numbers
    gives the coordinates back (checked on the 225 keys of the grid). *)
Lemma cell_key_parse x y :
  x < BOARD_SIZE → y < BOARD_SIZE →
  Number <$> split_on "_"%char (cell_key x y) = [Some x; Some y].
Proof.
  intros Hx Hy.
  assert (forallb (λ xy : nat * nat,
                     bool_decide (Number <$> split_on "_"%char (cell_key xy.1 xy.2)
                                  = [Some xy.1; Some xy.2]))
                  coordinates = true) as Hall by (by vm_compute).
  rewrite forallb_forall in Hall.
  specialize (Hall (x, y)). cbn [fst snd] in Hall.
  apply bool_decide_eq_true_1 in Hall; [done|].
  by apply list_elem_of_In, coordinates_spec.
Qed.

Lemma cell_key_inj x y x' y' :
  x < BOARD_SIZE → y < BOARD_SIZE → x' < BOARD_SIZE → y' < BOARD_SIZE →
  cell_key x y = cell_key x' y' → x = x' ∧ y = y'.
Proof.
  intros Hx Hy Hx' Hy' Heq.
  pose proof (cell_key_parse x y Hx Hy) as H1.
  pose proof (cell_key_parse x' y' Hx' Hy') as H2.
  rewrite Heq, H2 in H1. by simplify_eq.
Qed.

(** *** Encoding *)

(** The number stored for a cell, if any. *)
Definition code (cell : Value) : option Value :=
  if is_str cell "black" then Some (VNum 1)
  else if is_str cell "white" then Some (VNum 2)
  else None.

Lemma encode_cell_code (sparse : gmap string Value) x y cell :
  encode_cell sparse x y cell
  = match code cell with
    | Some v => <[cell_key x y := v]> sparse
    | None => sparse
    end.
Proof.
  unfold encode_cell, code.
  by destruct (is_str cell "black"), (is_str cell "white").
Qed.

(** What the sparse object holds once the loops have visited the cells
    [cs]: the code of every visited cell under the cell's key and nothing
    else. *)
Definition encodes (board : Board) (cs : list (nat * nat))
           (sparse : gmap string Value) : Prop :=
  (∀ x y, x < BOARD_SIZE → y < BOARD_SIZE →
          sparse !! cell_key x y
          = if bool_decide ((x, y) ∈ cs) then cell_at board y x ≫= code else None)
  ∧ (∀ k v, sparse !! k = Some v →
            ∃ x y, x < BOARD_SIZE ∧ y < BOARD_SIZE ∧ k = cell_key x y).

Lemma encode_fold board cs :
  rectangular board →
  Forall (λ xy, xy.1 < BOARD_SIZE ∧ xy.2 < BOARD_SIZE) cs →
  NoDup cs →
  ∃ sparse,
    foldl (λ acc xy, sparse ← acc;
                     cell ← cell_at board xy.2 xy.1;
                     Some (encode_cell sparse xy.1 xy.2 cell))
          (Some ∅) cs = Some sparse
    ∧ encodes board cs sparse.
Proof.
  intros Hrect. induction cs as [|[x0 y0] cs IH] using rev_ind; intros Hrange Hnd.
  { exists ∅. split; [done|]. split.
    - intros x y _ _. by rewrite lookup_empty.
    - intros k v. by rewrite lookup_empty. }
  apply Forall_app in Hrange as [Hrange [[Hx0 Hy0] _]%Forall_cons].
  apply NoDup_app in Hnd as (Hnd & Hfresh & _).
  destruct (IH Hrange Hnd) as (sparse & Hfold & Hcells & Hkeys).
  rewrite foldl_snoc, Hfold. simpl in Hx0, Hy0 |- *.
  destruct (rectangular_cell _ _ _ Hrect Hy0 Hx0) as (row & cell & _ & _ & Hat).
  rewrite Hat. simpl. eexists. split; [done|].
  rewrite encode_cell_code. split.
  - intros x y Hx Hy.
    destruct (decide ((x, y) = (x0, y0))) as [Heq|Hne].
    + simplify_eq.
      rewrite bool_decide_eq_true_2
        by (apply elem_of_app; right; apply list_elem_of_here).
      rewrite Hat. simpl. destruct (code cell) eqn:Hcode.
      * by rewrite lookup_insert_eq.
      * rewrite Hcells by done. rewrite bool_decide_eq_false_2; [done|].
        intros Hin. apply (Hfresh (x0, y0)); [done|apply list_elem_of_here].
    + assert (sparse !! cell_key x y
              = match code cell with
                | Some v => <[cell_key x0 y0 := v]> sparse
                | None => sparse
                end !! cell_key x y) as <-.
      { destruct (code cell); [|done]. rewrite lookup_insert_ne; [done|].
        intros Hk. apply cell_key_inj in Hk as [-> ->]; done. }
      rewrite Hcells by done.
      destruct (decide ((x, y) ∈ cs)) as [Hin|Hout].
      * rewrite !bool_decide_eq_true_2; [done| |done].
        apply elem_of_app. by left.
      * rewrite !bool_decide_eq_false_2; [done| |done].
        intros [?|Hlast%list_elem_of_singleton]%elem_of_app; done.
  - intros k v Hk. destruct (code cell); [|by eapply Hkeys].
    destruct (decide (k = cell_key x0 y0)) as [->|Hne]; [by exists x0, y0|].
    rewrite lookup_insert_ne in Hk by done. by eapply Hkeys.
Qed.

Lemma encodeBoard_encodes board :
  rectangular board →
  ∃ sparse, encodeBoard board = Some sparse ∧ encodes board coordinates sparse.
Proof.
  intros Hrect. apply encode_fold; [done| |apply coordinates_NoDup].
  apply Forall_forall. intros [x y]. apply coordinates_spec.
Qed.

(** *** Decoding *)

(** The stone written for a stored number that is 1 or 2. *)
Definition stone_of (v : Value) : Value := if is_num v 1 then BLACK else WHITE.

Lemma decode_entry_cell board x y v :
  rectangular board → x < BOARD_SIZE → y < BOARD_SIZE →
  v = VNum 1 ∨ v = VNum 2 →
  ∃ board',
    decode_entry board (cell_key x y, v) = Some board'
    ∧ rectangular board'
    ∧ ∀ y' x', y' < BOARD_SIZE → x' < BOARD_SIZE →
               cell_at board' y' x'
               = if decide ((x', y') = (x, y)) then Some (stone_of v)
                 else cell_at board y' x'.
Proof.
  intros Hrect Hx Hy Hv.
  destruct (rectangular_row _ _ Hrect Hy) as (row & Hrow & Hlen).
  exists (<[y := <[x := stone_of v]> row]> board).
  split; [|split].
  - unfold decode_entry. cbn [fst snd]. rewrite cell_key_parse by done.
    cbn [lookup list_lookup]. rewrite Hrow.
    unfold array_set. rewrite !decide_True by lia.
    by destruct Hv as [-> | ->].
  - destruct Hrect as [Hl Hrows]. split; [by rewrite length_insert|].
    apply Forall_insert; [done|]. by rewrite length_insert.
  - intros y' x' Hy' Hx'. unfold cell_at.
    destruct (decide (y' = y)) as [->|Hne].
    + rewrite list_lookup_insert_eq by (destruct Hrect; lia).
      destruct (decide (x' = x)) as [->|Hnx].
      * rewrite decide_True by done.
        by rewrite list_lookup_insert_eq by lia.
      * rewrite decide_False by congruence.
        by rewrite list_lookup_insert_ne, Hrow by done.
    + rewrite decide_False by congruence.
      by rewrite list_lookup_insert_ne by done.
Qed.

Lemma decode_fold entries :
  ∀ board,
    rectangular board →
    NoDup entries.*1 →
    (∀ k v, (k, v) ∈ entries →
            ∃ x y, x < BOARD_SIZE ∧ y < BOARD_SIZE ∧ k = cell_key x y
                   ∧ (v = VNum 1 ∨ v = VNum 2)) →
    ∃ board',
      foldl (λ acc entry, b ← acc; decode_entry b entry) (Some board) entries
      = Some board'
      ∧ rectangular board'
      ∧ ∀ x y, x < BOARD_SIZE → y < BOARD_SIZE →
               (∀ v, (cell_key x y, v) ∈ entries →
                     cell_at board' y x = Some (stone_of v))
               ∧ ((∀ v, (cell_key x y, v) ∉ entries) →
                  cell_at board' y x = cell_at board y x).
Proof.
  induction entries as [|[k0 v0] entries IH]; intros board Hrect Hnd Hshape.
  { exists board. split; [done|]. split; [done|].
    intros x y _ _. split; [|done].
    intros v Hin. by apply elem_of_nil in Hin. }
  apply NoDup_cons in Hnd as [Hfresh Hnd].
  destruct (Hshape k0 v0) as (x0 & y0 & Hx0 & Hy0 & -> & Hv0);
    [apply list_elem_of_here|].
  destruct (decode_entry_cell board x0 y0 v0 Hrect Hx0 Hy0 Hv0)
    as (board1 & Hstep & Hrect1 & Hcells1).
  destruct (IH board1 Hrect1 Hnd) as (board' & Hfold & Hrect' & Hcells').
  { intros k v Hin. apply Hshape. by apply list_elem_of_further. }
  exists board'. cbn [foldl]. simpl mbind at 2. rewrite Hstep.
  split; [done|]. split; [done|].
  intros x y Hx Hy. destruct (Hcells' x y Hx Hy) as [Hset Hkeep].
  assert (∀ v, (cell_key x0 y0, v) ∉ entries) as Hnot0.
  { intros v Hin. apply Hfresh. apply list_elem_of_fmap. by exists (cell_key x0 y0, v). }
  split.
  - intros v [Heq|Hin]%elem_of_cons; [|by apply Hset].
    injection Heq as Hk ->. apply cell_key_inj in Hk as [-> ->]; try done.
    rewrite Hkeep by done. rewrite Hcells1 by done. by rewrite decide_True.
  - intros Hnot. rewrite Hkeep.
    + rewrite Hcells1 by done. rewrite decide_False; [done|].
      intros Heq. simplify_eq. apply (Hnot v0), list_elem_of_here.
    + intros v Hin. apply (Hnot v). by apply list_elem_of_further.
Qed.

Lemma empty_board_rectangular : rectangular empty_board.
Proof.
  split; [apply length_replicate|].
  apply Forall_replicate, length_replicate.
Qed.

Lemma empty_board_cell y x :
  y < BOARD_SIZE → x < BOARD_SIZE → cell_at empty_board y x = Some EMPTY.
Proof.
  intros Hy Hx. unfold cell_at, empty_board.
  rewrite lookup_replicate_2 by done. by rewrite lookup_replicate_2 by done.
Qed.

(** Decoding an enumeration, in any order, of what the encoder stored. *)
Lemma decode_entries_encoded board sparse entries :
  well_formed board →
  encodes board coordinates sparse →
  entries ≡ₚ map_to_list sparse →
  decode_entries entries = Some board.
Proof.
  intros Hwf [Hcells Hkeys] Hperm. pose proof Hwf as [Hrect _].
  assert (∀ x y, x < BOARD_SIZE → y < BOARD_SIZE →
                 sparse !! cell_key x y = cell_at board y x ≫= code) as Hcode.
  { intros x y Hx Hy. rewrite Hcells by done.
    rewrite bool_decide_eq_true_2; [done|]. by apply coordinates_spec. }
  assert (∀ k v, (k, v) ∈ entries ↔ sparse !! k = Some v) as Hin.
  { intros k v. rewrite Hperm. apply elem_of_map_to_list. }
  destruct (decode_fold entries empty_board) as (board' & Hfold & Hrect' & Hdec).
  - apply empty_board_rectangular.
  - rewrite Hperm. apply NoDup_fst_map_to_list.
  - intros k v Hkv%Hin.
    destruct (Hkeys k v Hkv) as (x & y & Hx & Hy & ->).
    exists x, y. repeat split; try done.
    rewrite Hcode in Hkv by done.
    destruct (cell_at board y x) as [cell|]; [|done]. simpl in Hkv.
    unfold code in Hkv.
    destruct (is_str cell "black"); [left; congruence|].
    destruct (is_str cell "white"); [right; congruence|done].
  - unfold decode_entries. rewrite Hfold. f_equal.
    apply board_ext; [done|done|].
    intros y x Hy Hx. destruct (Hdec x y Hx Hy) as [Hset Hkeep].
    destruct (rectangular_cell _ _ _ Hrect Hy Hx) as (row & cell & _ & _ & Hat).
    pose proof (Hcode x y Hx Hy) as Hk. rewrite Hat in Hk |- *. simpl in Hk.
    destruct (well_formed_stone _ _ _ _ Hwf Hat Hx Hy) as [->|[->| ->]].
    + rewrite Hkeep; [by apply empty_board_cell|].
      intros v Hv%Hin. rewrite Hk in Hv. discriminate Hv.
    + by rewrite (Hset (VNum 1)) by (by apply Hin).
    + by rewrite (Hset (VNum 2)) by (by apply Hin).
Qed.

End Grid.

(** A board with a few stones on it. *)
Definition opening : Board :=
  <[7 := <[7 := BLACK]> (<[8 := WHITE]> (replicate BOARD_SIZE EMPTY))]>
    (<[14 := <[0 := WHITE]> (replicate BOARD_SIZE EMPTY)]> empty_board).

Lemma opening_well_formed : well_formed opening.
Proof.
  split; [split|]; [reflexivity| |].
  - vm_compute. repeat (apply Forall_cons_2; [reflexivity|]). apply Forall_nil_2.
  - unfold stone. vm_compute.
    repeat (apply Forall_cons_2;
            [repeat (apply Forall_cons_2; [by (left + (right; left) + (right; right))|]);
             apply Forall_nil_2|]).
    apply Forall_nil_2.
Defined.

(** C2.  For a board of 15 rows of 15 cells, each 0, 'black' or 'white':
    [flattenBoard] succeeds and [unflattenBoard] maps its result back to the
    board; [encodeBoard] succeeds and [decodeBoard] maps its result back to
    the board, in whatever order the properties of the sparse object are
    enumerated. *)
Theorem board_round_trip (board : Board) :
  well_formed board →
  (∃ flat, flattenBoard board = Some flat
           ∧ unflattenBoard (IsArray flat) = board)
  ∧ (∃ sparse, encodeBoard board = Some sparse
               ∧ decodeBoard (VObj sparse) = Some board
               ∧ ∀ entries, entries ≡ₚ map_to_list sparse →
                            decode_entries entries = Some board).
Proof.
  intros Hwf. split; [by apply unflatten_flatten|].
  destruct (encodeBoard_encodes board) as (sparse & Henc & Hspec); [apply Hwf|].
  exists sparse. split; [done|]. split.
  - by apply (decode_entries_encoded board sparse).
  - intros entries Hperm. by apply (decode_entries_encoded board sparse).
Qed.

Lemma board_round_trip_witness :
  well_formed opening
  ∧ (∃ flat, flattenBoard opening = Some flat
             ∧ unflattenBoard (IsArray flat) = opening)
  ∧ (∃ sparse, encodeBoard opening = Some sparse
               ∧ decodeBoard (VObj sparse) = Some opening
               ∧ ∀ entries, entries ≡ₚ map_to_list sparse →
                            decode_entries entries = Some opening).
Proof.
  split; [exact opening_well_formed|].
  exact (board_round_trip opening opening_well_formed).
Defined.

(** ** Start-up and synchronisation *)

(** [localStorage]. *)
Abbreviation LocalStorage := (gmap string string).

(** The client state [gameState] together with the module-level flags. *)
Record GameState : Type := {
  roomId : option string;
  playerId : string;
  playerName : string;
  isHost : bool;
  myColor : Value;
  opponentId : Value;
  board : Board;
  currentTurn : Value;
  gameOver : bool;
  winner : Value;
  isInitializing : bool
}.

Definition initial_state : GameState :=
  {| roomId := None; playerId := ""; playerName := ""; isHost := false;
     myColor := VNull; opponentId := VNull; board := [];
     currentTurn := VStr "black"; gameOver := false; winner := VNull;
     isInitializing := false |}.

Inductive Notice : Type :=
| NoRoomInfo | NoPlayerInfo | ConnectionFailed | RoomMissing | InitFailed
| Restarted | HostOnly.

Inductive Listener : Type := RoomListener | GameListener.

(** What a handler does to the outside world, in order. *)
Inductive Effect : Type :=
| ShowNotification (notice : Notice)
| NavigateLater (page : string)
| OnValue (path : string) (listener : Listener)
| Off (path : string)
| StoreSet (path : string) (value : Value)
| StoreUpdate (path : string) (patch : Value)
| SetupEventListeners
| DrawBoard
| StartTimer.

(** What [init] reads from its surroundings: the [room] URL parameter, the
    identifier [Storage.generateId] would produce, and whether
    [getDatabase] resolves. *)
Record Page : Type := {
  room_param : option string;
  generated_suffix : string;
  database_resolves : bool
}.

(** [Storage.getPlayerId] *)
Definition getPlayerId (page : Page) (ls : LocalStorage) : string * LocalStorage :=
  match ls !! "playerId" with
  | Some pid =>
      if String.eqb pid "" then
        let fresh := "player_" +:+ generated_suffix page in
        (fresh, <["playerId" := fresh]> ls)
      else (pid, ls)
  | None =>
      let fresh := "player_" +:+ generated_suffix page in
      (fresh, <["playerId" := fresh]> ls)
  end.

(** [Storage.getPlayerName] *)
Definition getPlayerName (ls : LocalStorage) : string :=
  default "" (ls !! "playerName").

Definition room_path (room : string) : string := "rooms/omok/" +:+ room.
Definition game_path (room : string) : string := "rooms/omok/" +:+ room +:+ "/game".

(** The three [localStorage.setItem] calls. *)
Definition mark_in_progress (room : string) (ls : LocalStorage) : LocalStorage :=
  <["current_game_id" := "omok"]>
    (<["current_room_id" := room]> (<["game_in_progress" := "true"]> ls)).

(** The subscriptions made on the way: the first revision subscribes to the
    game node only, the second ([setupFirebaseSync]) to the room and to the
    game node. *)
Inductive Revision : Type := FlatArrays | SparseObjects.

Definition subscriptions (rev : Revision) (room : string) : list Effect :=
  match rev with
  | FlatArrays => [OnValue (game_path room) GameListener]
  | SparseObjects => [OnValue (room_path room) RoomListener;
                      OnValue (game_path room) GameListener]
  end.

(** [init] *)
Definition init (rev : Revision) (page : Page) (ls : LocalStorage)
  : GameState * LocalStorage * list Effect :=
  match room_param page with
  | None => (initial_state, ls, [ShowNotification NoRoomInfo; NavigateLater "lobby.html"])
  | Some room =>
      if String.eqb room "" then
        (initial_state, ls, [ShowNotification NoRoomInfo; NavigateLater "lobby.html"])
      else
        let '(pid, ls1) := getPlayerId page ls in
        let name := getPlayerName ls1 in
        let st := {| roomId := Some room; playerId := pid; playerName := name;
                     isHost := false; myColor := VNull; opponentId := VNull;
                     board := []; currentTurn := VStr "black"; gameOver := false;
                     winner := VNull; isInitializing := false |} in
        if String.eqb pid "" || String.eqb name "" then
          (st, ls1, [ShowNotification NoPlayerInfo; NavigateLater "index.html"])
        else
          let ready := {| roomId := Some room; playerId := pid; playerName := name;
                          isHost := false; myColor := VNull; opponentId := VNull;
                          board := empty_board; currentTurn := VStr "black";
                          gameOver := false; winner := VNull;
                          isInitializing := false |} in
          if database_resolves page then
            (ready, mark_in_progress room ls1,
             subscriptions rev room ++ [SetupEventListeners; DrawBoard; StartTimer])
          else
            (ready, ls1,
             [ShowNotification ConnectionFailed; SetupEventListeners; DrawBoard; StartTimer])
  end.

(** The patch that gives the round to the opponent. *)
Definition forfeit_patch (st : GameState) : Value :=
  VObj (list_to_map [("gameOver", VBool true); ("winner", opponentId st)]).

(** [handleBeforeUnload]: forfeit a round that is still running when the
    opponent is known, clear the three entries, detach the listeners; the
    second revision also detaches the room listener and resets its
    initialisation flag.  [connected] tells whether [init] got as far as
    setting [db] and the references. *)
Definition handleBeforeUnload (rev : Revision) (connected : bool)
           (st : GameState) (ls : LocalStorage)
  : GameState * LocalStorage * list Effect :=
  let room := default "" (roomId st) in
  let forfeit :=
    if negb (gameOver st) && connected && truthy (opponentId st)
    then [StoreUpdate (game_path room) (forfeit_patch st)]
    else [] in
  let detach :=
    if connected then
      match rev with
      | FlatArrays => [Off (game_path room)]
      | SparseObjects => [Off (room_path room); Off (game_path room)]
      end
    else [] in
  (match rev with
   | FlatArrays => st
   | SparseObjects =>
       {| roomId := roomId st; playerId := playerId st;
          playerName := playerName st; isHost := isHost st;
          myColor := myColor st; opponentId := opponentId st;
          board := board st; currentTurn := currentTurn st;
          gameOver := gameOver st; winner := winner st;
          isInitializing := false |}
   end,
   delete "current_game_id" (delete "current_room_id" (delete "game_in_progress" ls)),
   forfeit ++ detach).

(** [Object.keys(v)]: the names of the own enumerable properties. *)
Definition object_keys (v : Value) : list string := (map_to_list (spread v)).*1.

(** The snapshot written by [initializeGame]. *)
Definition fresh_game (first second : string) (name1 name2 : Value) (now : Z)
  : Value :=
  let player (pid : string) (name : Value) (fallback colour : string) :=
    VObj (list_to_map [("id", VStr pid);
                       ("name", VStr (to_string (or_else name (VStr fallback))));
                       ("color", VStr colour)]) in
  VObj (list_to_map
          [("players", VObj (<[second := player second name2 "Player 2" "white"]>
                               {[first := player first name1 "Player 1" "black"]}));
           ("board", VObj ∅);
           ("currentTurn", VStr "black");
           ("turnStartTime", VNum now);
           ("gameOver", VBool false);
           ("winner", VNull);
           ("startTime", VNum now);
           ("lastMove", VNull)]).

(** [initializeGame] (second revision) past its re-entrancy check, with
    the room value that [get(roomRef)] resolves to, the outcome of the
    random comparator ([swap]: the two ids come out in the other order) and
    the clock.  It ends with the flag [isInitializing] cleared again, so
    only its store effects are returned. *)
Definition initializeGame (st : GameState) (fetched : Value) (swap : bool)
           (now : Z) : list Effect :=
  match roomId st with
  | None => []
  | Some room =>
      if String.eqb room "" then []
      else if negb (truthy fetched) then []
      else
        let members := prop fetched "players" in
        if negb (truthy members) then []
        else
          match object_keys members with
          | [a; b] =>
              let first := if swap then b else a in
              let second := if swap then a else b in
              let player1 := prop members first in
              let player2 := prop members second in
              if negb (truthy player1) || negb (truthy player2) then []
              else [StoreSet (game_path room)
                             (fresh_game first second
                                         (prop player1 "name") (prop player2 "name") now)]
          | _ => []
          end
  end.

Definition with_host (st : GameState) (host : bool) : GameState :=
  {| roomId := roomId st; playerId := playerId st; playerName := playerName st;
     isHost := host; myColor := myColor st; opponentId := opponentId st;
     board := board st; currentTurn := currentTurn st; gameOver := gameOver st;
     winner := winner st; isInitializing := isInitializing st |}.

(** The room listener installed by [setupFirebaseSync] (second revision). *)
Definition on_room_snapshot (st : GameState) (roomData fetched : Value)
           (swap : bool) (now : Z) : GameState * list Effect :=
  if negb (truthy roomData) then
    (st, [ShowNotification RoomMissing; NavigateLater "lobby.html"])
  else
    let st' := with_host st (is_str (prop roomData "hostId") (playerId st)) in
    if isHost st' && negb (truthy (prop roomData "game")) && negb (isInitializing st)
    then (st', initializeGame st' fetched swap now)
    else (st', []).

(** The click handler of the restart button (second revision).  Only the
    host goes on: the local board and result are cleared and
    [initializeGame] is called, which returns at once when an initialisation
    is already under way; the game node is not looked at.  [connected] tells
    whether [db] and [gameRef] are set. *)
Definition on_restart_click (st : GameState) (connected : bool)
           (fetched : Value) (swap : bool) (now : Z) : GameState * list Effect :=
  if isHost st && connected then
    let st' := {| roomId := roomId st; playerId := playerId st;
                  playerName := playerName st; isHost := isHost st;
                  myColor := myColor st; opponentId := opponentId st;
                  board := empty_board; currentTurn := currentTurn st;
                  gameOver := false; winner := VNull;
                  isInitializing := isInitializing st |} in
    (st',
     (if isInitializing st then [] else initializeGame st' fetched swap now)
       ++ [ShowNotification Restarted])
  else if negb (isHost st) then (st, [ShowNotification HostOnly])
  else (st, []).

(** The only store write of the room listener is the initial snapshot, and
    it is guarded by host identity and by the absence of the game node. *)
Lemma on_room_snapshot_guard st roomData fetched swap now path value :
  In (StoreSet path value) (on_room_snapshot st roomData fetched swap now).2 →
  is_str (prop roomData "hostId") (playerId st) = true
  ∧ truthy (prop roomData "game") = false
  ∧ isInitializing st = false.
Proof.
  unfold on_room_snapshot.
  destruct (truthy roomData); simpl.
  2: { intros [|[|[]]]; done. }
  destruct (is_str (prop roomData "hostId") (playerId st)); simpl; [|done].
  destruct (truthy (prop roomData "game")); simpl; [done|].
  destruct (isInitializing st); simpl; done.
Qed.

(** [Storage.getPlayerId] only looks at the "playerId" entry. *)
Lemma getPlayerId_flag page (ls : LocalStorage) flag :
  getPlayerId page (<["game_in_progress" := flag]> ls)
  = ((getPlayerId page ls).1,
     <["game_in_progress" := flag]> (getPlayerId page ls).2).
Proof.
  unfold getPlayerId. rewrite lookup_insert_ne by done.
  destruct (ls !! "playerId") as [pid|]; [destruct (String.eqb pid "")|];
    simpl; f_equal; by apply insert_insert_ne.
Qed.

Lemma getPlayerId_no_flag page (ls : LocalStorage) :
  getPlayerId page (delete "game_in_progress" ls)
  = ((getPlayerId page ls).1,
     delete "game_in_progress" (getPlayerId page ls).2).
Proof.
  unfold getPlayerId. rewrite lookup_delete_ne by done.
  destruct (ls !! "playerId") as [pid|]; [destruct (String.eqb pid "")|];
    simpl; f_equal; by rewrite delete_insert_ne.
Qed.

Definition is_store_write (e : Effect) : bool :=
  match e with
  | StoreSet _ _ | StoreUpdate _ _ => true
  | _ => false
  end.

(** A page reloaded in the middle of a round, had the entries survived the
    unload: the flag is still set. *)
Definition reloaded_page : Page :=
  {| room_param := Some "r1"; generated_suffix := "1700000000000_abc";
     database_resolves := true |}.

Definition reloaded_storage : LocalStorage :=
  {[ "playerId" := "player_1_x"; "playerName" := "kim";
     "game_in_progress" := "true"; "current_room_id" := "r1";
     "current_game_id" := "omok" ]}.

Ltac no_store_writes :=
  repeat (apply Forall_cons_2; [reflexivity|]); apply Forall_nil_2.

(** Start-up with the entry set and start-up with the entry absent. *)
Lemma init_flag_blind rev page (ls : LocalStorage) flag :
  (init rev page (<["game_in_progress" := flag]> ls)).1.1
  = (init rev page (delete "game_in_progress" ls)).1.1
  ∧ (init rev page (<["game_in_progress" := flag]> ls)).2
    = (init rev page (delete "game_in_progress" ls)).2
  ∧ (∀ key, key ≠ "game_in_progress" →
       (init rev page (<["game_in_progress" := flag]> ls)).1.2 !! key
       = (init rev page (delete "game_in_progress" ls)).1.2 !! key).
Proof.
  assert (∀ key (m : LocalStorage), key ≠ "game_in_progress" →
            <["game_in_progress" := flag]> m !! key
            = delete "game_in_progress" m !! key) as Hkey.
  { intros key m Hne. by rewrite lookup_insert_ne, lookup_delete_ne. }
  assert (getPlayerName (<["game_in_progress" := flag]> (getPlayerId page ls).2)
          = getPlayerName (getPlayerId page ls).2) as Hname.
  { unfold getPlayerName. by rewrite lookup_insert_ne. }
  assert (getPlayerName (delete "game_in_progress" (getPlayerId page ls).2)
          = getPlayerName (getPlayerId page ls).2) as Hname'.
  { unfold getPlayerName. by rewrite lookup_delete_ne. }
  assert (∀ (S E : Type) (s : S) (e : E) (m : LocalStorage),
            (s, <["game_in_progress" := flag]> m, e).1.1
            = (s, delete "game_in_progress" m, e).1.1
            ∧ (s, <["game_in_progress" := flag]> m, e).2
              = (s, delete "game_in_progress" m, e).2
            ∧ (∀ key, key ≠ "game_in_progress" →
                 (s, <["game_in_progress" := flag]> m, e).1.2 !! key
                 = (s, delete "game_in_progress" m, e).1.2 !! key)) as Hsame.
  { intros S E s e m. split; [done|]. split; [done|].
    intros key Hne. cbn [fst snd]. by apply Hkey. }
  unfold init. rewrite getPlayerId_flag, getPlayerId_no_flag.
  destruct (room_param page) as [room|]; [|apply Hsame].
  destruct (String.eqb room ""); [apply Hsame|].
  rewrite Hname, Hname'.
  destruct (String.eqb (getPlayerId page ls).1 ""
            || String.eqb (getPlayerName (getPlayerId page ls).2) "");
    [apply Hsame|].
  destruct (database_resolves page); [|apply Hsame].
  split; [done|]. split; [done|].
  intros key Hne. cbn [fst snd]. unfold mark_in_progress.
  destruct (decide (key = "current_game_id")) as [->|H1];
    [by rewrite !lookup_insert_eq|].
  rewrite !(lookup_insert_ne _ "current_game_id") by done.
  destruct (decide (key = "current_room_id")) as [->|H2];
    [by rewrite !lookup_insert_eq|].
  rewrite !(lookup_insert_ne _ "current_room_id") by done.
  rewrite !(lookup_insert_ne _ "game_in_progress") by done.
  by rewrite lookup_delete_ne.
Qed.

Lemma init_writes_nothing rev page (ls : LocalStorage) :
  Forall (λ e, is_store_write e = false) (init rev page ls).2
  ∧ gameOver (init rev page ls).1.1 = false.
Proof.
  unfold init.
  destruct (room_param page) as [room|]; [|split; [no_store_writes|done]].
  destruct (String.eqb room ""); [split; [no_store_writes|done]|].
  destruct (getPlayerId page ls) as [pid ls1].
  destruct (String.eqb pid "" || String.eqb (getPlayerName ls1) "");
    [split; [no_store_writes|done]|].
  destruct (database_resolves page); [|split; [no_store_writes|done]].
  split; [|done]. destruct rev; no_store_writes.
Qed.

(** What the unload handler does about a round. *)
Lemma handleBeforeUnload_forfeits rev connected st (ls : LocalStorage) :
  (handleBeforeUnload rev connected st ls).1.2 !! "game_in_progress" = None
  ∧ (gameOver st = false → connected = true → truthy (opponentId st) = true →
     filter (λ e, is_store_write e = true) (handleBeforeUnload rev connected st ls).2
     = [StoreUpdate (game_path (default "" (roomId st))) (forfeit_patch st)])
  ∧ (gameOver st = true ∨ connected = false ∨ truthy (opponentId st) = false →
     Forall (λ e, is_store_write e = false)
            (handleBeforeUnload rev connected st ls).2).
Proof.
  unfold handleBeforeUnload. cbn [fst snd]. split; [|split].
  - rewrite !lookup_delete_ne by done. apply lookup_delete_eq.
  - intros -> -> ->. by destruct rev.
  - intros Hwhy.
    assert (negb (gameOver st) && connected && truthy (opponentId st) = false)
      as ->.
    { destruct (gameOver st), connected, (truthy (opponentId st)); try done.
      by destruct Hwhy as [?|[?|?]]. }
    destruct connected, rev; no_store_writes.
Qed.

(** C7, as amended.  Start-up never reads the persisted "game_in_progress"
    entry: with the entry set to any value, [init] builds the same client
    state and performs the same effects as with the entry absent, and leaves
    the same storage apart from that entry; none of the effects is a store
    write and the client is not marked game-over, so start-up eliminates
    nobody.  It is the unload handler that gives away a round: it always
    removes the entry, and exactly when the round is not over, the database
    is connected and an opponent is known, its one store write declares the
    opponent the winner. *)
Theorem init_ignores_progress_flag
        (rev : Revision) (page : Page) (ls : LocalStorage) (flag : string)
        (connected : bool) (st : GameState) (ls' : LocalStorage) :
  ((init rev page (<["game_in_progress" := flag]> ls)).1.1
   = (init rev page (delete "game_in_progress" ls)).1.1
   ∧ (init rev page (<["game_in_progress" := flag]> ls)).2
     = (init rev page (delete "game_in_progress" ls)).2
   ∧ (∀ key, key ≠ "game_in_progress" →
        (init rev page (<["game_in_progress" := flag]> ls)).1.2 !! key
        = (init rev page (delete "game_in_progress" ls)).1.2 !! key))
  ∧ (Forall (λ e, is_store_write e = false)
            (init rev page (<["game_in_progress" := flag]> ls)).2
     ∧ gameOver (init rev page (<["game_in_progress" := flag]> ls)).1.1 = false)
  ∧ ((handleBeforeUnload rev connected st ls').1.2 !! "game_in_progress" = None
     ∧ (gameOver st = false → connected = true → truthy (opponentId st) = true →
        filter (λ e, is_store_write e = true)
               (handleBeforeUnload rev connected st ls').2
        = [StoreUpdate (game_path (default "" (roomId st))) (forfeit_patch st)])
     ∧ (gameOver st = true ∨ connected = false ∨ truthy (opponentId st) = false →
        Forall (λ e, is_store_write e = false)
               (handleBeforeUnload rev connected st ls').2)).
Proof.
  split; [apply init_flag_blind|].
  split; [apply init_writes_nothing|apply handleBeforeUnload_forfeits].
Qed.

(** A client in the middle of a round, its opponent known. *)
Definition mid_round : GameState :=
  {| roomId := Some "r1"; playerId := "player_1_x"; playerName := "kim";
     isHost := false; myColor := VStr "white"; opponentId := VStr "player_2_y";
     board := empty_board; currentTurn := VStr "black"; gameOver := false;
     winner := VNull; isInitializing := false |}.

Lemma init_ignores_progress_flag_witness :
  gameOver mid_round = false
  ∧ truthy (opponentId mid_round) = true
  ∧ filter (λ e, is_store_write e = true)
           (handleBeforeUnload SparseObjects true mid_round reloaded_storage).2
    = [StoreUpdate "rooms/omok/r1/game" (forfeit_patch mid_round)].
Proof.
  exact (conj eq_refl
           (conj eq_refl
              (proj1 (proj2 (proj2 (proj2 (init_ignores_progress_flag
                                             SparseObjects reloaded_page
                                             reloaded_storage "true" true
                                             mid_round reloaded_storage))))
                     eq_refl eq_refl eq_refl))).
Defined.

(** C7 as stated fails: started with the flag set, the second revision of
    the client is not game-over and performs no store write, so nobody is
    eliminated and no rank is recorded; it only subscribes, as it does when
    the flag is absent. *)
Lemma flagged_start_up_eliminates_nobody :
  reloaded_storage !! "game_in_progress" = Some "true"
  ∧ gameOver (init SparseObjects reloaded_page reloaded_storage).1.1 = false
  ∧ (init SparseObjects reloaded_page reloaded_storage).2
    = [OnValue "rooms/omok/r1" RoomListener;
       OnValue "rooms/omok/r1/game" GameListener;
       SetupEventListeners; DrawBoard; StartTimer]
  ∧ (init SparseObjects reloaded_page reloaded_storage).2
    = (init SparseObjects reloaded_page
            (delete "game_in_progress" reloaded_storage)).2.
Proof. repeat split; by vm_compute. Qed.

End Omok.

(* ===================================================================== *)
(** * The Tetris client (js/tetris.js)                                    *)
(* ===================================================================== *)

Module Tetris.
Import Js.
Import LocalDb.

(** [CONFIG.ROWS], [CONFIG.COLS] *)
Definition ROWS : nat := 20.
Definition COLS : nat := 10.

(** An array is represented by the object that has its indices as
    property names. *)
Definition array_value (items : list Value) : Value :=
  VObj (list_to_map (imap (λ i v, (pretty i, v)) items)).

(** [Array(ROWS).fill(null).map(() => Array(COLS).fill(0))] *)
Definition blank_board : Value :=
  array_value (replicate ROWS (array_value (replicate COLS (VNum 0)))).

(** An entry of [gameState.players]. *)
Record Player : Type := {
  id : Value;
  name : Value;
  color : Value;
  alive : Value;
  score : Value;
  lines : Value;
  rank : Value;
  board : Value
}.

(** [gameState]: the fields the synchronisation and elimination code
    touches.  [players] is an object used as a map; its properties are kept
    in insertion order, which is the order of [Object.values]. *)
Record GameState : Type := {
  roomId : string;
  playerId : string;
  players : list (string * Player);
  isHost : bool;
  gameOver : bool;
  hasPiece : bool;
  myBoard : Value;
  myScore : Z;
  myLines : Z;
  garbageQueue : Z;
  rankings : Value
}.

Inductive Notice : Type := RoomMissing | Eliminated (rank : nat).

Inductive Effect : Type :=
| Store (w : Write)
| ShowNotification (notice : Notice)
| NavigateLater (page : string).

(** *** The [players] object *)

(** [players[key]] *)
Fixpoint lookup_player (key : string) (ps : list (string * Player))
  : option Player :=
  match ps with
  | [] => None
  | (k, p) :: rest => if String.eqb k key then Some p else lookup_player key rest
  end.

(** [players[key].field = ...] on an entry that is there. *)
Fixpoint alter_player (f : Player → Player) (key : string)
         (ps : list (string * Player)) : list (string * Player) :=
  match ps with
  | [] => []
  | (k, p) :: rest =>
      if String.eqb k key then (k, f p) :: rest
      else (k, p) :: alter_player f key rest
  end.

Definition object_values (v : Value) : list Value := (map_to_list (spread v)).*2.
Definition object_keys (v : Value) : list string := (map_to_list (spread v)).*1.

(** [Object.values(gameState.players).filter(p => p.alive)] *)
Definition alive_players (ps : list (string * Player)) : list Player :=
  List.filter (λ p, truthy (alive p)) ps.*2.

(** *** Paths *)

Definition game_path (st : GameState) : string :=
  "rooms/tetris/" +:+ roomId st +:+ "/game".
Definition player_path (st : GameState) (pid : string) : string :=
  "rooms/tetris/" +:+ roomId st +:+ "/game/players/" +:+ pid.
Definition garbage_path (st : GameState) (pid : string) : string :=
  "rooms/tetris/" +:+ roomId st +:+ "/game/garbage/" +:+ pid.

(** *** State updates *)

Definition with_players (st : GameState) (ps : list (string * Player)) : GameState :=
  {| roomId := roomId st; playerId := playerId st; players := ps;
     isHost := isHost st; gameOver := gameOver st; hasPiece := hasPiece st;
     myBoard := myBoard st; myScore := myScore st; myLines := myLines st;
     garbageQueue := garbageQueue st; rankings := rankings st |}.

Definition with_host (st : GameState) (host : bool) : GameState :=
  {| roomId := roomId st; playerId := playerId st; players := players st;
     isHost := host; gameOver := gameOver st; hasPiece := hasPiece st;
     myBoard := myBoard st; myScore := myScore st; myLines := myLines st;
     garbageQueue := garbageQueue st; rankings := rankings st |}.

Definition with_garbage (st : GameState) (queue : Z) : GameState :=
  {| roomId := roomId st; playerId := playerId st; players := players st;
     isHost := isHost st; gameOver := gameOver st; hasPiece := hasPiece st;
     myBoard := myBoard st; myScore := myScore st; myLines := myLines st;
     garbageQueue := queue; rankings := rankings st |}.

Definition with_game_over (st : GameState) (piece : bool) (finalRankings : Value)
  : GameState :=
  {| roomId := roomId st; playerId := playerId st; players := players st;
     isHost := isHost st; gameOver := true; hasPiece := piece;
     myBoard := myBoard st; myScore := myScore st; myLines := myLines st;
     garbageQueue := garbageQueue st; rankings := finalRankings |}.

Definition set_alive (v : Value) (p : Player) : Player :=
  {| id := id p; name := name p; color := color p; alive := v;
     score := score p; lines := lines p; rank := rank p; board := board p |}.

Definition set_rank (v : Value) (p : Player) : Player :=
  {| id := id p; name := name p; color := color p; alive := alive p;
     score := score p; lines := lines p; rank := v; board := board p |}.

(** *** Room listener and initialisation *)

(** The entry created for a room member seen for the first time. *)
Definition new_player (member : Value) : Player :=
  {| id := prop member "id"; name := prop member "name";
     color := prop member "color"; alive := VBool true; score := VNum 0;
     lines := VNum 0; rank := VNum 0; board := blank_board |}.

Definition add_missing (ps : list (string * Player)) (member : Value)
  : list (string * Player) :=
  let key := to_string (prop member "id") in
  match lookup_player key ps with
  | Some _ => ps
  | None => ps ++ [(key, new_player member)]
  end.

(** The record [initGameState] writes for a player. *)
Definition initial_record (p : Player) : Value :=
  VObj (list_to_map [("id", id p); ("name", name p); ("alive", VBool true);
                     ("score", VNum 0); ("lines", VNum 0); ("rank", VNum 0);
                     ("board", blank_board)]).

(** [initGameState]: the one [set] on the game node. *)
Definition initGameState (st : GameState) (now : Z) : list Effect :=
  let playersData :=
    foldl (λ (acc : gmap string Value) (p : Player),
             <[to_string (id p) := initial_record p]> acc)
          ∅ (players st).*2 in
  [Store (WSet (game_path st)
               (VObj (list_to_map [("players", VObj playersData);
                                   ("garbage", VObj ∅);
                                   ("gameFinished", VBool false);
                                   ("rankings", array_value []);
                                   ("startTime", VNum now)])))].

(** The room listener installed by [setupFirebaseSync]. *)
Definition roomListener (st : GameState) (roomData : Value) (now : Z)
  : GameState * list Effect :=
  if negb (truthy roomData) then
    (st, [ShowNotification RoomMissing; NavigateLater "lobby.html"])
  else
    let st1 := with_host st (is_str (prop roomData "hostId") (playerId st)) in
    let st2 :=
      if truthy (prop roomData "players")
      then with_players st1 (foldl add_missing (players st1)
                                   (object_values (prop roomData "players")))
      else st1 in
    if isHost st2 && negb (truthy (prop roomData "game"))
    then (st2, initGameState st2 now)
    else (st2, []).

(** *** Game listener *)

(** The assignments made for one opponent from the server's record. *)
Definition merge_player (server : Value) (p : Player) : Player :=
  {| id := id p; name := name p; color := color p;
     alive := prop server "alive";
     score := prop server "score";
     lines := prop server "lines";
     rank := or_else (prop server "rank") (VNum 0);
     board := or_else (prop server "board") (board p) |}.

(** The body of the [forEach] over [Object.keys(gameData.players)]. *)
Definition merge_one (me : string) (serverPlayers : Value)
           (ps : list (string * Player)) (key : string) : list (string * Player) :=
  if negb (String.eqb key me) && bool_decide (is_Some (lookup_player key ps))
  then alter_player (merge_player (prop serverPlayers key)) key ps
  else ps.

(** [handleGameOver] *)
Definition handleGameOver (st : GameState) (finalRankings : Value) : GameState :=
  if negb (truthy finalRankings) || bool_decide (spread finalRankings = ∅) then st
  else with_game_over st (hasPiece st) finalRankings.

(** The game listener installed by [setupFirebaseSync].  A garbage count
    is taken into account when it is a positive number. *)
Definition gameListener (st : GameState) (gameData : Value)
  : GameState * list Effect :=
  if negb (truthy gameData) then (st, [])
  else
    let serverPlayers := prop gameData "players" in
    let st1 :=
      if truthy serverPlayers
      then with_players st (foldl (merge_one (playerId st) serverPlayers)
                                  (players st) (object_keys serverPlayers))
      else st in
    let count := prop (prop gameData "garbage") (playerId st) in
    let '(st2, consumed) :=
      match count with
      | VNum n =>
          if (0 <? n)%Z
          then (with_garbage st1 (garbageQueue st1 + n),
                [Store (WSet (garbage_path st (playerId st)) (VNum 0))])
          else (st1, [])
      | _ => (st1, [])
      end in
    let st3 :=
      if truthy (prop gameData "gameFinished")
      then handleGameOver st2 (prop gameData "rankings")
      else st2 in
    (st3, consumed).

(** *** Elimination *)

(** The numeric value of a rank held locally. *)
Definition num_of (v : Value) : Z :=
  match v with
  | VNum n => n
  | _ => 0
  end.

(** [Array.prototype.sort] with [(a, b) => a.rank - b.rank]: stable. *)
Fixpoint insert_by_rank (p : Player) (sorted : list Player) : list Player :=
  match sorted with
  | [] => [p]
  | q :: rest =>
      if (num_of (rank p) <? num_of (rank q))%Z then p :: q :: rest
      else q :: insert_by_rank p rest
  end.

Definition sort_by_rank (ps : list Player) : list Player :=
  foldl (λ sorted p, insert_by_rank p sorted) [] ps.

(** [finishGame] *)
Definition finishGame (st : GameState) : list Effect :=
  let entry (p : Player) :=
    VObj (list_to_map [("id", id p); ("name", name p);
                       ("rank", rank p); ("score", score p)]) in
  [Store (WUpdate (game_path st)
                  (VObj (list_to_map
                           [("gameFinished", VBool true);
                            ("rankings",
                             array_value (entry <$> sort_by_rank (players st).*2))])))].

(** [playerDied] up to its first [await]: the local bookkeeping and the
    write of the player's own record. *)
Definition playerDied_begin (st : GameState) : GameState * list Effect :=
  let n := length (alive_players (players st)) in
  let rankValue := VNum (Z.of_nat n) in
  let ps := alter_player (λ p, set_rank rankValue (set_alive (VBool false) p))
                         (playerId st) (players st) in
  (with_players
     {| roomId := roomId st; playerId := playerId st; players := players st;
        isHost := isHost st; gameOver := true; hasPiece := false;
        myBoard := myBoard st; myScore := myScore st; myLines := myLines st;
        garbageQueue := garbageQueue st; rankings := rankings st |} ps,
   [Store (WUpdate (player_path st (playerId st))
                   (VObj (list_to_map [("alive", VBool false);
                                       ("rank", rankValue)])));
    ShowNotification (Eliminated n)]).

(** [playerDied] from the first [await] on: the win-condition check. *)
Definition playerDied_settle (st : GameState) : GameState * list Effect :=
  let survivors := alive_players (players st) in
  if bool_decide (length survivors ≤ 1) && isHost st then
    match survivors with
    | [winner] =>
        let key := to_string (id winner) in
        let st' := with_players st (alter_player (set_rank (VNum 1)) key (players st)) in
        (st',
         Store (WUpdate (player_path st key)
                        (VObj (list_to_map [("rank", VNum 1)])))
         :: finishGame st')
    | _ => (st, finishGame st)
    end
  else (st, []).

(** [playerDied] run without interruption. *)
Definition playerDied (st : GameState) : GameState * list Effect :=
  let '(st1, first) := playerDied_begin st in
  let '(st2, rest) := playerDied_settle st1 in
  (st2, first ++ rest).

(** [updateBoardToServer] *)
Definition updateBoardToServer (st : GameState) : list Effect :=
  [Store (WUpdate (player_path st (playerId st))
                  (VObj (list_to_map [("board", myBoard st);
                                      ("score", VNum (myScore st));
                                      ("lines", VNum (myLines st))])))].

(** [resetGame], the restart button of the game-over dialog, on any
    client: its store writes, in order; the client then leaves for the room
    page.  The local entries carry no [joinedAt], so the clock is used. *)
Definition status_path (st : GameState) : string :=
  "rooms/tetris/" +:+ roomId st +:+ "/status".
Definition members_path (st : GameState) : string :=
  "rooms/tetris/" +:+ roomId st +:+ "/players".

Definition resetGame (st : GameState) (now : Z) : list Write :=
  let entry (kp : string * Player) :=
    (kp.1, VObj (list_to_map [("id", VStr kp.1); ("name", name kp.2);
                              ("color", color kp.2); ("ready", VBool false);
                              ("joinedAt", VNum now)])) in
  [WSet (game_path st) VNull;
   WSet (status_path st) (VStr "waiting");
   WSet (members_path st) (VObj (list_to_map (entry <$> players st)))].

(** ** Who writes the initial snapshot *)

Lemma roomListener_writes st roomData now e :
  In e (roomListener st roomData now).2 →
  (∃ w, e = Store w) →
  is_str (prop roomData "hostId") (playerId st) = true
  ∧ truthy (prop roomData "game") = false
  ∧ ∃ value, e = Store (WSet (game_path st) value).
Proof.
  unfold roomListener. intros Hin [w ->].
  destruct (truthy roomData); simpl in Hin.
  2: { destruct Hin as [|[|[]]]; done. }
  destruct (is_str (prop roomData "hostId") (playerId st)); simpl in Hin.
  2: { destruct (truthy (prop roomData "players")); simpl in Hin; done. }
  destruct (truthy (prop roomData "game")); simpl in Hin.
  { destruct (truthy (prop roomData "players")); simpl in Hin; done. }
  repeat split.
  destruct (truthy (prop roomData "players")); simpl in Hin;
    destruct Hin as [<-|[]]; by eexists.
Qed.

Lemma gameListener_writes st gameData e :
  In e (gameListener st gameData).2 →
  e = Store (WSet (garbage_path st (playerId st)) (VNum 0)).
Proof.
  unfold gameListener. destruct (truthy gameData); simpl; [|done].
  destruct (prop (prop gameData "garbage") (playerId st)) as [| | |n| |];
    simpl; try done.
  destruct (0 <? n)%Z; simpl; [|done]. by intros [<-|[]].
Qed.

(** A room with two members, seen by its host and by the other member
    before any game node exists. *)
Definition two_member_room : Value :=
  VObj (list_to_map
          [("hostId", VStr "ann");
           ("players",
            VObj (list_to_map
                    [("ann", VObj (list_to_map [("id", VStr "ann"); ("name", VStr "Ann")]));
                     ("bob", VObj (list_to_map [("id", VStr "bob"); ("name", VStr "Bob")]))]))]).

Definition arriving (pid : string) : GameState :=
  {| roomId := "r1"; playerId := pid; players := []; isHost := false;
     gameOver := false; hasPiece := false; myBoard := blank_board;
     myScore := 0; myLines := 0; garbageQueue := 0; rankings := VNull |}.

Definition omok_arriving (pid : string) : Omok.GameState :=
  {| Omok.roomId := Some "r1"; Omok.playerId := pid; Omok.playerName := pid;
     Omok.isHost := false; Omok.myColor := VNull; Omok.opponentId := VNull;
     Omok.board := Omok.empty_board; Omok.currentTurn := VStr "black";
     Omok.gameOver := false; Omok.winner := VNull;
     Omok.isInitializing := false |}.

(** ** Elimination *)

Section Elimination.
Implicit Types (ps : list (string * Player)) (p : Player) (st : GameState).

Lemma lookup_alter_player f key ps p :
  lookup_player key ps = Some p →
  lookup_player key (alter_player f key ps) = Some (f p).
Proof.
  induction ps as [|[k q] ps IH]; simpl; [done|].
  destruct (String.eqb k key) eqn:Hk; simpl; rewrite Hk; [congruence|done].
Qed.

Lemma alter_player_absent f key ps :
  lookup_player key ps = None → alter_player f key ps = ps.
Proof.
  induction ps as [|[k q] ps IH]; simpl; [done|].
  destruct (String.eqb k key); [done|]. intros H. by rewrite IH.
Qed.

Lemma alive_players_cons k p ps :
  alive_players ((k, p) :: ps)
  = if truthy (alive p) then p :: alive_players ps else alive_players ps.
Proof. reflexivity. Qed.

(** Marking a living player dead takes exactly one player out of the
    living ones. *)
Lemma alive_players_after_death v key ps p :
  lookup_player key ps = Some p →
  truthy (alive p) = true →
  length (alive_players ps)
  = S (length (alive_players
                 (alter_player (λ q, set_rank v (set_alive (VBool false) q)) key ps))).
Proof.
  induction ps as [|[k q] ps IH]; cbn [lookup_player alter_player]; [done|].
  destruct (String.eqb k key).
  - intros [= ->] Ha. rewrite !alive_players_cons, Ha. done.
  - intros Hp Ha. rewrite !alive_players_cons.
    destruct (truthy (alive q)); cbn [length]; by rewrite (IH Hp Ha).
Qed.

End Elimination.

(** Two players, both alive, seen by the one that is not the host. *)
Definition living (pid : string) : Player :=
  {| id := VStr pid; name := VStr pid; color := VStr "#fff"; alive := VBool true;
     score := VNum 0; lines := VNum 0; rank := VNum 0; board := blank_board |}.

Definition duel (me : string) (host : bool) : GameState :=
  {| roomId := "r1"; playerId := me;
     players := [("ann", living "ann"); ("bob", living "bob")];
     isHost := host; gameOver := false; hasPiece := true; myBoard := blank_board;
     myScore := 0; myLines := 0; garbageQueue := 0; rankings := VNull |}.

(** The patch written by an eliminated player and the patch that finishes
    the round. *)
Definition death_patch (n : nat) : Value :=
  VObj (list_to_map [("alive", VBool false); ("rank", VNum (Z.of_nat n))]).

(** What [playerDied] does.  The rank written for an eliminated player,
    locally and to the store, is the number of players the client holds as
    alive just before; when the player's own entry was alive this is one
    more than the number alive afterwards.  The check that follows writes
    only on the host: with exactly one player left alive it gives that
    player rank 1 and then finishes the round, with none left it finishes
    the round without a rank-1 write, and with two or more left, or on a
    client that is not the host, it writes nothing. *)
Lemma elimination_rank_and_outcome (st s : GameState) :
  (playerDied_begin st).2
  = [Store (WUpdate (player_path st (playerId st))
                    (death_patch (length (alive_players (players st)))));
     ShowNotification (Eliminated (length (alive_players (players st))))]
  ∧ (∀ me, lookup_player (playerId st) (players st) = Some me →
       lookup_player (playerId st) (players (playerDied_begin st).1)
       = Some (set_rank (VNum (Z.of_nat (length (alive_players (players st)))))
                        (set_alive (VBool false) me))
       ∧ (truthy (alive me) = true →
          length (alive_players (players st))
          = S (length (alive_players (players (playerDied_begin st).1)))))
  ∧ (∀ winner, isHost s = true → alive_players (players s) = [winner] →
       (playerDied_settle s).2
       = Store (WUpdate (player_path s (to_string (id winner)))
                        (VObj (list_to_map [("rank", VNum 1)])))
         :: finishGame (playerDied_settle s).1)
  ∧ (isHost s = true → alive_players (players s) = [] →
     (playerDied_settle s).2 = finishGame s)
  ∧ (2 ≤ length (alive_players (players s)) → (playerDied_settle s).2 = [])
  ∧ (isHost s = false → (playerDied_settle s).2 = []).
Proof.
  split; [reflexivity|]. split; [|split; [|split; [|split]]].
  - intros me Hme. split.
    + simpl.
      by apply (lookup_alter_player (λ p, set_rank _ (set_alive (VBool false) p))).
    + intros Halive. simpl. by apply (alive_players_after_death _ _ _ me).
  - intros winner Hhost Hone. unfold playerDied_settle.
    by rewrite Hone, Hhost.
  - intros Hhost Hnone. unfold playerDied_settle.
    by rewrite Hnone, Hhost.
  - intros Hmany. unfold playerDied_settle.
    rewrite bool_decide_eq_false_2 by lia. done.
  - intros Hguest. unfold playerDied_settle. rewrite Hguest.
    by rewrite andb_false_r.
Qed.

Lemma elimination_rank_and_outcome_witness :
  lookup_player "bob" (players (duel "bob" true)) = Some (living "bob")
  ∧ truthy (alive (living "bob")) = true
  ∧ length (alive_players (players (duel "bob" true)))
    = S (length (alive_players (players (playerDied_begin (duel "bob" true)).1)))
  ∧ isHost (playerDied_begin (duel "bob" true)).1 = true
  ∧ alive_players (players (playerDied_begin (duel "bob" true)).1) = [living "ann"]
  ∧ (playerDied_settle (playerDied_begin (duel "bob" true)).1).2
    = Store (WUpdate (player_path (playerDied_begin (duel "bob" true)).1
                                  (to_string (id (living "ann"))))
                     (VObj (list_to_map [("rank", VNum 1)])))
      :: finishGame (playerDied_settle (playerDied_begin (duel "bob" true)).1).1.
Proof.
  pose proof (elimination_rank_and_outcome
                (duel "bob" true) (playerDied_begin (duel "bob" true)).1)
    as (_ & Hrank & Hone & _).
  assert (lookup_player "bob" (players (duel "bob" true)) = Some (living "bob"))
    as Hme by reflexivity.
  assert (truthy (alive (living "bob")) = true) as Halive by reflexivity.
  assert (isHost (playerDied_begin (duel "bob" true)).1 = true) as Hhost
    by reflexivity.
  assert (alive_players (players (playerDied_begin (duel "bob" true)).1)
          = [living "ann"]) as Hleft by reflexivity.
  refine (conj Hme (conj Halive (conj _ (conj Hhost (conj Hleft _))))).
  - exact (proj2 (Hrank (living "bob") Hme) Halive).
  - exact (Hone (living "ann") Hhost Hleft).
Defined.

(** On a client that is not the host, an elimination that leaves exactly
    one player alive is followed by no rank-1 write and no write that
    finishes the round; the only write is the eliminated player's own
    record. *)
Lemma guest_elimination_writes_own_record :
  isHost (duel "bob" false) = false
  ∧ length (alive_players (players (duel "bob" false))) = 2
  ∧ alive_players (players (playerDied (duel "bob" false)).1) = [living "ann"]
  ∧ (playerDied (duel "bob" false)).2
    = [Store (WUpdate "rooms/tetris/r1/game/players/bob" (death_patch 2));
       ShowNotification (Eliminated 2)].
Proof. repeat split. Qed.

(** Three players seen by a client that is not the host; the host is
    already out. *)
Definition fallen (pid : string) (place : Z) : Player :=
  {| id := VStr pid; name := VStr pid; color := VStr "#fff"; alive := VBool false;
     score := VNum 0; lines := VNum 0; rank := VNum place; board := blank_board |}.

Definition trio : GameState :=
  {| roomId := "r1"; playerId := "cy";
     players := [("ann", fallen "ann" 3); ("bob", living "bob"); ("cy", living "cy")];
     isHost := false; gameOver := false; hasPiece := true; myBoard := blank_board;
     myScore := 0; myLines := 0; garbageQueue := 0; rankings := VNull |}.

(** The guard of the win-condition check.  The client that processed its
    own elimination runs the check, but the writes that follow it are
    guarded by the host flag: the round-finishing write on the game node is
    issued exactly when at most one player is left alive and the client is
    the host, and a client that is not the host issues no write at all from
    the check. *)
Lemma winner_write_needs_host (s : GameState) :
  ((∃ patch, In (Store (WUpdate (game_path s) patch)) (playerDied_settle s).2)
   ↔ length (alive_players (players s)) ≤ 1 ∧ isHost s = true)
  ∧ (isHost s = false → (playerDied_settle s).2 = []).
Proof.
  split; [split|].
  - intros [patch Hin]. unfold playerDied_settle in Hin.
    destruct (bool_decide (length (alive_players (players s)) ≤ 1)) eqn:Hfew;
      [|done].
    apply bool_decide_eq_true_1 in Hfew.
    destruct (isHost s); [done|]. simpl in Hin. done.
  - intros [Hfew Hhost]. unfold playerDied_settle.
    rewrite bool_decide_eq_true_2, Hhost by done. simpl andb. cbv iota.
    destruct (alive_players (players s)) as [|winner [|]].
    + eexists. by left.
    + eexists. right. by left.
    + eexists. by left.
  - intros Hguest. unfold playerDied_settle. rewrite Hguest.
    by rewrite andb_false_r.
Qed.

Lemma winner_write_needs_host_witness :
  isHost trio = false
  ∧ (playerDied_settle (playerDied_begin trio).1).2 = [].
Proof.
  assert (isHost (playerDied_begin trio).1 = false) as Hguest by reflexivity.
  split; [reflexivity|].
  exact (proj2 (winner_write_needs_host (playerDied_begin trio).1) Hguest).
Defined.

(** C4.  The winner write is conditioned by the host flag, and a round
    decided on a guest stays open: a client that is not the host processes
    the elimination that leaves a single player alive (the host being out
    already), the win-condition check of [playerDied] finds one survivor,
    and no winner or game-finished write follows; all the client writes is
    its own record.  The same client state with the host flag set writes
    the survivor's rank 1 and then finishes the round. *)
Theorem guest_check_writes_nothing :
  isHost trio = false
  ∧ alive_players (players trio) = [living "bob"; living "cy"]
  ∧ alive_players (players (playerDied_begin trio).1) = [living "bob"]
  ∧ (playerDied_settle (playerDied_begin trio).1).2 = []
  ∧ (playerDied trio).2
    = [Store (WUpdate "rooms/tetris/r1/game/players/cy" (death_patch 2));
       ShowNotification (Eliminated 2)]
  ∧ (playerDied_settle (with_host (playerDied_begin trio).1 true)).2
    = Store (WUpdate "rooms/tetris/r1/game/players/bob"
                     (VObj (list_to_map [("rank", VNum 1)])))
      :: finishGame (playerDied_settle (with_host (playerDied_begin trio).1 true)).1.
Proof. repeat split. Qed.

(** ** A round as a transition system *)

(** The replicated store and the clients of one room.  Every handler runs
    to completion against the store as it is when the handler starts, which
    is how the bundled local store delivers snapshots and takes writes. *)
Record System : Type := {
  store : LocalDatabase;
  clients : gmap nat GameState
}.

(** What can happen during a round: a client's room listener fires (the
    host id and the member list are whatever the lobby holds, the game node
    is the store's), its game listener fires, the client is eliminated, the
    win-condition check of an eliminated client resumes, a client sends its
    board, a client sends garbage to an opponent, a client's game page is
    loaded again (a reload, or the page re-opened with the same room
    parameter): the script starts over with its initial [gameState] and
    [init] runs, the store being left as it is. *)
Inductive Event : Type :=
| RoomSnapshot (c : nat) (lobby : gmap string Value) (now : Z)
| GameSnapshot (c : nat)
| Died (c : nat)
| Settled (c : nat)
| BoardSent (c : nat) (board : Value) (score lines : Z)
| GarbageSent (c : nat) (target : string) (amount : Z)
| Reloaded (c : nat).

(** The client state once [init] has run on a freshly loaded game page:
    the room of the URL, the persisted player id, no players yet. *)
Definition arriving_in (room : string) (pid : string) : GameState :=
  {| roomId := room; playerId := pid; players := []; isHost := false;
     gameOver := false; hasPiece := false; myBoard := blank_board;
     myScore := 0; myLines := 0; garbageQueue := 0; rankings := VNull |}.

Definition perform (db : LocalDatabase) (effects : list Effect) : LocalDatabase :=
  foldl (λ db e, match e with
                 | Store w => (apply_write db w).1
                 | _ => db
                 end) db effects.

Definition with_board (st : GameState) (board : Value) (score lines : Z)
  : GameState :=
  {| roomId := roomId st; playerId := playerId st; players := players st;
     isHost := isHost st; gameOver := gameOver st; hasPiece := hasPiece st;
     myBoard := board; myScore := score; myLines := lines;
     garbageQueue := garbageQueue st; rankings := rankings st |}.

(** The room node as the room listener of [st] sees it. *)
Definition room_view (db : LocalDatabase) (st : GameState)
           (lobby : gmap string Value) : Value :=
  VObj (<["game" := get db (game_path st)]> lobby).

Definition react (st : GameState) (db : LocalDatabase) (ev : Event)
  : GameState * list Effect :=
  match ev with
  | RoomSnapshot _ lobby now => roomListener st (room_view db st lobby) now
  | GameSnapshot _ => gameListener st (get db (game_path st))
  | Died _ => playerDied_begin st
  | Settled _ => playerDied_settle st
  | BoardSent _ board score lines =>
      (with_board st board score lines,
       updateBoardToServer (with_board st board score lines))
  | GarbageSent _ target amount =>
      (st, [Store (WSet (garbage_path st target) (VNum amount))])
  | Reloaded _ => (arriving_in (roomId st) (playerId st), [])
  end.

Definition actor (ev : Event) : nat :=
  match ev with
  | RoomSnapshot c _ _ | GameSnapshot c | Died c | Settled c
  | BoardSent c _ _ _ | GarbageSent c _ _ | Reloaded c => c
  end.

Definition step (sys : System) (ev : Event) : System :=
  match clients sys !! actor ev with
  | Some st =>
      {| store := perform (store sys) (react st (store sys) ev).2;
         clients := <[actor ev := (react st (store sys) ev).1]> (clients sys) |}
  | None => sys
  end.

Definition run (sys : System) (evs : list Event) : System := foldl step sys evs.

(** The flag of player [p] as client [c] holds it, and as the store holds
    it for the room. *)
Definition local_alive (sys : System) (c : nat) (p : string) : option Value :=
  st ← clients sys !! c; alive <$> lookup_player p (players st).

Definition game_keys (room : string) : list string :=
  ["rooms"; "tetris"; room; "game"].

Definition store_alive (room : string) (db : LocalDatabase) (p : string) : Value :=
  get_keys (VObj (data db)) (game_keys room ++ ["players"; p; "alive"]).

(** Identifiers are segments: the room's, the clients', the members' seen
    in room snapshots and the targets of garbage. *)
Definition member_ok (member : Value) : Prop :=
  ∃ pid, prop member "id" = VStr pid ∧ segment pid.

Definition event_ok (ev : Event) : Prop :=
  match ev with
  | RoomSnapshot _ lobby _ =>
      Forall member_ok (object_values (default VUndef (lobby !! "players")))
  | GarbageSent _ target _ => segment target
  | _ => True
  end.

(** Client [c] does not load its page again. *)
Definition stays (c : nat) (ev : Event) : Prop := ev ≠ Reloaded c.

(** The clients at the moment they open the game page. *)
Definition fresh_round (room : string) (db : LocalDatabase) (pids : list string)
  : System :=
  {| store := db;
     clients := list_to_map (imap (λ c pid, (c, arriving_in room pid)) pids) |}.

Section Round.
Context (room : string) (Hroom : segment room).
Implicit Types (db : LocalDatabase) (st : GameState) (p pid : string)
         (ps : list (string * Player)) (w : Write) (ev : Event).

(** *** The paths of a room *)

Lemma keys_of_game_path st :
  roomId st = room → keys_of (game_path st) = game_keys room.
Proof.
  intros Hst. unfold game_path. rewrite Hst.
  change ("rooms/tetris/" +:+ room +:+ "/game")
    with ("rooms/tetris" +:+ "/" +:+ (room +:+ "/" +:+ "game")).
  by rewrite !keys_of_append, (keys_of_segment _ Hroom).
Qed.

Lemma keys_of_player_path st pid :
  roomId st = room → segment pid →
  keys_of (player_path st pid) = game_keys room ++ ["players"; pid].
Proof.
  intros Hst Hpid. unfold player_path. rewrite Hst.
  change ("rooms/tetris/" +:+ room +:+ "/game/players/" +:+ pid)
    with ("rooms/tetris" +:+ "/" +:+ (room +:+ "/" +:+ ("game/players" +:+ "/" +:+ pid))).
  by rewrite !keys_of_append, (keys_of_segment _ Hroom), (keys_of_segment _ Hpid).
Qed.

Lemma keys_of_garbage_path st pid :
  roomId st = room → segment pid →
  keys_of (garbage_path st pid) = game_keys room ++ ["garbage"; pid].
Proof.
  intros Hst Hpid. unfold garbage_path. rewrite Hst.
  change ("rooms/tetris/" +:+ room +:+ "/game/garbage/" +:+ pid)
    with ("rooms/tetris" +:+ "/" +:+ (room +:+ "/" +:+ ("game/garbage" +:+ "/" +:+ pid))).
  by rewrite !keys_of_append, (keys_of_segment _ Hroom), (keys_of_segment _ Hpid).
Qed.

(** What a listener reads off the game node is what the store holds. *)
Lemma store_alive_snapshot db st p :
  roomId st = room →
  store_alive room db p
  = prop (prop (prop (get db (game_path st)) "players") p) "alive".
Proof.
  intros Hst. unfold store_alive, get. rewrite (keys_of_game_path _ Hst).
  rewrite get_keys_app. by rewrite !get_keys_cons_prop.
Qed.

Lemma dead_game_truthy db st p :
  roomId st = room → store_alive room db p = VBool false →
  truthy (get db (game_path st)) = true.
Proof.
  intros Hst. rewrite (store_alive_snapshot _ st) by done.
  by destruct (get db (game_path st)).
Qed.

(** *** Writes that cannot revive anybody *)

(** The writes a round consists of once the game node exists: a patch of a
    player record that does not mention [alive] or sets it to [false], a
    patch of the game node that does not mention [players], a counter under
    [garbage]. *)
Definition benign w : Prop :=
  match w with
  | WUpdate path patch =>
      (∃ q, segment q
            ∧ keys_of path = game_keys room ++ ["players"; q]
            ∧ (spread patch !! "alive" = None
               ∨ spread patch !! "alive" = Some (VBool false)))
      ∨ (keys_of path = game_keys room ∧ spread patch !! "players" = None)
  | WSet path _ =>
      ∃ t, segment t ∧ keys_of path = game_keys room ++ ["garbage"; t]
  end.

Lemma benign_keeps_dead db w p :
  benign w →
  store_alive room db p = VBool false →
  store_alive room (apply_write db w).1 p = VBool false.
Proof.
  unfold store_alive. intros Hw Hdead.
  destruct w as [path value|path patch]; cbn [benign apply_write] in Hw |- *.
  - destruct Hw as (t & Ht & Hkeys). rewrite data_set, Hkeys.
    rewrite get_set_keys_frame; [done| |].
    + intros [k Hk]. simpl in Hk. by simplify_eq.
    + intros [k Hk]. simpl in Hk. by simplify_eq.
  - rewrite data_update.
    destruct Hw as [(q & Hq & Hkeys & Halive)|[Hkeys Hplayers]]; rewrite Hkeys.
    + destruct (decide (q = p)) as [->|Hne].
      * change (game_keys room ++ ["players"; p; "alive"])
          with ((game_keys room ++ ["players"; p]) ++ ["alive"]) in Hdead |- *.
        destruct Halive as [Hnone|Hfalse].
        -- rewrite get_update_keep; [done|done|done|]. by rewrite Hdead.
        -- rewrite get_update_hit with (v := VBool false); done.
      * rewrite get_set_keys_frame; [done| |].
        -- intros [k Hk]. simpl in Hk. by simplify_eq.
        -- intros [k Hk]. simpl in Hk. by simplify_eq.
    + change (game_keys room ++ ["players"; p; "alive"])
        with (game_keys room ++ "players" :: [p; "alive"]) in Hdead |- *.
      rewrite get_update_keep; [done|done|done|]. by rewrite Hdead.
Qed.

Lemma perform_benign db effects p :
  (∀ w, In (Store w) effects → benign w) →
  store_alive room db p = VBool false →
  store_alive room (perform db effects) p = VBool false.
Proof.
  revert db. induction effects as [|e effects IH]; intros db Hall Hdead; [done|].
  unfold perform. cbn [foldl]. apply IH.
  - intros w Hin. apply Hall. by right.
  - destruct e as [w| |]; [|done|done].
    apply benign_keeps_dead; [|done]. apply Hall. by left.
Qed.

(** *** The [players] object under the handlers *)

Definition alive_of p ps : option Value := alive <$> lookup_player p ps.

(** Every local entry sits under its own identifier, a segment. *)
Definition ids_ok ps : Prop :=
  Forall (λ kp : string * Player, id kp.2 = VStr kp.1 ∧ segment kp.1) ps.

Definition client_ok st : Prop :=
  roomId st = room ∧ segment (playerId st) ∧ ids_ok (players st).

Lemma lookup_player_app p ps qs :
  lookup_player p (ps ++ qs)
  = match lookup_player p ps with
    | Some x => Some x
    | None => lookup_player p qs
    end.
Proof.
  induction ps as [|[k q] ps IH]; simpl; [done|].
  by destruct (String.eqb k p).
Qed.

Lemma lookup_alter_player_eq f p ps :
  lookup_player p (alter_player f p ps) = f <$> lookup_player p ps.
Proof.
  induction ps as [|[k q] ps IH]; simpl; [done|].
  destruct (String.eqb k p) eqn:Hk; simpl; by rewrite Hk.
Qed.

Lemma lookup_alter_player_ne f k p ps :
  k ≠ p → lookup_player p (alter_player f k ps) = lookup_player p ps.
Proof.
  intros Hne. induction ps as [|[k' q] ps IH]; simpl; [done|].
  destruct (String.eqb k' k) eqn:Hk; simpl.
  - apply String.eqb_eq in Hk as ->.
    by rewrite (proj2 (String.eqb_neq k p) Hne).
  - by rewrite IH.
Qed.

Lemma lookup_player_In p ps q :
  lookup_player p ps = Some q → In (p, q) ps.
Proof.
  induction ps as [|[k q'] ps IH]; simpl; [done|].
  destruct (String.eqb k p) eqn:Hk.
  - apply String.eqb_eq in Hk as ->. intros [= ->]. by left.
  - intros H. right. by apply IH.
Qed.

Lemma ids_ok_alter f k ps :
  (∀ q, id (f q) = id q) → ids_ok ps → ids_ok (alter_player f k ps).
Proof.
  intros Hf. unfold ids_ok.
  induction ps as [|[k' q] ps IH]; simpl; [done|].
  intros [Hq Hps]%Forall_cons. destruct (String.eqb k' k).
  - apply Forall_cons. split; [|done]. simpl in *. by rewrite Hf.
  - apply Forall_cons. split; [done|]. by apply IH.
Qed.

(** Room snapshots only add entries, and add them alive. *)
Lemma add_missing_keeps ps member p v :
  alive_of p ps = Some v → alive_of p (add_missing ps member) = Some v.
Proof.
  unfold alive_of, add_missing. intros Hp.
  destruct (lookup_player (to_string (prop member "id")) ps); [done|].
  rewrite lookup_player_app. by destruct (lookup_player p ps).
Qed.

Lemma add_missing_dead ps member p :
  alive_of p (add_missing ps member) = Some (VBool false) →
  alive_of p ps = Some (VBool false).
Proof.
  unfold alive_of, add_missing.
  destruct (lookup_player (to_string (prop member "id")) ps); [done|].
  rewrite lookup_player_app. destruct (lookup_player p ps); [done|].
  simpl. by destruct (String.eqb _ p).
Qed.

Lemma add_missing_ids ps member :
  member_ok member → ids_ok ps → ids_ok (add_missing ps member).
Proof.
  intros (pid & Hid & Hseg) Hps. unfold add_missing.
  destruct (lookup_player _ ps); [done|].
  apply Forall_app. split; [done|].
  apply Forall_cons. split; [|done]. simpl. by rewrite Hid.
Qed.

Lemma fold_add_missing_keeps members ps p v :
  alive_of p ps = Some v → alive_of p (foldl add_missing ps members) = Some v.
Proof.
  revert ps. induction members as [|m members IH]; intros ps Hp; [done|].
  simpl. by apply IH, add_missing_keeps.
Qed.

Lemma fold_add_missing_dead members ps p :
  alive_of p (foldl add_missing ps members) = Some (VBool false) →
  alive_of p ps = Some (VBool false).
Proof.
  revert ps. induction members as [|m members IH]; intros ps Hp; [done|].
  simpl in Hp. by apply add_missing_dead with m, IH.
Qed.

Lemma fold_add_missing_ids members ps :
  Forall member_ok members → ids_ok ps → ids_ok (foldl add_missing ps members).
Proof.
  revert ps. induction members as [|m members IH]; intros ps Hm Hps; [done|].
  apply Forall_cons in Hm as [Hm Hrest]. simpl.
  by apply IH, add_missing_ids.
Qed.

Lemma roomListener_players st roomData now :
  players (roomListener st roomData now).1
  = if truthy roomData && truthy (prop roomData "players")
    then foldl add_missing (players st) (object_values (prop roomData "players"))
    else players st.
Proof.
  unfold roomListener. destruct (truthy roomData); simpl; [|done].
  destruct (truthy (prop roomData "players")); simpl;
    by destruct (is_str _ _ && negb _).
Qed.

Lemma roomListener_identity st roomData now :
  roomId (roomListener st roomData now).1 = roomId st
  ∧ playerId (roomListener st roomData now).1 = playerId st.
Proof.
  unfold roomListener. destruct (truthy roomData); simpl; [|done].
  destruct (truthy (prop roomData "players")); simpl;
    by destruct (is_str _ _ && negb _).
Qed.

(** Game snapshots copy the server's flag onto the entries of the
    opponents the snapshot names. *)
Lemma merge_one_alive me sp ps k p :
  alive_of p (merge_one me sp ps k)
  = if bool_decide (k = p ∧ p ≠ me)
    then (λ _, prop (prop sp p) "alive") <$> alive_of p ps
    else alive_of p ps.
Proof.
  unfold merge_one, alive_of.
  destruct (String.eqb k me) eqn:Hme; simpl.
  { apply String.eqb_eq in Hme as ->.
    rewrite bool_decide_eq_false_2; [done|]. by intros [-> ?]. }
  apply String.eqb_neq in Hme.
  destruct (decide (k = p)) as [->|Hne].
  - rewrite (bool_decide_eq_true_2 (p = p ∧ p ≠ me)) by done.
    destruct (lookup_player p ps) as [q|] eqn:Hq.
    + rewrite bool_decide_eq_true_2 by by eexists.
      by rewrite lookup_alter_player_eq, Hq.
    + rewrite bool_decide_eq_false_2 by by intros [? ?].
      by rewrite Hq.
  - rewrite (bool_decide_eq_false_2 (k = p ∧ p ≠ me)) by by intros [? ?].
    destruct (bool_decide (is_Some (lookup_player k ps))); [|done].
    by rewrite lookup_alter_player_ne.
Qed.

Lemma fold_merge_alive me sp keys ps p :
  alive_of p (foldl (merge_one me sp) ps keys)
  = if bool_decide (p ∈ keys ∧ p ≠ me)
    then (λ _, prop (prop sp p) "alive") <$> alive_of p ps
    else alive_of p ps.
Proof.
  revert ps. induction keys as [|k keys IH]; intros ps.
  { rewrite bool_decide_eq_false_2; [done|]. by intros [?%elem_of_nil ?]. }
  cbn [foldl]. rewrite IH, merge_one_alive.
  destruct (decide (p ≠ me)) as [Hme|Hme].
  2: { rewrite !bool_decide_eq_false_2; [done|by intros [??]..]. }
  destruct (decide (k = p)) as [->|Hk];
    destruct (decide (p ∈ keys)) as [Hin|Hin].
  - rewrite !bool_decide_eq_true_2; [|split; [apply list_elem_of_here|done]|done..].
    by destruct (alive_of p ps).
  - rewrite (bool_decide_eq_false_2 (p ∈ keys ∧ _)) by by intros [??].
    rewrite (bool_decide_eq_true_2 (p = p ∧ _)) by done.
    rewrite (bool_decide_eq_true_2 (p ∈ p :: keys ∧ _)); [done|].
    split; [apply list_elem_of_here|done].
  - rewrite (bool_decide_eq_false_2 (k = p ∧ _)) by by intros [??].
    rewrite (bool_decide_eq_true_2 (p ∈ keys ∧ _)) by done.
    rewrite (bool_decide_eq_true_2 (p ∈ k :: keys ∧ _)); [done|].
    split; [by apply list_elem_of_further|done].
  - rewrite !bool_decide_eq_false_2; [done| | |].
    + intros [[?|?]%elem_of_cons ?]; done.
    + by intros [??].
    + by intros [??].
Qed.

Lemma fold_merge_ids me sp keys ps :
  ids_ok ps → ids_ok (foldl (merge_one me sp) ps keys).
Proof.
  revert ps. induction keys as [|k keys IH]; intros ps Hps; [done|].
  cbn [foldl]. apply IH. unfold merge_one.
  destruct (_ && _); [|done]. by apply ids_ok_alter.
Qed.

Lemma handleGameOver_same st finalRankings :
  players (handleGameOver st finalRankings) = players st
  ∧ roomId (handleGameOver st finalRankings) = roomId st
  ∧ playerId (handleGameOver st finalRankings) = playerId st.
Proof. unfold handleGameOver. by destruct (_ || _). Qed.

Lemma gameListener_players st gameData :
  players (gameListener st gameData).1
  = if truthy gameData && truthy (prop gameData "players")
    then foldl (merge_one (playerId st) (prop gameData "players"))
               (players st) (object_keys (prop gameData "players"))
    else players st.
Proof.
  unfold gameListener. destruct (truthy gameData); simpl; [|done].
  destruct (prop (prop gameData "garbage") (playerId st)) as [| | |n| |];
    try destruct (0 <? n)%Z; simpl;
    destruct (truthy (prop gameData "gameFinished")); simpl;
    rewrite ?(proj1 (handleGameOver_same _ _));
    by destruct (truthy (prop gameData "players")).
Qed.

Lemma gameListener_identity st gameData :
  roomId (gameListener st gameData).1 = roomId st
  ∧ playerId (gameListener st gameData).1 = playerId st.
Proof.
  unfold gameListener. destruct (truthy gameData); simpl; [|done].
  destruct (prop (prop gameData "garbage") (playerId st)) as [| | |n| |];
    try destruct (0 <? n)%Z; simpl;
    destruct (truthy (prop gameData "gameFinished")); simpl;
    rewrite ?(proj1 (proj2 (handleGameOver_same _ _))),
            ?(proj2 (proj2 (handleGameOver_same _ _)));
    by destruct (truthy (prop gameData "players")).
Qed.

(** *** One handler *)

Lemma room_view_players db st lobby :
  prop (room_view db st lobby) "players" = default VUndef (lobby !! "players").
Proof. unfold room_view, prop. by rewrite lookup_insert_ne. Qed.

Lemma room_view_game db st lobby :
  prop (room_view db st lobby) "game" = get db (game_path st).
Proof. unfold room_view, prop. by rewrite lookup_insert_eq. Qed.

Lemma alive_of_alter_rank v k p ps :
  alive_of p (alter_player (set_rank v) k ps) = alive_of p ps.
Proof.
  unfold alive_of. destruct (decide (k = p)) as [->|Hne].
  - rewrite lookup_alter_player_eq. by destruct (lookup_player p ps).
  - by rewrite lookup_alter_player_ne.
Qed.

Lemma settle_players st :
  players (playerDied_settle st).1 = players st
  ∨ ∃ winner, In winner (alive_players (players st))
              ∧ players (playerDied_settle st).1
                = alter_player (set_rank (VNum 1)) (to_string (id winner)) (players st).
Proof.
  unfold playerDied_settle. destruct (_ && _); [|by left].
  destruct (alive_players (players st)) as [|winner [|]]; [by left| |by left].
  right. exists winner. split; [by left|done].
Qed.

Lemma settle_identity st :
  roomId (playerDied_settle st).1 = roomId st
  ∧ playerId (playerDied_settle st).1 = playerId st.
Proof.
  unfold playerDied_settle. destruct (_ && _); [|done].
  by destruct (alive_players (players st)) as [|winner [|]].
Qed.

Lemma react_client_ok st db ev :
  client_ok st → event_ok ev → client_ok (react st db ev).1.
Proof.
  intros (Hst & Hme & Hids) Hev. unfold client_ok.
  destruct ev as [c lobby now|c|c|c|c b sc li|c t n|c]; cbn [react].
  - destruct (roomListener_identity st (room_view db st lobby) now) as [-> ->].
    split; [done|]. split; [done|].
    rewrite roomListener_players. destruct (_ && _); [|done].
    apply fold_add_missing_ids; [|done]. by rewrite room_view_players.
  - destruct (gameListener_identity st (get db (game_path st))) as [-> ->].
    split; [done|]. split; [done|].
    rewrite gameListener_players. destruct (_ && _); [|done].
    by apply fold_merge_ids.
  - split; [done|]. split; [done|]. simpl. by apply ids_ok_alter.
  - destruct (settle_identity st) as [-> ->].
    split; [done|]. split; [done|].
    destruct (settle_players st) as [->|(winner & _ & ->)]; [done|].
    by apply ids_ok_alter.
  - done.
  - done.
  - split; [done|]. split; [done|]. apply Forall_nil_2.
Qed.

Lemma react_alive_keep st db ev p :
  client_ok st →
  stays (actor ev) ev →
  alive_of p (players st) = Some (VBool false) →
  (p ≠ playerId st → store_alive room db p = VBool false) →
  alive_of p (players (react st db ev).1) = Some (VBool false).
Proof.
  intros (Hst & Hme & Hids) Hstays Hlocal Hstore.
  destruct ev as [c lobby now|c|c|c|c b sc li|c t n|c]; cbn [react];
    [| | | | | |by destruct Hstays].
  - rewrite roomListener_players. destruct (_ && _); [|done].
    by apply fold_add_missing_keeps.
  - rewrite gameListener_players. destruct (_ && _); [|done].
    rewrite fold_merge_alive, Hlocal.
    destruct (bool_decide _) eqn:Hmerge; [|done].
    apply bool_decide_eq_true_1 in Hmerge as [_ Hne]. simpl.
    by rewrite <- (store_alive_snapshot db st p Hst), Hstore.
  - simpl. unfold alive_of in *. destruct (decide (playerId st = p)) as [<-|Hne].
    + rewrite lookup_alter_player_eq.
      by destruct (lookup_player (playerId st) (players st)).
    + by rewrite lookup_alter_player_ne.
  - destruct (settle_players st) as [->|(winner & _ & ->)]; [done|].
    by rewrite alive_of_alter_rank.
  - done.
  - done.
Qed.

Lemma react_alive_back st db ev p :
  client_ok st →
  p ≠ playerId st →
  alive_of p (players (react st db ev).1) = Some (VBool false) →
  alive_of p (players st) = Some (VBool false)
  ∨ store_alive room db p = VBool false.
Proof.
  intros (Hst & Hme & Hids) Hne.
  destruct ev as [c lobby now|c|c|c|c b sc li|c t n|c]; cbn [react];
    [| | | | | |done].
  - rewrite roomListener_players. destruct (_ && _); [|by left].
    intros ?%fold_add_missing_dead. by left.
  - rewrite gameListener_players. destruct (_ && _); [|by left].
    rewrite fold_merge_alive.
    destruct (bool_decide _); [|by left].
    rewrite (store_alive_snapshot db st p Hst).
    destruct (alive_of p (players st)); [|done]. simpl. intros [= ->]. by right.
  - simpl. unfold alive_of. rewrite lookup_alter_player_ne by done. by left.
  - destruct (settle_players st) as [->|(winner & _ & ->)]; [by left|].
    rewrite alive_of_alter_rank. by left.
  - by left.
  - by left.
Qed.

Lemma alive_players_In winner ps :
  In winner (alive_players ps) → ∃ k, In (k, winner) ps.
Proof.
  unfold alive_players. intros [Hin _]%filter_In.
  apply list_elem_of_In, list_elem_of_fmap in Hin as ([k q] & -> & Hin).
  exists k. by apply list_elem_of_In.
Qed.

Lemma winner_segment st winner :
  client_ok st → In winner (alive_players (players st)) →
  segment (to_string (id winner)).
Proof.
  intros (_ & _ & Hids) [k Hin]%alive_players_In.
  apply list_elem_of_In in Hin.
  destruct (proj1 (Forall_forall _ _) Hids _ Hin) as [Hid Hseg].
  simpl in Hid, Hseg. by rewrite Hid.
Qed.

(** Once some player is dead in the store, every write a handler issues is
    a benign one. *)
Lemma react_writes_benign st db ev p w :
  client_ok st → event_ok ev →
  store_alive room db p = VBool false →
  In (Store w) (react st db ev).2 → benign w.
Proof.
  intros Hok Hev Hdead Hin. pose proof Hok as (Hst & Hme & Hids).
  destruct ev as [c lobby now|c|c|c|c b sc li|c t n|c]; cbn [react] in Hin;
    [| | | | | |done].
  - apply roomListener_writes in Hin as (_ & Habsent & _); [|by eexists].
    rewrite room_view_game in Habsent.
    by rewrite (dead_game_truthy db st p Hst Hdead) in Habsent.
  - apply gameListener_writes in Hin. injection Hin as ->.
    exists (playerId st). split; [done|]. by apply keys_of_garbage_path.
  - destruct Hin as [[= <-]|[|[]]]; [|done].
    left. exists (playerId st). split; [done|].
    split; [by apply keys_of_player_path|]. by right.
  - unfold playerDied_settle in Hin.
    destruct (_ && _); [|done].
    destruct (alive_players (players st)) as [|winner [|]] eqn:Hleft.
    + destruct Hin as [[= <-]|[]]. right. split; [by apply keys_of_game_path|done].
    + destruct Hin as [[= <-]|[[= <-]|[]]].
      * left. exists (to_string (id winner)).
        assert (segment (to_string (id winner))) as Hseg.
        { apply (winner_segment st); [done|]. rewrite Hleft. by left. }
        split; [done|]. split; [by apply keys_of_player_path|]. by left.
      * right. split; [by apply keys_of_game_path|done].
    + destruct Hin as [[= <-]|[]]. right. split; [by apply keys_of_game_path|done].
  - destruct Hin as [[= <-]|[]].
    left. exists (playerId st). split; [done|].
    split; [by apply keys_of_player_path|]. by left.
  - destruct Hin as [[= <-]|[]].
    exists t. split; [done|]. by apply keys_of_garbage_path.
Qed.

Lemma react_keeps_dead st db ev p :
  client_ok st → event_ok ev →
  store_alive room db p = VBool false →
  store_alive room (perform db (react st db ev).2) p = VBool false.
Proof.
  intros Hok Hev Hdead. apply perform_benign; [|done].
  intros w Hin. by apply (react_writes_benign st db ev p).
Qed.

(** *** The whole system *)

(** Every client is well identified, and an opponent a client holds as
    dead is dead in the store. *)
Definition coherent (sys : System) : Prop :=
  (∀ c st, clients sys !! c = Some st → client_ok st)
  ∧ (∀ c st p, clients sys !! c = Some st → p ≠ playerId st →
               alive_of p (players st) = Some (VBool false) →
               store_alive room (store sys) p = VBool false).

Lemma step_store sys ev p :
  coherent sys → event_ok ev →
  store_alive room (store sys) p = VBool false →
  store_alive room (store (step sys ev)) p = VBool false.
Proof.
  intros [Hok _] Hev Hdead. unfold step.
  destruct (clients sys !! actor ev) as [st|] eqn:Hst; [|done].
  simpl. apply react_keeps_dead; [by eapply Hok|done|done].
Qed.

Lemma step_coherent sys ev :
  coherent sys → event_ok ev → coherent (step sys ev).
Proof.
  intros Hcoh Hev. pose proof Hcoh as [Hok Hmirror]. unfold step.
  destruct (clients sys !! actor ev) as [st|] eqn:Hst; [|done].
  pose proof (Hok _ _ Hst) as Hst_ok.
  split; simpl.
  - intros c st' Hc. destruct (decide (actor ev = c)) as [<-|Hne].
    + rewrite lookup_insert_eq in Hc. injection Hc as <-.
      by apply react_client_ok.
    + rewrite lookup_insert_ne in Hc by done. by eapply Hok.
  - intros c st' p Hc Hp Hlocal.
    apply react_keeps_dead; [done|done|].
    destruct (decide (actor ev = c)) as [<-|Hne].
    + rewrite lookup_insert_eq in Hc. injection Hc as <-.
      assert (playerId (react st (store sys) ev).1 = playerId st) as Hid.
      { destruct ev; cbn [react]; try done.
        - apply roomListener_identity.
        - apply gameListener_identity.
        - apply settle_identity. }
      rewrite Hid in Hp.
      destruct (react_alive_back st (store sys) ev p Hst_ok Hp Hlocal) as [Hwas|Hdead];
        [|done].
      by eapply Hmirror.
    + rewrite lookup_insert_ne in Hc by done. by eapply Hmirror.
Qed.

Lemma step_local sys ev c p :
  coherent sys → event_ok ev → stays c ev →
  local_alive sys c p = Some (VBool false) →
  local_alive (step sys ev) c p = Some (VBool false).
Proof.
  intros [Hok Hmirror] Hev Hstays. unfold local_alive, step.
  destruct (clients sys !! actor ev) as [st|] eqn:Hst; [|done].
  simpl. destruct (decide (actor ev = c)) as [<-|Hne].
  - rewrite Hst, lookup_insert_eq. simpl. intros Hlocal.
    apply react_alive_keep; [by eapply Hok|done|done|].
    intros Hp. by eapply Hmirror.
  - by rewrite lookup_insert_ne.
Qed.

Lemma run_coherent sys evs :
  coherent sys → Forall event_ok evs → coherent (run sys evs).
Proof.
  revert sys. induction evs as [|ev evs IH]; intros sys Hcoh Hevs; [done|].
  apply Forall_cons in Hevs as [Hev Hevs]. simpl.
  apply IH; [by apply step_coherent|done].
Qed.

Lemma run_persists sys evs c p :
  coherent sys → Forall event_ok evs →
  (Forall (stays c) evs →
   local_alive sys c p = Some (VBool false) →
   local_alive (run sys evs) c p = Some (VBool false))
  ∧ (store_alive room (store sys) p = VBool false →
     store_alive room (store (run sys evs)) p = VBool false).
Proof.
  revert sys. induction evs as [|ev evs IH]; intros sys Hcoh Hevs; [done|].
  apply Forall_cons in Hevs as [Hev Hevs]. simpl.
  destruct (IH (step sys ev)) as [Hlocal Hstore];
    [by apply step_coherent|done|].
  split.
  - intros [Hstay Hstays]%Forall_cons H. by apply Hlocal, step_local.
  - intros H. by apply Hstore, step_store.
Qed.

Lemma fresh_round_coherent db pids :
  Forall segment pids → coherent (fresh_round room db pids).
Proof.
  intros Hpids.
  assert (∀ c st, clients (fresh_round room db pids) !! c = Some st →
                  ∃ pid, pid ∈ pids ∧ st = arriving_in room pid) as Hfresh.
  { intros c st Hc. simpl in Hc.
    apply elem_of_list_to_map_2, elem_of_lookup_imap in Hc as (i & pid & Heq & Hpid).
    simplify_eq. exists pid. split; [|done].
    by eapply list_elem_of_lookup_2. }
  split.
  - intros c st (pid & Hin & ->)%Hfresh. split; [done|].
    split; [|apply Forall_nil_2].
    simpl. by apply (proj1 (Forall_forall _ _) Hpids).
  - by intros c st p (pid & Hin & ->)%Hfresh _ Hdead.
Qed.

(** Start from clients that have just opened the game page of a room,
    against any store, and let any events happen: room and game snapshots,
    eliminations and their win-condition checks, board and garbage writes,
    page reloads, all with segment identifiers.  Once the store holds a
    player's [alive] as [false] it holds it as [false] after every further
    sequence of such events; and once a client holds a player's [alive] as
    [false] it holds it as [false] for as long as that client's own page is
    not loaded again. *)
Lemma alive_false_is_final
      (db : LocalDatabase) (pids : list string) (before after : list Event)
      (c : nat) (p : string) :
  Forall segment pids →
  Forall event_ok before →
  Forall event_ok after →
  (Forall (stays c) after →
   local_alive (run (fresh_round room db pids) before) c p = Some (VBool false) →
   local_alive (run (run (fresh_round room db pids) before) after) c p
   = Some (VBool false))
  ∧ (store_alive room (store (run (fresh_round room db pids) before)) p
     = VBool false →
     store_alive room (store (run (run (fresh_round room db pids) before) after)) p
     = VBool false).
Proof.
  intros Hpids Hbefore Hafter.
  apply run_persists; [|done].
  apply run_coherent; [|done].
  by apply fresh_round_coherent.
Qed.

End Round.

(** A round of two: the host opens the page and writes the initial
    snapshot, the guest opens the page, is eliminated, and the host merges
    the news; later the guest's check resumes, boards and garbage travel and
    more snapshots arrive. *)
Definition lobby_view : gmap string Value :=
  list_to_map
    [("hostId", VStr "ann");
     ("players",
      VObj (list_to_map
              [("ann", VObj (list_to_map [("id", VStr "ann"); ("name", VStr "Ann")]));
               ("bob", VObj (list_to_map [("id", VStr "bob"); ("name", VStr "Bob")]))]))].

Definition empty_store : LocalDatabase := {| data := ∅; listeners := [] |}.

Definition opening_events : list Event :=
  [RoomSnapshot 0 lobby_view 1; RoomSnapshot 1 lobby_view 1; Died 1; GameSnapshot 0].

Definition later_events : list Event :=
  [Settled 1; BoardSent 0 blank_board 40 1; RoomSnapshot 0 lobby_view 2;
   GameSnapshot 0; GarbageSent 0 "bob" 2; GameSnapshot 1; RoomSnapshot 1 lobby_view 3].

(** The eliminated guest loads the game page again; its room listener and
    then its game listener fire. *)
Definition reload_events : list Event :=
  [Reloaded 1; RoomSnapshot 1 lobby_view 2; GameSnapshot 1].

(** A round of three, the host going out first: everybody opens the page
    and sees the game node, the host is eliminated and its check runs, the
    others merge the news, a guest is eliminated and its check runs, the
    others merge the news. *)
Definition lobby_of_three : gmap string Value :=
  list_to_map
    [("hostId", VStr "ann");
     ("players",
      VObj (list_to_map
              [("ann", VObj (list_to_map [("id", VStr "ann"); ("name", VStr "Ann")]));
               ("bob", VObj (list_to_map [("id", VStr "bob"); ("name", VStr "Bob")]));
               ("cy", VObj (list_to_map [("id", VStr "cy"); ("name", VStr "Cy")]))]))].

Definition host_out : list Event :=
  [RoomSnapshot 0 lobby_of_three 1; RoomSnapshot 1 lobby_of_three 1;
   RoomSnapshot 2 lobby_of_three 1;
   GameSnapshot 0; GameSnapshot 1; GameSnapshot 2;
   Died 0; Settled 0; GameSnapshot 1; GameSnapshot 2].

Definition guest_out : list Event :=
  [Died 1; Settled 1; GameSnapshot 0; GameSnapshot 2].

Ltac segments :=
  repeat (apply Forall_cons_2; [split; [discriminate|reflexivity]|]);
  apply Forall_nil_2.

Ltac members_ok :=
  match goal with
  | |- Forall member_ok ?l =>
      let l' := eval vm_compute in l in
      change (Forall member_ok l');
      repeat (apply Forall_cons_2;
              [eexists; split; [reflexivity|split; [discriminate|reflexivity]]|]);
      apply Forall_nil_2
  end.

Ltac events_ok :=
  repeat (apply Forall_cons_2;
          [first [exact I
                 | split; [discriminate|reflexivity]
                 | cbv [event_ok]; members_ok]|]);
  apply Forall_nil_2.

(** The one-way lemma at work: the host keeps holding the eliminated guest
    as dead through the later events of the round. *)
Lemma alive_false_is_final_example :
  local_alive (run (run (fresh_round "r1" empty_store ["ann"; "bob"])
                        opening_events) later_events)
              0 "bob" = Some (VBool false).
Proof.
  assert (segment "r1") as Hroom by (split; [discriminate|reflexivity]).
  assert (Forall segment ["ann"; "bob"]) as Hpids by segments.
  assert (Forall event_ok opening_events) as Hopening by events_ok.
  assert (Forall event_ok later_events) as Hlater by events_ok.
  apply (alive_false_is_final "r1" Hroom empty_store ["ann"; "bob"]
           opening_events later_events 0 "bob" Hpids Hopening Hlater).
  - repeat (apply Forall_cons_2; [discriminate|]). apply Forall_nil_2.
  - vm_compute. reflexivity.
Qed.

(** C5.  The code does not keep the flag one-way on the client.  In a round
    of two, the guest is eliminated: its client and the store hold its
    [alive] as [false].  The guest's game page is then loaded again, which
    writes nothing and starts no new round: [init] empties [players], the
    room listener re-creates every entry with [alive: true], and the game
    listener merges the records of the other players only.  The client of
    the eliminated guest holds the guest's [alive] as [true] again, and is
    playing again, while the store still holds [false]. *)
Theorem reload_revives_own_flag :
  Forall event_ok opening_events
  ∧ Forall event_ok reload_events
  ∧ local_alive (run (fresh_round "r1" empty_store ["ann"; "bob"]) opening_events)
                1 "bob" = Some (VBool false)
  ∧ store_alive "r1"
      (store (run (fresh_round "r1" empty_store ["ann"; "bob"]) opening_events))
      "bob" = VBool false
  ∧ store (run (run (fresh_round "r1" empty_store ["ann"; "bob"]) opening_events)
               reload_events)
    = store (run (fresh_round "r1" empty_store ["ann"; "bob"]) opening_events)
  ∧ local_alive (run (run (fresh_round "r1" empty_store ["ann"; "bob"])
                          opening_events) reload_events)
                1 "bob" = Some (VBool true)
  ∧ gameOver <$> clients (run (run (fresh_round "r1" empty_store ["ann"; "bob"])
                                   opening_events) reload_events) !! 1
    = Some false
  ∧ store_alive "r1"
      (store (run (run (fresh_round "r1" empty_store ["ann"; "bob"])
                       opening_events) reload_events))
      "bob" = VBool false.
Proof.
  split; [events_ok|]. split; [events_ok|].
  repeat split; vm_compute; reflexivity.
Qed.

(** C3.  The code does not finish the round when a guest's elimination
    decides it.  In a round of three the host is eliminated first (rank 3,
    two players left, so its check writes nothing).  Then a guest is
    eliminated: it records rank 2 for itself, its check finds exactly one
    player left alive, and because the client is not the host it writes
    neither the survivor's rank 1 nor the end of the round.  [playerDied] is
    the only caller of [finishGame] and runs on a client's own elimination
    only, so the store keeps [gameFinished] at [false] and the survivor at
    rank 0, and the survivor's client is not game-over. *)
Theorem guest_elimination_leaves_round_open :
  Forall event_ok (host_out ++ guest_out)
  ∧ get (store (run (fresh_round "r1" empty_store ["ann"; "bob"; "cy"]) host_out))
        "rooms/tetris/r1/game/players/ann/rank" = VNum 3
  ∧ (isHost <$> clients (run (fresh_round "r1" empty_store ["ann"; "bob"; "cy"])
                             host_out) !! 1) = Some false
  ∧ ((λ st, length (alive_players (players st)))
       <$> clients (run (fresh_round "r1" empty_store ["ann"; "bob"; "cy"])
                        host_out) !! 1) = Some 2
  ∧ ((λ st, (playerDied st).2)
       <$> clients (run (fresh_round "r1" empty_store ["ann"; "bob"; "cy"])
                        host_out) !! 1)
    = Some [Store (WUpdate "rooms/tetris/r1/game/players/bob" (death_patch 2));
            ShowNotification (Eliminated 2)]
  ∧ ((λ st, to_string <$> (id <$> alive_players (players st)))
       <$> clients (run (fresh_round "r1" empty_store ["ann"; "bob"; "cy"])
                        (host_out ++ guest_out)) !! 1) = Some ["cy"]
  ∧ get (store (run (fresh_round "r1" empty_store ["ann"; "bob"; "cy"])
                    (host_out ++ guest_out)))
        "rooms/tetris/r1/game/players/bob/rank" = VNum 2
  ∧ get (store (run (fresh_round "r1" empty_store ["ann"; "bob"; "cy"])
                    (host_out ++ guest_out)))
        "rooms/tetris/r1/game/players/cy/alive" = VBool true
  ∧ get (store (run (fresh_round "r1" empty_store ["ann"; "bob"; "cy"])
                    (host_out ++ guest_out)))
        "rooms/tetris/r1/game/players/cy/rank" = VNum 0
  ∧ get (store (run (fresh_round "r1" empty_store ["ann"; "bob"; "cy"])
                    (host_out ++ guest_out)))
        "rooms/tetris/r1/game/gameFinished" = VBool false
  ∧ (gameOver <$> clients (run (fresh_round "r1" empty_store ["ann"; "bob"; "cy"])
                               (host_out ++ guest_out)) !! 2) = Some false.
Proof.
  split; [events_ok|].
  repeat split; vm_compute; reflexivity.
Qed.

(** ** Every way to the initial snapshot *)

Lemma length_append (s t : string) :
  String.length (s +:+ t) = String.length s + String.length t.
Proof. induction s as [|c s IH]; simpl; [done|]. by rewrite IH. Qed.

(** The game node is none of the other nodes the client writes with [set]. *)
Lemma garbage_path_not_game st pid : garbage_path st pid ≠ game_path st.
Proof.
  unfold garbage_path, game_path. intros H.
  apply (f_equal String.length) in H. rewrite !length_append in H.
  simpl in H. lia.
Qed.

Lemma status_path_not_game st : status_path st ≠ game_path st.
Proof.
  unfold status_path, game_path. intros H.
  apply (f_equal String.length) in H. rewrite !length_append in H.
  simpl in H. lia.
Qed.

Lemma members_path_not_game st : members_path st ≠ game_path st.
Proof.
  unfold members_path, game_path. intros H.
  apply (f_equal String.length) in H. rewrite !length_append in H.
  simpl in H. lia.
Qed.

Lemma room_view_host db st lobby :
  prop (room_view db st lobby) "hostId" = default VUndef (lobby !! "hostId").
Proof. unfold room_view, prop. by rewrite lookup_insert_ne. Qed.

(** In the Tetris client a [set] of the game node comes out of the room
    listener only, on the client the room names as host, when the store
    holds no game node. *)
Lemma react_sets_game st db ev value :
  In (Store (WSet (game_path st) value)) (react st db ev).2 →
  ∃ c lobby now, ev = RoomSnapshot c lobby now
    ∧ is_str (default VUndef (lobby !! "hostId")) (playerId st) = true
    ∧ truthy (get db (game_path st)) = false.
Proof.
  destruct ev as [c lobby now|c|c|c|c b sc li|c t n|c]; cbn [react]; intros Hin.
  - apply roomListener_writes in Hin as (Hhost & Habsent & _); [|by eexists].
    rewrite room_view_host in Hhost. rewrite room_view_game in Habsent.
    by exists c, lobby, now.
  - apply gameListener_writes in Hin.
    assert (garbage_path st (playerId st) = game_path st) as Hpath by congruence.
    by destruct (garbage_path_not_game st (playerId st)).
  - cbn in Hin.
    repeat (destruct Hin as [Hin|Hin]; [discriminate Hin|]). destruct Hin.
  - unfold playerDied_settle in Hin. destruct (_ && _); [|done].
    destruct (alive_players (players st)) as [|winner [|]];
      cbn [snd finishGame In] in Hin;
      repeat (destruct Hin as [Hin|Hin]; [discriminate Hin|]); destruct Hin.
  - cbn in Hin.
    repeat (destruct Hin as [Hin|Hin]; [discriminate Hin|]). destruct Hin.
  - destruct Hin as [Hin|[]].
    assert (garbage_path st t = game_path st) as Hpath by congruence.
    by destruct (garbage_path_not_game st t).
  - done.
Qed.

Lemma resetGame_clears st now value :
  In (WSet (game_path st) value) (resetGame st now) → value = VNull.
Proof.
  intros [Hin|[Hin|[Hin|[]]]].
  - congruence.
  - assert (status_path st = game_path st) as Hpath by congruence.
    by destruct (status_path_not_game st).
  - assert (members_path st = game_path st) as Hpath by congruence.
    by destruct (members_path_not_game st).
Qed.

(** In the second revision of the five-in-a-row client the restart button
    reaches [initializeGame] on the host only. *)
Lemma on_restart_click_guard ost connected fetched swap now path value :
  In (Omok.StoreSet path value)
     (Omok.on_restart_click ost connected fetched swap now).2 →
  Omok.isHost ost = true ∧ connected = true ∧ Omok.isInitializing ost = false.
Proof.
  unfold Omok.on_restart_click.
  destruct (Omok.isHost ost), connected; cbn; try (by intros [|[]]); try done.
  destruct (Omok.isInitializing ost); cbn; [by intros [|[]]|done].
Qed.

(** A room of two whose round is over. *)
Definition finished_room : Value :=
  VObj (list_to_map
          [("hostId", VStr "ann");
           ("players",
            VObj (list_to_map
                    [("ann", VObj (list_to_map [("id", VStr "ann"); ("name", VStr "Ann")]));
                     ("bob", VObj (list_to_map [("id", VStr "bob"); ("name", VStr "Bob")]))]));
           ("game",
            VObj (list_to_map [("gameOver", VBool true); ("winner", VStr "ann");
                               ("currentTurn", VStr "white")]))]).

(** The host of that room, as its room listener leaves it. *)
Definition omok_host : Omok.GameState :=
  (Omok.on_room_snapshot (omok_arriving "ann") finished_room finished_room false 5).1.

(** C1, as amended.  In the Tetris client, over every event of a round
    (snapshots, eliminations, board and garbage writes, reloads) a [set] of
    the game node is issued by the room listener only, on the client whose
    id is the room's host id and while the store holds no game node;
    [resetGame] sets the game node to [null] and nothing else there.  In
    the second revision of the five-in-a-row client the initial snapshot is
    the only [set]: the room listener issues it only on the client whose id
    is the room's host id, with no game node in the room snapshot and no
    initialisation under way; the restart button issues it only on the
    client that holds the host flag, which the room listener sets to that
    same comparison, but without any test of the game node; the unload
    handler never issues it. *)
Theorem initial_snapshot_guard
        (st : GameState) (db : LocalDatabase) (ev : Event) (value : Value) (now : Z)
        (ost : Omok.GameState) (oroomData fetched : Value) (swap connected : bool)
        (rev : Omok.Revision) (ols : gmap string string)
        (opath : string) (ovalue : Value) :
  (In (Store (WSet (game_path st) value)) (react st db ev).2 →
   ∃ c lobby now', ev = RoomSnapshot c lobby now'
     ∧ is_str (default VUndef (lobby !! "hostId")) (playerId st) = true
     ∧ truthy (get db (game_path st)) = false)
  ∧ (In (WSet (game_path st) value) (resetGame st now) → value = VNull)
  ∧ (In (Omok.StoreSet opath ovalue)
        (Omok.on_room_snapshot ost oroomData fetched swap now).2 →
     is_str (prop oroomData "hostId") (Omok.playerId ost) = true
     ∧ truthy (prop oroomData "game") = false
     ∧ Omok.isInitializing ost = false)
  ∧ (truthy oroomData = true →
     Omok.isHost (Omok.on_room_snapshot ost oroomData fetched swap now).1
     = is_str (prop oroomData "hostId") (Omok.playerId ost))
  ∧ (In (Omok.StoreSet opath ovalue)
        (Omok.on_restart_click ost connected fetched swap now).2 →
     Omok.isHost ost = true ∧ connected = true ∧ Omok.isInitializing ost = false)
  ∧ ¬ In (Omok.StoreSet opath ovalue)
         (Omok.handleBeforeUnload rev connected ost ols).2.
Proof.
  split; [apply react_sets_game|]. split; [apply resetGame_clears|].
  split; [apply Omok.on_room_snapshot_guard|]. split; [|split].
  - intros Hroom. unfold Omok.on_room_snapshot. rewrite Hroom. cbn [negb].
    by destruct (_ && _ && _).
  - apply on_restart_click_guard.
  - unfold Omok.handleBeforeUnload. cbn [snd].
    destruct (_ && _ && _), connected, rev; cbn; intros Hin;
      repeat (destruct Hin as [Hin|Hin]; [discriminate Hin|]); done.
Qed.

Lemma initial_snapshot_guard_witness :
  In (Omok.StoreSet "rooms/omok/r1/game"
        (Omok.fresh_game "ann" "bob" (VStr "Ann") (VStr "Bob") 9))
     (Omok.on_restart_click omok_host true finished_room false 9).2
  ∧ Omok.isHost omok_host = true.
Proof.
  assert (In (Omok.StoreSet "rooms/omok/r1/game"
                (Omok.fresh_game "ann" "bob" (VStr "Ann") (VStr "Bob") 9))
             (Omok.on_restart_click omok_host true finished_room false 9).2) as Hin
    by (vm_compute; left; reflexivity).
  split; [exact Hin|].
  exact (proj1 (proj1 (proj2 (proj2 (proj2 (proj2
           (initial_snapshot_guard
              (arriving "ann") empty_store (Reloaded 0) VNull 9
              omok_host finished_room finished_room false true
              Omok.SparseObjects ∅ "rooms/omok/r1/game"
              (Omok.fresh_game "ann" "bob" (VStr "Ann") (VStr "Bob") 9)))))) Hin)).
Defined.

(** C1 as stated fails for the host: with the game node of a finished round
    in the store, the room listener of the host writes nothing, but a click
    on the restart button makes the host write the initial snapshot over
    the game state that exists; on the other client the same click writes
    nothing. *)
Lemma host_restart_overwrites_game :
  truthy (prop finished_room "game") = true
  ∧ Omok.isHost omok_host = true
  ∧ (Omok.on_room_snapshot omok_host finished_room finished_room false 9).2 = []
  ∧ (Omok.on_restart_click omok_host true finished_room false 9).2
    = [Omok.StoreSet "rooms/omok/r1/game"
         (Omok.fresh_game "ann" "bob" (VStr "Ann") (VStr "Bob") 9);
       Omok.ShowNotification Omok.Restarted]
  ∧ (Omok.on_restart_click
       (Omok.on_room_snapshot (omok_arriving "bob") finished_room finished_room
                              false 5).1
       true finished_room false 9).2
    = [Omok.ShowNotification Omok.HostOnly].
Proof. repeat split; vm_compute; reflexivity. Qed.

End Tetris.

(* ===================================================================== *)
(** * The bomb-arena engine                                               *)
(* ===================================================================== *)

(** The engine's source file is not in the tree; the definitions of this
    module follow the specification text (sections 3, 4.1 and 4.3). *)

Module Arena.

(** Modelled from the spec: the tile kinds of the TileMap (section 3). *)
Inductive Tile : Type :=
| Empty | SolidWall | BreakableWall | BombOccupied | ExplosionOverlay.

(** Modelled from the spec: the Player entity (section 3), without its
    display name and colour: stable id, continuous position in tile units,
    item-modified attributes, active-bomb counter, lifecycle state. *)
Record Player : Type := {
  pid : nat;
  px : Q;
  py : Q;
  speed : Z;
  power : nat;
  maxBombs : Z;
  activeBombs : Z;
  alive : bool;
  trapped : bool;
  trappedAt : option Z
}.

(** Modelled from the spec: the Bomb entity (section 3): tile coordinate,
    owner, blast power captured at placement, placement time, escaped set. *)
Record Bomb : Type := {
  bx : Z;
  by_ : Z;
  owner : nat;
  blast : nat;
  placedAt : Z;
  escaped : gset nat
}.

(** Modelled from the spec: the Explosion entity (section 3). *)
Record Explosion : Type := {
  affected : list (Z * Z);
  createdAt : Z
}.

(** Modelled from the spec: the one-shot timers of section 5 (bomb fuses,
    chain-reaction delays, item-spawn delays, explosion expiry, the
    trapped-to-eliminated grace period), as messages carrying identifiers. *)
Inductive Action : Type :=
| Detonate (bomb : nat)
| SpawnItem (x y : Z)
| ExpireExplosion (explosion : nat)
| Eliminate (player : nat).

(** Modelled from the spec: a pending one-shot timer (section 5): the time
    at which it fires and what it triggers. *)
Record Timer : Type := { due : Z; action : Action }.

(** Modelled from the spec: the GameRound aggregate (section 3), with the
    pending timers; bombs and explosions are id-keyed maps (section 6).
    Items and the winner field play no part in placement and detonation
    and are left out. *)
Record Round : Type := {
  tiles : list (list Tile);
  players : list Player;
  bombs : gmap nat Bomb;
  explosions : gmap nat Explosion;
  timers : list Timer
}.

(** Modelled from the spec: the fuse duration of a bomb (section 4.3). *)
Definition FUSE : Z := 2500.

(** Modelled from the spec: the display duration of an explosion
    (section 3). *)
Definition EXPLOSION_DISPLAY : Z := 500.

(** Modelled from the spec: the grace period between Trapped and Eliminated
    (section 4.4). *)
Definition TRAP_GRACE : Z := 2000.

(** Modelled from the spec: [tileAt(x,y)] (section 4.1); [None] is the
    OutOfBounds failure. *)
Definition tileAt (g : Round) (x y : Z) : option Tile :=
  if (0 <=? x)%Z && (0 <=? y)%Z
  then row ← tiles g !! Z.to_nat y; row !! Z.to_nat x
  else None.

(** Modelled from the spec: rewriting one cell of the TileMap (the tile
    updates of sections 4.1 and 4.3); outside the grid nothing changes. *)
Definition put_tile (grid : list (list Tile)) (x y : Z) (t : Tile)
  : list (list Tile) :=
  if (0 <=? x)%Z && (0 <=? y)%Z
  then alter (λ row, <[Z.to_nat x := t]> row) (Z.to_nat y) grid
  else grid.

(** Modelled from the spec: field updates of the GameRound aggregate. *)
Definition with_tiles (g : Round) (grid : list (list Tile)) : Round :=
  {| tiles := grid; players := players g; bombs := bombs g;
     explosions := explosions g; timers := timers g |}.

(** Modelled from the spec: scheduling a one-shot timer (section 5). *)
Definition with_timer (g : Round) (t : Timer) : Round :=
  {| tiles := tiles g; players := players g; bombs := bombs g;
     explosions := explosions g; timers := timers g ++ [t] |}.

(** Modelled from the spec: [destroy(x,y)] (section 4.1) converts
    BreakableWall to Empty and is a no-op on any other tile kind. *)
Definition destroy (g : Round) (x y : Z) : Round :=
  match tileAt g x y with
  | Some BreakableWall => with_tiles g (put_tile (tiles g) x y Empty)
  | _ => g
  end.

(** Modelled from the spec: the live bomb, if any, that a tile holds
    (section 4.3, "the tile already holds a bomb"). *)
Definition bomb_at (g : Round) (x y : Z) : option nat :=
  fst <$> List.find (λ entry : nat * Bomb,
                       bool_decide (bx entry.2 = x ∧ by_ entry.2 = y))
                    (map_to_list (bombs g)).

(** Modelled from the spec: the player with a given stable id. *)
Definition find_player (g : Round) (who : nat) : option Player :=
  List.find (λ p, bool_decide (pid p = who)) (players g).

(** Modelled from the spec: the discretized tile of a player (section 3):
    the floor of the continuous coordinates. *)
Definition tile_of (p : Player) : Z * Z := (Qfloor (px p), Qfloor (py p)).

(** Modelled from the spec: a player with a new active-bomb counter. *)
Definition with_active (p : Player) (n : Z) : Player :=
  {| pid := pid p; px := px p; py := py p; speed := speed p; power := power p;
     maxBombs := maxBombs p; activeBombs := n; alive := alive p;
     trapped := trapped p; trappedAt := trappedAt p |}.

(** Modelled from the spec: incrementing or decrementing the active-bomb
    counter of the player [who] (section 4.3). *)
Definition adjust_active (g : Round) (who : nat) (delta : Z) : list Player :=
  (λ p, if bool_decide (pid p = who)
        then with_active p (activeBombs p + delta) else p) <$> players g.

(** Modelled from the spec: the placement contract (section 4.3).
    Rejected, leaving the round as it is, if the player is dead or trapped,
    if [activeBombs >= maxBombs], or if the player's current tile already
    holds a bomb.  On success: a Bomb with the player's current blast
    power, the tile marked BombOccupied, the active-bomb counter
    incremented, detonation scheduled after the fuse duration. *)
Definition placeBomb (g : Round) (who : nat) (now : Z) : Round :=
  match find_player g who with
  | None => g
  | Some p =>
      if negb (alive p) || trapped p then g
      else if (maxBombs p <=? activeBombs p)%Z then g
      else
        let '(x, y) := tile_of p in
        match bomb_at g x y with
        | Some _ => g
        | None =>
            let id := fresh (dom (bombs g)) in
            {| tiles := put_tile (tiles g) x y BombOccupied;
               players := adjust_active g who 1;
               bombs := <[id := {| bx := x; by_ := y; owner := who;
                                   blast := power p; placedAt := now;
                                   escaped := ∅ |}]> (bombs g);
               explosions := explosions g;
               timers := timers g ++ [{| due := now + FUSE; action := Detonate id |}] |}
        end
  end.

(** Modelled from the spec: step 1 of the detonation (section 4.3):
    decrement the owner's active-bomb counter, remove the bomb from the live
    set, clear its tile to Empty. *)
Definition defuse (g : Round) (id : nat) (b : Bomb) : Round :=
  {| tiles := put_tile (tiles g) (bx b) (by_ b) Empty;
     players := adjust_active g (owner b) (-1);
     bombs := delete id (bombs g);
     explosions := explosions g;
     timers := timers g |}.

Section Engine.

(** Modelled from the spec: the short delay of a chain reaction, the delay
    of an item spawn and the item lottery are left open by the text; they
    are parameters ([roll x y] tells whether the wall destroyed at [(x, y)]
    yields an item). *)
Context (chain_delay item_delay : Z) (roll : Z → Z → bool).

(** Modelled from the spec: what a ray does on a BreakableWall (section
    4.3, step 3): convert it to Empty and, with fixed probability, schedule
    a delayed item spawn at that coordinate. *)
Definition break_wall (g : Round) (now : Z) (x y : Z) : Round :=
  let g' := destroy g x y in
  if roll x y
  then with_timer g' {| due := now + item_delay; action := SpawnItem x y |}
  else g'.

(** Modelled from the spec: what a ray does on another live bomb (section
    4.3, step 3): schedule that bomb's short-delayed detonation. *)
Definition chain (g : Round) (now : Z) (bomb : nat) : Round :=
  with_timer g {| due := now + chain_delay; action := Detonate bomb |}.

(** Modelled from the spec: one ray (section 4.3, step 3), walking outward
    from [(x, y)] by [(dx, dy)] for up to [reach] tiles: stop without
    including the tile on SolidWall (and at the edge of the grid, where
    [tileAt] fails); include the tile and stop on BreakableWall; include the
    tile and stop on another live bomb; otherwise include the tile and
    continue. *)
Fixpoint walk (g : Round) (now : Z) (x y dx dy : Z) (reach : nat)
  : Round * list (Z * Z) :=
  match reach with
  | O => (g, [])
  | S reach' =>
      let x' := (x + dx)%Z in
      let y' := (y + dy)%Z in
      match tileAt g x' y' with
      | None | Some SolidWall => (g, [])
      | Some BreakableWall => (break_wall g now x' y', [(x', y')])
      | Some _ =>
          match bomb_at g x' y' with
          | Some other => (chain g now other, [(x', y')])
          | None =>
              let '(g', rest) := walk g now x' y' dx dy reach' in
              (g', (x', y') :: rest)
          end
      end
  end.

(** Modelled from the spec: the four axis directions (section 4.3). *)
Definition directions : list (Z * Z) :=
  [(-1, 0); (1, 0); (0, -1); (0, 1)]%Z.

(** Modelled from the spec: steps 2 and 3 of the detonation (section 4.3):
    the tile list is seeded with the bomb's own tile and the four rays are
    walked one after the other. *)
Definition rays (g : Round) (now : Z) (b : Bomb) : Round * list (Z * Z) :=
  foldl (λ (acc : Round * list (Z * Z)) (d : Z * Z),
           let '(g', ray) := walk acc.1 now (bx b) (by_ b) d.1 d.2 (blast b) in
           (g', acc.2 ++ ray))
        (g, [(bx b, by_ b)]) directions.

(** Modelled from the spec: the Trapped state with its timestamp
    (section 4.4). *)
Definition with_trap (p : Player) (now : Z) : Player :=
  {| pid := pid p; px := px p; py := py p; speed := speed p; power := power p;
     maxBombs := maxBombs p; activeBombs := activeBombs p; alive := alive p;
     trapped := true; trappedAt := Some now |}.

(** Modelled from the spec: the players an explosion traps (section 4.3,
    step 5): alive, not trapped, discretized tile in the tile list. *)
Definition hit (cells : list (Z * Z)) (p : Player) : bool :=
  alive p && negb (trapped p) && bool_decide (tile_of p ∈ cells).

(** Modelled from the spec: step 5 of the detonation (sections 4.3, 4.4):
    every alive, non-trapped player whose discretized tile is in the list
    becomes Trapped, to be eliminated after the grace period. *)
Definition trap (g : Round) (now : Z) (cells : list (Z * Z)) : Round :=
  {| tiles := tiles g;
     players := (λ p, if hit cells p then with_trap p now else p) <$> players g;
     bombs := bombs g;
     explosions := explosions g;
     timers := timers g
               ++ ((λ p, {| due := now + TRAP_GRACE; action := Eliminate (pid p) |})
                     <$> List.filter (hit cells) (players g)) |}.

(** Modelled from the spec: the detonation routine (section 4.3).  A bomb
    that is no longer live is a no-op trigger.  Otherwise: (1) decrement
    the owner's counter, remove the bomb, clear its tile to Empty; (2, 3)
    cast the rays; (4) record the timed explosion; (5) trap the players on
    the affected tiles. *)
Definition detonate (g : Round) (id : nat) (now : Z) : Round :=
  match bombs g !! id with
  | None => g
  | Some b =>
      let g1 := defuse g id b in
      let '(g2, cells) := rays g1 now b in
      let eid := fresh (dom (explosions g2)) in
      let g3 := {| tiles := tiles g2; players := players g2; bombs := bombs g2;
                   explosions := <[eid := {| affected := cells; createdAt := now |}]>
                                   (explosions g2);
                   timers := timers g2
                             ++ [{| due := now + EXPLOSION_DISPLAY;
                                    action := ExpireExplosion eid |}] |} in
      trap g3 now cells
  end.

End Engine.

(** ** Reading and rewriting the grid *)

Section Grid.

Implicit Types (g h : Round) (x y : Z) (t : Tile).

Lemma tileAt_tiles g h x y : tiles h = tiles g → tileAt h x y = tileAt g x y.
Proof. unfold tileAt. by intros ->. Qed.

Lemma tileAt_put_same g h x y t :
  tiles h = put_tile (tiles g) x y t →
  is_Some (tileAt g x y) → tileAt h x y = Some t.
Proof.
  unfold tileAt, put_tile. intros -> [t0 Ht0].
  destruct ((0 <=? x)%Z && (0 <=? y)%Z); [|done].
  rewrite list_lookup_alter_eq.
  destruct (tiles g !! Z.to_nat y) as [row|]; [|done].
  cbn in *. apply list_lookup_insert_eq. by eapply lookup_lt_Some.
Qed.

Lemma tileAt_put_other g h x y x' y' t :
  tiles h = put_tile (tiles g) x y t →
  (x', y') ≠ (x, y) → tileAt h x' y' = tileAt g x' y'.
Proof.
  unfold tileAt, put_tile. intros -> Hne.
  destruct ((0 <=? x)%Z && (0 <=? y)%Z) eqn:Hin; [|done].
  destruct ((0 <=? x')%Z && (0 <=? y')%Z) eqn:Hin'; [|done].
  apply andb_true_iff in Hin as [Hx Hy], Hin' as [Hx' Hy'].
  destruct (decide (Z.to_nat y = Z.to_nat y')) as [Heq|Hy_ne].
  - rewrite <- Heq, list_lookup_alter_eq.
    destruct (tiles g !! Z.to_nat y) as [row|]; [|done].
    cbn. apply list_lookup_insert_ne. intros Hx_eq.
    apply Hne. f_equal; lia.
  - by rewrite list_lookup_alter_ne.
Qed.

(** [destroy] touches one BreakableWall and nothing else. *)
Lemma tileAt_destroy g x y x' y' :
  tileAt (destroy g x y) x' y' = tileAt g x' y'
  ∨ (x', y') = (x, y) ∧ tileAt g x' y' = Some BreakableWall
    ∧ tileAt (destroy g x y) x' y' = Some Empty.
Proof.
  unfold destroy. destruct (tileAt g x y) as [[]|] eqn:Ht; try by left.
  destruct (decide ((x', y') = (x, y))) as [Heq|Hne].
  - right. injection Heq as -> ->. split; [done|]. split; [done|].
    by apply (tileAt_put_same g).
  - left. by apply (tileAt_put_other g _ x y _ _ Empty).
Qed.

End Grid.

(** ** Live bombs and the tiles they hold *)

Section Bombs.

Implicit Types (g h : Round) (x y : Z) (id : nat) (b : Bomb).

Lemma bomb_at_bombs g h x y : bombs h = bombs g → bomb_at h x y = bomb_at g x y.
Proof. unfold bomb_at. by intros ->. Qed.

Lemma bomb_at_Some g x y id :
  bomb_at g x y = Some id → ∃ b, bombs g !! id = Some b ∧ bx b = x ∧ by_ b = y.
Proof.
  unfold bomb_at. intros Hfind.
  destruct (List.find _ _) as [[id' b]|] eqn:Hf; [|done].
  injection Hfind as ->. apply find_some in Hf as [Hin Hat].
  exists b. split.
  - by apply elem_of_map_to_list, list_elem_of_In.
  - by apply bool_decide_eq_true_1 in Hat.
Qed.

Lemma bomb_at_None g x y id b :
  bomb_at g x y = None → bombs g !! id = Some b → ¬ (bx b = x ∧ by_ b = y).
Proof.
  unfold bomb_at. intros Hfind Hb Hat.
  destruct (List.find _ _) as [entry|] eqn:Hf; [done|].
  assert (In (id, b) (map_to_list (bombs g))) as Hin
    by by apply list_elem_of_In, elem_of_map_to_list.
  apply (find_none _ _ Hf) in Hin.
  by apply bool_decide_eq_false_1 in Hin.
Qed.

Lemma bomb_at_held g x y id b :
  bombs g !! id = Some b → bx b = x → by_ b = y → is_Some (bomb_at g x y).
Proof.
  intros Hb Hx Hy. destruct (bomb_at g x y) as [id'|] eqn:Hat; [by eexists|].
  by destruct (bomb_at_None g x y id b Hat Hb).
Qed.

End Bombs.

(** ** Players and their active-bomb counters *)

Section Counters.

Implicit Types (g h : Round) (who : nat) (p : Player).

(** The active-bomb counter of the player [who]. *)
Definition active (g : Round) (who : nat) : option Z :=
  activeBombs <$> find_player g who.

Lemma find_fmap (f : Player → Player) (l : list Player) who :
  (∀ p, pid (f p) = pid p) →
  List.find (λ p, bool_decide (pid p = who)) (f <$> l)
  = f <$> List.find (λ p, bool_decide (pid p = who)) l.
Proof.
  intros Hpid. induction l as [|p l IH]; [done|].
  cbn. rewrite Hpid. by destruct (bool_decide (pid p = who)).
Qed.

Lemma find_player_pid g who p : find_player g who = Some p → pid p = who.
Proof.
  unfold find_player. intros Hf. apply find_some in Hf as [_ Hp].
  by apply bool_decide_eq_true_1 in Hp.
Qed.

Lemma find_player_adjust g h who delta p :
  players h = adjust_active g who delta →
  find_player g who = Some p →
  find_player h who = Some (with_active p (activeBombs p + delta)).
Proof.
  unfold find_player, adjust_active. intros -> Hp.
  rewrite find_fmap.
  - rewrite Hp. cbn. apply find_some in Hp as [_ Hp].
    by rewrite Hp.
  - intros q. by destruct (bool_decide (pid q = who)).
Qed.

Lemma active_adjust g h who delta p :
  players h = adjust_active g who delta →
  find_player g who = Some p →
  active h who = Some (activeBombs p + delta)%Z.
Proof.
  intros Hh Hp. unfold active.
  by rewrite (find_player_adjust g h who delta p Hh Hp).
Qed.

Lemma active_players g h who : players h = players g → active h who = active g who.
Proof. unfold active, find_player. by intros ->. Qed.

Lemma active_trap g now cells who : active (trap g now cells) who = active g who.
Proof.
  unfold active, find_player, trap. cbn. rewrite find_fmap.
  - destruct (List.find _ _) as [p|]; [|done]. cbn. by destruct (hit cells p).
  - intros p. by destruct (hit cells p).
Qed.

End Counters.

(** ** Explosion rays *)

(** The straight line of [n] tiles that starts next to [(x, y)] and runs in
    direction [(dx, dy)]. *)
Fixpoint line (x y dx dy : Z) (n : nat) : list (Z * Z) :=
  match n with
  | O => []
  | S n' => (x + dx, y + dy)%Z :: line (x + dx) (y + dy) dx dy n'
  end.

(** A tile that stops a ray without being part of it: a SolidWall, or no
    tile at all beyond the edge of the grid. *)
Definition blocked (g : Round) (t : Z * Z) : Prop :=
  tileAt g t.1 t.2 = None ∨ tileAt g t.1 t.2 = Some SolidWall.

(** A tile that stops a ray and is part of it: a BreakableWall, or a tile
    that holds a live bomb. *)
Definition stopper (g : Round) (t : Z * Z) : Prop :=
  tileAt g t.1 t.2 = Some BreakableWall ∨ is_Some (bomb_at g t.1 t.2).

(** [ray] is the line [full] cut at its first obstacle, as the obstacles
    stand in [g]: a prefix of the line, free of blocked tiles, with no
    stopper before its last tile, and cut short only by a blocked next tile
    or by a stopper as its last tile. *)
Definition truncated (g : Round) (full ray : list (Z * Z)) : Prop :=
  ray `prefix_of` full
  ∧ (∀ t, t ∈ ray → ¬ blocked g t)
  ∧ (∀ i t, ray !! i = Some t → S i < length ray → ¬ stopper g t)
  ∧ (length ray < length full →
     (∃ t, full !! length ray = Some t ∧ blocked g t)
     ∨ (∃ t, last ray = Some t ∧ stopper g t)).

(** [g'] is [g] with some BreakableWalls of [cells] turned to Empty, and
    possibly more pending timers. *)
Definition eroded (g g' : Round) (cells : list (Z * Z)) : Prop :=
  bombs g' = bombs g ∧ players g' = players g ∧ explosions g' = explosions g
  ∧ ∀ x y, tileAt g' x y = tileAt g x y
           ∨ ((x, y) ∈ cells ∧ tileAt g x y = Some BreakableWall
              ∧ tileAt g' x y = Some Empty).

Section Erosion.

Implicit Types (g h : Round) (cells : list (Z * Z)).

Lemma eroded_refl g : eroded g g [].
Proof. repeat split. intros x y. by left. Qed.

Lemma eroded_mono g h cells cells' :
  cells ⊆ cells' → eroded g h cells → eroded g h cells'.
Proof.
  intros Hsub (Hb & Hp & He & Ht). repeat split; try done.
  intros x y. destruct (Ht x y) as [Heq|(Hin & Hwall & Hempty)]; [by left|].
  right. split; [by apply Hsub|done].
Qed.

Lemma eroded_trans g h k cells cells' :
  eroded g h cells → eroded h k cells' → eroded g k (cells ++ cells').
Proof.
  intros (Hb & Hp & He & Ht) (Hb' & Hp' & He' & Ht').
  split; [congruence|]. split; [congruence|]. split; [congruence|].
  intros x y.
  destruct (Ht' x y) as [Heq'|(Hin' & Hwall' & Hempty')].
  - rewrite Heq'. destruct (Ht x y) as [Heq|(Hin & Hwall & Hempty)]; [by left|].
    right. split; [|done]. apply elem_of_app. by left.
  - destruct (Ht x y) as [Heq|(Hin & Hwall & Hempty)]; [|congruence].
    right. rewrite <- Heq. split; [|done]. apply elem_of_app. by right.
Qed.

Lemma eroded_timer g t : eroded g (with_timer g t) [].
Proof. repeat split. intros x y. by left. Qed.

Lemma eroded_destroy g x y : eroded g (destroy g x y) [(x, y)].
Proof.
  split; [|split; [|split]].
  - unfold destroy. by destruct (tileAt g x y) as [[]|].
  - unfold destroy. by destruct (tileAt g x y) as [[]|].
  - unfold destroy. by destruct (tileAt g x y) as [[]|].
  - intros x' y'.
    destruct (tileAt_destroy g x y x' y') as [Heq|(Hat & Hwall & Hempty)];
      [by left|].
    right. injection Hat as -> ->. split; [apply list_elem_of_here|done].
Qed.

End Erosion.

Section Blast.

Context (chain_delay item_delay : Z) (roll : Z → Z → bool).

Local Abbreviation ray_from := (walk chain_delay item_delay roll).

Implicit Types (g h : Round) (now x y dx dy : Z) (n : nat).

Lemma eroded_break_wall g now x y :
  eroded g (break_wall item_delay roll g now x y) [(x, y)].
Proof.
  unfold break_wall. destruct (roll x y); [|apply eroded_destroy].
  rewrite <- (app_nil_r [(x, y)]).
  eapply eroded_trans; [apply eroded_destroy|apply eroded_timer].
Qed.

(** The four ways one step of a ray can go. *)
Lemma walk_cases g now x y dx dy n :
  let t := ((x + dx)%Z, (y + dy)%Z) in
  (blocked g t ∧ ray_from g now x y dx dy (S n) = (g, []))
  ∨ (tileAt g t.1 t.2 = Some BreakableWall
     ∧ ray_from g now x y dx dy (S n)
       = (break_wall item_delay roll g now t.1 t.2, [t]))
  ∨ (¬ blocked g t
     ∧ ∃ other, bomb_at g t.1 t.2 = Some other
                ∧ ray_from g now x y dx dy (S n)
                  = (chain chain_delay g now other, [t]))
  ∨ (¬ blocked g t ∧ ¬ stopper g t
     ∧ ray_from g now x y dx dy (S n)
       = ((ray_from g now t.1 t.2 dx dy n).1,
          t :: (ray_from g now t.1 t.2 dx dy n).2)).
Proof.
  cbn [walk fst snd]. unfold blocked, stopper. cbn [fst snd].
  destruct (tileAt g (x + dx) (y + dy)) as [[]|] eqn:Htile;
    try (left; split; [by auto|done]);
    try (right; left; by split);
    (destruct (bomb_at g (x + dx) (y + dy)) as [other|] eqn:Hbomb;
     [ right; right; left; split; [by intros [|]|by exists other]
     | right; right; right; split; [by intros [|]|];
       split; [by intros [|[? ?]]|];
       by destruct (walk _ _ _ _ _ _ _ _ _ _) ]).
Qed.

(** A ray changes nothing but the BreakableWall it ends on. *)
Lemma walk_eroded g now x y dx dy n :
  eroded g (ray_from g now x y dx dy n).1 (ray_from g now x y dx dy n).2.
Proof.
  revert x y. induction n as [|n IH]; intros x y; [apply eroded_refl|].
  destruct (walk_cases g now x y dx dy n)
    as [[_ ->]|[[_ ->]|[(_ & other & _ & ->)|(_ & _ & ->)]]]; cbn [fst snd].
  - apply eroded_refl.
  - apply eroded_break_wall.
  - eapply eroded_mono; [|apply eroded_timer]. by intros t Ht%elem_of_nil.
  - eapply eroded_mono; [|apply IH]. intros t Ht. by apply list_elem_of_further.
Qed.

Lemma length_line x y dx dy n : length (line x y dx dy n) = n.
Proof. revert x y. induction n as [|n IH]; intros x y; cbn; [done|]. by rewrite IH. Qed.

(** A ray is its line, cut at the first obstacle. *)
Lemma walk_truncated g now x y dx dy n :
  truncated g (line x y dx dy n) (ray_from g now x y dx dy n).2.
Proof.
  revert x y. induction n as [|n IH]; intros x y.
  { cbn. split; [done|]. split; [by intros t Ht%elem_of_nil|].
    split; [done|]. cbn. lia. }
  cbn [line].
  destruct (walk_cases g now x y dx dy n)
    as [[Hblocked ->]|[[Hwall ->]|[(Hfree & other & Hbomb & ->)
                                  |(Hfree & Hgo & ->)]]]; cbn [fst snd] in *.
  - split; [apply prefix_nil|]. split; [by intros t Ht%elem_of_nil|].
    split; [done|]. intros _. left. by eexists.
  - split; [by apply prefix_cons, prefix_nil|]. split.
    { intros t ->%list_elem_of_singleton [Hnone|Hsolid]; cbn in *; congruence. }
    split; [cbn; intros; lia|].
    intros _. right. eexists. split; [done|]. by left.
  - split; [by apply prefix_cons, prefix_nil|]. split.
    { by intros t ->%list_elem_of_singleton. }
    split; [cbn; intros; lia|].
    intros _. right. eexists. split; [done|]. right. by exists other.
  - destruct (IH (x + dx)%Z (y + dy)%Z) as (Hpre & Hopen & Hinner & Hcut).
    split; [by apply prefix_cons|]. split.
    { intros t [->|Ht]%elem_of_cons; [done|by apply Hopen]. }
    split.
    { intros [|i] t Ht Hlen; cbn in *; [by injection Ht as <-|].
      apply (Hinner i t Ht). lia. }
    cbn [length]. intros Hshort.
    destruct Hcut as [(t & Ht & Hb)|(t & Ht & Hs)]; [lia| |].
    + left. by exists t.
    + right. exists t. split; [|done].
      destruct (walk _ _ _ _ _ _ _ _ _ _).2; [done|by rewrite last_cons, Ht].
Qed.

End Blast.

Section Truncation.

Implicit Types (g h : Round) (full ray cells : list (Z * Z)).

Lemma prefix_elem_of ray full t : ray `prefix_of` full → t ∈ ray → t ∈ full.
Proof. intros [k ->] Ht. apply elem_of_app. by left. Qed.

(** Walls that fall away from the line do not change how it is cut. *)
Lemma truncated_transfer g h cells full ray :
  eroded g h cells → (∀ t, t ∈ full → t ∉ cells) →
  truncated h full ray → truncated g full ray.
Proof.
  intros (Hbombs & _ & _ & Htiles) Hapart (Hpre & Hopen & Hinner & Hcut).
  assert (∀ t, t ∈ full → tileAt h t.1 t.2 = tileAt g t.1 t.2) as Hsame.
  { intros [x y] Ht. destruct (Htiles x y) as [Heq|[Hin _]]; [done|].
    by destruct (Hapart (x, y)). }
  assert (∀ t, t ∈ full → blocked g t → blocked h t) as Hblocked.
  { intros t Ht. unfold blocked. by rewrite (Hsame t Ht). }
  assert (∀ t, t ∈ full → stopper g t → stopper h t) as Hstopper.
  { intros t Ht. unfold stopper.
    by rewrite (Hsame t Ht), (bomb_at_bombs g h _ _ Hbombs). }
  assert (∀ t, t ∈ full → blocked h t → blocked g t) as Hblocked'.
  { intros t Ht. unfold blocked. by rewrite (Hsame t Ht). }
  assert (∀ t, t ∈ full → stopper h t → stopper g t) as Hstopper'.
  { intros t Ht. unfold stopper.
    by rewrite (Hsame t Ht), (bomb_at_bombs g h _ _ Hbombs). }
  split; [done|]. split; [|split].
  - intros t Ht Hb. apply (Hopen t Ht), Hblocked; [|done].
    by apply (prefix_elem_of ray).
  - intros i t Ht Hlen Hs. apply (Hinner i t Ht Hlen), Hstopper; [|done].
    apply (prefix_elem_of ray); [done|]. by eapply list_elem_of_lookup_2.
  - intros Hshort. destruct (Hcut Hshort) as [(t & Ht & Hb)|(t & Ht & Hs)].
    + left. exists t. split; [done|]. apply Hblocked'; [|done].
      by eapply list_elem_of_lookup_2.
    + right. exists t. split; [done|]. apply Hstopper'; [|done].
      apply (prefix_elem_of ray); [done|]. by apply last_Some_elem_of.
Qed.

(** With no obstacle on the line, the ray is the whole line. *)
Lemma truncated_open g full ray :
  truncated g full ray →
  (∀ t, t ∈ full → ¬ blocked g t ∧ ¬ stopper g t) → ray = full.
Proof.
  intros (Hpre & _ & _ & Hcut) Hfree.
  apply prefix_length_eq; [done|].
  destruct (decide (length ray < length full)) as [Hshort|]; [|lia].
  destruct (Hcut Hshort) as [(t & Ht & Hb)|(t & Ht & Hs)].
  - apply list_elem_of_lookup_2 in Ht. by destruct (Hfree t Ht).
  - apply last_Some_elem_of in Ht.
    apply (prefix_elem_of _ _ _ Hpre) in Ht. by destruct (Hfree t Ht).
Qed.

Lemma elem_of_line x y dx dy n t :
  t ∈ line x y dx dy n →
  ∃ i : Z, (1 ≤ i ≤ Z.of_nat n)%Z ∧ t = ((x + i * dx)%Z, (y + i * dy)%Z).
Proof.
  revert x y. induction n as [|n IH]; intros x y; cbn [line].
  { by intros ?%elem_of_nil. }
  intros [->|Ht]%elem_of_cons.
  - exists 1%Z. split; [lia|]. f_equal; lia.
  - destruct (IH _ _ Ht) as (i & Hi & ->). exists (i + 1)%Z.
    split; [lia|]. f_equal; lia.
Qed.

(** The lines of two different axis directions share no tile. *)
Lemma line_apart x y d d' n n' t :
  d ∈ directions → d' ∈ directions → d ≠ d' →
  t ∈ line x y d.1 d.2 n → t ∉ line x y d'.1 d'.2 n'.
Proof.
  intros Hd Hd' Hne Ht Ht'.
  apply elem_of_line in Ht as (i & Hi & ->).
  apply elem_of_line in Ht' as (i' & Hi' & Heq).
  unfold directions in Hd, Hd'.
  repeat match goal with
         | H : _ ∈ _ :: _ |- _ => apply elem_of_cons in H as [->|H]
         | H : _ ∈ [] |- _ => by apply elem_of_nil in H
         end;
    cbn [fst snd] in Heq; try done; injection Heq as Hx Hy; lia.
Qed.

End Truncation.

(** ** The detonation routine *)

Section Detonation.

Context (chain_delay item_delay : Z) (roll : Z → Z → bool).

Local Abbreviation ray_from := (walk chain_delay item_delay roll).
Local Abbreviation rays_of := (rays chain_delay item_delay roll).
Local Abbreviation explode := (detonate chain_delay item_delay roll).

Implicit Types (g h : Round) (now x y : Z) (id who : nat) (b : Bomb).

Lemma rays_unfold g now b :
  let w1 := ray_from g now (bx b) (by_ b) (-1) 0 (blast b) in
  let w2 := ray_from w1.1 now (bx b) (by_ b) 1 0 (blast b) in
  let w3 := ray_from w2.1 now (bx b) (by_ b) 0 (-1) (blast b) in
  let w4 := ray_from w3.1 now (bx b) (by_ b) 0 1 (blast b) in
  rays_of g now b = (w4.1, (bx b, by_ b) :: w1.2 ++ w2.2 ++ w3.2 ++ w4.2).
Proof.
  unfold rays, directions. cbn [foldl fst snd].
  destruct (walk _ _ _ g _ _ _ _ _ _) as [g1 r1]. cbn [fst snd].
  destruct (walk _ _ _ g1 _ _ _ _ _ _) as [g2 r2]. cbn [fst snd].
  destruct (walk _ _ _ g2 _ _ _ _ _ _) as [g3 r3]. cbn [fst snd].
  destruct (walk _ _ _ g3 _ _ _ _ _ _) as [g4 r4]. cbn [fst snd].
  by rewrite <- !app_assoc.
Qed.

Lemma walk_apart g now x y d d' n n' t :
  d ∈ directions → d' ∈ directions → d ≠ d' →
  t ∈ line x y d'.1 d'.2 n' → t ∉ (ray_from g now x y d.1 d.2 n).2.
Proof.
  intros Hd Hd' Hne Ht Hray.
  apply (line_apart x y d' d n' n t); [done|done|done|done|].
  apply (prefix_elem_of (ray_from g now x y d.1 d.2 n).2); [|done].
  apply (walk_truncated chain_delay item_delay roll).
Qed.

(** The tile list of a detonation: the bomb's own tile, then the four rays,
    each of them its line cut at the first obstacle of the round in which
    the rays are cast. *)
Lemma rays_truncated g now b :
  ∃ r1 r2 r3 r4,
    (rays_of g now b).2 = (bx b, by_ b) :: r1 ++ r2 ++ r3 ++ r4
    ∧ Forall2 (λ d ray, truncated g (line (bx b) (by_ b) d.1 d.2 (blast b)) ray)
              directions [r1; r2; r3; r4]
    ∧ eroded g (rays_of g now b).1 (r1 ++ r2 ++ r3 ++ r4).
Proof.
  rewrite rays_unfold. cbn zeta.
  set (w1 := ray_from g now (bx b) (by_ b) (-1) 0 (blast b)).
  set (w2 := ray_from w1.1 now (bx b) (by_ b) 1 0 (blast b)).
  set (w3 := ray_from w2.1 now (bx b) (by_ b) 0 (-1) (blast b)).
  set (w4 := ray_from w3.1 now (bx b) (by_ b) 0 1 (blast b)).
  pose proof (walk_eroded chain_delay item_delay roll
                g now (bx b) (by_ b) (-1) 0 (blast b)) as E1.
  pose proof (walk_eroded chain_delay item_delay roll
                w1.1 now (bx b) (by_ b) 1 0 (blast b)) as E2.
  pose proof (walk_eroded chain_delay item_delay roll
                w2.1 now (bx b) (by_ b) 0 (-1) (blast b)) as E3.
  pose proof (walk_eroded chain_delay item_delay roll
                w3.1 now (bx b) (by_ b) 0 1 (blast b)) as E4.
  fold w1 in E1, E2. fold w2 in E2, E3. fold w3 in E3, E4. fold w4 in E4.
  pose proof (eroded_trans _ _ _ _ _ E1 E2) as E12.
  pose proof (eroded_trans _ _ _ _ _ E12 E3) as E123.
  pose proof (eroded_trans _ _ _ _ _ E123 E4) as E1234.
  assert ((-1, 0)%Z ∈ directions ∧ (1, 0)%Z ∈ directions
          ∧ (0, -1)%Z ∈ directions ∧ (0, 1)%Z ∈ directions)
    as (D1 & D2 & D3 & D4) by (unfold directions; repeat split; repeat constructor).
  exists w1.2, w2.2, w3.2, w4.2. cbn [fst snd]. split; [done|]. split.
  - constructor; [|constructor; [|constructor; [|constructor; [|constructor]]]];
      cbn [fst snd].
    + apply (walk_truncated chain_delay item_delay roll).
    + eapply truncated_transfer; [exact E1| |apply (walk_truncated chain_delay item_delay roll)].
      intros t Ht. by apply (walk_apart g now (bx b) (by_ b) (-1, 0)%Z (1, 0)%Z (blast b) (blast b) t).
    + eapply truncated_transfer; [exact E12| |apply (walk_truncated chain_delay item_delay roll)].
      intros t Ht [Hin|Hin]%elem_of_app; revert Hin.
      * by apply (walk_apart g now (bx b) (by_ b) (-1, 0)%Z (0, -1)%Z (blast b) (blast b) t).
      * by apply (walk_apart w1.1 now (bx b) (by_ b) (1, 0)%Z (0, -1)%Z (blast b) (blast b) t).
    + eapply truncated_transfer; [exact E123| |apply (walk_truncated chain_delay item_delay roll)].
      intros t Ht [[Hin|Hin]%elem_of_app|Hin]%elem_of_app; revert Hin.
      * by apply (walk_apart g now (bx b) (by_ b) (-1, 0)%Z (0, 1)%Z (blast b) (blast b) t).
      * by apply (walk_apart w1.1 now (bx b) (by_ b) (1, 0)%Z (0, 1)%Z (blast b) (blast b) t).
      * by apply (walk_apart w2.1 now (bx b) (by_ b) (0, -1)%Z (0, 1)%Z (blast b) (blast b) t).
  - by rewrite !app_assoc.
Qed.

Lemma detonate_dud g id now : bombs g !! id = None → explode g id now = g.
Proof. unfold detonate. by intros ->. Qed.

Lemma detonate_live g id now b :
  bombs g !! id = Some b →
  let r := rays_of (defuse g id b) now b in
  let eid := fresh (dom (explosions r.1)) in
  explode g id now
  = trap {| tiles := tiles r.1; players := players r.1; bombs := bombs r.1;
            explosions := <[eid := {| affected := r.2; createdAt := now |}]>
                            (explosions r.1);
            timers := timers r.1
                      ++ [{| due := now + EXPLOSION_DISPLAY;
                             action := ExpireExplosion eid |}] |} now r.2.
Proof.
  intros Hb. unfold detonate. rewrite Hb. cbn zeta.
  by destruct (rays _ _ _ _ _ _).
Qed.

Lemma rays_eroded g now b : ∃ cells, eroded g (rays_of g now b).1 cells.
Proof. destruct (rays_truncated g now b) as (r1 & r2 & r3 & r4 & _ & _ & He). eauto. Qed.

Lemma detonate_bombs g id now b :
  bombs g !! id = Some b → bombs (explode g id now) = delete id (bombs g).
Proof.
  intros Hb. rewrite (detonate_live g id now b Hb).
  unfold trap. cbn [bombs explosions].
  destruct (rays_eroded (defuse g id b) now b) as (cells & Hbombs & _).
  by rewrite Hbombs.
Qed.

(** A detonation records exactly one explosion, under a fresh id. *)
Lemma detonate_explosions g id now b :
  bombs g !! id = Some b →
  explosions (explode g id now)
  = <[fresh (dom (explosions g)) :=
        {| affected := (rays_of (defuse g id b) now b).2; createdAt := now |}]>
      (explosions g).
Proof.
  intros Hb. rewrite (detonate_live g id now b Hb).
  unfold trap. cbn [bombs explosions].
  destruct (rays_eroded (defuse g id b) now b) as (cells & _ & _ & He & _).
  by rewrite He.
Qed.

Lemma detonate_active g id now b who :
  bombs g !! id = Some b →
  active (explode g id now) who = active (defuse g id b) who.
Proof.
  intros Hb. rewrite (detonate_live g id now b Hb). cbn zeta.
  rewrite active_trap. apply active_players. cbn [players].
  by destruct (rays_eroded (defuse g id b) now b) as (cells & _ & Hp & _).
Qed.

Lemma detonate_tile g id now b :
  bombs g !! id = Some b → is_Some (tileAt g (bx b) (by_ b)) →
  tileAt (explode g id now) (bx b) (by_ b) = Some Empty.
Proof.
  intros Hb Hin. rewrite (detonate_live g id now b Hb). cbn zeta.
  rewrite (tileAt_tiles (rays_of (defuse g id b) now b).1) by done.
  assert (tileAt (defuse g id b) (bx b) (by_ b) = Some Empty) as Hclear
    by by apply (tileAt_put_same g).
  destruct (rays_eroded (defuse g id b) now b) as (cells & _ & _ & _ & Ht).
  destruct (Ht (bx b) (by_ b)) as [Heq|(_ & Hwall & _)]; congruence.
Qed.

(** Detonating the same bomb id again does nothing. *)
Lemma detonate_twice g id now now' :
  explode (explode g id now) id now' = explode g id now.
Proof.
  destruct (bombs g !! id) as [b|] eqn:Hb.
  - apply detonate_dud. rewrite (detonate_bombs g id now b Hb).
    apply lookup_delete_eq.
  - rewrite (detonate_dud g id now Hb). by apply detonate_dud.
Qed.

End Detonation.

(** ** Placement *)

Section Placement.

Implicit Types (g : Round) (who : nat) (p : Player) (now : Z).

Lemma placeBomb_rejected g who now p :
  find_player g who = Some p →
  alive p = false ∨ trapped p = true ∨ (maxBombs p ≤ activeBombs p)%Z
  ∨ is_Some (bomb_at g (tile_of p).1 (tile_of p).2) →
  placeBomb g who now = g.
Proof.
  intros Hp Hwhy. unfold placeBomb. rewrite Hp.
  destruct (alive p), (trapped p); cbn [negb orb]; try done.
  destruct (maxBombs p <=? activeBombs p)%Z eqn:Hfull; [done|].
  destruct (tile_of p) as [x y]. cbn [fst snd] in Hwhy.
  destruct (bomb_at g x y) as [other|]; [done|].
  destruct Hwhy as [?|[?|[?|[? ?]]]]; [done|done|lia|done].
Qed.

Lemma placeBomb_accepted g who now p :
  find_player g who = Some p →
  alive p = true → trapped p = false → (activeBombs p < maxBombs p)%Z →
  bomb_at g (tile_of p).1 (tile_of p).2 = None →
  placeBomb g who now
  = {| tiles := put_tile (tiles g) (tile_of p).1 (tile_of p).2 BombOccupied;
       players := adjust_active g who 1;
       bombs := <[fresh (dom (bombs g)) :=
                    {| bx := (tile_of p).1; by_ := (tile_of p).2; owner := who;
                       blast := power p; placedAt := now; escaped := ∅ |}]>
                  (bombs g);
       explosions := explosions g;
       timers := timers g
                 ++ [{| due := now + FUSE;
                        action := Detonate (fresh (dom (bombs g))) |}] |}.
Proof.
  intros Hp Halive Htrapped Hroom Hfree. unfold placeBomb.
  rewrite Hp, Halive, Htrapped. cbn [negb orb].
  destruct (maxBombs p <=? activeBombs p)%Z eqn:Hfull; [lia|].
  destruct (tile_of p) as [x y]. cbn [fst snd] in *. by rewrite Hfree.
Qed.

Lemma fresh_bomb g : bombs g !! fresh (dom (bombs g)) = None.
Proof. apply not_elem_of_dom, is_fresh. Qed.

Lemma fresh_explosion g : explosions g !! fresh (dom (explosions g)) = None.
Proof. apply not_elem_of_dom, is_fresh. Qed.

End Placement.

(** ** Counting live bombs *)

(** The number of live bombs the player [who] owns. *)
Definition owned (g : Round) (who : nat) : nat :=
  size (filter (λ entry : nat * Bomb, owner entry.2 = who) (bombs g)).

(** Every player's active-bomb counter is the number of live bombs the
    player owns. *)
Definition balanced (g : Round) : Prop :=
  Forall (λ p, activeBombs p = Z.of_nat (owned g (pid p))) (players g).

Section Accounting.

Context (chain_delay item_delay : Z) (roll : Z → Z → bool).

Local Abbreviation explode := (detonate chain_delay item_delay roll).

Implicit Types (g h : Round) (now x y : Z) (id who : nat) (b : Bomb).

Lemma active_adjust_other g h who other delta :
  players h = adjust_active g who delta → other ≠ who →
  active h other = active g other.
Proof.
  unfold active, find_player, adjust_active. intros -> Hne.
  rewrite find_fmap.
  - destruct (List.find _ (players g)) as [p|] eqn:Hp; [|done].
    apply find_some in Hp as [_ Hp]. apply bool_decide_eq_true_1 in Hp.
    cbn. rewrite bool_decide_eq_false_2; [done|congruence].
  - intros q. by destruct (bool_decide (pid q = who)).
Qed.

Lemma owned_insert g h id b who :
  bombs g !! id = None → bombs h = <[id := b]> (bombs g) →
  owned h who = if bool_decide (owner b = who) then S (owned g who) else owned g who.
Proof.
  intros Hfree Hh. unfold owned. rewrite Hh. case_bool_decide as Hown.
  - rewrite map_filter_insert_True by done.
    apply map_size_insert_None. by apply map_lookup_filter_None_2; left.
  - rewrite map_filter_insert_not'; [done|done|]. by rewrite Hfree.
Qed.

Lemma owned_delete g h id b who :
  bombs g !! id = Some b → bombs h = delete id (bombs g) →
  owned g who = if bool_decide (owner b = who) then S (owned h who) else owned h who.
Proof.
  intros Hlive Hh. unfold owned. rewrite Hh, map_filter_delete.
  case_bool_decide as Hown.
  - rewrite map_size_delete_Some.
    + assert (size (filter (λ entry : nat * Bomb, owner entry.2 = who) (bombs g))
              ≠ 0); [|lia].
      intros Hz%map_size_empty_inv.
      assert (filter (λ entry : nat * Bomb, owner entry.2 = who) (bombs g) !! id
              = Some b) as Hin
        by by apply map_lookup_filter_Some_2.
      by rewrite Hz in Hin.
    + exists b. by apply map_lookup_filter_Some_2.
  - rewrite map_size_delete_None; [done|].
    apply map_lookup_filter_None_2. right. intros b' Hb' HP. cbn in HP.
    congruence.
Qed.

Lemma balanced_adjust g h id b :
  balanced g →
  players h = adjust_active g (owner b) 1 →
  bombs g !! id = None → bombs h = <[id := b]> (bombs g) →
  balanced h.
Proof.
  unfold balanced. intros Hg Hplayers Hfree Hbombs. rewrite Hplayers.
  unfold adjust_active. apply Forall_fmap.
  eapply Forall_impl; [exact Hg|]. intros p Hp. cbn. cbn beta in Hp.
  rewrite (owned_insert g h id b) by done.
  case_bool_decide as Hwho; cbn.
  - rewrite bool_decide_eq_true_2 by done. lia.
  - rewrite bool_decide_eq_false_2 by congruence. done.
Qed.

(** Placement keeps the counters in step with the live bombs. *)
Lemma balanced_placeBomb g who now : balanced g → balanced (placeBomb g who now).
Proof.
  intros Hg. unfold placeBomb.
  destruct (find_player g who) as [p|]; [|done].
  destruct (negb (alive p) || trapped p); [done|].
  destruct (maxBombs p <=? activeBombs p)%Z; [done|].
  destruct (tile_of p) as [x y].
  destruct (bomb_at g x y); [done|].
  eapply (balanced_adjust g _ (fresh (dom (bombs g)))
            {| bx := x; by_ := y; owner := who; blast := power p;
               placedAt := now; escaped := ∅ |}); try done.
  apply fresh_bomb.
Qed.

Lemma detonate_players g id now b :
  bombs g !! id = Some b →
  Forall2 (λ p q, pid q = pid p ∧ activeBombs q = activeBombs p)
          (adjust_active g (owner b) (-1)) (players (explode g id now)).
Proof.
  intros Hb. rewrite (detonate_live _ _ _ g id now b Hb). cbn zeta.
  unfold trap. cbn [players].
  destruct (rays_eroded chain_delay item_delay roll (defuse g id b) now b)
    as (cells & _ & -> & _).
  cbn [defuse players]. apply Forall2_fmap_r, Forall_Forall2_diag, Forall_forall.
  intros p _. unfold compose. by destruct (hit _ p).
Qed.

(** So does detonation. *)
Lemma balanced_detonate g id now : balanced g → balanced (explode g id now).
Proof.
  intros Hg. destruct (bombs g !! id) as [b|] eqn:Hb.
  2: { by rewrite detonate_dud. }
  pose proof (detonate_players g id now b Hb) as Hplayers.
  pose proof (detonate_bombs chain_delay item_delay roll g id now b Hb) as Hbombs.
  unfold balanced in *. unfold adjust_active in Hplayers.
  apply Forall2_fmap_l in Hplayers.
  eapply Forall2_Forall_r; [exact Hplayers|].
  eapply Forall_impl; [exact Hg|]. intros p Hp q [Hpid Hact].
  cbn beta in Hp. rewrite Hpid, Hact.
  rewrite (owned_delete g (explode g id now) id b) in Hp by done.
  clear Hpid Hact.
  destruct (decide (pid p = owner b)) as [Hwho|Hwho].
  - rewrite (bool_decide_eq_true_2 (pid p = owner b)) by done.
    rewrite bool_decide_eq_true_2 in Hp by done. cbn. lia.
  - rewrite (bool_decide_eq_false_2 (pid p = owner b)) by done.
    by rewrite bool_decide_eq_false_2 in Hp by congruence.
Qed.

Lemma balanced_not_negative g :
  balanced g → Forall (λ q, (0 ≤ activeBombs q)%Z) (players g).
Proof.
  unfold balanced. intros Hg. eapply Forall_impl; [exact Hg|].
  intros q Hq. cbn beta in Hq. lia.
Qed.

(** The detonation of a live bomb takes one off the counter of its owner,
    whoever stands where, and leaves every other counter alone. *)
Lemma detonate_owner g id now b q :
  bombs g !! id = Some b → find_player g (owner b) = Some q →
  active (explode g id now) (owner b) = Some (activeBombs q - 1)%Z.
Proof.
  intros Hb Hq.
  rewrite (detonate_active chain_delay item_delay roll g id now b _ Hb).
  by rewrite (active_adjust g (defuse g id b) (owner b) (-1) q).
Qed.

Lemma detonate_others g id now b other :
  bombs g !! id = Some b → other ≠ owner b →
  active (explode g id now) other = active g other.
Proof.
  intros Hb Hne.
  rewrite (detonate_active chain_delay item_delay roll g id now b _ Hb).
  by apply (active_adjust_other g (defuse g id b) (owner b) other (-1)).
Qed.

Lemma detonate_size g id now b :
  bombs g !! id = Some b →
  size (explosions (explode g id now)) = S (size (explosions g)).
Proof.
  intros Hb.
  rewrite (detonate_explosions chain_delay item_delay roll g id now b Hb).
  apply map_size_insert_None, fresh_explosion.
Qed.

Lemma detonate_frees_tile g id now b :
  bombs g !! id = Some b →
  (∀ j b', bombs g !! j = Some b' → bx b' = bx b → by_ b' = by_ b → j = id) →
  bomb_at (explode g id now) (bx b) (by_ b) = None.
Proof.
  intros Hb Honly.
  destruct (bomb_at (explode g id now) (bx b) (by_ b)) as [j|] eqn:Hat; [|done].
  destruct (bomb_at_Some _ _ _ _ Hat) as (b' & Hb' & Hx & Hy).
  rewrite (detonate_bombs chain_delay item_delay roll g id now b Hb) in Hb'.
  apply lookup_delete_Some in Hb' as [Hne Hb'].
  by destruct Hne; symmetry; apply (Honly j b').
Qed.

Lemma placeBomb_others g who now other :
  other ≠ who → active (placeBomb g who now) other = active g other.
Proof.
  intros Hne. unfold placeBomb.
  destruct (find_player g who) as [p|]; [|done].
  destruct (negb (alive p) || trapped p); [done|].
  destruct (maxBombs p <=? activeBombs p)%Z; [done|].
  destruct (tile_of p) as [x y].
  destruct (bomb_at g x y); [done|].
  by apply (active_adjust_other g _ who other 1).
Qed.

End Accounting.

(** ** Scenario B *)

(** Modelled from the spec: a row of the grid of Scenario B (section 8):
    SolidWall at both ends, no wall in between. *)
Definition open_row : list Tile :=
  SolidWall :: replicate 11 Empty ++ [SolidWall].

(** Modelled from the spec: the 13 by 11 grid of Scenario B, rows from top
    to bottom. *)
Definition open_map : list (list Tile) :=
  replicate 13 SolidWall :: replicate 9 open_row ++ [replicate 13 SolidWall].

(** Modelled from the spec: the player of Scenario B, blast power 2, in the
    middle of tile (5,5). *)
Definition bomber : Player :=
  {| pid := 1; px := 11 # 2; py := 11 # 2; speed := 1; power := 2;
     maxBombs := 1; activeBombs := 0; alive := true; trapped := false;
     trappedAt := None |}.

(** Modelled from the spec: the round of Scenario B before the placement. *)
Definition arena : Round :=
  {| tiles := open_map; players := [bomber]; bombs := ∅; explosions := ∅;
     timers := [] |}.

(** Modelled from the spec: the bomb of Scenario B, placed at time 0. *)
Definition planted : Bomb :=
  {| bx := 5; by_ := 5; owner := 1; blast := 2; placedAt := 0; escaped := ∅ |}.

(** Modelled from the spec: Scenario B once the bomb is placed. *)
Definition scenario_b : Round := placeBomb arena 1 0.

(** Modelled from the spec: the tile set that Scenario B expects. *)
Definition nine_tiles : list (Z * Z) :=
  [(5, 5); (4, 5); (3, 5); (6, 5); (7, 5); (5, 4); (5, 3); (5, 6); (5, 7)]%Z.

(** A round in which the owner has left the tile of its bomb and another
    player, with a bomb of its own elsewhere, stands on it. *)
Definition visitor : Player :=
  {| pid := 2; px := 11 # 2; py := 11 # 2; speed := 1; power := 1;
     maxBombs := 2; activeBombs := 1; alive := true; trapped := false;
     trappedAt := None |}.

Definition crossed : Round :=
  {| tiles := put_tile (put_tile open_map 5 5 BombOccupied) 9 9 BombOccupied;
     players := [ {| pid := 1; px := 3 # 2; py := 3 # 2; speed := 1; power := 2;
                     maxBombs := 1; activeBombs := 1; alive := true;
                     trapped := false; trappedAt := None |};
                  visitor ];
     bombs := <[1 := {| bx := 9; by_ := 9; owner := 2; blast := 1;
                        placedAt := 5; escaped := ∅ |}]> {[0 := planted]};
     explosions := ∅; timers := [] |}.

(** ** The two properties of the bomb system *)

(** C8.  Placement is rejected, leaving the round as it is, when the acting
    player is dead or trapped, has [activeBombs >= maxBombs], or stands on
    a tile that already holds a bomb.  An accepted placement makes the
    player's tile hold the new bomb (BombOccupied, when the tile is on the
    grid) and raises the owner's active-bomb counter by exactly one.
    Detonating that bomb reverts both: the tile holds no bomb and is Empty,
    the counter is back at its value before the placement, and exactly one
    explosion has been recorded.  Detonating the same id once more changes
    nothing, for this bomb and for any bomb id of any round.  The same
    holds for a bomb detonated at any later point, by its fuse or by a
    chain reaction: in any round, detonating a live bomb removes it and
    only it, leaves its tile Empty (with no bomb on it when it was the only
    one there), takes exactly one off the counter of its owner, whoever
    stands on the tile, leaves every other player's counter as it is and
    records exactly one explosion.  A placement changes no counter but the
    acting player's.  Placement and detonation keep every counter equal to
    the number of live bombs the player owns, so no counter goes below
    zero. *)
Theorem bomb_lifecycle (chain_delay item_delay : Z) (roll : Z → Z → bool)
    (g : Round) (who : nat) (p : Player) (now now' now'' : Z) :
  find_player g who = Some p →
  let x := (tile_of p).1 in
  let y := (tile_of p).2 in
  let id := fresh (dom (bombs g)) in
  let placed := placeBomb g who now in
  let burst := detonate chain_delay item_delay roll placed id now' in
  (alive p = false ∨ trapped p = true ∨ (maxBombs p ≤ activeBombs p)%Z
   ∨ is_Some (bomb_at g x y) → placed = g)
  ∧ (alive p = true → trapped p = false → (activeBombs p < maxBombs p)%Z →
     bomb_at g x y = None →
     (bomb_at placed x y = Some id
      ∧ (is_Some (tileAt g x y) → tileAt placed x y = Some BombOccupied)
      ∧ active placed who = Some (activeBombs p + 1)%Z)
     ∧ (bombs burst !! id = None
        ∧ bomb_at burst x y = None
        ∧ (is_Some (tileAt g x y) → tileAt burst x y = Some Empty)
        ∧ active burst who = Some (activeBombs p)
        ∧ size (explosions burst) = S (size (explosions g)))
     ∧ detonate chain_delay item_delay roll burst id now'' = burst)
  ∧ (∀ h i, detonate chain_delay item_delay roll
              (detonate chain_delay item_delay roll h i now') i now''
            = detonate chain_delay item_delay roll h i now')
  ∧ (∀ h i b, bombs h !! i = Some b →
       bombs (detonate chain_delay item_delay roll h i now') = delete i (bombs h)
       ∧ (is_Some (tileAt h (bx b) (by_ b)) →
          tileAt (detonate chain_delay item_delay roll h i now') (bx b) (by_ b)
          = Some Empty)
       ∧ ((∀ j b', bombs h !! j = Some b' → bx b' = bx b → by_ b' = by_ b → j = i) →
          bomb_at (detonate chain_delay item_delay roll h i now') (bx b) (by_ b)
          = None)
       ∧ (∀ q, find_player h (owner b) = Some q →
            active (detonate chain_delay item_delay roll h i now') (owner b)
            = Some (activeBombs q - 1)%Z)
       ∧ (∀ other, other ≠ owner b →
            active (detonate chain_delay item_delay roll h i now') other
            = active h other)
       ∧ size (explosions (detonate chain_delay item_delay roll h i now'))
         = S (size (explosions h)))
  ∧ (∀ other, other ≠ who → active placed other = active g other)
  ∧ (∀ h someone i, balanced h →
       balanced (placeBomb h someone now)
       ∧ balanced (detonate chain_delay item_delay roll h i now')
       ∧ Forall (λ q, (0 ≤ activeBombs q)%Z) (players h)).
Proof.
  intros Hp x y id placed burst.
  split; [by apply placeBomb_rejected|].
  split; [|split; [intros h i; apply detonate_twice|]].
  2: { split; [|split].
       - intros h i b Hb. split; [by apply (detonate_bombs _ _ _ h i now' b)|].
         split; [by apply detonate_tile|].
         split; [by apply detonate_frees_tile|].
         split; [intros q Hq; by apply detonate_owner|].
         split; [intros other Hne; by apply (detonate_others _ _ _ h i now' b)|].
         by apply (detonate_size _ _ _ h i now' b).
       - intros other Hne. by apply placeBomb_others.
       - intros h someone i Hh. split; [by apply balanced_placeBomb|].
         split; [by apply balanced_detonate|by apply balanced_not_negative]. }
  intros Halive Htrapped Hroom Hfree.
  pose proof (placeBomb_accepted g who now p Hp Halive Htrapped Hroom Hfree)
    as Hplaced.
  fold x y id placed in Hplaced.
  set (b := {| bx := x; by_ := y; owner := who; blast := power p;
               placedAt := now; escaped := ∅ |}) in Hplaced.
  assert (bombs placed = <[id := b]> (bombs g)) as Hbombs by by rewrite Hplaced.
  assert (bombs placed !! id = Some b) as Hlive
    by (rewrite Hbombs; apply lookup_insert_eq).
  assert (tiles placed = put_tile (tiles g) x y BombOccupied) as Htiles
    by by rewrite Hplaced.
  assert (players placed = adjust_active g who 1) as Hplayers
    by by rewrite Hplaced.
  assert (explosions placed = explosions g) as Hexpl by by rewrite Hplaced.
  assert (bombs burst = bombs g) as Hback.
  { unfold burst. rewrite (detonate_bombs _ _ _ placed id now' b Hlive), Hbombs.
    apply delete_insert_id, fresh_bomb. }
  split; [|split].
  - split; [|split].
    + destruct (bomb_at placed x y) as [id'|] eqn:Hat.
      * destruct (bomb_at_Some placed x y id' Hat) as (b' & Hb' & Hx & Hy).
        destruct (decide (id' = id)) as [->|Hne]; [done|].
        rewrite Hbombs, lookup_insert_ne in Hb' by done.
        by destruct (bomb_at_None g x y id' b' Hfree Hb').
      * by destruct (bomb_at_None placed x y id b Hat Hlive).
    + intros Hin. by apply (tileAt_put_same g).
    + by apply (active_adjust g placed who 1 p).
  - split; [by rewrite Hback; apply fresh_bomb|]. split; [|split; [|split]].
    + by rewrite (bomb_at_bombs g burst x y Hback).
    + intros Hin. apply (detonate_tile _ _ _ placed id now' b Hlive).
      exists BombOccupied. by apply (tileAt_put_same g).
    + unfold burst. rewrite (detonate_active _ _ _ placed id now' b who Hlive).
      rewrite (active_adjust placed (defuse placed id b) who (-1)
                 (with_active p (activeBombs p + 1))); [|done|].
      * cbn. f_equal. lia.
      * by apply (find_player_adjust g placed who 1 p).
    + unfold burst. rewrite (detonate_explosions _ _ _ placed id now' b Hlive).
      rewrite map_size_insert_None by apply fresh_explosion.
      by rewrite Hexpl.
  - apply detonate_twice.
Qed.

Lemma bomb_lifecycle_witness :
  find_player arena 1 = Some bomber
  ∧ active (placeBomb arena 1 0) 1 = Some 1%Z
  ∧ active (detonate 100 100 (λ _ _, false) (placeBomb arena 1 0) 0 2500) 1
    = Some 0%Z
  ∧ bombs crossed !! 0 = Some planted
  ∧ tile_of visitor = (bx planted, by_ planted)
  ∧ active (detonate 100 100 (λ _ _, false) crossed 0 2500) 1 = Some 0%Z
  ∧ active (detonate 100 100 (λ _ _, false) crossed 0 2500) 2 = Some 1%Z.
Proof.
  assert (find_player arena 1 = Some bomber) as Hp by reflexivity.
  split; [exact Hp|].
  destruct (bomb_lifecycle 100 100 (λ _ _, false) arena 1 bomber 0 2500 2600 Hp)
    as (_ & Hok & _ & Hany & _).
  destruct (Hok eq_refl eq_refl eq_refl eq_refl)
    as ((_ & _ & Hup) & (_ & _ & _ & Hdown & _) & _).
  assert (bombs crossed !! 0 = Some planted) as Hlive by reflexivity.
  destruct (Hany crossed 0 planted Hlive) as (_ & _ & _ & Howner & Hothers & _).
  refine (conj Hup (conj Hdown (conj Hlive (conj eq_refl (conj _ _))))).
  - exact (Howner _ eq_refl).
  - exact (eq_trans (Hothers 2 ltac:(discriminate)) eq_refl).
Defined.

(** C9.  When a live bomb detonates, the recorded explosion lists the
    bomb's own tile and then, for each of the four axis directions, a ray
    that is a prefix of the straight line of tiles starting next to the
    bomb, cut at the first SolidWall or grid edge (left out) or at the
    first BreakableWall or other live bomb (kept as the last tile), the
    obstacles being those of the round once the detonating bomb has been
    removed; no ray is longer than the blast power captured at placement.
    In particular a bomb of power 2 at (5,5) with nothing in the way
    records exactly the nine tiles of Scenario B. *)
Theorem explosion_rays (chain_delay item_delay : Z) (roll : Z → Z → bool)
    (g : Round) (id : nat) (b : Bomb) (now : Z) :
  bombs g !! id = Some b →
  let cleared := defuse g id b in
  let burst := detonate chain_delay item_delay roll g id now in
  let eid := fresh (dom (explosions g)) in
  (∃ r1 r2 r3 r4,
     explosions burst !! eid
     = Some {| affected := (bx b, by_ b) :: r1 ++ r2 ++ r3 ++ r4;
               createdAt := now |}
     ∧ Forall2 (λ d ray,
                  truncated cleared (line (bx b) (by_ b) d.1 d.2 (blast b)) ray
                  ∧ length ray ≤ blast b)
               directions [r1; r2; r3; r4])
  ∧ (bx b = 5%Z → by_ b = 5%Z → blast b = 2 →
     (∀ d t, d ∈ directions → t ∈ line 5 5 d.1 d.2 2 →
             ¬ blocked cleared t ∧ ¬ stopper cleared t) →
     explosions burst !! eid
     = Some {| affected := nine_tiles; createdAt := now |}).
Proof.
  intros Hb cleared burst eid.
  destruct (rays_truncated chain_delay item_delay roll cleared now b)
    as (r1 & r2 & r3 & r4 & Hcells & Hcut & _).
  assert (explosions burst !! eid
          = Some {| affected := (bx b, by_ b) :: r1 ++ r2 ++ r3 ++ r4;
                    createdAt := now |}) as Hrecord.
  { unfold burst. rewrite (detonate_explosions _ _ _ g id now b Hb).
    fold cleared. rewrite Hcells. apply lookup_insert_eq. }
  split.
  - exists r1, r2, r3, r4. split; [done|].
    eapply Forall2_impl; [exact Hcut|]. intros d ray Ht. split; [done|].
    destruct Ht as [Hpre _]. apply prefix_length in Hpre.
    by rewrite length_line in Hpre.
  - intros Hx Hy Hpower Hfree. rewrite Hrecord. do 2 f_equal.
    rewrite Hx, Hy, Hpower in Hcut.
    apply Forall2_cons_1 in Hcut as [T1 Hcut].
    apply Forall2_cons_1 in Hcut as [T2 Hcut].
    apply Forall2_cons_1 in Hcut as [T3 Hcut].
    apply Forall2_cons_1 in Hcut as [T4 _].
    apply truncated_open in T1, T2, T3, T4;
      try (intros t Ht; eapply Hfree; [|exact Ht];
           unfold directions; repeat constructor).
    by rewrite Hx, Hy, T1, T2, T3, T4.
Qed.

Lemma explosion_rays_witness :
  bombs scenario_b !! 0 = Some planted
  ∧ explosions (detonate 100 100 (λ _ _, false) scenario_b 0 2500) !! 0
    = Some {| affected := nine_tiles; createdAt := 2500 |}.
Proof.
  assert (bombs scenario_b !! 0 = Some planted) as Hb by (vm_compute; reflexivity).
  split; [exact Hb|].
  apply (proj2 (explosion_rays 100 100 (λ _ _, false) scenario_b 0 planted 2500 Hb));
    [reflexivity|reflexivity|reflexivity|].
  intros d t Hd Ht. unfold directions in Hd.
  repeat (apply elem_of_cons in Hd as [->|Hd]);
    [| | | |by apply elem_of_nil in Hd];
    cbn [line fst snd] in Ht;
    repeat (apply elem_of_cons in Ht as [->|Ht]);
    try (by apply elem_of_nil in Ht);
    unfold blocked, stopper; vm_compute;
    (split; [intros [H|H]; discriminate H|intros [H|[? H]]; discriminate H]).
Defined.

End Arena.

(* ===================================================================== *)
(** * Laws of the bundled local store (LocalDatabase, LocalRef: js/main.js) *)
(* ===================================================================== *)

Module LocalRefs.
Import Js.
Import LocalDb.

(** [LocalRef.child]: the path of the child reference. *)
Definition child (path childPath : string) : string :=
  path +:+ "/" +:+ childPath.

(** [LocalRef.off]: with a callback, that callback leaves the set of the
    path; without one, the whole entry of the path is deleted. *)
Definition off (db : LocalDatabase) (path : string) (callback : option Callback)
  : LocalDatabase :=
  match callback with
  | Some cb => removeListener db path cb
  | None =>
      {| data := data db;
         listeners := List.filter (λ e : string * list Callback,
                                     negb (String.eqb e.1 path))
                                  (listeners db) |}
  end.

(** [LocalRef.get]: the two closures of the snapshot, [val] and [exists]. *)
Definition val (db : LocalDatabase) (path : string) : Value := get db path.

Definition exists_ (db : LocalDatabase) (path : string) : bool :=
  match get db path with
  | VUndef => false
  | _ => true
  end.


Section Writes.
Implicit Types (d m : gmap string Value) (ks qs : list string) (v : Value)
         (db : LocalDatabase) (path p k : string).

Lemma get_keys_object v ks m :
  get_keys v ks = VObj m → ks ≠ [] → ∃ m', v = VObj m'.
Proof.
  intros Hget Hks. destruct ks as [|a ks]; [done|].
  apply (get_keys_found v a ks). by rewrite Hget.
Qed.



(** Removing a key below an object: the walk reaches its [delete], and the
    parent is the old object without the key. *)
Lemma remove_keys_child d ks k m :
  get_keys (VObj d) ks = VObj m →
  ∃ d', remove_keys d (ks ++ [k]) = Some d'
        ∧ get_keys (VObj d') ks = VObj (delete k m).
Proof.
  revert d. induction ks as [|a ks IH]; intros d Hget.
  - injection Hget as <-. by eexists.
  - rewrite get_keys_obj in Hget.
    assert (∃ m', d !! a = Some (VObj m')) as [m' Ha].
    { destruct ks as [|b ks].
      - cbn in Hget. destruct (d !! a) as [w|]; [|done]. cbn in Hget. subst w.
        by eexists.
      - destruct (get_keys_object _ _ _ Hget) as [m' Hm']; [done|].
        destruct (d !! a) as [w|]; [|done]. cbn in Hm'. subst w. by eexists. }
    rewrite Ha, default_Some in Hget.
    destruct (IH m' Hget) as (m'' & Hrm & Hafter).
    exists (<[a := VObj m'']> d). split.
    + assert (∃ b rest, ks ++ [k] = b :: rest) as (b & rest & Heq)
        by (destruct ks; by eexists _, _).
      cbn [app]. rewrite Heq, remove_keys_cons. cbv zeta.
      rewrite Ha, default_Some. cbn [truthy]. by rewrite <- Heq, Hrm.
    + by rewrite get_keys_obj, lookup_insert_eq, default_Some.
Qed.

Lemma remove_keys_gone d ks k d' :
  remove_keys d (ks ++ [k]) = Some d' →
  (∃ m, get_keys (VObj d) ks = VObj m) →
  get_keys (VObj d') (ks ++ [k]) = VUndef.
Proof.
  intros Hrm [m Hm]. destruct (remove_keys_child d ks k m Hm) as (d'' & Hrm' & Hafter).
  rewrite Hrm in Hrm'. injection Hrm' as <-.
  by rewrite get_keys_app, Hafter, get_keys_obj, lookup_delete_eq.
Qed.

End Writes.

(** ** Reading after writing *)

(** A store with a room that holds a primitive where a round could be. *)
Definition lobby_store : LocalDatabase :=
  {| data := {["rooms" := VObj {["r1" := VObj {["title" := VStr "open";
                                                 "game" := VStr "none"]}]}]};
     listeners := [("rooms/r1", [1; 2]); ("rooms/r10", [3])] |}.

Lemma set_get_laws (db : LocalDatabase) (path : string) (v : Value) :
  keys_of path ≠ [] →
  get (set db path v).1 path = v
  ∧ (∀ rest, get (set db path v).1 (child path rest) = get_keys v (keys_of rest))
  ∧ (∀ q, ¬ keys_of path `prefix_of` keys_of q →
          ¬ keys_of q `prefix_of` keys_of path →
          get (set db path v).1 q = get db q).
Proof.
  intros Hks. unfold get. rewrite data_set. split; [|split].
  - by apply get_set_keys_same.
  - intros rest. unfold child. rewrite keys_of_append.
    by apply get_set_keys_app.
  - intros q H1 H2. by apply get_set_keys_frame.
Qed.





(** X3.  [update] where nothing (or a falsy value) is stored: the patch
    itself becomes the stored object. *)
Theorem update_creates_missing
        (db : LocalDatabase) (path : string) (patch : gmap string Value) :
  keys_of path ≠ [] →
  truthy (get db path) = false →
  get (update db path (VObj patch)).1 path = VObj patch.
Proof.
  intros Hks Hfalsy. unfold update.
  destruct (set_get_laws db path (merged (get db path) (VObj patch)) Hks)
    as [-> _].
  unfold merged, or_else. rewrite Hfalsy. cbn [spread].
  by rewrite (right_id_L ∅ (∪)).
Qed.

Lemma update_creates_missing_witness :
  keys_of "rooms/r2" ≠ []
  ∧ truthy (get lobby_store "rooms/r2") = false
  ∧ get (update lobby_store "rooms/r2" (VObj {["title" := VStr "new"]})).1 "rooms/r2"
    = VObj {["title" := VStr "new"]}.
Proof.
  assert (keys_of "rooms/r2" ≠ []) as Hks by done.
  assert (truthy (get lobby_store "rooms/r2") = false) as Hfalsy by reflexivity.
  refine (conj Hks (conj Hfalsy _)).
  exact (update_creates_missing lobby_store "rooms/r2" {["title" := VStr "new"]}
                                Hks Hfalsy).
Defined.



(** X5.  Reading through a child reference is reading the parent and
    walking the child path from there; empty segments of either path (a
    leading, trailing or doubled slash) play no part. *)
Theorem child_reads_below (db : LocalDatabase) (p c : string) :
  get db (child p c) = get_keys (get db p) (keys_of c)
  ∧ get db (p +:+ "/") = get db p
  ∧ get db ("/" +:+ p) = get db p.
Proof.
  unfold get, child. split; [|split].
  - by rewrite keys_of_append, get_keys_app.
  - change (p +:+ "/") with (p +:+ "/" +:+ "").
    rewrite keys_of_append. change (keys_of "") with (@nil string).
    by rewrite app_nil_r.
  - change ("/" +:+ p) with ("" +:+ "/" +:+ p). by rewrite keys_of_append.
Qed.

(** ** Subscriptions *)

(** A callback is registered at a listener path. *)
Definition registered (db : LocalDatabase) (listenerPath : string)
           (callback : Callback) : Prop :=
  ∃ callbacks, In (listenerPath, callbacks) (listeners db) ∧ In callback callbacks.

Section Subscriptions.
Implicit Types (db : LocalDatabase) (path p lp : string) (cb : Callback)
         (ls : list (string * list Callback)).



Lemma notify_only_registered db path cb snapshot :
  In (cb, snapshot) (notifyListeners db path) ↔
  ∃ lp, registered db lp cb ∧ affects path lp = true ∧ snapshot = get db lp.
Proof.
  unfold notifyListeners, registered. rewrite in_flat_map. split.
  - intros ([lp cs] & Hentry & Hin). unfold notify_entry in Hin. cbn [fst snd] in Hin.
    destruct (affects path lp) eqn:Haff; [|done].
    apply in_map_iff in Hin as (c & Heq & Hc). injection Heq as -> <-.
    exists lp. split; [by exists cs|done].
  - intros (lp & (cs & Hentry & Hcb) & Haff & ->).
    exists (lp, cs). split; [done|]. unfold notify_entry. cbn [fst snd].
    rewrite Haff. apply in_map_iff. by exists cb.
Qed.

Lemma off_registered db p o lp cb :
  o = Some cb ∨ o = None →
  registered (off db p o) lp cb → registered db lp cb ∧ lp ≠ p.
Proof.
  intros Ho (cs & Hentry & Hcb). destruct Ho as [-> | ->]; cbn in Hentry.
  - apply in_map_iff in Hentry as ([q qs] & Heq & Hin). cbn [fst snd] in Heq.
    destruct (String.eqb q p) eqn:Hq.
    + injection Heq as -> <-. apply filter_In in Hcb as [_ Hne].
      by rewrite Nat.eqb_refl in Hne.
    + injection Heq as -> ->. apply String.eqb_neq in Hq.
      split; [by exists cs|done].
  - apply filter_In in Hentry as [Hin Hne]. cbn [fst] in Hne.
    apply negb_true_iff, String.eqb_neq in Hne. split; [by exists cs|done].
Qed.

End Subscriptions.



Lemma silent_after_off db p o cb path snapshot :
  o = Some cb ∨ o = None →
  (∀ lp, registered db lp cb → lp = p) →
  ∀ d, ¬ In (cb, snapshot) (notifyListeners (with_data (off db p o) d) path).
Proof.
  intros Ho Honly d Hin.
  apply notify_only_registered in Hin as (lp & Hreg & _).
  assert (registered (off db p o) lp cb) as Hreg'.
  { destruct Hreg as (cs & Hentry & Hcb). by exists cs. }
  destruct (off_registered db p o lp cb Ho Hreg') as [Hold Hne].
  by apply Hne, Honly.
Qed.

(** X7.  After [off], with the callback or for the whole path, a callback
    that was registered at that path only is not called by any later [set],
    [update] or [remove], wherever it writes. *)
Theorem unsubscribed_is_silent
        (db : LocalDatabase) (p : string) (cb : Callback) (o : option Callback) :
  o = Some cb ∨ o = None →
  (∀ lp, registered db lp cb → lp = p) →
  ∀ path snapshot,
    (∀ v, ¬ In (cb, snapshot) (set (off db p o) path v).2)
    ∧ (∀ patch, ¬ In (cb, snapshot) (update (off db p o) path patch).2)
    ∧ ¬ In (cb, snapshot) (remove (off db p o) path).2.
Proof.
  intros Ho Honly path snapshot. split; [|split].
  - intros v. by apply silent_after_off.
  - intros patch. by apply silent_after_off.
  - unfold remove. destruct (remove_keys _ _); [|by intros []].
    by apply silent_after_off.
Qed.

Lemma unsubscribed_is_silent_witness :
  (∀ lp, registered lobby_store lp 3 → lp = "rooms/r10")
  ∧ ¬ In (3, VNum 7) (set (off lobby_store "rooms/r10" (Some 3)) "rooms/r10" (VNum 7)).2.
Proof.
  assert (∀ lp, registered lobby_store lp 3 → lp = "rooms/r10") as Honly.
  { intros lp (cs & [Heq|[Heq|[]]] & Hcb); injection Heq as <- <-; [|done].
    by destruct Hcb as [|[|[]]]. }
  split; [exact Honly|].
  exact (proj1 (unsubscribed_is_silent lobby_store "rooms/r10" 3 (Some 3)
                  (or_introl eq_refl) Honly "rooms/r10" (VNum 7)) (VNum 7)).
Defined.


End LocalRefs.

(* ===================================================================== *)
(** * Moves of the five-in-a-row client (js/omok.js, both revisions)      *)
(* ===================================================================== *)

Module OmokMoves.
Import Js.
Import Omok.

(** [a === b] on the values a board holds and a colour can be: primitives
    are compared by type and value; two object values are taken to be
    different references. *)
Definition strict_eq (a b : Value) : bool :=
  match a, b with
  | VUndef, VUndef | VNull, VNull => true
  | VBool x, VBool y => Bool.eqb x y
  | VNum x, VNum y => (x =? y)%Z
  | VStr x, VStr y => String.eqb x y
  | _, _ => false
  end.

(** The bounds test of the two counting loops of [checkWin]. *)
Definition off_board (nx ny : Z) : bool :=
  (nx <? 0)%Z || (Z.of_nat BOARD_SIZE <=? nx)%Z
  || (ny <? 0)%Z || (Z.of_nat BOARD_SIZE <=? ny)%Z.

(** One counting loop of [checkWin]: [i] runs over [steps], the cell
    examined at step [i] is [cell i]; the loop breaks at the first cell off
    the board or of another colour.  [None] is the [TypeError] of
    [board[ny][nx]] when the board has no row [ny]. *)
Fixpoint count_run (board : Board) (color : Value) (cell : Z → Z * Z)
         (steps : list Z) : option nat :=
  match steps with
  | [] => Some 0
  | i :: rest =>
      let '(nx, ny) := cell i in
      if off_board nx ny then Some 0
      else
        match cell_at board (Z.to_nat ny) (Z.to_nat nx) with
        | None => None
        | Some c =>
            if strict_eq c color then S <$> count_run board color cell rest
            else Some 0
        end
  end.

(** The four directions of [checkWin]. *)
Definition win_directions : list (Z * Z) := [(1, 0); (0, 1); (1, 1); (1, -1)]%Z.

(** The loop of [checkWin] over the directions, with its early return. *)
Fixpoint scan_directions (board : Board) (x y : Z) (color : Value)
         (directions : list (Z * Z)) : option bool :=
  match directions with
  | [] => Some false
  | (dx, dy) :: rest =>
      forward ← count_run board color (λ i, (x + dx * i, y + dy * i)%Z) [1; 2; 3; 4]%Z;
      backward ← count_run board color (λ i, (x - dx * i, y - dy * i)%Z) [1; 2; 3; 4]%Z;
      if 5 <=? 1 + forward + backward then Some true
      else scan_directions board x y color rest
  end.

(** [checkWin] *)
Definition checkWin (board : Board) (x y : Z) (color : Value) : option bool :=
  scan_directions board x y color win_directions.

(** The cell at [p] is on the board and holds [color]. *)
Definition holds (board : Board) (color : Value) (p : Z * Z) : bool :=
  negb (off_board p.1 p.2)
  && strict_eq (default VUndef (board !! Z.to_nat p.2 ≫= (.!! Z.to_nat p.1))) color.

(** Five cells in a line through [(x, y)], the cell [(x, y)] being the one
    at offset [k] from the start and not itself examined. *)
Definition lined (board : Board) (color : Value) (x y : Z) (d : Z * Z) (k : Z)
  : Prop :=
  ∀ i : Z, (- k ≤ i ≤ 4 - k)%Z → i ≠ 0%Z →
           holds board color (x + d.1 * i, y + d.2 * i)%Z = true.

(** A board with four black stones in a row, and the client of the black
    player about to move on it. *)
Definition four_black : Board :=
  <[7 := replicate 3 EMPTY ++ replicate 4 BLACK ++ replicate 8 EMPTY]> empty_board.

Definition black_to_move : GameState :=
  {| roomId := Some "r1"; playerId := "ann"; playerName := "Ann";
     isHost := true; myColor := BLACK; opponentId := VStr "bob";
     board := four_black; currentTurn := VStr "black"; gameOver := false;
     winner := VNull; isInitializing := false |}.

(** A decision procedure for well-formed boards. *)
Definition stoneb (c : Value) : bool :=
  strict_eq c EMPTY || strict_eq c BLACK || strict_eq c WHITE.

Definition well_formedb (board : Board) : bool :=
  (length board =? BOARD_SIZE)
  && forallb (λ row : list Value, (length row =? BOARD_SIZE) && forallb stoneb row)
             board.

Lemma stoneb_correct c : stoneb c = true → stone c.
Proof.
  unfold stoneb, stone, EMPTY, BLACK, WHITE.
  destruct c as [| |b|n|s|m]; simpl; try discriminate.
  - intros H. left. f_equal. apply Z.eqb_eq. by destruct (n =? 0)%Z.
  - intros H. destruct (String.eqb s "black") eqn:Hb.
    + right. left. f_equal. by apply String.eqb_eq.
    + destruct (String.eqb s "white") eqn:Hw; [|done].
      right. right. f_equal. by apply String.eqb_eq.
Qed.

Lemma well_formedb_correct board : well_formedb board = true → well_formed board.
Proof.
  unfold well_formedb. intros [Hlen Hrows]%andb_true_iff.
  apply Nat.eqb_eq in Hlen. rewrite forallb_forall in Hrows.
  split; [split; [done|]|]; apply Forall_forall; intros row Hrow%list_elem_of_In;
    apply Hrows, andb_true_iff in Hrow as [Hl Hs].
  - by apply Nat.eqb_eq.
  - apply Forall_forall. intros c Hc%list_elem_of_In.
    rewrite forallb_forall in Hs. by apply stoneb_correct, Hs.
Qed.

Section Lines.
Implicit Types (board : Board) (color : Value) (steps : list Z).

(** The length of the longest prefix of [steps] that satisfies [f]. *)
Fixpoint streak (f : Z → bool) (steps : list Z) : nat :=
  match steps with
  | [] => 0
  | i :: rest => if f i then S (streak f rest) else 0
  end.

Lemma count_run_streak board color cell steps :
  length board = BOARD_SIZE →
  count_run board color cell steps
  = Some (streak (λ i, holds board color (cell i)) steps).
Proof.
  intros Hrows. induction steps as [|i steps IH]; [done|].
  cbn [count_run streak]. unfold holds at 1.
  destruct (cell i) as [nx ny] eqn:Hcell. cbn [fst snd].
  destruct (off_board nx ny) eqn:Hoff; [done|]. cbn [negb andb].
  unfold off_board in Hoff. repeat apply orb_false_iff in Hoff as [Hoff ?].
  unfold cell_at.
  destruct (lookup_lt_is_Some_2 board (Z.to_nat ny)) as [row Hrow]; [lia|].
  rewrite Hrow. cbn [mbind option_bind].
  destruct (strict_eq _ color); [|done]. by rewrite IH.
Qed.

Lemma streak_four f (m : nat) :
  m ≤ 4 →
  m ≤ streak f [1; 2; 3; 4]%Z ↔ ∀ i : Z, (1 ≤ i ≤ Z.of_nat m)%Z → f i = true.
Proof.
  intros Hm. cbn [streak]. split.
  - intros Hrun i Hi.
    assert (i = 1 ∨ i = 2 ∨ i = 3 ∨ i = 4)%Z as [-> | [-> | [-> | ->]]] by lia;
      destruct (f 1%Z), (f 2%Z), (f 3%Z), (f 4%Z); try done; cbn in Hrun; lia.
  - intros Hall.
    destruct m as [|[|[|[|[|m]]]]]; [lia| | | | |lia].
    + rewrite (Hall 1%Z) by lia. lia.
    + rewrite (Hall 1%Z), (Hall 2%Z) by lia. lia.
    + rewrite (Hall 1%Z), (Hall 2%Z), (Hall 3%Z) by lia. lia.
    + rewrite (Hall 1%Z), (Hall 2%Z), (Hall 3%Z), (Hall 4%Z) by lia. lia.
Qed.

Lemma streak_le_four f : streak f [1; 2; 3; 4]%Z ≤ 4.
Proof. cbn. destruct (f 1%Z), (f 2%Z), (f 3%Z), (f 4%Z); lia. Qed.

(** A direction wins exactly when five cells in line hold the colour. *)
Lemma direction_wins board color x y d :
  5 ≤ 1 + streak (λ i, holds board color (x + d.1 * i, y + d.2 * i)%Z) [1; 2; 3; 4]%Z
        + streak (λ i, holds board color (x - d.1 * i, y - d.2 * i)%Z) [1; 2; 3; 4]%Z
  ↔ ∃ k, (0 ≤ k ≤ 4)%Z ∧ lined board color x y d k.
Proof.
  set (f := λ i, holds board color (x + d.1 * i, y + d.2 * i)%Z).
  set (b := λ i, holds board color (x - d.1 * i, y - d.2 * i)%Z).
  pose proof (streak_le_four f) as Hf. pose proof (streak_le_four b) as Hb.
  assert (∀ i, b i = f (- i)%Z) as Hflip.
  { intros i. unfold b, f. do 2 f_equal; lia. }
  split.
  - intros Hwin. exists (Z.of_nat (streak b [1; 2; 3; 4]%Z)). split; [lia|].
    intros i Hi Hne. change (f i = true).
    destruct (Z.lt_total i 0) as [Hneg|[->|Hpos]]; [|done|].
    + replace i with (- - i)%Z by lia. rewrite <- Hflip.
      apply (proj1 (streak_four b (streak b [1; 2; 3; 4]%Z) Hb)); [done|lia].
    + apply (proj1 (streak_four f (4 - streak b [1; 2; 3; 4]%Z) ltac:(lia))); lia.
  - intros (k & Hk & Hline).
    assert (Z.to_nat k ≤ streak b [1; 2; 3; 4]%Z) as Hback.
    { apply streak_four; [lia|]. intros i Hi. rewrite Hflip.
      apply (Hline (- i)%Z); lia. }
    assert (4 - Z.to_nat k ≤ streak f [1; 2; 3; 4]%Z) as Hfore.
    { apply streak_four; [lia|]. intros i Hi. apply (Hline i); lia. }
    lia.
Qed.

End Lines.

Lemma checkWin_lined (board : Board) (x y : Z) (color : Value) :
  length board = BOARD_SIZE →
  ∃ won, checkWin board x y color = Some won
         ∧ (won = true ↔ ∃ d k, d ∈ win_directions ∧ (0 ≤ k ≤ 4)%Z
                                ∧ lined board color x y d k).
Proof.
  intros Hrows. unfold checkWin.
  induction win_directions as [|[dx dy] ds IH].
  { exists false. split; [done|]. split; [done|].
    intros (d & k & Hd & _). by apply elem_of_nil in Hd. }
  cbn [scan_directions]. rewrite !count_run_streak by done.
  cbn [mbind option_bind].
  pose proof (direction_wins board color x y (dx, dy)) as Hdir. cbn [fst snd] in Hdir.
  destruct (5 <=? _) eqn:Hwin.
  - exists true. split; [done|]. split; [|done]. intros _.
    apply Nat.leb_le, Hdir in Hwin as (k & Hk & Hline).
    exists (dx, dy), k. split; [apply list_elem_of_here|done].
  - destruct IH as (won & Hscan & Hwon). exists won. split; [done|].
    rewrite Hwon. apply Nat.leb_gt in Hwin. split.
    + intros (d & k & Hd & Hk & Hline). exists d, k.
      split; [by apply list_elem_of_further|done].
    + intros (d & k & Hd & Hk & Hline).
      apply elem_of_cons in Hd as [->|Hd]; [|by exists d, k].
      assert (5 ≤ 1 + streak (λ i, holds board color (x + dx * i, y + dy * i)%Z) [1; 2; 3; 4]%Z
                    + streak (λ i, holds board color (x - dx * i, y - dy * i)%Z) [1; 2; 3; 4]%Z)
        by (apply Hdir; by exists k).
      lia.
Qed.

(** X9.  Whenever the board has its 15 rows, [checkWin] returns; it returns
    [true] exactly when, in one of the four directions, the four other
    cells of some five-cell window of the line through [(x, y)] are on the
    board and hold the colour.  The cell [(x, y)] itself is not looked at,
    and a line of more than five counts as well. *)
Theorem checkWin_five_in_line (board : Board) (x y : Z) (color : Value) :
  length board = BOARD_SIZE →
  ∃ won, checkWin board x y color = Some won
         ∧ (won = true ↔ ∃ d k, d ∈ win_directions ∧ (0 ≤ k ≤ 4)%Z
                                ∧ lined board color x y d k).
Proof. apply checkWin_lined. Qed.

Lemma checkWin_five_in_line_witness :
  length four_black = BOARD_SIZE
  ∧ ∃ won, checkWin four_black 7 7 BLACK = Some won
           ∧ (won = true ↔ ∃ d k, d ∈ win_directions ∧ (0 ≤ k ≤ 4)%Z
                                  ∧ lined four_black BLACK 7 7 d k).
Proof.
  assert (length four_black = BOARD_SIZE) as Hrows by reflexivity.
  exact (conj Hrows (checkWin_five_in_line four_black 7 7 BLACK Hrows)).
Defined.

(** ** Placing a stone *)

(** [JSON.parse(JSON.stringify(board))] on a board of primitives: the cells
    are copied, an [undefined] cell comes back as [null]. *)
Definition json_cell (c : Value) : Value :=
  match c with
  | VUndef => VNull
  | _ => c
  end.

Definition json_copy (board : list (list Value)) : list (list Value) :=
  (λ row : list Value, json_cell <$> row) <$> board.

(** [newBoard[y][x] = color]: a [TypeError] ([None]) when there is no row
    [y]; a negative [x] sets a property that is no cell. *)
Definition put_stone (board : Board) (x y : Z) (color : Value) : option Board :=
  if (y <? 0)%Z then None
  else
    match board !! Z.to_nat y with
    | None => None
    | Some row =>
        if (x <? 0)%Z then Some board
        else Some (<[Z.to_nat y := array_set row (Z.to_nat x) color]> board)
    end.

(** The [board] field of the update, as each revision encodes it. *)
Inductive Encoded : Type :=
| Flat (flat : list Value)
| Sparse (sparse : gmap string Value).

Definition encode (rev : Revision) (board : Board) : option Encoded :=
  match rev with
  | FlatArrays => Flat <$> flattenBoard board
  | SparseObjects => Sparse <$> encodeBoard board
  end.

(** What the game listener of the same revision makes of the field. *)
Definition read_back (e : Encoded) : option Board :=
  match e with
  | Flat flat => Some (unflattenBoard (IsArray flat))
  | Sparse sparse => decodeBoard (VObj sparse)
  end.

(** The [updates] object of [placeStone]: [finished] holds the winner when
    the fields [gameOver: true] and [winner] are present; [lastMove] is
    written by the second revision only. *)
Record Move : Type := {
  written : Encoded;
  nextTurn : Value;
  turnStartTime : Z;
  lastMove : option (Z * Z);
  finished : option string
}.

(** [placeStone]; [None] is its [catch] branch, which writes nothing. *)
Definition placeStone (rev : Revision) (st : GameState) (x y now : Z)
  : option Move :=
  newBoard ← put_stone (json_copy (board st)) x y (myColor st);
  checkWin newBoard x y (myColor st) ≫= λ hasWon : bool,
  encode rev newBoard ≫= λ encoded,
  Some {| written := encoded;
          nextTurn := if strict_eq (currentTurn st) (VStr "black")
                      then VStr "white" else VStr "black";
          turnStartTime := now;
          lastMove := match rev with
                      | FlatArrays => None
                      | SparseObjects => Some (x, y)
                      end;
          finished := if hasWon then Some (playerId st) else None |}.

Inductive Warning : Type := NotYourTurn | AlreadyOccupied.

(** How a click ends: silently, with a warning, or in [placeStone]. *)
Inductive Click : Type :=
| Ignored
| Warned (warning : Warning)
| Played (move : option Move).

(** [handleCanvasClick], from the grid coordinates on ([gridX] and [gridY]
    are the rounded quotients of the mouse offsets by the tile size).
    [None] is the [TypeError] of [board[gridY][gridX]] on a board without
    row [gridY]. *)
Definition handleCanvasClick (rev : Revision) (st : GameState)
           (gridX gridY now : Z) : option Click :=
  if gameOver st then Some Ignored
  else if negb (strict_eq (currentTurn st) (myColor st)) then Some (Warned NotYourTurn)
  else if off_board gridX gridY then Some Ignored
  else
    match cell_at (board st) (Z.to_nat gridY) (Z.to_nat gridX) with
    | None => None
    | Some c =>
        if negb (strict_eq c EMPTY) then Some (Warned AlreadyOccupied)
        else Some (Played (placeStone rev st gridX gridY now))
    end.

(** The board with the cell [(x, y)] replaced. *)
Definition with_stone (board : Board) (x y : nat) (color : Value) : Board :=
  alter (λ row, <[x := color]> row) y board.

Section Placing.
Implicit Types (board : Board) (color : Value) (x y : nat).

Lemma strict_eq_EMPTY c : strict_eq c EMPTY = true ↔ c = EMPTY.
Proof.
  unfold EMPTY. destruct c; cbn; try (split; [discriminate|discriminate]).
  rewrite Z.eqb_eq. split; [by intros ->|by intros [= ->]].
Qed.

Lemma json_copy_well_formed board : well_formed board → json_copy board = board.
Proof.
  intros [_ Hstones]. unfold json_copy.
  rewrite <- (list_fmap_id board) at 2. apply Forall_fmap_ext_1.
  eapply Forall_impl; [exact Hstones|]. intros row Hrow. cbn.
  rewrite <- (list_fmap_id row) at 2. apply Forall_fmap_ext_1.
  eapply Forall_impl; [exact Hrow|]. by intros c [->|[->| ->]].
Qed.

Lemma with_stone_well_formed board x y color :
  well_formed board → stone color → well_formed (with_stone board x y color).
Proof.
  intros [[Hlen Hrows] Hstones] Hcolor. unfold with_stone. split; [split|].
  - by rewrite length_alter.
  - apply Forall_alter; [done|]. intros row _ Hrow. by rewrite length_insert.
  - apply Forall_alter; [done|]. intros row _ Hrow. by apply Forall_insert.
Qed.

Lemma put_stone_in_range board x y color :
  rectangular board → x < BOARD_SIZE → y < BOARD_SIZE →
  put_stone board (Z.of_nat x) (Z.of_nat y) color = Some (with_stone board x y color).
Proof.
  intros Hrect Hx Hy. unfold put_stone.
  destruct (rectangular_row board y Hrect Hy) as (row & Hrow & Hlen).
  rewrite (proj2 (Z.ltb_ge _ _)) by lia. rewrite !Nat2Z.id, Hrow.
  rewrite (proj2 (Z.ltb_ge _ _)) by lia.
  unfold array_set. rewrite decide_True by lia. f_equal.
  unfold with_stone. apply list_eq. intros i.
  destruct (decide (i = y)) as [->|Hne].
  - rewrite list_lookup_alter_eq, Hrow. apply list_lookup_insert_eq.
    by eapply lookup_lt_Some.
  - by rewrite list_lookup_alter_ne, list_lookup_insert_ne.
Qed.

Lemma encode_read_back rev board :
  well_formed board →
  ∃ e, encode rev board = Some e ∧ read_back e = Some board.
Proof.
  intros Hwf. destruct rev; cbn [encode].
  - destruct (unflatten_flatten board Hwf) as (flat & Hflat & Hback).
    rewrite Hflat. exists (Flat flat). split; [done|].
    cbn [read_back]. by rewrite Hback.
  - destruct (encodeBoard_encodes board) as (sparse & Henc & Hspec); [apply Hwf|].
    rewrite Henc. exists (Sparse sparse). split; [done|]. cbn [read_back decodeBoard].
    by apply (decode_entries_encoded board sparse).
Qed.

End Placing.

Lemma placeStone_move
        (rev : Revision) (st : GameState) (x y : nat) (now : Z) :
  well_formed (board st) → stone (myColor st) →
  x < BOARD_SIZE → y < BOARD_SIZE →
  ∃ move,
    placeStone rev st (Z.of_nat x) (Z.of_nat y) now = Some move
    ∧ read_back (written move) = Some (with_stone (board st) x y (myColor st))
    ∧ nextTurn move = (if strict_eq (currentTurn st) BLACK then WHITE else BLACK)
    ∧ (finished move = Some (playerId st)
       ↔ checkWin (with_stone (board st) x y (myColor st))
                  (Z.of_nat x) (Z.of_nat y) (myColor st) = Some true)
    ∧ (finished move = None
       ↔ checkWin (with_stone (board st) x y (myColor st))
                  (Z.of_nat x) (Z.of_nat y) (myColor st) = Some false).
Proof.
  intros Hwf Hcolor Hx Hy. unfold placeStone.
  rewrite (json_copy_well_formed _ Hwf).
  rewrite (put_stone_in_range _ _ _ _ (proj1 Hwf) Hx Hy). cbn [mbind option_bind].
  pose proof (with_stone_well_formed _ x y _ Hwf Hcolor) as Hwf'.
  destruct (checkWin_lined (with_stone (board st) x y (myColor st))
              (Z.of_nat x) (Z.of_nat y) (myColor st)) as (won & -> & _);
    [apply Hwf'|].
  destruct (encode_read_back rev _ Hwf') as (e & -> & Hback).
  cbn [mbind option_bind]. eexists. split; [done|]. cbn.
  split; [done|]. split; [done|]. by destruct won.
Qed.

(** X10.  On a well-formed board, with the player's colour black or white
    and a cell of the grid: [placeStone] writes; the board it writes is read back
    by the game listener as the old board with that one cell set to the
    colour; the turn goes to white after black and to black otherwise; and
    the round is declared finished, with this player as the winner, exactly
    when [checkWin] accepts the new board. *)
Theorem placeStone_writes_the_move
        (rev : Revision) (st : GameState) (x y : nat) (now : Z) :
  well_formed (board st) → stone (myColor st) →
  x < BOARD_SIZE → y < BOARD_SIZE →
  ∃ move,
    placeStone rev st (Z.of_nat x) (Z.of_nat y) now = Some move
    ∧ read_back (written move) = Some (with_stone (board st) x y (myColor st))
    ∧ nextTurn move = (if strict_eq (currentTurn st) BLACK then WHITE else BLACK)
    ∧ (finished move = Some (playerId st)
       ↔ checkWin (with_stone (board st) x y (myColor st))
                  (Z.of_nat x) (Z.of_nat y) (myColor st) = Some true)
    ∧ (finished move = None
       ↔ checkWin (with_stone (board st) x y (myColor st))
                  (Z.of_nat x) (Z.of_nat y) (myColor st) = Some false).
Proof. apply placeStone_move. Qed.

Lemma placeStone_writes_the_move_witness :
  well_formed (board black_to_move) ∧ stone (myColor black_to_move)
  ∧ ∃ move,
      placeStone SparseObjects black_to_move 7 7 99 = Some move
      ∧ read_back (written move) = Some (with_stone four_black 7 7 BLACK).
Proof.
  assert (well_formed (board black_to_move)) as Hwf
    by (apply well_formedb_correct; reflexivity).
  assert (stone (myColor black_to_move)) as Hcolor by (right; left; reflexivity).
  refine (conj Hwf (conj Hcolor _)).
  destruct (placeStone_writes_the_move SparseObjects black_to_move 7 7 99
              Hwf Hcolor) as (move & Hmove & Hback & _); [cbv; lia|cbv; lia|].
  exists move. exact (conj Hmove Hback).
Defined.

(** X11.  A click ends in [placeStone] only while the round is on, on the
    player's own turn, on a cell of the grid that holds 0; on a well-formed
    board such a click does write, and what it writes reads back as the old
    board with the clicked cell set to the player's colour.  A click that
    fails one of the tests writes nothing. *)
Theorem click_plays_on_empty_cell
        (rev : Revision) (st : GameState) (gridX gridY now : Z) :
  well_formed (board st) → stone (myColor st) →
  (∀ move, handleCanvasClick rev st gridX gridY now = Some (Played move) →
     gameOver st = false
     ∧ strict_eq (currentTurn st) (myColor st) = true
     ∧ (0 ≤ gridX < Z.of_nat BOARD_SIZE)%Z ∧ (0 ≤ gridY < Z.of_nat BOARD_SIZE)%Z
     ∧ cell_at (board st) (Z.to_nat gridY) (Z.to_nat gridX) = Some EMPTY
     ∧ ∃ m, move = Some m
            ∧ read_back (written m)
              = Some (with_stone (board st) (Z.to_nat gridX) (Z.to_nat gridY)
                                 (myColor st)))
  ∧ (gameOver st = false →
     strict_eq (currentTurn st) (myColor st) = true →
     (0 ≤ gridX < Z.of_nat BOARD_SIZE)%Z → (0 ≤ gridY < Z.of_nat BOARD_SIZE)%Z →
     cell_at (board st) (Z.to_nat gridY) (Z.to_nat gridX) = Some EMPTY →
     ∃ m, handleCanvasClick rev st gridX gridY now = Some (Played (Some m))).
Proof.
  intros Hwf Hcolor.
  assert (∀ x y, (0 ≤ x < Z.of_nat BOARD_SIZE)%Z → (0 ≤ y < Z.of_nat BOARD_SIZE)%Z →
                 ∃ m, placeStone rev st x y now = Some m
                      ∧ read_back (written m)
                        = Some (with_stone (board st) (Z.to_nat x) (Z.to_nat y)
                                           (myColor st))) as Hplace.
  { intros x y Hx Hy.
    destruct (placeStone_move rev st (Z.to_nat x) (Z.to_nat y) now
                Hwf Hcolor) as (m & Hm & Hback & _); [lia|lia|].
    rewrite !Z2Nat.id in Hm by lia. by exists m. }
  unfold handleCanvasClick. split.
  - intros move Hclick.
    destruct (gameOver st); [done|].
    destruct (strict_eq (currentTurn st) (myColor st)); [|done]. cbn [negb] in Hclick.
    destruct (off_board gridX gridY) eqn:Hoff; [done|].
    unfold off_board in Hoff. repeat apply orb_false_iff in Hoff as [Hoff ?].
    destruct (cell_at _ _ _) as [c|]; [|done].
    destruct (strict_eq c EMPTY) eqn:Hc; [|done]. cbn [negb] in Hclick.
    apply strict_eq_EMPTY in Hc as ->.
    injection Hclick as <-.
    destruct (Hplace gridX gridY) as (m & Hm & Hback); [lia|lia|].
    repeat (split; [done || lia|]). by exists m.
  - intros -> -> Hx Hy ->. cbn [negb].
    assert (off_board gridX gridY = false) as ->.
    { unfold off_board. repeat (apply orb_false_iff; split); lia. }
    replace (strict_eq EMPTY EMPTY) with true by done. cbn [negb].
    destruct (Hplace gridX gridY Hx Hy) as (m & -> & _). by exists m.
Qed.

Lemma click_plays_on_empty_cell_witness :
  well_formed (board black_to_move) ∧ stone (myColor black_to_move)
  ∧ ∃ m, handleCanvasClick FlatArrays black_to_move 7 7 99 = Some (Played (Some m)).
Proof.
  assert (well_formed (board black_to_move)) as Hwf
    by (apply well_formedb_correct; reflexivity).
  assert (stone (myColor black_to_move)) as Hcolor by (right; left; reflexivity).
  refine (conj Hwf (conj Hcolor _)).
  apply (proj2 (click_plays_on_empty_cell FlatArrays black_to_move 7 7 99
                  Hwf Hcolor)); [reflexivity|reflexivity|cbv; split; [discriminate|reflexivity]
                                |cbv; split; [discriminate|reflexivity]|reflexivity].
Defined.

(** ** What the decoder of the first revision always gives *)

(** X12.  Whatever the store holds in the [board] field, [unflattenBoard] gives
    15 rows of 15 cells, and no cell of it is falsy except 0: a missing,
    [null], empty or [false] entry reads as an empty cell. *)
Theorem unflattenBoard_is_a_board (stored : Stored) :
  rectangular (unflattenBoard stored)
  ∧ Forall (Forall (λ c, c = EMPTY ∨ truthy c = true)) (unflattenBoard stored).
Proof.
  destruct stored as [flat|v]; cbn [unflattenBoard].
  - split; [split|].
    + by rewrite length_fmap, length_seq.
    + apply Forall_fmap, Forall_forall. intros y _. unfold compose.
      by rewrite length_fmap, length_seq.
    + apply Forall_fmap, Forall_forall. intros y _. unfold compose.
      apply Forall_fmap, Forall_forall. intros x _. unfold compose.
      unfold or_else. destruct (truthy _) eqn:Ht; [by right|by left].
  - split; [apply empty_board_rectangular|].
    unfold empty_board. apply Forall_replicate, Forall_replicate. by left.
Qed.

(** ** The player identifier *)

(** X13.  [Storage.getPlayerId] settles the identifier: once it has run, every
    later call, on whatever page, returns the same identifier and leaves
    the storage as it is. *)
Theorem getPlayerId_settles (page page' : Page) (ls : LocalStorage) :
  getPlayerId page' (getPlayerId page ls).2 = getPlayerId page ls
  ∧ (getPlayerId page ls).2 !! "playerId" = Some (getPlayerId page ls).1
  ∧ (getPlayerId page ls).1 ≠ "".
Proof.
  unfold getPlayerId.
  destruct (ls !! "playerId") as [pid|] eqn:Hpid.
  - destruct (String.eqb pid "") eqn:Hempty; cbn [fst snd].
    + rewrite lookup_insert_eq. cbn. by rewrite insert_insert_eq.
    + rewrite Hpid, Hempty. apply String.eqb_neq in Hempty. done.
  - cbn [fst snd]. rewrite lookup_insert_eq. cbn. by rewrite insert_insert_eq.
Qed.

End OmokMoves.

(* ===================================================================== *)
(** * The board of the Tetris client (js/tetris.js)                       *)
(* ===================================================================== *)

Module TetrisBoard.
Import Js.

(** [CONFIG.COLS], [CONFIG.ROWS] *)
Definition COLS : nat := Tetris.COLS.
Definition ROWS : nat := Tetris.ROWS.

(** The board, the shape of a piece: arrays of rows of cells. *)
Abbreviation Grid := (list (list Value)).

(** [g[row][col]] where row [row] exists; [undefined] past its end. *)
Definition cell (g : Grid) (row col : nat) : option Value :=
  r ← g !! row; Some (default VUndef (r !! col)).

(** ** Rotation *)

(** The assignments [rotated[x][rows - 1 - y] = matrix[y][x]] in the order
    the two loops of [rotateMatrix] make them. *)
Definition rotation_writes (matrix : Grid) (rows cols : nat)
  : list (nat * nat * Value) :=
  y ← seq 0 rows; x ← seq 0 cols;
  [(x, rows - 1 - y, default VUndef (matrix !! y ≫= (.!! x)))].

(** [g[i][j] = v] for a write inside the grid. *)
Definition write (g : Grid) (w : nat * nat * Value) : Grid :=
  alter (λ r : list Value, <[w.1.2 := w.2]> r) w.1.1 g.

(** [rotateMatrix]; [None] is the [TypeError] of [matrix[0].length] on an
    empty matrix. *)
Definition rotateMatrix (matrix : Grid) : option Grid :=
  match matrix with
  | [] => None
  | first :: _ =>
      let rows := length matrix in
      let cols := length first in
      Some (foldl write (replicate cols (replicate rows (VNum 0)))
                  (rotation_writes matrix rows cols))
  end.

(** A grid of [h] rows of [w] cells. *)
Definition sized (h w : nat) (g : Grid) : Prop :=
  length g = h ∧ Forall (λ r, length r = w) g.

Section Writes.
Implicit Types (g : Grid) (w : nat * nat * Value) (ws : list (nat * nat * Value)).

Lemma sized_write h wd g w : sized h wd g → sized h wd (write g w).
Proof.
  intros [Hlen Hrows]. unfold write. split; [by rewrite length_alter|].
  apply Forall_alter; [done|]. intros r _ Hr. by rewrite length_insert.
Qed.

Lemma sized_writes h wd g ws : sized h wd g → sized h wd (foldl write g ws).
Proof.
  revert g. induction ws as [|w ws IH]; intros g Hg; [done|].
  cbn. by apply IH, sized_write.
Qed.

Lemma sized_cell h wd g i j :
  sized h wd g → i < h → j < wd → ∃ v, cell g i j = Some v ∧ g !! i ≫= (.!! j) = Some v.
Proof.
  intros [Hlen Hrows] Hi Hj.
  destruct (lookup_lt_is_Some_2 g i) as [r Hr]; [lia|].
  pose proof (Forall_lookup_1 _ _ _ _ Hrows Hr) as Hlr. cbn in Hlr.
  destruct (lookup_lt_is_Some_2 r j) as [v Hv]; [lia|].
  exists v. unfold cell. rewrite Hr. cbn. by rewrite Hv.
Qed.

Lemma write_other g w i j :
  (i, j) ≠ (w.1.1, w.1.2) → write g w !! i ≫= (.!! j) = g !! i ≫= (.!! j).
Proof.
  intros Hne. unfold write. destruct (decide (i = w.1.1)) as [->|Hi].
  - rewrite list_lookup_alter_eq. destruct (g !! w.1.1) as [r|]; [|done].
    cbn. apply list_lookup_insert_ne. congruence.
  - by rewrite list_lookup_alter_ne.
Qed.

Lemma write_same h wd g w :
  sized h wd g → w.1.1 < h → w.1.2 < wd →
  write g w !! w.1.1 ≫= (.!! w.1.2) = Some w.2.
Proof.
  intros [Hlen Hrows] Hi Hj. unfold write. rewrite list_lookup_alter_eq.
  destruct (lookup_lt_is_Some_2 g w.1.1) as [r Hr]; [lia|].
  rewrite Hr. cbn. apply list_lookup_insert_eq.
  pose proof (Forall_lookup_1 _ _ _ _ Hrows Hr) as Hlr. cbn in Hlr. lia.
Qed.

Lemma writes_other g ws i j :
  (∀ w, w ∈ ws → (i, j) ≠ (w.1.1, w.1.2)) →
  foldl write g ws !! i ≫= (.!! j) = g !! i ≫= (.!! j).
Proof.
  revert g. induction ws as [|w ws IH]; intros g Hne; [done|].
  cbn. rewrite IH.
  - apply write_other, Hne, list_elem_of_here.
  - intros w' Hw'. by apply Hne, list_elem_of_further.
Qed.

Lemma writes_same h wd g ws w :
  sized h wd g → NoDup ((λ w, (w.1.1, w.1.2)) <$> ws) → w ∈ ws →
  w.1.1 < h → w.1.2 < wd →
  foldl write g ws !! w.1.1 ≫= (.!! w.1.2) = Some w.2.
Proof.
  revert g. induction ws as [|w' ws IH]; intros g Hg Hnd Hin Hi Hj.
  { by apply elem_of_nil in Hin. }
  cbn [fmap list_fmap] in Hnd. apply NoDup_cons in Hnd as [Hfresh Hnd].
  cbn [foldl]. apply elem_of_cons in Hin as [->|Hin].
  - rewrite writes_other; [by apply (write_same h wd)|].
    intros w Hw Heq. apply Hfresh. rewrite Heq.
    by apply (list_elem_of_fmap_2 (λ w, (w.1.1, w.1.2))).
  - apply IH; [by apply sized_write|done..].
Qed.

End Writes.

Section Rotation.
Implicit Types (m r : Grid) (h wd : nat).

Lemma elem_of_rotation_writes m rows cols w :
  w ∈ rotation_writes m rows cols ↔
  ∃ y x, y < rows ∧ x < cols
         ∧ w = (x, rows - 1 - y, default VUndef (m !! y ≫= (.!! x))).
Proof.
  unfold rotation_writes. rewrite list_elem_of_bind. split.
  - intros (y & Hw & Hy). apply list_elem_of_bind in Hw as (x & Hw & Hx).
    apply list_elem_of_singleton in Hw. apply elem_of_seq in Hx, Hy.
    exists y, x. split; [lia|]. split; [lia|done].
  - intros (y & x & Hy & Hx & ->). exists y. split; [|apply elem_of_seq; lia].
    apply list_elem_of_bind. exists x. split; [|apply elem_of_seq; lia].
    by apply list_elem_of_singleton.
Qed.

Lemma rotation_writes_NoDup m rows cols :
  NoDup ((λ w : nat * nat * Value, (w.1.1, w.1.2)) <$> rotation_writes m rows cols).
Proof.
  apply NoDup_fmap_2_strong.
  - intros w1 w2 (y1 & x1 & Hy1 & Hx1 & ->)%elem_of_rotation_writes
                 (y2 & x2 & Hy2 & Hx2 & ->)%elem_of_rotation_writes Heq.
    cbn in Heq. injection Heq as -> Hy.
    assert (y1 = y2) as -> by lia. done.
  - unfold rotation_writes. apply NoDup_bind.
    + intros y1 y2 w Hy1%elem_of_seq Hy2%elem_of_seq
             (x1 & Hw1 & _)%list_elem_of_bind (x2 & Hw2 & _)%list_elem_of_bind.
      apply list_elem_of_singleton in Hw1, Hw2. subst w.
      injection Hw2 as _ Hy _. lia.
    + intros y _. apply NoDup_bind.
      * intros x1 x2 w _ _ Hw1%list_elem_of_singleton Hw2%list_elem_of_singleton.
        subst w. by injection Hw2.
      * intros x _. apply NoDup_singleton.
      * apply NoDup_seq.
    + apply NoDup_seq.
Qed.

(** Two grids of the same size with the same cells are the same grid. *)
Lemma grid_ext h wd m r :
  sized h wd m → sized h wd r →
  (∀ i j, i < h → j < wd → m !! i ≫= (.!! j) = r !! i ≫= (.!! j)) →
  m = r.
Proof.
  intros [Hlm Hrm] [Hlr Hrr] Hcells.
  apply list_eq_same_length with h; [done|done|].
  intros i a b Hi Ha Hb.
  pose proof (Forall_lookup_1 _ _ _ _ Hrm Ha) as Hla.
  pose proof (Forall_lookup_1 _ _ _ _ Hrr Hb) as Hlb. cbn in Hla, Hlb.
  apply list_eq_same_length with wd; [done|done|].
  intros j u v Hj Hu Hv. specialize (Hcells i j Hi Hj).
  rewrite Ha, Hb in Hcells. cbn in Hcells. congruence.
Qed.

(** What [rotateMatrix] does to a rectangular matrix: the result has the
    two dimensions swapped, and its cell [(i, j)] is the cell
    [(h - 1 - j, i)] of the matrix. *)
Lemma rotateMatrix_cells h wd m :
  sized h wd m → 0 < h →
  ∃ r, rotateMatrix m = Some r ∧ sized wd h r
       ∧ ∀ i j, i < wd → j < h →
                r !! i ≫= (.!! j) = m !! (h - 1 - j) ≫= (.!! i).
Proof.
  intros Hm Hh. pose proof Hm as [Hlen Hrows].
  assert (sized wd h (replicate wd (replicate h (VNum 0)))) as Hblank.
  { split; [by rewrite length_replicate|].
    apply Forall_replicate. by rewrite length_replicate. }
  exists (foldl write (replicate wd (replicate h (VNum 0))) (rotation_writes m h wd)).
  split; [|split].
  - destruct m as [|first rest]; [cbn in Hlen; lia|].
    assert (length first = wd) as Hfirst
      by apply (Forall_lookup_1 _ _ 0 first Hrows eq_refl).
    unfold rotateMatrix. by rewrite Hlen, Hfirst.
  - by apply sized_writes.
  - intros i j Hi Hj.
    destruct (sized_cell h wd m (h - 1 - j) i Hm) as (v & _ & Hv); [lia|done|].
    rewrite Hv.
    apply (writes_same wd h _ _ (i, j, v)); [done|apply rotation_writes_NoDup| |done|done].
    apply elem_of_rotation_writes. exists (h - 1 - j), i.
    split; [lia|]. split; [done|]. rewrite Hv. cbn. do 2 f_equal. lia.
Qed.

End Rotation.

(** [n] rotations in a row. *)
Definition turns (n : nat) (m : Grid) : option Grid :=
  Nat.iter n (λ o : option Grid, o ≫= rotateMatrix) (Some m).

(** A sample shape: the T piece. *)
Definition tee : Grid :=
  [[VNum 0; VNum 1; VNum 0]; [VNum 1; VNum 1; VNum 1]].

(** X14 (js/tetris.js, rotateMatrix).  Rotating a rectangular matrix
    with at least one row and one column swaps its dimensions and moves the cell [(y, x)] to [(x, rows - 1 - y)];
    four rotations in a row give the matrix back. *)
Theorem rotateMatrix_quarter_turn (h wd : nat) (m : Grid) :
  sized h wd m → 0 < h → 0 < wd →
  (∃ r, rotateMatrix m = Some r ∧ sized wd h r
        ∧ ∀ y x, y < h → x < wd →
                 r !! x ≫= (.!! (h - 1 - y)) = m !! y ≫= (.!! x))
  ∧ turns 4 m = Some m.
Proof.
  intros Hm Hh Hw.
  destruct (rotateMatrix_cells h wd m Hm Hh) as (r1 & H1 & Hs1 & Hc1).
  destruct (rotateMatrix_cells wd h r1 Hs1 Hw) as (r2 & H2 & Hs2 & Hc2).
  destruct (rotateMatrix_cells h wd r2 Hs2 Hh) as (r3 & H3 & Hs3 & Hc3).
  destruct (rotateMatrix_cells wd h r3 Hs3 Hw) as (r4 & H4 & Hs4 & Hc4).
  split.
  - exists r1. split; [done|]. split; [done|]. intros y x Hy Hx.
    rewrite Hc1 by lia. do 2 f_equal. lia.
  - change (turns 4 m)
      with (((rotateMatrix m ≫= rotateMatrix) ≫= rotateMatrix) ≫= rotateMatrix).
    rewrite H1. change (Some r1 ≫= rotateMatrix) with (rotateMatrix r1).
    rewrite H2. change (Some r2 ≫= rotateMatrix) with (rotateMatrix r2).
    rewrite H3. change (Some r3 ≫= rotateMatrix) with (rotateMatrix r3).
    rewrite H4. f_equal.
    symmetry. apply (grid_ext h wd); [done|done|].
    intros i j Hi Hj.
    rewrite Hc4, Hc3, Hc2, Hc1 by lia.
    replace (h - 1 - (h - 1 - i)) with i by lia.
    replace (wd - 1 - (wd - 1 - j)) with j by lia. done.
Qed.

Lemma rotateMatrix_quarter_turn_witness :
  sized 2 3 tee
  ∧ turns 4 tee = Some tee.
Proof.
  assert (sized 2 3 tee) as Hm.
  { split; [reflexivity|]. repeat constructor. }
  exact (conj Hm (proj2 (rotateMatrix_quarter_turn 2 3 tee Hm ltac:(lia) ltac:(lia)))).
Defined.


(** ** Collision *)

(** The test [checkCollision] makes for one filled cell of the shape, at
    board coordinates [(newX, newY)]: outside the side walls or below the
    floor, or on a filled cell of the board (rows above the top are free).
    [None] is the [TypeError] of [board[newY][newX]] on a board without row
    [newY]. *)
Definition hits (board : Grid) (newX newY : Z) : option bool :=
  if (newX <? 0)%Z || (Z.of_nat COLS <=? newX)%Z || (Z.of_nat ROWS <=? newY)%Z
  then Some true
  else if (0 <=? newY)%Z
       then truthy <$> cell board (Z.to_nat newY) (Z.to_nat newX)
       else Some false.

(** The inner loop of [checkCollision], over the cells of one row of the
    shape, from column [col] on. *)
Fixpoint scan_cells (board : Grid) (x y : Z) (row : nat) (cells : list Value)
         (col : nat) : option bool :=
  match cells with
  | [] => Some false
  | c :: rest =>
      if truthy c then
        match hits board (x + Z.of_nat col) (y + Z.of_nat row) with
        | Some false => scan_cells board x y row rest (S col)
        | outcome => outcome
        end
      else scan_cells board x y row rest (S col)
  end.

(** The outer loop, over the rows of the shape from row [row] on. *)
Fixpoint scan_rows (board : Grid) (x y : Z) (rows : Grid) (row : nat)
  : option bool :=
  match rows with
  | [] => Some false
  | cells :: rest =>
      match scan_cells board x y row cells 0 with
      | Some false => scan_rows board x y rest (S row)
      | outcome => outcome
      end
  end.

(** [checkCollision] *)
Definition checkCollision (board : Grid) (x y : Z) (shape : Grid) : option bool :=
  scan_rows board x y shape 0.

(** A cell of the board that a block may take. *)
Definition fits (board : Grid) (newX newY : Z) : Prop :=
  (0 ≤ newX < Z.of_nat COLS)%Z ∧ (newY < Z.of_nat ROWS)%Z
  ∧ ((0 ≤ newY)%Z →
     ∃ v, cell board (Z.to_nat newY) (Z.to_nat newX) = Some v ∧ truthy v = false).

(** Every filled cell of the shape, put at [(x, y)], fits. *)
Definition free (board : Grid) (x y : Z) (shape : Grid) : Prop :=
  ∀ row col c, shape !! row ≫= (.!! col) = Some c → truthy c = true →
               fits board (x + Z.of_nat col) (y + Z.of_nat row).

Section Collision.
Implicit Types (board shape : Grid) (x y : Z).

Lemma hits_fits board newX newY :
  ROWS ≤ length board →
  ∃ b, hits board newX newY = Some b ∧ (b = false ↔ fits board newX newY).
Proof.
  intros Htall. unfold hits, fits.
  destruct (_ || _ || _) eqn:Hout.
  - exists true. split; [done|]. split; [done|]. intros (Hx & Hy & _).
    repeat apply orb_true_iff in Hout as [Hout|Hout]; lia.
  - repeat apply orb_false_iff in Hout as [Hout ?].
    destruct (0 <=? newY)%Z eqn:Htop.
    + destruct (lookup_lt_is_Some_2 board (Z.to_nat newY)) as [r Hr]; [lia|].
      unfold cell. rewrite Hr. cbn. eexists. split; [done|]. split.
      * intros Hv. split; [lia|]. split; [lia|]. intros _. by eexists.
      * intros (_ & _ & Hcell). destruct Hcell as (v & Hv & Hfalsy); [lia|].
        by injection Hv as ->.
    + exists false. split; [done|]. split; [|done]. intros _.
      split; [lia|]. split; [lia|]. lia.
Qed.

Lemma scan_cells_spec board x y row cells col :
  ROWS ≤ length board →
  ∃ b, scan_cells board x y row cells col = Some b
       ∧ (b = false ↔ ∀ j c, cells !! j = Some c → truthy c = true →
                             fits board (x + Z.of_nat (col + j)) (y + Z.of_nat row)).
Proof.
  intros Htall. revert col. induction cells as [|c cells IH]; intros col.
  { exists false. split; [done|]. split; [|done]. by intros _ j c. }
  cbn [scan_cells]. destruct (IH (S col)) as (b & Hscan & Hb).
  assert ((∀ j c', cells !! j = Some c' → truthy c' = true →
                   fits board (x + Z.of_nat (S col + j)) (y + Z.of_nat row))
          ↔ (∀ j c', (c :: cells) !! S j = Some c' → truthy c' = true →
                     fits board (x + Z.of_nat (col + S j)) (y + Z.of_nat row)))
    as Hshift.
  { split; intros H j c' Hj Hc'; specialize (H j c' Hj Hc');
      by replace (col + S j) with (S col + j) in * by lia. }
  destruct (truthy c) eqn:Hc.
  - destruct (hits_fits board (x + Z.of_nat col) (y + Z.of_nat row) Htall)
      as (h & -> & Hh).
    destruct h.
    + exists true. split; [done|]. split; [done|]. intros Hall.
      apply Hh. specialize (Hall 0 c eq_refl Hc).
      by replace (col + 0) with col in Hall by lia.
    + exists b. split; [done|]. rewrite Hb, Hshift. split.
      * intros Hall [|j] c' Hj Hc'; [|by apply (Hall j c')].
        injection Hj as <-. replace (col + 0) with col by lia. by apply Hh.
      * intros Hall j c' Hj Hc'. by apply (Hall (S j) c').
  - exists b. split; [done|]. rewrite Hb, Hshift. split.
    + intros Hall [|j] c' Hj Hc'; [|by apply (Hall j c')].
      injection Hj as <-. congruence.
    + intros Hall j c' Hj Hc'. by apply (Hall (S j) c').
Qed.

Lemma scan_rows_spec board x y rows row :
  ROWS ≤ length board →
  ∃ b, scan_rows board x y rows row = Some b
       ∧ (b = false ↔ ∀ i col c, rows !! i ≫= (.!! col) = Some c → truthy c = true →
                                 fits board (x + Z.of_nat col) (y + Z.of_nat (row + i))).
Proof.
  intros Htall. revert row. induction rows as [|cells rows IH]; intros row.
  { exists false. split; [done|]. split; [|done]. by intros _ i col c. }
  cbn [scan_rows].
  destruct (scan_cells_spec board x y row cells 0 Htall) as (b0 & -> & Hb0).
  destruct (IH (S row)) as (b & Hscan & Hb).
  destruct b0.
  - exists true. split; [done|]. split; [done|]. intros Hall. apply Hb0.
    intros j c Hj Hc. specialize (Hall 0 j c). cbn in Hall. rewrite Hj in Hall.
    specialize (Hall eq_refl Hc). by replace (row + 0) with row in Hall by lia.
  - exists b. split; [done|]. rewrite Hb. split.
    + intros Hall [|i] col c Hi Hc.
      * cbn in Hi. replace (row + 0) with row by lia.
        by apply (proj1 Hb0 eq_refl col c).
      * replace (row + S i) with (S row + i) by lia. by apply (Hall i col c).
    + intros Hall i col c Hi Hc. specialize (Hall (S i) col c Hi Hc).
      by replace (row + S i) with (S row + i) in Hall by lia.
Qed.

Lemma checkCollision_spec board x y shape :
  ROWS ≤ length board →
  ∃ b, checkCollision board x y shape = Some b
       ∧ (b = false ↔ free board x y shape).
Proof.
  intros Htall. destruct (scan_rows_spec board x y shape 0 Htall) as (b & Hb & Hspec).
  exists b. split; [done|]. by rewrite Hspec.
Qed.

End Collision.

(** A board of [ROWS] blank rows. *)
Definition blank : Grid := replicate ROWS (replicate COLS (VNum 0)).

(** X15 (js/tetris.js, checkCollision).  On a board with its rows,
    [checkCollision] returns, and it returns [false] exactly when every
    filled cell of the shape lies between the side walls, above the floor,
    and on no filled cell of the board; cells above the top of the board
    never collide by themselves. *)
Theorem checkCollision_free (board : Grid) (x y : Z) (shape : Grid) :
  ROWS ≤ length board →
  ∃ b, checkCollision board x y shape = Some b
       ∧ (b = false ↔
          ∀ row col c, shape !! row ≫= (.!! col) = Some c → truthy c = true →
            (0 ≤ x + Z.of_nat col < Z.of_nat COLS)%Z
            ∧ (y + Z.of_nat row < Z.of_nat ROWS)%Z
            ∧ ((0 ≤ y + Z.of_nat row)%Z →
               ∃ v, cell board (Z.to_nat (y + Z.of_nat row))
                         (Z.to_nat (x + Z.of_nat col)) = Some v
                    ∧ truthy v = false)).
Proof. apply checkCollision_spec. Qed.

Lemma checkCollision_free_witness :
  ROWS ≤ length blank
  ∧ ∃ b, checkCollision blank 4 (-1) tee = Some b
         ∧ (b = false ↔
            ∀ row col c, tee !! row ≫= (.!! col) = Some c → truthy c = true →
              (0 ≤ 4 + Z.of_nat col < Z.of_nat COLS)%Z
              ∧ (-1 + Z.of_nat row < Z.of_nat ROWS)%Z
              ∧ ((0 ≤ -1 + Z.of_nat row)%Z →
                 ∃ v, cell blank (Z.to_nat (-1 + Z.of_nat row))
                           (Z.to_nat (4 + Z.of_nat col)) = Some v
                      ∧ truthy v = false)).
Proof.
  refine (conj _ (checkCollision_free blank 4 (-1) tee _)); vm_compute; lia.
Defined.

(** ** Pieces *)

(** The keys of [TETROMINOS]. *)
Inductive Kind : Type := KI | KO | KT | KS | KZ | KJ | KL.

Definition bits (rows : list (list Z)) : Grid :=
  (λ row : list Z, VNum <$> row) <$> rows.

(** [TETROMINOS[type].shape] and [TETROMINOS[type].color] *)
Definition base_shape (k : Kind) : Grid :=
  bits match k with
       | KI => [[1; 1; 1; 1]]
       | KO => [[1; 1]; [1; 1]]
       | KT => [[0; 1; 0]; [1; 1; 1]]
       | KS => [[0; 1; 1]; [1; 1; 0]]
       | KZ => [[1; 1; 0]; [0; 1; 1]]
       | KJ => [[1; 0; 0]; [1; 1; 1]]
       | KL => [[0; 0; 1]; [1; 1; 1]]
       end%Z.

Definition base_color (k : Kind) : Value :=
  VStr match k with
       | KI => "#00F0F0" | KO => "#F0F000" | KT => "#A000F0" | KS => "#00F000"
       | KZ => "#F00000" | KJ => "#0000F0" | KL => "#F0A000"
       end.

(** A piece in play: [{ type, shape, color, x, y }]. *)
Record Piece : Type := {
  ptype : Kind;
  shape : Grid;
  color : Value;
  px : Z;
  py : Z
}.

Definition placed_at (p : Piece) (g : Grid) (x y : Z) : Piece :=
  {| ptype := ptype p; shape := g; color := color p; px := x; py := y |}.

(** The piece collides with nothing where it is. *)
Definition clear (board : Grid) (p : Piece) : Prop :=
  free board (px p) (py p) (shape p).

(** The wall kicks [rotatePiece] tries, in order. *)
Definition kicks : list (Z * Z) := [(0, 0); (-1, 0); (1, 0); (0, -1)]%Z.

(** The loop of [rotatePiece] over the kicks: the first position where the
    rotated shape collides with nothing is taken; with none, the piece
    stays as it is. *)
Fixpoint try_kicks (board : Grid) (p : Piece) (rotated : Grid)
         (offsets : list (Z * Z)) : option Piece :=
  match offsets with
  | [] => Some p
  | (dx, dy) :: rest =>
      checkCollision board (px p + dx) (py p + dy) rotated ≫= λ hit : bool,
      if hit then try_kicks board p rotated rest
      else Some (placed_at p rotated (px p + dx) (py p + dy))
  end.

(** [rotatePiece] *)
Definition rotatePiece (board : Grid) (p : Piece) : option Piece :=
  rotated ← rotateMatrix (shape p); try_kicks board p rotated kicks.

(** The outcome of a loop that the model runs on fuel: it returns, it
    throws a [TypeError], or the fuel runs out first. *)
Inductive Run (A : Type) : Type :=
| Ret (a : A)
| Throw
| OutOfFuel.
Arguments Ret {A} a.
Arguments Throw {A}.
Arguments OutOfFuel {A}.

(** The loop of [getGhostY]: down one row at a time until the next row
    collides. *)
Fixpoint ghost_loop (fuel : nat) (board : Grid) (p : Piece) (ghostY : Z) : Run Z :=
  match fuel with
  | O => OutOfFuel
  | S fuel' =>
      match checkCollision board (px p) (ghostY + 1) (shape p) with
      | None => Throw
      | Some true => Ret ghostY
      | Some false => ghost_loop fuel' board p (ghostY + 1)
      end
  end.

(** [getGhostY] *)
Definition getGhostY (fuel : nat) (board : Grid) (current : option Piece) : Run Z :=
  match current with
  | None => Ret 0%Z
  | Some p => ghost_loop fuel board p (py p)
  end.

(** A sample piece: the T piece at the top of the board. *)
Definition tee_piece : Piece :=
  {| ptype := KT; shape := base_shape KT; color := base_color KT;
     px := 3; py := 0 |}.

Section Pieces.
Implicit Types (board : Grid) (p : Piece).

Lemma blank_tall : ROWS ≤ length blank.
Proof. vm_compute. lia. Qed.

Lemma tee_piece_clear : clear blank tee_piece.
Proof.
  destruct (checkCollision_spec blank 3 0 (base_shape KT) blank_tall)
    as (b & Hb & Hfree).
  apply Hfree. vm_compute in Hb. congruence.
Qed.

Lemma tee_piece_filled :
  ∃ row col c, shape tee_piece !! row ≫= (.!! col) = Some c ∧ truthy c = true.
Proof. by exists 0, 1, (VNum 1). Qed.

Lemma try_kicks_clear board p rotated offsets p' :
  ROWS ≤ length board → clear board p →
  try_kicks board p rotated offsets = Some p' →
  clear board p'
  ∧ (p' = p
     ∨ ∃ d, d ∈ offsets ∧ p' = placed_at p rotated (px p + d.1) (py p + d.2)).
Proof.
  intros Htall Hclear. induction offsets as [|[dx dy] rest IH]; cbn [try_kicks].
  { intros [= <-]. split; [done|by left]. }
  destruct (checkCollision_spec board (px p + dx) (py p + dy) rotated Htall)
    as (hit & -> & Hhit).
  cbn [mbind option_bind]. destruct hit.
  - intros Hrest. destruct (IH Hrest) as [Hc [->|(d & Hd & ->)]].
    + split; [done|by left].
    + split; [done|]. right. exists d. split; [by apply list_elem_of_further|done].
  - intros [= <-]. split; [by apply Hhit|].
    right. exists (dx, dy). split; [apply list_elem_of_here|done].
Qed.

Lemma try_kicks_returns board p rotated offsets :
  ROWS ≤ length board → is_Some (try_kicks board p rotated offsets).
Proof.
  intros Htall. induction offsets as [|[dx dy] rest IH]; cbn [try_kicks]; [done|].
  destruct (checkCollision_spec board (px p + dx) (py p + dy) rotated Htall)
    as (hit & -> & _).
  cbn [mbind option_bind]. by destruct hit.
Qed.

End Pieces.

(** X16 (js/tetris.js, rotatePiece).  A rotation never puts the piece
    where it collides: on a board with
    its rows and for a piece whose shape has a row, [rotatePiece] returns;
    the piece it returns is either the piece as it was, or the piece with
    its shape rotated and moved by one of the four kicks; and if the piece
    collided with nothing before, it collides with nothing afterwards. *)
Theorem rotatePiece_stays_clear (board : Grid) (p : Piece) :
  ROWS ≤ length board → shape p ≠ [] → clear board p →
  ∃ p', rotatePiece board p = Some p'
        ∧ clear board p'
        ∧ ptype p' = ptype p ∧ color p' = color p
        ∧ (p' = p
           ∨ ∃ d, d ∈ kicks ∧ rotateMatrix (shape p) = Some (shape p')
                  ∧ px p' = (px p + d.1)%Z ∧ py p' = (py p + d.2)%Z).
Proof.
  intros Htall Hshape Hclear. unfold rotatePiece.
  destruct (rotateMatrix (shape p)) as [rotated|] eqn:Hrot.
  2: { unfold rotateMatrix in Hrot. by destruct (shape p). }
  cbn [mbind option_bind].
  destruct (try_kicks_returns board p rotated kicks Htall) as [p' Hp'].
  exists p'. split; [done|].
  destruct (try_kicks_clear board p rotated kicks p' Htall Hclear Hp')
    as [Hc [->|(d & Hd & ->)]].
  - split; [done|]. split; [done|]. split; [done|]. by left.
  - split; [done|]. split; [done|]. split; [done|]. right. by exists d.
Qed.

Lemma rotatePiece_stays_clear_witness :
  clear blank tee_piece
  ∧ ∃ p', rotatePiece blank tee_piece = Some p'
          ∧ clear blank p'
          ∧ ptype p' = ptype tee_piece ∧ color p' = color tee_piece
          ∧ (p' = tee_piece
             ∨ ∃ d, d ∈ kicks ∧ rotateMatrix (shape tee_piece) = Some (shape p')
                    ∧ px p' = (px tee_piece + d.1)%Z
                    ∧ py p' = (py tee_piece + d.2)%Z).
Proof.
  refine (conj tee_piece_clear
               (rotatePiece_stays_clear blank tee_piece blank_tall _ tee_piece_clear)).
  discriminate.
Defined.

Section Ghost.
Implicit Types (board : Grid) (p : Piece).

Lemma ghost_loop_lowest board p (n : nat) (y : Z) :
  ROWS ≤ length board →
  (∃ row col c, shape p !! row ≫= (.!! col) = Some c ∧ truthy c = true) →
  (Z.of_nat ROWS - y ≤ Z.of_nat n)%Z →
  ∃ g, (∀ fuel, n < fuel → ghost_loop fuel board p y = Ret g)
       ∧ (y ≤ g)%Z
       ∧ (∀ y', (y < y' ≤ g)%Z → free board (px p) y' (shape p))
       ∧ ¬ free board (px p) (g + 1) (shape p).
Proof.
  intros Htall (row & col & c & Hcell & Hc). revert y.
  induction n as [|n IH]; intros y Hn;
    destruct (checkCollision_spec board (px p) (y + 1) (shape p) Htall)
      as ([|] & Hhit & Hfree).
  - exists y. split; [|split; [lia|split; [intros; lia|]]].
    + intros [|fuel] Hfuel; [lia|]. cbn. by rewrite Hhit.
    + intros Hf. by apply Hfree in Hf.
  - destruct (proj1 Hfree eq_refl row col c Hcell Hc) as (_ & Hfloor & _). lia.
  - exists y. split; [|split; [lia|split; [intros; lia|]]].
    + intros [|fuel] Hfuel; [lia|]. cbn. by rewrite Hhit.
    + intros Hf. by apply Hfree in Hf.
  - destruct (IH (y + 1)%Z) as (g & Hrun & Hle & Hbetween & Hstop); [lia|].
    exists g. split; [|split; [lia|split; [|done]]].
    + intros [|fuel] Hfuel; [lia|]. cbn. rewrite Hhit. apply Hrun. lia.
    + intros y' Hy'. destruct (decide (y' = y + 1)%Z) as [->|Hne].
      * by apply Hfree.
      * apply Hbetween. lia.
Qed.

End Ghost.

(** X17 (js/tetris.js, getGhostY).  The ghost is the lowest place the
    piece can fall to: for a piece with
    at least one filled cell on a board with its rows, [getGhostY] returns
    as soon as it has fuel for the rows below the piece; the row it returns
    is not above the piece, the piece collides with nothing on any row on
    the way down to it, and it does collide one row further down. *)
Theorem getGhostY_lowest (board : Grid) (p : Piece) :
  ROWS ≤ length board →
  (∃ row col c, shape p !! row ≫= (.!! col) = Some c ∧ truthy c = true) →
  ∃ g, (∀ fuel, Z.to_nat (Z.of_nat ROWS - py p) < fuel →
                getGhostY fuel board (Some p) = Ret g)
       ∧ (py p ≤ g)%Z
       ∧ (∀ y', (py p < y' ≤ g)%Z → free board (px p) y' (shape p))
       ∧ ¬ free board (px p) (g + 1) (shape p).
Proof.
  intros Htall Hfilled.
  destruct (ghost_loop_lowest board p (Z.to_nat (Z.of_nat ROWS - py p)) (py p)
              Htall Hfilled) as (g & Hrun & Hrest); [lia|].
  by exists g.
Qed.

Lemma getGhostY_lowest_witness :
  ROWS ≤ length blank
  ∧ ∃ g, (∀ fuel, Z.to_nat (Z.of_nat ROWS - py tee_piece) < fuel →
                  getGhostY fuel blank (Some tee_piece) = Ret g)
         ∧ (py tee_piece ≤ g)%Z
         ∧ (∀ y', (py tee_piece < y' ≤ g)%Z →
                  free blank (px tee_piece) y' (shape tee_piece))
         ∧ ¬ free blank (px tee_piece) (g + 1) (shape tee_piece).
Proof.
  exact (conj blank_tall
              (getGhostY_lowest blank tee_piece blank_tall tee_piece_filled)).
Defined.

(** ** Clearing lines *)

(** [row.every(cell => cell !== 0)] *)
Definition full (row : list Value) : bool :=
  forallb (λ c, negb (is_num c 0)) row.

(** [Array(CONFIG.COLS).fill(0)] *)
Definition blank_row : list Value := replicate COLS (VNum 0).

(** The loop of [clearLines].  [next] is [y + 1]: the loop ends when it is
    0.  A full row is spliced out and a blank row is put on top, and the
    same index is looked at again; otherwise the loop moves up one row.
    [Throw] is the [TypeError] of [board[y].every] on a board without row
    [y]. *)
Fixpoint clear_loop (fuel : nat) (board : Grid) (next : nat) (cleared : nat)
  : Run (Grid * nat) :=
  match fuel with
  | O => OutOfFuel
  | S fuel' =>
      match next with
      | O => Ret (board, cleared)
      | S y =>
          match board !! y with
          | None => Throw
          | Some row =>
              if full row
              then clear_loop fuel' (blank_row :: delete y board) (S y) (S cleared)
              else clear_loop fuel' board y cleared
          end
      end
  end.

(** The loop of [clearLines] from the bottom row up.  The loop takes at
    most [2 * ROWS] steps ([clear_loop_bounded] below), so the fuel it gets
    here never runs out; [None] is the [TypeError]. *)
Definition clear_rows (board : Grid) : option (Grid * nat) :=
  match clear_loop (2 * ROWS + 1) board ROWS 0 with
  | Ret outcome => Some outcome
  | _ => None
  end.

(** The rows of a board that are full, counted. *)
Definition count_full (rows : Grid) : nat := length (List.filter full rows).

(** The rows of a board that are not full, in order. *)
Definition unfilled (rows : Grid) : Grid := List.filter (λ r, negb (full r)) rows.

Section Clearing.
Implicit Types (board top kept : Grid).

Lemma blank_row_not_full : full blank_row = false.
Proof. reflexivity. Qed.

Lemma count_full_snoc top row :
  count_full (top ++ [row]) = count_full top + (if full row then 1 else 0).
Proof.
  unfold count_full. rewrite List.filter_app, length_app. cbn.
  by destruct (full row).
Qed.

Lemma unfilled_snoc top row :
  unfilled (top ++ [row]) = unfilled top ++ (if full row then [] else [row]).
Proof.
  unfold unfilled. rewrite List.filter_app. cbn. by destruct (full row).
Qed.

Lemma count_full_blank top : count_full (blank_row :: top) = count_full top.
Proof.
  unfold count_full. cbn [List.filter]. by rewrite blank_row_not_full.
Qed.

Lemma unfilled_blank top : unfilled (blank_row :: top) = blank_row :: unfilled top.
Proof.
  unfold unfilled. cbn [List.filter]. by rewrite blank_row_not_full.
Qed.

Lemma replicate_snoc_cons {A} (n : nat) (a : A) (l : list A) :
  replicate n a ++ a :: l = replicate (S n) a ++ l.
Proof. induction n as [|n IH]; cbn; [done|]. by rewrite IH. Qed.

(** The loop with [top] still to look at and [kept] already looked at. *)
Lemma clear_loop_spec fuel top kept cleared :
  length top + count_full top < fuel →
  clear_loop fuel (top ++ kept) (length top) cleared
  = Ret (replicate (count_full top) blank_row ++ unfilled top ++ kept,
         cleared + count_full top).
Proof.
  revert top kept cleared. induction fuel as [|fuel IH]; intros top kept cleared Hfuel;
    [lia|].
  destruct top as [|row top _] using rev_ind.
  { cbn. by rewrite Nat.add_0_r. }
  rewrite length_app in *. cbn [length] in *. rewrite Nat.add_1_r in *.
  rewrite count_full_snoc in *. rewrite unfilled_snoc.
  cbn [clear_loop].
  rewrite <- app_assoc. rewrite lookup_app_r by lia.
  rewrite Nat.sub_diag. cbn [app lookup list_lookup].
  destruct (full row) eqn:Hfull.
  - assert (delete (length top) (top ++ row :: kept) = top ++ kept) as ->.
    { rewrite delete_middle. done. }
    change (blank_row :: top ++ kept) with ((blank_row :: top) ++ kept).
    change (S (length top)) with (length (blank_row :: top)).
    rewrite IH.
    + rewrite count_full_blank, unfilled_blank.
      rewrite app_nil_r. rewrite <- app_comm_cons, replicate_snoc_cons.
      replace (count_full top + 1) with (S (count_full top)) by lia.
      by rewrite Nat.add_succ_r.
    + rewrite count_full_blank. cbn [length]. lia.
  - rewrite IH by lia. rewrite <- !app_assoc. cbn [app].
    by rewrite !Nat.add_0_r.
Qed.

Lemma count_full_le top : count_full top ≤ length top.
Proof. unfold count_full. apply List.filter_length_le. Qed.

Lemma clear_loop_short fuel board next cleared :
  length board < next → clear_loop (S fuel) board next cleared = Throw.
Proof.
  intros Hshort. destruct next as [|y]; [lia|].
  cbn [clear_loop]. rewrite lookup_ge_None_2; [reflexivity|lia].
Qed.

Lemma clear_loop_bounded board cleared :
  clear_loop (2 * ROWS + 1) board ROWS cleared ≠ OutOfFuel.
Proof.
  destruct (decide (ROWS ≤ length board)) as [Htall|Hshort].
  - assert (length (take ROWS board) = ROWS) as Hlen by (rewrite length_take; lia).
    pose proof (count_full_le (take ROWS board)) as Hle.
    pose proof (clear_loop_spec (2 * ROWS + 1) (take ROWS board) (drop ROWS board)
                                cleared) as Hspec.
    rewrite take_drop, Hlen in Hspec. rewrite Hspec; [discriminate|lia].
  - rewrite Nat.add_1_r, clear_loop_short; [discriminate|lia].
Qed.

Lemma clear_rows_spec board :
  length board = ROWS →
  clear_rows board
  = Some (replicate (count_full board) blank_row ++ unfilled board, count_full board).
Proof.
  intros Hlen. unfold clear_rows.
  pose proof (count_full_le board) as Hle.
  pose proof (clear_loop_spec (2 * ROWS + 1) board [] 0) as Hspec.
  rewrite !app_nil_r, Hlen in Hspec. rewrite Hspec; [reflexivity|lia].
Qed.

Lemma unfilled_not_full board : Forall (λ r, full r = false) (unfilled board).
Proof.
  apply Forall_forall. intros r Hr. unfold unfilled in Hr.
  apply list_elem_of_In, List.filter_In in Hr as [_ Hr].
  by apply negb_true_iff in Hr.
Qed.

Lemma length_unfilled board : length (unfilled board) + count_full board = length board.
Proof.
  unfold unfilled, count_full. induction board as [|r board IH]; [done|].
  cbn. destruct (full r); cbn; lia.
Qed.

End Clearing.

(** X18 (js/tetris.js, clearLines).  On a board of [ROWS] rows the loop of
    [clearLines] returns the number of full rows of the board; the board it
    leaves has that many blank rows on top, followed by the rows that were
    not full, in their order; it has [ROWS] rows again and none of them is
    full. *)
Theorem clearLines_drops_full_rows (board : Grid) :
  length board = ROWS →
  ∃ board' n,
    clear_rows board = Some (board', n)
    ∧ n = count_full board
    ∧ board' = replicate n blank_row ++ unfilled board
    ∧ length board' = ROWS
    ∧ Forall (λ r, full r = false) board'.
Proof.
  intros Hlen. eexists _, _. split; [by apply clear_rows_spec|].
  split; [done|]. split; [done|]. split.
  - rewrite length_app, length_replicate. pose proof (length_unfilled board). lia.
  - apply Forall_app. split; [|apply unfilled_not_full].
    apply Forall_forall. intros r Hr. apply elem_of_replicate in Hr as [-> _].
    apply blank_row_not_full.
Qed.

Definition stacked : Grid :=
  replicate 19 blank_row ++ [replicate COLS (VStr "#00F0F0")].

Lemma clearLines_drops_full_rows_witness :
  length stacked = ROWS
  ∧ ∃ board' n,
      clear_rows stacked = Some (board', n)
      ∧ n = count_full stacked
      ∧ board' = replicate n blank_row ++ unfilled stacked
      ∧ length board' = ROWS
      ∧ Forall (λ r, full r = false) board'.
Proof. exact (conj eq_refl (clearLines_drops_full_rows stacked eq_refl)). Defined.

(** ** Locking a piece onto the board *)

(** The body of the loops of [lockPiece] for a filled cell [(row, col)] of
    the shape: [board[y][x] = piece.color] when the cell is on the board.
    [None] is the [TypeError] of the assignment on a board without row
    [y]. *)
Definition stamp_cell (p : Piece) (board : Grid) (row col : nat) : option Grid :=
  let y := (py p + Z.of_nat row)%Z in
  let x := (px p + Z.of_nat col)%Z in
  if (0 <=? y)%Z && (y <? Z.of_nat ROWS)%Z && (0 <=? x)%Z && (x <? Z.of_nat COLS)%Z
  then r ← board !! Z.to_nat y;
       Some (<[Z.to_nat y := Omok.array_set r (Z.to_nat x) (color p)]> board)
  else Some board.

(** The inner loop, over the cells of one row of the shape from column
    [col] on. *)
Fixpoint stamp_cells (p : Piece) (board : Grid) (row : nat) (cells : list Value)
         (col : nat) : option Grid :=
  match cells with
  | [] => Some board
  | c :: rest =>
      if truthy c
      then stamp_cell p board row col ≫= λ board' : Grid,
           stamp_cells p board' row rest (S col)
      else stamp_cells p board row rest (S col)
  end.

(** The outer loop, over the rows of the shape from row [row] on. *)
Fixpoint stamp_rows (p : Piece) (board : Grid) (rows : Grid) (row : nat)
  : option Grid :=
  match rows with
  | [] => Some board
  | cells :: rest =>
      stamp_cells p board row cells 0 ≫= λ board' : Grid,
      stamp_rows p board' rest (S row)
  end.

(** The first part of [lockPiece]: the piece is written onto the board. *)
Definition stamp (p : Piece) (board : Grid) : option Grid :=
  stamp_rows p board (shape p) 0.

(** The filled cells of [cells], a part of row [row] of the shape that
    starts at column [col], seen from the board. *)
Definition covers_cells (p : Piece) (row : nat) (cells : list Value) (col : nat)
           (y x : nat) : bool :=
  (Z.of_nat y =? py p + Z.of_nat row)%Z
  && (px p + Z.of_nat col <=? Z.of_nat x)%Z
  && from_option truthy false (cells !! Z.to_nat (Z.of_nat x - px p - Z.of_nat col)).

(** The same for the rows [rows] of the shape that start at row [row]. *)
Definition covers_rows (p : Piece) (rows : Grid) (row : nat) (y x : nat) : bool :=
  (py p + Z.of_nat row <=? Z.of_nat y)%Z
  && (px p <=? Z.of_nat x)%Z
  && from_option truthy false
       (rows !! Z.to_nat (Z.of_nat y - py p - Z.of_nat row)
        ≫= (.!! Z.to_nat (Z.of_nat x - px p))).

(** The board cell [(y, x)] lies under a filled cell of the piece. *)
Definition covers (p : Piece) (y x : nat) : bool := covers_rows p (shape p) 0 y x.

(** [board'] is [board] with the cells picked by [target] set to
    [colour]. *)
Definition painted (board board' : Grid) (colour : Value)
           (target : nat → nat → bool) : Prop :=
  sized ROWS COLS board'
  ∧ ∀ y x, y < ROWS → x < COLS →
           board' !! y ≫= (.!! x)
           = if target y x then Some colour else board !! y ≫= (.!! x).

Section Stamping.
Implicit Types (board : Grid) (p : Piece).

Lemma painted_none board colour target :
  sized ROWS COLS board → (∀ y x, y < ROWS → x < COLS → target y x = false) →
  painted board board colour target.
Proof. intros Hs Hno. split; [done|]. intros y x Hy Hx. by rewrite Hno. Qed.

Lemma painted_then board board1 board2 colour t1 t2 t :
  painted board board1 colour t1 → painted board1 board2 colour t2 →
  (∀ y x, y < ROWS → x < COLS → t y x = t1 y x || t2 y x) →
  painted board board2 colour t.
Proof.
  intros [_ H1] [Hs H2] Ht. split; [done|]. intros y x Hy Hx.
  rewrite H2, H1, Ht by done. by destruct (t1 y x), (t2 y x).
Qed.

Lemma stamp_cell_spec p board row col :
  sized ROWS COLS board →
  ∃ board', stamp_cell p board row col = Some board'
            ∧ painted board board' (color p)
                (λ y x, bool_decide (Z.of_nat y = (py p + Z.of_nat row)%Z
                                     ∧ Z.of_nat x = (px p + Z.of_nat col)%Z)).
Proof.
  intros Hs. unfold stamp_cell.
  destruct (_ && _ && _ && _) eqn:Hin.
  - repeat apply andb_true_iff in Hin as [Hin ?].
    destruct Hs as [Hlen Hrows].
    destruct (lookup_lt_is_Some_2 board (Z.to_nat (py p + Z.of_nat row)))
      as [r Hr]; [lia|].
    pose proof (Forall_lookup_1 _ _ _ _ Hrows Hr) as Hlr. cbn in Hlr.
    rewrite Hr. cbn [mbind option_bind]. eexists. split; [done|].
    unfold Omok.array_set. rewrite decide_True by lia.
    split.
    + split; [by rewrite length_insert|].
      apply Forall_insert; [done|]. by rewrite length_insert.
    + intros y x Hy Hx. case_bool_decide as Hat.
      * destruct Hat as [Hy' Hx'].
        replace (Z.to_nat (py p + Z.of_nat row)) with y by lia.
        replace (Z.to_nat (px p + Z.of_nat col)) with x by lia.
        rewrite list_lookup_insert_eq by lia. cbn.
        apply list_lookup_insert_eq. lia.
      * destruct (decide (y = Z.to_nat (py p + Z.of_nat row))) as [->|Hne].
        -- rewrite list_lookup_insert_eq by lia. rewrite Hr. cbn.
           apply list_lookup_insert_ne. intros <-. apply Hat. lia.
        -- by rewrite list_lookup_insert_ne.
  - exists board. split; [done|]. apply painted_none; [done|].
    intros y x Hy Hx. apply bool_decide_eq_false_2. intros [Hy' Hx'].
    repeat apply andb_false_iff in Hin as [Hin|Hin]; lia.
Qed.

Lemma painted_ext board board' colour t t' :
  painted board board' colour t →
  (∀ y x, y < ROWS → x < COLS → t' y x = t y x) →
  painted board board' colour t'.
Proof.
  intros [Hs H] Ht. split; [done|]. intros y x Hy Hx. by rewrite Ht, H.
Qed.

Lemma covers_cells_cons p row c rest col y x :
  covers_cells p row (c :: rest) col y x
  = (truthy c && bool_decide (Z.of_nat y = (py p + Z.of_nat row)%Z
                              ∧ Z.of_nat x = (px p + Z.of_nat col)%Z))
    || covers_cells p row rest (S col) y x.
Proof.
  unfold covers_cells.
  destruct (Z.eqb_spec (Z.of_nat y) (py p + Z.of_nat row)) as [Hy|Hy].
  2: { cbn. rewrite bool_decide_eq_false_2 by (intros [? ?]; lia).
       by rewrite andb_false_r. }
  destruct (Z.leb_spec (px p + Z.of_nat col) (Z.of_nat x)) as [Hx|Hx].
  2: { cbn. rewrite bool_decide_eq_false_2 by (intros [? ?]; lia).
       rewrite andb_false_r. cbn.
       destruct (Z.leb_spec (px p + Z.of_nat (S col)) (Z.of_nat x)); [lia|done]. }
  cbn [andb].
  destruct (decide (Z.of_nat x = px p + Z.of_nat col)%Z) as [Heq|Hne].
  - rewrite bool_decide_eq_true_2 by done.
    replace (Z.to_nat (Z.of_nat x - px p - Z.of_nat col)) with 0 by lia.
    cbn. destruct (Z.leb_spec (px p + Z.of_nat (S col)) (Z.of_nat x)); [lia|].
    cbn. by rewrite andb_true_r, orb_false_r.
  - rewrite bool_decide_eq_false_2 by (intros [? ?]; lia).
    rewrite andb_false_r. cbn [orb].
    destruct (Z.leb_spec (px p + Z.of_nat (S col)) (Z.of_nat x)); [|lia].
    replace (Z.to_nat (Z.of_nat x - px p - Z.of_nat col))
      with (S (Z.to_nat (Z.of_nat x - px p - Z.of_nat (S col)))) by lia.
    done.
Qed.

Lemma covers_rows_cons p cells rest row y x :
  covers_rows p (cells :: rest) row y x
  = covers_cells p row cells 0 y x || covers_rows p rest (S row) y x.
Proof.
  unfold covers_rows, covers_cells.
  replace (px p + Z.of_nat 0)%Z with (px p) by lia.
  replace (Z.of_nat x - px p - Z.of_nat 0)%Z with (Z.of_nat x - px p)%Z by lia.
  destruct (Z.leb_spec (px p) (Z.of_nat x)) as [Hx|Hx].
  2: { by rewrite !andb_false_r. }
  rewrite !andb_true_r.
  destruct (Z.leb_spec (py p + Z.of_nat row) (Z.of_nat y)) as [Hy|Hy].
  2: { destruct (Z.eqb_spec (Z.of_nat y) (py p + Z.of_nat row)); [lia|].
       destruct (Z.leb_spec (py p + Z.of_nat (S row)) (Z.of_nat y)); [lia|done]. }
  cbn [andb].
  destruct (Z.eqb_spec (Z.of_nat y) (py p + Z.of_nat row)) as [Heq|Hne].
  - replace (Z.to_nat (Z.of_nat y - py p - Z.of_nat row)) with 0 by lia.
    destruct (Z.leb_spec (py p + Z.of_nat (S row)) (Z.of_nat y)); [lia|].
    cbn. by rewrite orb_false_r.
  - destruct (Z.leb_spec (py p + Z.of_nat (S row)) (Z.of_nat y)); [|lia].
    replace (Z.to_nat (Z.of_nat y - py p - Z.of_nat row))
      with (S (Z.to_nat (Z.of_nat y - py p - Z.of_nat (S row)))) by lia.
    done.
Qed.

Lemma stamp_cells_spec p board row cells col :
  sized ROWS COLS board →
  ∃ board', stamp_cells p board row cells col = Some board'
            ∧ painted board board' (color p) (covers_cells p row cells col).
Proof.
  revert board col. induction cells as [|c rest IH]; intros board col Hs.
  { exists board. split; [done|]. apply painted_none; [done|].
    intros y x _ _. unfold covers_cells. rewrite lookup_nil. cbn.
    by rewrite andb_false_r. }
  cbn [stamp_cells]. destruct (truthy c) eqn:Hc.
  - destruct (stamp_cell_spec p board row col Hs) as (board1 & -> & H1).
    cbn [mbind option_bind].
    destruct (IH board1 (S col) (proj1 H1)) as (board2 & -> & H2).
    exists board2. split; [done|].
    apply (painted_then _ _ _ _ _ _ _ H1 H2).
    intros y x _ _. by rewrite covers_cells_cons, Hc.
  - destruct (IH board (S col) Hs) as (board2 & -> & H2).
    exists board2. split; [done|]. apply (painted_ext _ _ _ _ _ H2).
    intros y x _ _. by rewrite covers_cells_cons, Hc.
Qed.

Lemma stamp_rows_spec p board rows row :
  sized ROWS COLS board →
  ∃ board', stamp_rows p board rows row = Some board'
            ∧ painted board board' (color p) (covers_rows p rows row).
Proof.
  revert board row. induction rows as [|cells rest IH]; intros board row Hs.
  { exists board. split; [done|]. apply painted_none; [done|].
    intros y x _ _. unfold covers_rows. rewrite lookup_nil. cbn.
    by rewrite andb_false_r. }
  cbn [stamp_rows].
  destruct (stamp_cells_spec p board row cells 0 Hs) as (board1 & -> & H1).
  cbn [mbind option_bind].
  destruct (IH board1 (S row) (proj1 H1)) as (board2 & -> & H2).
  exists board2. split; [done|].
  apply (painted_then _ _ _ _ _ _ _ H1 H2).
  intros y x _ _. apply covers_rows_cons.
Qed.

Lemma stamp_spec p board :
  sized ROWS COLS board →
  ∃ board', stamp p board = Some board' ∧ painted board board' (color p) (covers p).
Proof. apply stamp_rows_spec. Qed.

(** What [covers] says, in terms of the cells of the shape. *)
Lemma covers_filled p y x :
  covers p y x = true ↔
  ∃ row col c, shape p !! row ≫= (.!! col) = Some c ∧ truthy c = true
               ∧ Z.of_nat y = (py p + Z.of_nat row)%Z
               ∧ Z.of_nat x = (px p + Z.of_nat col)%Z.
Proof.
  unfold covers, covers_rows.
  replace (py p + Z.of_nat 0)%Z with (py p) by lia.
  replace (Z.of_nat y - py p - Z.of_nat 0)%Z with (Z.of_nat y - py p)%Z by lia.
  split.
  - intros H. apply andb_true_iff in H as [H Hc]. apply andb_true_iff in H as [Hy Hx].
    destruct (shape p !! Z.to_nat (Z.of_nat y - py p)
              ≫= (.!! Z.to_nat (Z.of_nat x - px p))) as [c|] eqn:Hcell; [|done].
    exists (Z.to_nat (Z.of_nat y - py p)), (Z.to_nat (Z.of_nat x - px p)), c.
    split; [done|]. split; [done|]. lia.
  - intros (row & col & c & Hcell & Hc & Hy & Hx).
    replace (Z.to_nat (Z.of_nat y - py p)) with row by lia.
    replace (Z.to_nat (Z.of_nat x - px p)) with col by lia.
    rewrite Hcell. cbn. rewrite Hc, andb_true_r.
    apply andb_true_iff. split; lia.
Qed.

End Stamping.

(** X19 (js/tetris.js, lockPiece).  On a board of [ROWS] rows of [COLS]
    cells the loops of [lockPiece] run without error and leave a board of
    the same size; a cell of it holds the colour of the piece if it lies
    under a filled cell of the piece, and what it held before otherwise.
    If the piece collided with nothing, every cell written was empty. *)
Theorem lockPiece_stamps_the_piece (board : Grid) (p : Piece) :
  sized ROWS COLS board →
  ∃ board',
    stamp p board = Some board'
    ∧ sized ROWS COLS board'
    ∧ (∀ y x, y < ROWS → x < COLS →
         board' !! y ≫= (.!! x)
         = if covers p y x then Some (color p) else board !! y ≫= (.!! x))
    ∧ (∀ y x, covers p y x = true ↔
         ∃ row col c, shape p !! row ≫= (.!! col) = Some c ∧ truthy c = true
                      ∧ Z.of_nat y = (py p + Z.of_nat row)%Z
                      ∧ Z.of_nat x = (px p + Z.of_nat col)%Z)
    ∧ (clear board p →
       ∀ y x, y < ROWS → x < COLS → covers p y x = true →
              ∃ v, board !! y ≫= (.!! x) = Some v ∧ truthy v = false).
Proof.
  intros Hs. destruct (stamp_spec p board Hs) as (board' & Hstamp & Hs' & Hcells).
  exists board'. split; [done|]. split; [done|]. split; [done|].
  split; [apply covers_filled|].
  intros Hclear y x Hy Hx Hcov.
  apply covers_filled in Hcov as (row & col & c & Hcell & Hc & Hy' & Hx').
  destruct (Hclear row col c Hcell Hc) as (_ & _ & Hempty).
  destruct Hempty as (v & Hv & Hfalsy); [lia|].
  replace (Z.to_nat (py p + Z.of_nat row)) with y in Hv by lia.
  replace (Z.to_nat (px p + Z.of_nat col)) with x in Hv by lia.
  destruct (sized_cell ROWS COLS board y x Hs Hy Hx) as (v' & Hv' & Hlook).
  exists v. split; [|done]. congruence.
Qed.

Lemma blank_sized : sized ROWS COLS blank.
Proof.
  split; [reflexivity|]. apply Forall_forall. intros r Hr.
  by apply elem_of_replicate in Hr as [-> _].
Qed.

Lemma lockPiece_stamps_the_piece_witness :
  sized ROWS COLS blank
  ∧ ∃ board',
      stamp tee_piece blank = Some board'
      ∧ sized ROWS COLS board'
      ∧ (∀ y x, y < ROWS → x < COLS →
           board' !! y ≫= (.!! x)
           = if covers tee_piece y x then Some (color tee_piece)
             else blank !! y ≫= (.!! x))
      ∧ (∀ y x, covers tee_piece y x = true ↔
           ∃ row col c, shape tee_piece !! row ≫= (.!! col) = Some c
                        ∧ truthy c = true
                        ∧ Z.of_nat y = (py tee_piece + Z.of_nat row)%Z
                        ∧ Z.of_nat x = (px tee_piece + Z.of_nat col)%Z)
      ∧ (clear blank tee_piece →
         ∀ y x, y < ROWS → x < COLS → covers tee_piece y x = true →
                ∃ v, blank !! y ≫= (.!! x) = Some v ∧ truthy v = false).
Proof.
  exact (conj blank_sized (lockPiece_stamps_the_piece blank tee_piece blank_sized)).
Defined.

End TetrisBoard.

(* ===================================================================== *)
(** * The player's game of the Tetris client (js/tetris.js)               *)
(* ===================================================================== *)

Module TetrisPlay.
Import Js.
Import TetrisBoard.

(** [CONFIG.INITIAL_SPEED], [CONFIG.SPEED_DECREASE], [CONFIG.MIN_SPEED] *)
Definition INITIAL_SPEED : Z := 1000.
Definition SPEED_DECREASE : Z := 50.
Definition MIN_SPEED : Z := 100.

(** [TETROMINO_TYPES]: the keys of [TETROMINOS] in the order they are
    written. *)
Definition TETROMINO_TYPES : list Kind := [KI; KO; KT; KS; KZ; KJ; KL].

(** The piece kept by Hold: [{ type, shape, color }]. *)
Record Held : Type := {
  htype : Kind;
  hshape : Grid;
  hcolor : Value
}.

(** [gameState], the fields of the player's own game.  [score] is [None]
    when it is [NaN]; [rolls] counts the calls of [Math.random] made so
    far. *)
Record Play : Type := {
  board : Grid;
  currentPiece : option Piece;
  nextPiece : option Piece;
  holdPiece : option Held;
  canHold : bool;
  score : option Z;
  lines : Z;
  level : Z;
  garbageQueue : Z;
  dropCounter : Z;
  dropInterval : Z;
  gameOver : bool;
  rolls : nat
}.

Definition set_board (st : Play) (v : Grid) : Play :=
  {| board := v; currentPiece := currentPiece st; nextPiece := nextPiece st;
     holdPiece := holdPiece st; canHold := canHold st; score := score st;
     lines := lines st; level := level st; garbageQueue := garbageQueue st;
     dropCounter := dropCounter st; dropInterval := dropInterval st;
     gameOver := gameOver st; rolls := rolls st |}.

Definition set_currentPiece (st : Play) (v : option Piece) : Play :=
  {| board := board st; currentPiece := v; nextPiece := nextPiece st;
     holdPiece := holdPiece st; canHold := canHold st; score := score st;
     lines := lines st; level := level st; garbageQueue := garbageQueue st;
     dropCounter := dropCounter st; dropInterval := dropInterval st;
     gameOver := gameOver st; rolls := rolls st |}.

Definition set_nextPiece (st : Play) (v : option Piece) : Play :=
  {| board := board st; currentPiece := currentPiece st; nextPiece := v;
     holdPiece := holdPiece st; canHold := canHold st; score := score st;
     lines := lines st; level := level st; garbageQueue := garbageQueue st;
     dropCounter := dropCounter st; dropInterval := dropInterval st;
     gameOver := gameOver st; rolls := rolls st |}.

Definition set_holdPiece (st : Play) (v : option Held) : Play :=
  {| board := board st; currentPiece := currentPiece st;
     nextPiece := nextPiece st; holdPiece := v; canHold := canHold st;
     score := score st; lines := lines st; level := level st;
     garbageQueue := garbageQueue st; dropCounter := dropCounter st;
     dropInterval := dropInterval st; gameOver := gameOver st;
     rolls := rolls st |}.

Definition set_canHold (st : Play) (v : bool) : Play :=
  {| board := board st; currentPiece := currentPiece st;
     nextPiece := nextPiece st; holdPiece := holdPiece st; canHold := v;
     score := score st; lines := lines st; level := level st;
     garbageQueue := garbageQueue st; dropCounter := dropCounter st;
     dropInterval := dropInterval st; gameOver := gameOver st;
     rolls := rolls st |}.

Definition set_score (st : Play) (v : option Z) : Play :=
  {| board := board st; currentPiece := currentPiece st;
     nextPiece := nextPiece st; holdPiece := holdPiece st;
     canHold := canHold st; score := v; lines := lines st; level := level st;
     garbageQueue := garbageQueue st; dropCounter := dropCounter st;
     dropInterval := dropInterval st; gameOver := gameOver st;
     rolls := rolls st |}.

Definition set_lines (st : Play) (v : Z) : Play :=
  {| board := board st; currentPiece := currentPiece st;
     nextPiece := nextPiece st; holdPiece := holdPiece st;
     canHold := canHold st; score := score st; lines := v; level := level st;
     garbageQueue := garbageQueue st; dropCounter := dropCounter st;
     dropInterval := dropInterval st; gameOver := gameOver st;
     rolls := rolls st |}.

Definition set_level (st : Play) (v : Z) : Play :=
  {| board := board st; currentPiece := currentPiece st;
     nextPiece := nextPiece st; holdPiece := holdPiece st;
     canHold := canHold st; score := score st; lines := lines st; level := v;
     garbageQueue := garbageQueue st; dropCounter := dropCounter st;
     dropInterval := dropInterval st; gameOver := gameOver st;
     rolls := rolls st |}.

Definition set_garbageQueue (st : Play) (v : Z) : Play :=
  {| board := board st; currentPiece := currentPiece st;
     nextPiece := nextPiece st; holdPiece := holdPiece st;
     canHold := canHold st; score := score st; lines := lines st;
     level := level st; garbageQueue := v; dropCounter := dropCounter st;
     dropInterval := dropInterval st; gameOver := gameOver st;
     rolls := rolls st |}.

Definition set_dropCounter (st : Play) (v : Z) : Play :=
  {| board := board st; currentPiece := currentPiece st;
     nextPiece := nextPiece st; holdPiece := holdPiece st;
     canHold := canHold st; score := score st; lines := lines st;
     level := level st; garbageQueue := garbageQueue st; dropCounter := v;
     dropInterval := dropInterval st; gameOver := gameOver st;
     rolls := rolls st |}.

Definition set_dropInterval (st : Play) (v : Z) : Play :=
  {| board := board st; currentPiece := currentPiece st;
     nextPiece := nextPiece st; holdPiece := holdPiece st;
     canHold := canHold st; score := score st; lines := lines st;
     level := level st; garbageQueue := garbageQueue st;
     dropCounter := dropCounter st; dropInterval := v;
     gameOver := gameOver st; rolls := rolls st |}.

Definition set_gameOver (st : Play) (v : bool) : Play :=
  {| board := board st; currentPiece := currentPiece st;
     nextPiece := nextPiece st; holdPiece := holdPiece st;
     canHold := canHold st; score := score st; lines := lines st;
     level := level st; garbageQueue := garbageQueue st;
     dropCounter := dropCounter st; dropInterval := dropInterval st;
     gameOver := v; rolls := rolls st |}.

Definition set_rolls (st : Play) (v : nat) : Play :=
  {| board := board st; currentPiece := currentPiece st;
     nextPiece := nextPiece st; holdPiece := holdPiece st;
     canHold := canHold st; score := score st; lines := lines st;
     level := level st; garbageQueue := garbageQueue st;
     dropCounter := dropCounter st; dropInterval := dropInterval st;
     gameOver := gameOver st; rolls := v |}.

(** The calls that leave the board code: they are recorded, not run.  The
    calls that only redraw the page are left out. *)
Inductive Call : Type :=
| SendGarbageToOpponents (linesCleared : nat)
| UpdateBoardToServer (board : Grid) (score : option Z) (lines : Z)
| PlayerDied.

(** [gameState] when the page has set up the board. *)
Definition fresh_game : Play :=
  {| board := blank; currentPiece := None; nextPiece := None; holdPiece := None;
     canHold := true; score := Some 0%Z; lines := 0; level := 1;
     garbageQueue := 0; dropCounter := 0; dropInterval := INITIAL_SPEED;
     gameOver := false; rolls := 0 |}.

(** [gameState.score += n] *)
Definition add_score (st : Play) (n : Z) : Play :=
  set_score st ((λ s, s + n)%Z <$> score st).

(** [const scoreTable = [0, 100, 300, 500, 800]] *)
Definition scoreTable : list Z := [0; 100; 300; 500; 800]%Z.

(** [clearLines]: the loop, then the bookkeeping when lines were cleared.
    An index past the end of [scoreTable] reads [undefined], which makes
    the score [NaN]. *)
Definition clearLines (st : Play) : option (Play * nat) :=
  clear_rows (board st) ≫= λ '(board', linesCleared),
  let st1 := set_board st board' in
  if bool_decide (0 < linesCleared) then
    let st2 := set_lines st1 (lines st1 + Z.of_nat linesCleared) in
    let gain := (λ t, t * level st2)%Z <$> scoreTable !! linesCleared in
    let st3 := set_score st2 (s ← score st2; g ← gain; Some (s + g)%Z) in
    let newLevel := (lines st3 / 10 + 1)%Z in
    let st4 :=
      if (level st3 <? newLevel)%Z
      then set_dropInterval
             (set_level st3 newLevel)
             (Z.max MIN_SPEED (INITIAL_SPEED - (newLevel - 1) * SPEED_DECREASE))
      else st3 in
    Some (st4, linesCleared)
  else Some (st1, linesCleared).

(** The part of [playerDied] that touches the player's own game; the rest
    of it is recorded as a call. *)
Definition playerDied_here (st : Play) : Play * list Call :=
  (set_currentPiece (set_gameOver st true) None, [PlayerDied]).

(** [Math.floor(CONFIG.COLS / 2) - Math.floor(shape[0].length / 2)];
    [None] is the [TypeError] on a shape without rows. *)
Definition spawn_x (g : Grid) : option Z :=
  first ← head g; Some (Z.of_nat (COLS / 2) - Z.of_nat (length first / 2))%Z.

(** [{ type, shape: TETROMINOS[type].shape.map(row => [...row]), color }] *)
Definition held_of (p : Piece) : Held :=
  {| htype := ptype p; hshape := base_shape (ptype p); hcolor := color p |}.

(** The object [getRandomTetromino] builds for a kind. *)
Definition tetromino (type : Kind) : Piece :=
  {| ptype := type; shape := base_shape type; color := base_color type;
     px := 0; py := 0 |}.

Section Play.

(** The numbers [Math.random] gives, as a die: the [k]-th call of
    [Math.floor(Math.random() * n)] yields [dice k mod n]. *)
Context (dice : nat → nat).

Definition random (n : nat) (st : Play) : nat * Play :=
  (dice (rolls st) mod n, set_rolls st (S (rolls st))).

(** [getRandomTetromino].  The index is below the number of kinds, so the
    default is never taken. *)
Definition getRandomTetromino (st : Play) : Piece * Play :=
  let '(i, st') := random (length TETROMINO_TYPES) st in
  let type := default KI (TETROMINO_TYPES !! i) in
  (tetromino type, st').

(** [spawnPiece] *)
Definition spawnPiece (st : Play) : option (Play * list Call) :=
  let '(next, st1) :=
    match nextPiece st with
    | Some next => (next, st)
    | None => getRandomTetromino st
    end in
  spawn_x (shape next) ≫= λ x : Z,
  let current := placed_at next (shape next) x 0 in
  let '(fresh, st2) := getRandomTetromino st1 in
  let st3 := set_canHold
               (set_nextPiece (set_currentPiece st2 (Some current)) (Some fresh))
               true in
  checkCollision (board st3) x 0 (shape current) ≫= λ hit : bool,
  Some (if hit then playerDied_here st3 else (st3, [])).

(** [Array(CONFIG.COLS).fill('#808080')] with [garbageLine[holeIndex] = 0];
    the hole index is below [COLS]. *)
Definition garbage_line (holeIndex : nat) : list Value :=
  <[holeIndex := VNum 0]> (replicate COLS (VStr "#808080")).

(** The loop of [addGarbageLines]: the top row goes, a garbage line comes
    in at the bottom. *)
Fixpoint garbage_loop (count : nat) (st : Play) : Play :=
  match count with
  | O => st
  | S count' =>
      let '(holeIndex, st') := random COLS st in
      garbage_loop count'
        (set_board st' (tail (board st') ++ [garbage_line holeIndex]))
  end.

(** [addGarbageLines(count)] for a whole number [count]. *)
Definition addGarbageLines (count : Z) (st : Play) : Play :=
  garbage_loop (Z.to_nat count) st.

(** [lockPiece]; [None] is a [TypeError]. *)
Definition lockPiece (st : Play) : option (Play * list Call) :=
  currentPiece st ≫= λ piece : Piece,
  stamp piece (board st) ≫= λ board1 : Grid,
  clearLines (set_board st board1) ≫= λ '(st2, linesCleared),
  let st3 :=
    if (0 <? garbageQueue st2)%Z
    then set_garbageQueue (addGarbageLines (garbageQueue st2) st2) 0
    else st2 in
  let sent :=
    if bool_decide (0 < linesCleared)
    then [SendGarbageToOpponents linesCleared] else [] in
  spawnPiece st3 ≫= λ '(st4, calls),
  Some (st4, sent ++ UpdateBoardToServer (board st3) (score st3) (lines st3) :: calls).

(** [movePiece(dx, dy)], with the value it returns. *)
Definition movePiece (st : Play) (dx dy : Z) : option (bool * Play * list Call) :=
  currentPiece st ≫= λ p : Piece,
  let newX := (px p + dx)%Z in
  let newY := (py p + dy)%Z in
  checkCollision (board st) newX newY (shape p) ≫= λ hit : bool,
  if negb hit
  then Some (true, set_currentPiece st (Some (placed_at p (shape p) newX newY)), [])
  else if (0 <? dy)%Z
       then lockPiece st ≫= λ '(st', calls), Some (false, st', calls)
       else Some (false, st, []).

(** The loop of [hardDrop]: two points for every row the piece moves
    down. *)
Fixpoint hardDrop_loop (fuel : nat) (st : Play) (calls : list Call)
  : Run (Play * list Call) :=
  match fuel with
  | O => OutOfFuel
  | S fuel' =>
      match movePiece st 0 1 with
      | None => Throw
      | Some (true, st', more) => hardDrop_loop fuel' (add_score st' 2) (calls ++ more)
      | Some (false, st', more) => Ret (st', calls ++ more)
      end
  end.

(** [hardDrop] *)
Definition hardDrop (fuel : nat) (st : Play) : Run (Play * list Call) :=
  hardDrop_loop fuel st [].

(** [holdCurrentPiece] *)
Definition holdCurrentPiece (st : Play) : option (Play * list Call) :=
  match canHold st, currentPiece st with
  | true, Some current =>
      match holdPiece st with
      | None => spawnPiece (set_holdPiece st (Some (held_of current)))
      | Some held =>
          spawn_x (hshape held) ≫= λ x : Z,
          let piece := {| ptype := htype held; shape := hshape held;
                          color := hcolor held; px := x; py := 0 |} in
          let st1 := set_holdPiece (set_currentPiece st (Some piece))
                                   (Some (held_of current)) in
          checkCollision (board st1) x 0 (shape piece) ≫= λ hit : bool,
          Some (if hit then playerDied_here st1 else (st1, []))
      end ≫= λ '(st2, calls),
      Some (set_dropCounter (set_canHold st2 false) 0, calls)
  | _, _ => Some (st, [])
  end.

(** [rotatePiece] on the current piece. *)
Definition rotateCurrent (st : Play) : option Play :=
  currentPiece st ≫= λ p : Piece,
  rotatePiece (board st) p ≫= λ p' : Piece,
  Some (set_currentPiece st (Some p')).

(** An outcome without a loop, as the outcome of a run. *)
Definition settle {A : Type} (outcome : option A) : Run A :=
  match outcome with
  | Some a => Ret a
  | None => Throw
  end.

(** The [keydown] listener, for the key [e.key]. *)
Definition keydown (fuel : nat) (st : Play) (key : string) : Run (Play * list Call) :=
  if gameOver st then Ret (st, [])
  else if String.eqb key "Shift" then settle (holdCurrentPiece st)
  else match currentPiece st with
       | None => Ret (st, [])
       | Some _ =>
           if String.eqb key "ArrowLeft"
           then settle (movePiece st (-1) 0 ≫= λ '(_, st', calls), Some (st', calls))
           else if String.eqb key "ArrowRight"
           then settle (movePiece st 1 0 ≫= λ '(_, st', calls), Some (st', calls))
           else if String.eqb key "ArrowDown"
           then settle (movePiece st 0 1 ≫= λ '(_, st', calls),
                        Some (set_dropCounter st' 0, calls))
           else if String.eqb key "ArrowUp"
           then settle (rotateCurrent st ≫= λ st' : Play, Some (st', []))
           else if String.eqb key " "
           then hardDrop fuel st
           else Ret (st, [])
       end.

(** [gameLoop], for a frame that comes [deltaTime] milliseconds after the
    one before, without the drawing.  Times are whole milliseconds. *)
Definition gameLoop (st : Play) (deltaTime : Z) : option (Play * list Call) :=
  if gameOver st then Some (st, [])
  else
    match currentPiece st with
    | None => spawnPiece st
    | Some _ => Some (st, [])
    end ≫= λ '(st1, calls1),
    let st2 := set_dropCounter st1 (dropCounter st1 + deltaTime) in
    if (dropInterval st2 <? dropCounter st2)%Z
    then movePiece st2 0 1 ≫= λ '(_, st3, calls3),
         Some (set_dropCounter st3 0, calls1 ++ calls3)
    else Some (st2, calls1).

(** The part of the game listener that takes in garbage:
    [if (garbageCount > 0) gameState.garbageQueue += garbageCount]. *)
Definition receiveGarbage (st : Play) (garbageCount : Z) : Play :=
  if (0 <? garbageCount)%Z
  then set_garbageQueue st (garbageQueue st + garbageCount)
  else st.

(** The part of [handleGameOver] that touches the player's game, for
    rankings that are not empty. *)
Definition handleGameOver_here (st : Play) : Play := set_gameOver st true.

(** What happens to the player's game: a key goes down, a frame is drawn,
    or the game listener brings garbage or the end of the game. *)
Inductive Event : Type :=
| KeyDown (key : string)
| Frame (deltaTime : Z)
| GarbageReceived (garbageCount : Z)
| GameFinished.

Definition handle (fuel : nat) (st : Play) (ev : Event) : Run (Play * list Call) :=
  match ev with
  | KeyDown key => keydown fuel st key
  | Frame deltaTime => settle (gameLoop st deltaTime)
  | GarbageReceived garbageCount => Ret (receiveGarbage st garbageCount, [])
  | GameFinished => Ret (handleGameOver_here st, [])
  end.

(** The games that a fresh game can get to. *)
Inductive reachable : Play → Prop :=
| reachable_start : reachable fresh_game
| reachable_step st ev fuel st' calls :
    reachable st → handle fuel st ev = Ret (st', calls) → reachable st'.

(** The garbage lines that [count] rounds of the loop push, oldest
    first, when the die stands at [start]. *)
Definition garbage_rows (start count : nat) : Grid :=
  (λ k, garbage_line (dice (start + k) mod COLS)) <$> seq 0 count.

Section Garbage.
Implicit Types (st : Play) (board : Grid).

Lemma garbage_line_cells holeIndex x :
  holeIndex < COLS → x < COLS →
  garbage_line holeIndex !! x
  = Some (if decide (x = holeIndex) then VNum 0 else VStr "#808080").
Proof.
  intros Hh Hx. unfold garbage_line. destruct (decide (x = holeIndex)) as [->|Hne].
  - apply list_lookup_insert_eq. by rewrite length_replicate.
  - rewrite list_lookup_insert_ne by done. by apply lookup_replicate_2.
Qed.

Lemma garbage_line_length holeIndex : length (garbage_line holeIndex) = COLS.
Proof. unfold garbage_line. by rewrite length_insert, length_replicate. Qed.

Lemma garbage_line_not_full holeIndex :
  holeIndex < COLS → full (garbage_line holeIndex) = false.
Proof.
  intros Hh. unfold full. apply not_true_iff_false. intros Hall.
  rewrite forallb_forall in Hall.
  specialize (Hall (VNum 0)). cbn in Hall.
  assert (In (VNum 0) (garbage_line holeIndex)) as Hin; [|by specialize (Hall Hin)].
  apply list_elem_of_In, list_elem_of_lookup. exists holeIndex.
  rewrite garbage_line_cells by done. by rewrite decide_True.
Qed.

Lemma hole_in_range k : dice k mod COLS < COLS.
Proof. apply Nat.mod_upper_bound. discriminate. Qed.

Lemma garbage_rows_succ start count :
  garbage_rows start (S count)
  = garbage_line (dice start mod COLS) :: garbage_rows (S start) count.
Proof.
  unfold garbage_rows. cbn [seq fmap list_fmap]. rewrite Nat.add_0_r. f_equal.
  rewrite <- fmap_S_seq, <- list_fmap_compose. apply list_fmap_ext.
  intros _ k _. cbn. by rewrite Nat.add_succ_r.
Qed.

Lemma garbage_loop_spec count st :
  board st ≠ [] →
  garbage_loop count st
  = set_board (set_rolls st (rolls st + count))
              (drop count (board st ++ garbage_rows (rolls st) count)).
Proof.
  revert st. induction count as [|count IH]; intros st Hne.
  { cbn. unfold garbage_rows. cbn. rewrite app_nil_r, Nat.add_0_r. by destruct st. }
  cbn [garbage_loop random]. rewrite IH.
  - rewrite garbage_rows_succ. destruct st as [b ? ? ? ? ? ? ? ? ? ? ? r].
    cbn in *. destruct b as [|row b]; [done|]. cbn.
    replace (S (r + count)) with (r + S count) by lia.
    by rewrite <- app_assoc.
  - destruct st as [b ? ? ? ? ? ? ? ? ? ? ? r]. cbn in *.
    destruct b as [|row b]; [done|]. cbn. by destruct b.
Qed.

End Garbage.

End Play.

(** The level follows the lines cleared and the drop interval follows the
    level. *)
Definition paced (st : Play) : Prop :=
  (0 ≤ lines st)%Z
  ∧ level st = (lines st / 10 + 1)%Z
  ∧ dropInterval st
    = Z.max MIN_SPEED (INITIAL_SPEED - (level st - 1) * SPEED_DECREASE).

(** X20 (js/tetris.js, addGarbageLines).  On a board of [ROWS] rows,
    [addGarbageLines(count)] keeps the height of the board: the rows move up
    by [count], the rows pushed off the top are lost, and the bottom rows
    are garbage lines, the newest lowest.  Every garbage line has [COLS]
    cells, all grey but one hole, so it is never a full row.  Nothing but
    the board changes, apart from the [count] random numbers drawn. *)
Theorem addGarbageLines_pushes_rows (dice : nat → nat) (st : Play) (count : Z) :
  length (board st) = ROWS →
  ∃ board',
    addGarbageLines dice count st
    = set_board (set_rolls st (rolls st + Z.to_nat count)) board'
    ∧ length board' = ROWS
    ∧ (∀ y, y + Z.to_nat count < ROWS → board' !! y = board st !! (y + Z.to_nat count))
    ∧ (∀ k, k < Z.to_nat count → k < ROWS →
         ∃ hole, hole = dice (rolls st + (Z.to_nat count - 1 - k)) mod COLS
                 ∧ hole < COLS
                 ∧ board' !! (ROWS - 1 - k) = Some (garbage_line hole)
                 ∧ length (garbage_line hole) = COLS
                 ∧ (∀ x, x < COLS →
                      garbage_line hole !! x
                      = Some (if decide (x = hole) then VNum 0 else VStr "#808080"))
                 ∧ full (garbage_line hole) = false).
Proof.
  intros Hlen. unfold addGarbageLines. set (n := Z.to_nat count).
  assert (board st ≠ []) as Hne by (intros Heq; by rewrite Heq in Hlen).
  rewrite (garbage_loop_spec dice n st Hne).
  eexists. split; [reflexivity|].
  assert (length (garbage_rows dice (rolls st) n) = n) as Hrows
    by (unfold garbage_rows; by rewrite length_fmap, length_seq).
  split; [|split].
  - rewrite length_drop, length_app, Hrows. lia.
  - intros y Hy. rewrite lookup_drop, lookup_app_l by lia. f_equal. lia.
  - intros k Hk Hrow. eexists. split; [reflexivity|].
    split; [apply hole_in_range|]. split; [|split; [|split]].
    + rewrite lookup_drop, lookup_app_r by lia.
      unfold garbage_rows. rewrite list_lookup_fmap.
      replace (n + (ROWS - 1 - k) - length (board st)) with (n - 1 - k) by lia.
      by rewrite lookup_seq_lt by lia.
    + apply garbage_line_length.
    + intros x Hx. apply garbage_line_cells; [apply hole_in_range|done].
    + apply garbage_line_not_full, hole_in_range.
Qed.

Lemma addGarbageLines_pushes_rows_witness :
  length (board fresh_game) = ROWS
  ∧ ∃ board',
      addGarbageLines (λ k, 3 + k) 2 fresh_game
      = set_board (set_rolls fresh_game (rolls fresh_game + Z.to_nat 2)) board'
      ∧ length board' = ROWS
      ∧ (∀ y, y + Z.to_nat 2 < ROWS →
              board' !! y = board fresh_game !! (y + Z.to_nat 2))
      ∧ (∀ k, k < Z.to_nat 2 → k < ROWS →
           ∃ hole, hole = (λ k, 3 + k) (rolls fresh_game + (Z.to_nat 2 - 1 - k)) mod COLS
                   ∧ hole < COLS
                   ∧ board' !! (ROWS - 1 - k) = Some (garbage_line hole)
                   ∧ length (garbage_line hole) = COLS
                   ∧ (∀ x, x < COLS →
                        garbage_line hole !! x
                        = Some (if decide (x = hole) then VNum 0 else VStr "#808080"))
                   ∧ full (garbage_line hole) = false).
Proof.
  exact (conj eq_refl
              (addGarbageLines_pushes_rows (λ k, 3 + k) fresh_game 2 eq_refl)).
Defined.

Lemma clearLines_spec (st : Play) :
  length (board st) = ROWS → paced st →
  ∃ st' n,
    clearLines st = Some (st', n)
    ∧ n = count_full (board st)
    ∧ lines st' = (lines st + Z.of_nat n)%Z
    ∧ score st'
      = (if decide (n ≤ 4)
         then (λ s, s + nth n scoreTable 0 * level st)%Z <$> score st
         else None)
    ∧ paced st'
    ∧ (level st ≤ level st')%Z
    ∧ (MIN_SPEED ≤ dropInterval st' ≤ dropInterval st)%Z.
Proof.
  intros Hlen (Hlines & Hlevel & Hdrop). unfold clearLines.
  rewrite (clear_rows_spec _ Hlen). cbn [mbind option_bind].
  remember (count_full (board st)) as n eqn:Hcount.
  remember (replicate n blank_row ++ unfilled (board st)) as board' eqn:Hboard.
  clear Hcount Hboard Hlen.
  assert ((lines st / 10 ≤ (lines st + Z.of_nat n) / 10)%Z) as Hmono
    by (apply Z.div_le_mono; lia).
  assert (score (set_score st
                   (s ← score st;
                    g ← (λ t, t * level st)%Z <$> scoreTable !! n;
                    Some (s + g)%Z))
          = (if decide (n ≤ 4)
             then (λ s, s + nth n scoreTable 0 * level st)%Z <$> score st
             else None)) as Hscore.
  { destruct st as [b cur nxt hold can sc ln lv gq dc di go r]. cbn.
    destruct sc as [s|]; [|by destruct (decide _)]. cbn.
    destruct (decide (n ≤ 4)) as [Hle|Hgt].
    - by destruct n as [|[|[|[|[|n']]]]]; [..|lia].
    - by rewrite lookup_ge_None_2 by (cbn; lia). }
  destruct st as [b cur nxt hold can sc ln lv gq dc di go r].
  unfold paced. cbn in *. subst lv di.
  unfold MIN_SPEED, INITIAL_SPEED, SPEED_DECREASE in *.
  case_bool_decide as Hn.
  - destruct (_ <? _)%Z eqn:Hup.
    + apply Z.ltb_lt in Hup. eexists _, n. split; [reflexivity|]. cbn.
      split; [done|]. split; [done|]. split; [done|]. lia.
    + apply Z.ltb_ge in Hup. eexists _, n. split; [reflexivity|]. cbn.
      split; [done|]. split; [done|]. split; [done|].
      assert (((ln + Z.of_nat n) / 10 = ln / 10)%Z) as Hsame by lia.
      rewrite Hsame. lia.
  - assert (n = 0) as -> by lia.
    eexists _, 0. split; [reflexivity|]. cbn.
    split; [done|]. split; [lia|]. split; [|lia].
    destruct sc as [s|]; [|done]. cbn. by rewrite Z.add_0_r.
Qed.

(** X21 (js/tetris.js, clearLines).  On a board of [ROWS] rows
    [clearLines] returns the number [n] of full rows and adds it to the
    lines.  The score grows by [scoreTable[n]] times the level before the
    call when [n] is at most 4, and is [NaN] from then on when [n] is more
    than 4.  If the level and the drop interval followed the lines before,
    they do so afterwards: the level never goes down and the drop interval
    never goes up, nor below [MIN_SPEED]. *)
Theorem clearLines_keeps_pace (st : Play) :
  length (board st) = ROWS → paced st →
  ∃ st' n,
    clearLines st = Some (st', n)
    ∧ n = count_full (board st)
    ∧ lines st' = (lines st + Z.of_nat n)%Z
    ∧ score st'
      = (if decide (n ≤ 4)
         then (λ s, s + nth n scoreTable 0 * level st)%Z <$> score st
         else None)
    ∧ paced st'
    ∧ (level st ≤ level st')%Z
    ∧ (MIN_SPEED ≤ dropInterval st' ≤ dropInterval st)%Z.
Proof. apply clearLines_spec. Qed.

Lemma clearLines_keeps_pace_witness :
  paced (set_board fresh_game stacked)
  ∧ ∃ st' n,
      clearLines (set_board fresh_game stacked) = Some (st', n)
      ∧ n = count_full (board (set_board fresh_game stacked))
      ∧ lines st' = (lines (set_board fresh_game stacked) + Z.of_nat n)%Z
      ∧ score st'
        = (if decide (n ≤ 4)
           then (λ s, s + nth n scoreTable 0
                          * level (set_board fresh_game stacked))%Z
                <$> score (set_board fresh_game stacked)
           else None)
      ∧ paced st'
      ∧ (level (set_board fresh_game stacked) ≤ level st')%Z
      ∧ (MIN_SPEED ≤ dropInterval st'
         ≤ dropInterval (set_board fresh_game stacked))%Z.
Proof.
  assert (paced (set_board fresh_game stacked)) as Hpaced.
  { split; [cbn; lia|]. split; reflexivity. }
  exact (conj Hpaced
              (clearLines_keeps_pace (set_board fresh_game stacked) eq_refl Hpaced)).
Defined.

(** ** What the game keeps true *)

(** A board of the right size without a full row. *)
Definition tidy (board : Grid) : Prop :=
  sized ROWS COLS board ∧ Forall (λ r, full r = false) board.

(** A shape as the pieces have it: a rectangle of at most four rows and
    four columns with a filled cell. *)
Definition solid (g : Grid) : Prop :=
  ∃ h w, sized h w g ∧ 0 < h ≤ 4 ∧ 0 < w ≤ 4
         ∧ ∃ row col c, g !! row ≫= (.!! col) = Some c ∧ truthy c = true.

Section Keeping.
Implicit Types (board : Grid) (p : Piece) (st : Play).

Lemma base_shape_solid k : solid (base_shape k).
Proof.
  destruct k;
    [exists 1, 4|exists 2, 2|exists 2, 3|exists 2, 3|exists 2, 3|exists 2, 3
     |exists 2, 3];
    (split; [split; [reflexivity|repeat constructor]|]);
    (split; [lia|]); (split; [lia|]).
  - by exists 0, 0, (VNum 1).
  - by exists 0, 0, (VNum 1).
  - by exists 0, 1, (VNum 1).
  - by exists 0, 1, (VNum 1).
  - by exists 0, 0, (VNum 1).
  - by exists 0, 0, (VNum 1).
  - by exists 0, 2, (VNum 1).
Qed.

Lemma solid_rows g : solid g → g ≠ [] ∧ length g ≤ 4.
Proof.
  intros (h & w & [Hlen _] & Hh & _). split; [|lia].
  intros ->. cbn in Hlen. lia.
Qed.

Lemma painted_row_same board board' colour t y :
  sized ROWS COLS board → painted board board' colour t → y < ROWS →
  (∀ x, x < COLS → t y x = false) →
  board' !! y = board !! y.
Proof.
  intros [Hlen Hrows] [[Hlen' Hrows'] Hcells] Hy Hfree.
  destruct (lookup_lt_is_Some_2 board y) as [r Hr]; [lia|].
  destruct (lookup_lt_is_Some_2 board' y) as [r' Hr']; [lia|].
  pose proof (Forall_lookup_1 _ _ _ _ Hrows Hr) as Hlr.
  pose proof (Forall_lookup_1 _ _ _ _ Hrows' Hr') as Hlr'. cbn in Hlr, Hlr'.
  rewrite Hr, Hr'. f_equal. apply list_eq. intros x.
  destruct (decide (x < COLS)) as [Hx|Hx].
  - specialize (Hcells y x Hy Hx). rewrite (Hfree x Hx), Hr, Hr' in Hcells. done.
  - by rewrite !lookup_ge_None_2 by lia.
Qed.

Lemma count_full_changed (b b' : Grid) (a k : nat) :
  length b' = length b → Forall (λ r, full r = false) b →
  (∀ y, y < length b → ¬ (a ≤ y < a + k) → b' !! y = b !! y) →
  count_full b' ≤ k.
Proof.
  revert b a k. induction b' as [|r' t' IH]; intros b a k Hlen Hnone Hsame.
  { unfold count_full. cbn. lia. }
  destruct b as [|r t]; [done|]. cbn in Hlen.
  apply Forall_cons in Hnone as [Hr Ht].
  unfold count_full in *. cbn [List.filter].
  destruct (decide (a = 0 ∧ 0 < k)) as [[-> Hk]|Hhead].
  - destruct k as [|k']; [lia|].
    specialize (IH t 0 k'). destruct (full r'); cbn [length].
    + apply le_n_S, IH; [lia|done|]. intros y Hy Hout.
      apply (Hsame (S y)); cbn; lia.
    + apply Nat.le_le_succ_r, IH; [lia|done|]. intros y Hy Hout.
      apply (Hsame (S y)); cbn; lia.
  - assert (r' = r) as ->.
    { specialize (Hsame 0). cbn in Hsame.
      assert (Some r' = Some r) as [= ->]; [apply Hsame; lia|done]. }
    rewrite Hr. apply (IH t (pred a) k); [lia|done|].
    intros y Hy Hout. apply (Hsame (S y)); cbn; lia.
Qed.

Lemma covers_outside p y x :
  ¬ (py p ≤ Z.of_nat y < py p + Z.of_nat (length (shape p)))%Z →
  covers p y x = false.
Proof.
  intros Hout. unfold covers, covers_rows.
  destruct (Z.leb_spec (py p + Z.of_nat 0) (Z.of_nat y)) as [Hy|Hy]; [|done].
  rewrite lookup_ge_None_2 by lia. cbn. by rewrite andb_false_r.
Qed.

Lemma stamp_few_full p board board' :
  tidy board → stamp p board = Some board' →
  sized ROWS COLS board' ∧ count_full board' ≤ length (shape p).
Proof.
  intros [Hs Hnone] Hstamp.
  destruct (stamp_spec p board Hs) as (b & Hb & Hpainted).
  assert (b = board') as -> by congruence.
  split; [apply Hpainted|].
  apply (count_full_changed board board' (Z.to_nat (py p)) (length (shape p))).
  - destruct Hs as [-> _]. by destruct Hpainted as [[-> _] _].
  - done.
  - intros y Hy Hout. destruct Hs as [Hlen Hrows].
    apply (painted_row_same board board' (color p) (covers p));
      [done|done|lia|].
    intros x _. apply covers_outside. lia.
Qed.

Lemma clear_rows_tidy board :
  sized ROWS COLS board →
  ∃ board', clear_rows board = Some (board', count_full board) ∧ tidy board'.
Proof.
  intros [Hlen Hrows]. eexists. split; [by apply clear_rows_spec|].
  pose proof (length_unfilled board) as Hsum.
  split; [split|].
  - rewrite length_app, length_replicate. lia.
  - apply Forall_app. split.
    + apply Forall_forall. intros r Hr. by apply elem_of_replicate in Hr as [-> _].
    + apply Forall_forall. intros r Hr. unfold unfilled in Hr.
      apply list_elem_of_In, List.filter_In in Hr as [Hr _].
      apply list_elem_of_In in Hr. by apply (proj1 (Forall_forall _ _) Hrows).
  - apply Forall_app. split; [|apply unfilled_not_full].
    apply Forall_forall. intros r Hr. apply elem_of_replicate in Hr as [-> _].
    apply blank_row_not_full.
Qed.

Lemma garbage_rows_tidy dice start count :
  Forall (λ r, length r = COLS ∧ full r = false) (garbage_rows dice start count).
Proof.
  unfold garbage_rows. apply Forall_fmap, Forall_forall. intros k _. cbn.
  split; [apply garbage_line_length|apply garbage_line_not_full, hole_in_range].
Qed.

Lemma addGarbageLines_tidy dice count st :
  tidy (board st) →
  ∃ board', addGarbageLines dice count st
            = set_board (set_rolls st (rolls st + Z.to_nat count)) board'
            ∧ tidy board'.
Proof.
  intros [[Hlen Hrows] Hnone]. unfold addGarbageLines.
  assert (board st ≠ []) as Hne by (intros Heq; by rewrite Heq in Hlen).
  rewrite (garbage_loop_spec dice _ st Hne). eexists. split; [reflexivity|].
  pose proof (garbage_rows_tidy dice (rolls st) (Z.to_nat count)) as Hg.
  assert (length (garbage_rows dice (rolls st) (Z.to_nat count)) = Z.to_nat count)
    as Hcount by (unfold garbage_rows; by rewrite length_fmap, length_seq).
  split; [split|].
  - rewrite length_drop, length_app, Hcount. lia.
  - apply Forall_drop, Forall_app. split; [done|].
    eapply Forall_impl; [exact Hg|]. by intros r [? _].
  - apply Forall_drop, Forall_app. split; [done|].
    eapply Forall_impl; [exact Hg|]. by intros r [_ ?].
Qed.

End Keeping.

(** The game when the piece [p] has fallen to row [g]: the piece is
    there, and every row on the way has given two points. *)
Definition landed (st : Play) (p : Piece) (g : Z) : Play :=
  add_score (set_currentPiece st (Some (placed_at p (shape p) (px p) g)))
            (2 * (g - py p)).

(** What holds of the player's game between two events. *)
Definition playable (st : Play) : Prop :=
  tidy (board st)
  ∧ is_Some (score st)
  ∧ paced st
  ∧ (∀ p, currentPiece st = Some p → clear (board st) p ∧ solid (shape p))
  ∧ (currentPiece st = None → gameOver st = true ∨ board st = blank)
  ∧ (∀ n, nextPiece st = Some n → solid (shape n))
  ∧ (∀ h, holdPiece st = Some h → solid (hshape h)).

Section Safety.
Context (dice : nat → nat).
Implicit Types (board : Grid) (p : Piece) (st : Play).

Lemma blank_tidy : tidy blank.
Proof.
  split; [apply blank_sized|]. apply Forall_forall. intros r Hr.
  by apply elem_of_replicate in Hr as [-> _].
Qed.

Lemma solid_cell g h w row col c :
  sized h w g → g !! row ≫= (.!! col) = Some c → row < h ∧ col < w.
Proof.
  intros [Hlen Hrows] Hcell.
  destruct (g !! row) as [r|] eqn:Hr; [|done]. cbn in Hcell.
  pose proof (Forall_lookup_1 _ _ _ _ Hrows Hr) as Hlr. cbn in Hlr.
  apply lookup_lt_Some in Hr, Hcell. lia.
Qed.

Lemma spawn_x_solid g :
  solid g →
  ∃ x, spawn_x g = Some x
       ∧ ∀ row col c, g !! row ≫= (.!! col) = Some c →
                      (0 ≤ x + Z.of_nat col < Z.of_nat COLS)%Z ∧ row < 4.
Proof.
  intros (h & w & Hs & Hh & Hw & _). pose proof Hs as [Hlen Hrows].
  destruct g as [|first rest]; [cbn in Hlen; lia|].
  assert (length first = w) as Hfirst
    by apply (Forall_lookup_1 _ _ 0 first Hrows eq_refl).
  eexists. split; [reflexivity|]. intros row col c Hcell.
  destruct (solid_cell _ h w row col c Hs Hcell) as [Hrow Hcol].
  rewrite Hfirst. change COLS with 10.
  assert (w / 2 ≤ 2) by (apply Nat.Div0.div_le_upper_bound; lia).
  assert (2 * (w / 2) ≤ w) by (apply Nat.Div0.mul_div_le).
  change (10 / 2) with 5. lia.
Qed.

Lemma blank_free x y g :
  (∀ row col c, g !! row ≫= (.!! col) = Some c →
                (0 ≤ x + Z.of_nat col < Z.of_nat COLS)%Z
                ∧ (0 ≤ y + Z.of_nat row < Z.of_nat ROWS)%Z) →
  free blank x y g.
Proof.
  intros Hin row col c Hcell _. destruct (Hin row col c Hcell) as [Hx Hy].
  split; [done|]. split; [lia|]. intros _.
  destruct (sized_cell ROWS COLS blank (Z.to_nat (y + Z.of_nat row))
                       (Z.to_nat (x + Z.of_nat col)) blank_sized)
    as (v & Hv & Hlook); [lia|lia|].
  exists v. split; [done|].
  unfold blank in Hlook.
  destruct (replicate ROWS (replicate COLS (VNum 0)) !! Z.to_nat (y + Z.of_nat row))
    as [r|] eqn:Hr; [|done].
  apply lookup_replicate in Hr as [-> _]. cbn [mbind option_bind] in Hlook.
  by apply lookup_replicate in Hlook as [-> _].
Qed.

Lemma getRandomTetromino_spec st :
  ∃ k, getRandomTetromino dice st = (tetromino k, set_rolls st (S (rolls st))).
Proof. unfold getRandomTetromino, random. by eexists. Qed.

(** [spawnPiece] in full. *)
Lemma spawnPiece_spec st :
  ROWS ≤ length (board st) →
  (∀ n, nextPiece st = Some n → solid (shape n)) →
  ∃ next x r k,
    (nextPiece st = Some next ∨ nextPiece st = None ∧ ∃ k0, next = tetromino k0)
    ∧ spawn_x (shape next) = Some x
    ∧ solid (shape next)
    ∧ let p := placed_at next (shape next) x 0 in
      let st1 := set_canHold
                   (set_nextPiece (set_currentPiece (set_rolls st r) (Some p))
                                  (Some (tetromino k)))
                   true in
      (clear (board st) p ∧ spawnPiece dice st = Some (st1, []))
      ∨ (¬ clear (board st) p ∧ spawnPiece dice st = Some (playerDied_here st1)).
Proof.
  intros Htall Hnext. unfold spawnPiece.
  assert (∃ next st0 r0,
            match nextPiece st with
            | Some next => (next, st)
            | None => getRandomTetromino dice st
            end = (next, st0)
            ∧ st0 = set_rolls st r0
            ∧ solid (shape next)
            ∧ (nextPiece st = Some next
               ∨ nextPiece st = None ∧ ∃ k0, next = tetromino k0))
    as (next & st0 & r0 & -> & -> & Hsolid & Horigin).
  { destruct (nextPiece st) as [next|] eqn:Hn.
    - exists next, st, (rolls st). split; [done|]. split; [by destruct st|].
      split; [by apply Hnext|by left].
    - destruct (getRandomTetromino_spec st) as (k0 & ->).
      exists (tetromino k0), (set_rolls st (S (rolls st))), (S (rolls st)).
      split; [done|]. split; [done|]. split; [apply base_shape_solid|].
      right. split; [done|by exists k0]. }
  destruct (spawn_x_solid _ Hsolid) as (x & Hx & _).
  rewrite Hx. cbn [mbind option_bind].
  destruct (getRandomTetromino_spec (set_rolls st r0)) as (k & ->).
  exists next, x, (S r0), k. split; [done|]. split; [done|]. split; [done|].
  cbn zeta.
  destruct (checkCollision_spec (board st) x 0 (shape next) Htall)
    as (hit & Hhit & Hfree).
  assert (board (set_canHold
                   (set_nextPiece
                      (set_currentPiece (set_rolls (set_rolls st r0) (S (rolls (set_rolls st r0))))
                                        (Some (placed_at next (shape next) x 0)))
                      (Some (tetromino k))) true) = board st) as -> by done.
  cbn [shape placed_at]. rewrite Hhit. cbn [mbind option_bind].
  assert (set_rolls (set_rolls st r0) (S (rolls (set_rolls st r0)))
          = set_rolls st (S r0)) as -> by done.
  destruct hit.
  - right. split; [|done]. intros Hclear. by apply Hfree in Hclear.
  - left. split; [|done]. by apply Hfree.
Qed.

Lemma spawnPiece_playable st :
  tidy (board st) → is_Some (score st) → paced st →
  (∀ n, nextPiece st = Some n → solid (shape n)) →
  (∀ h, holdPiece st = Some h → solid (hshape h)) →
  ∃ st' calls,
    spawnPiece dice st = Some (st', calls)
    ∧ playable st'
    ∧ holdPiece st' = holdPiece st
    ∧ (board st = blank → gameOver st' = gameOver st ∧ is_Some (currentPiece st')).
Proof.
  intros Htidy Hscore Hpaced Hnext Hhold.
  assert (ROWS ≤ length (board st)) as Htall by (destruct Htidy as [[-> _] _]; lia).
  destruct (spawnPiece_spec st Htall Hnext)
    as (next & x & r & k & _ & Hx & Hsolid & Hcases).
  cbn zeta in Hcases.
  assert (solid (base_shape k)) as Hk by apply base_shape_solid.
  destruct Hcases as [[Hclear ->]|[Hhit ->]].
  - eexists _, _. split; [reflexivity|]. split; [|split; [done|]].
    + split; [done|]. split; [done|]. split; [done|]. split; [|split; [done|]].
      * intros p [= <-]. done.
      * split; [|done]. by intros n [= <-].
    + intros _. split; [done|]. by eexists.
  - eexists _, _. split; [reflexivity|]. split; [|split; [done|]].
    + split; [done|]. split; [done|]. split; [done|]. split; [done|].
      split; [by left|]. split; [|done]. by intros n [= <-].
    + intros Hblank. exfalso. apply Hhit. unfold clear. cbn. rewrite Hblank.
      destruct (spawn_x_solid _ Hsolid) as (x' & Hx' & Hin).
      assert (x' = x) as -> by congruence.
      apply blank_free. intros row col c Hcell.
      destruct (Hin row col c Hcell) as [Hcol Hrow].
      split; [done|]. change ROWS with 20. lia.
Qed.

Lemma clearLines_fields st st' n :
  clearLines st = Some (st', n) →
  clear_rows (board st) = Some (board st', n)
  ∧ currentPiece st' = currentPiece st ∧ nextPiece st' = nextPiece st
  ∧ holdPiece st' = holdPiece st ∧ garbageQueue st' = garbageQueue st
  ∧ gameOver st' = gameOver st ∧ rolls st' = rolls st.
Proof.
  unfold clearLines. destruct (clear_rows (board st)) as [[board' n0]|]; [|done].
  cbn [mbind option_bind]. case_bool_decide.
  - destruct (_ <? _)%Z; intros [= <- <-]; by destruct st.
  - intros [= <- <-]. by destruct st.
Qed.

Lemma spawnPiece_report st st' calls :
  ROWS ≤ length (board st) →
  (∀ n, nextPiece st = Some n → solid (shape n)) →
  spawnPiece dice st = Some (st', calls) →
  board st' = board st ∧ score st' = score st ∧ lines st' = lines st
  ∧ garbageQueue st' = garbageQueue st
  ∧ (calls = [] ∧ is_Some (currentPiece st') ∧ gameOver st' = gameOver st
     ∨ calls = [PlayerDied] ∧ currentPiece st' = None ∧ gameOver st' = true).
Proof.
  intros Htall Hnext Hspawn.
  destruct (spawnPiece_spec st Htall Hnext) as (next & x & r & k & _ & _ & _ & Hcases).
  cbn zeta in Hcases. destruct Hcases as [[_ Heq]|[_ Heq]];
    rewrite Heq in Hspawn; injection Hspawn as <- <-.
  - do 4 (split; [done|]). left. split; [done|]. split; [by eexists|done].
  - do 4 (split; [done|]). by right.
Qed.

Lemma spend_garbage st :
  tidy (board st) → paced st →
  ∃ st', (if (0 <? garbageQueue st)%Z
          then set_garbageQueue (addGarbageLines dice (garbageQueue st) st) 0
          else st) = st'
         ∧ tidy (board st') ∧ score st' = score st ∧ paced st'
         ∧ nextPiece st' = nextPiece st ∧ holdPiece st' = holdPiece st
         ∧ lines st' = lines st ∧ gameOver st' = gameOver st
         ∧ garbageQueue st' = Z.min (garbageQueue st) 0.
Proof.
  intros Htidy Hpaced. destruct (0 <? garbageQueue st)%Z eqn:Hq.
  - apply Z.ltb_lt in Hq.
    destruct (addGarbageLines_tidy dice (garbageQueue st) st Htidy)
      as (board' & -> & Htidy').
    eexists. split; [reflexivity|]. do 7 (split; [done|]).
    cbn [garbageQueue set_garbageQueue]. lia.
  - apply Z.ltb_ge in Hq. exists st. split; [done|]. do 7 (split; [done|]). lia.
Qed.

Lemma bind_ret {A B : Type} (f : A → option B) (x : A) : Some x ≫= f = f x.
Proof. reflexivity. Qed.

(** [lockPiece] from the outcomes of its steps. *)
Lemma lockPiece_steps st p board1 st2 n st3 st4 calls :
  currentPiece st = Some p →
  stamp p (board st) = Some board1 →
  clearLines (set_board st board1) = Some (st2, n) →
  (if (0 <? garbageQueue st2)%Z
   then set_garbageQueue (addGarbageLines dice (garbageQueue st2) st2) 0
   else st2) = st3 →
  spawnPiece dice st3 = Some (st4, calls) →
  lockPiece dice st
  = Some (st4,
          (if bool_decide (0 < n) then [SendGarbageToOpponents n] else [])
          ++ UpdateBoardToServer (board st3) (score st3) (lines st3) :: calls).
Proof.
  intros Hp Hstamp Hclear Hqueue Hspawn. unfold lockPiece.
  rewrite Hp, bind_ret, Hstamp, bind_ret, Hclear, bind_ret. cbv beta iota.
  rewrite Hqueue, Hspawn. reflexivity.
Qed.

(** [lockPiece] in a playable game. *)
Lemma lockPiece_spec st p :
  playable st → currentPiece st = Some p →
  ∃ st' calls board1 n tail,
    lockPiece dice st = Some (st', calls)
    ∧ playable st'
    ∧ stamp p (board st) = Some board1
    ∧ n = count_full board1 ∧ n ≤ 4
    ∧ lines st' = (lines st + Z.of_nat n)%Z
    ∧ garbageQueue st' = Z.min (garbageQueue st) 0
    ∧ calls = (if bool_decide (0 < n) then [SendGarbageToOpponents n] else [])
              ++ UpdateBoardToServer (board st') (score st') (lines st') :: tail
    ∧ (tail = [] ∧ is_Some (currentPiece st') ∧ gameOver st' = gameOver st
       ∨ tail = [PlayerDied] ∧ currentPiece st' = None ∧ gameOver st' = true).
Proof.
  intros (Htidy & Hscore & Hpaced & Hcur & _ & Hnext & Hhold) Hp.
  destruct (Hcur p Hp) as [_ Hsolid]. apply solid_rows in Hsolid as [_ Hfew].
  destruct (stamp_spec p (board st) (proj1 Htidy)) as (board1 & Hstamp & _).
  destruct (stamp_few_full p (board st) board1 Htidy Hstamp) as [Hsized Hcount].
  destruct (clearLines_spec (set_board st board1)) as
    (st2 & n & Hclear & Hn & Hlines2 & Hscore2 & Hpaced2 & _);
    [exact (proj1 Hsized)|exact Hpaced|].
  destruct (clearLines_fields _ _ _ Hclear)
    as (Hrows & _ & Hnext2 & Hhold2 & Hqueue2 & Hover2 & _).
  destruct (clear_rows_tidy board1 Hsized) as (board2 & Hrows' & Htidy2).
  change (board (set_board st board1)) with board1 in Hrows, Hn.
  change (lines (set_board st board1)) with (lines st) in Hlines2.
  change (garbageQueue (set_board st board1)) with (garbageQueue st) in Hqueue2.
  change (gameOver (set_board st board1)) with (gameOver st) in Hover2.
  change (nextPiece (set_board st board1)) with (nextPiece st) in Hnext2.
  change (holdPiece (set_board st board1)) with (holdPiece st) in Hhold2.
  change (score (set_board st board1)) with (score st) in Hscore2.
  assert (board st2 = board2) as Hboard2.
  { rewrite Hrows in Hrows'. by injection Hrows' as ->. }
  assert (is_Some (score st2)) as Hsome.
  { rewrite Hscore2. rewrite decide_True by lia.
    destruct Hscore as [s ->]. by eexists. }
  destruct (spend_garbage st2) as
    (st3 & Hst3 & Htidy3 & Hscore3 & Hpaced3 & Hnext3 & Hhold3 & Hlines3 & Hover3
     & Hqueue3); [by rewrite Hboard2|exact Hpaced2|].
  assert (∀ n0, nextPiece st3 = Some n0 → solid (shape n0)) as Hnext'
    by (rewrite Hnext3, Hnext2; apply Hnext).
  assert (∀ h, holdPiece st3 = Some h → solid (hshape h)) as Hhold'
    by (rewrite Hhold3, Hhold2; apply Hhold).
  assert (is_Some (score st3)) as Hsome3 by (by rewrite Hscore3).
  destruct (spawnPiece_playable st3 Htidy3 Hsome3 Hpaced3 Hnext' Hhold')
    as (st4 & calls & Hspawn & Hplay & _).
  assert (ROWS ≤ length (board st3)) as Htall3
    by (destruct Htidy3 as [[-> _] _]; lia).
  destruct (spawnPiece_report st3 st4 calls Htall3 Hnext' Hspawn)
    as (Hb & Hs & Hl & Hq & Htail).
  eexists st4, _, board1, n, calls.
  split; [exact (lockPiece_steps st p board1 st2 n st3 st4 calls
                                 Hp Hstamp Hclear Hst3 Hspawn)|].
  split; [exact Hplay|]. split; [exact Hstamp|]. split; [exact Hn|].
  split; [lia|]. split; [by rewrite Hl, Hlines3|].
  split; [by rewrite Hq, Hqueue3, Hqueue2|]. split; [by rewrite Hb, Hs, Hl|].
  destruct Htail as [(-> & Hsome4 & Hover4)|(-> & Hnone4 & Hover4)].
  - left. split; [done|]. split; [done|]. by rewrite Hover4, Hover3.
  - by right.
Qed.

Lemma lockPiece_playable st p :
  playable st → currentPiece st = Some p →
  ∃ st' calls, lockPiece dice st = Some (st', calls) ∧ playable st'.
Proof.
  intros Hplay Hp.
  destruct (lockPiece_spec st p Hplay Hp) as (st' & calls & _ & _ & _ & Hlock & Hplay' & _).
  by exists st', calls.
Qed.

Lemma playable_same st st' :
  board st' = board st → score st' = score st → lines st' = lines st →
  level st' = level st → dropInterval st' = dropInterval st →
  currentPiece st' = currentPiece st → nextPiece st' = nextPiece st →
  holdPiece st' = holdPiece st → gameOver st' = gameOver st →
  playable st → playable st'.
Proof.
  unfold playable, paced. by intros -> -> -> -> -> -> -> -> ->.
Qed.

Lemma playable_moved st p' :
  playable st → clear (board st) p' → solid (shape p') →
  playable (set_currentPiece st (Some p')).
Proof.
  intros (Htidy & Hscore & Hpaced & _ & _ & Hnext & Hhold) Hclear Hsolid.
  split; [done|]. split; [done|]. split; [done|]. split; [|done].
  by intros q [= <-].
Qed.

Lemma movePiece_playable st p dx dy :
  playable st → currentPiece st = Some p →
  ∃ moved st' calls,
    movePiece dice st dx dy = Some (moved, st', calls) ∧ playable st'.
Proof.
  intros Hplay Hp. pose proof Hplay as (Htidy & _ & _ & Hcur & _).
  destruct (Hcur p Hp) as [_ Hsolid].
  assert (ROWS ≤ length (board st)) as Htall by (destruct Htidy as [[-> _] _]; lia).
  unfold movePiece. rewrite Hp. cbn [mbind option_bind].
  destruct (checkCollision_spec (board st) (px p + dx) (py p + dy) (shape p) Htall)
    as (hit & -> & Hfree).
  cbn [mbind option_bind]. destruct hit; cbn [negb].
  - destruct (0 <? dy)%Z.
    + destruct (lockPiece_playable st p Hplay Hp) as (st' & calls & -> & Hplay').
      cbn [mbind option_bind]. by eexists _, _, _.
    + by eexists _, _, _.
  - eexists _, _, _. split; [reflexivity|].
    apply (playable_moved st); [done| |done]. by apply Hfree.
Qed.

Lemma rotateMatrix_solid g :
  solid g → ∃ r, rotateMatrix g = Some r ∧ solid r.
Proof.
  intros (h & w & Hs & Hh & Hw & row & col & c & Hcell & Hc).
  destruct (rotateMatrix_cells h w g Hs) as (r & Hr & Hsr & Hcells); [lia|].
  exists r. split; [done|]. exists w, h. split; [done|]. split; [lia|].
  split; [lia|].
  destruct (solid_cell g h w row col c Hs Hcell) as [Hrow Hcol].
  exists col, (h - 1 - row), c. split; [|done].
  rewrite Hcells by lia. by replace (h - 1 - (h - 1 - row)) with row by lia.
Qed.

Lemma rotateCurrent_playable st p :
  playable st → currentPiece st = Some p →
  ∃ st', rotateCurrent st = Some st' ∧ playable st'.
Proof.
  intros Hplay Hp. pose proof Hplay as (Htidy & _ & _ & Hcur & _).
  destruct (Hcur p Hp) as [Hclear Hsolid].
  assert (ROWS ≤ length (board st)) as Htall by (destruct Htidy as [[-> _] _]; lia).
  unfold rotateCurrent, rotatePiece. rewrite Hp. cbn [mbind option_bind].
  destruct (rotateMatrix_solid _ Hsolid) as (rotated & -> & Hrot).
  cbn [mbind option_bind].
  destruct (try_kicks_returns (board st) p rotated kicks Htall) as [p' Hp'].
  rewrite Hp'. cbn [mbind option_bind]. eexists. split; [reflexivity|].
  destruct (try_kicks_clear (board st) p rotated kicks p' Htall Hclear Hp')
    as [Hc [->|(d & _ & ->)]].
  - by apply (playable_moved st).
  - by apply (playable_moved st).
Qed.

Lemma holdCurrentPiece_playable st :
  playable st →
  ∃ st' calls, holdCurrentPiece dice st = Some (st', calls) ∧ playable st'.
Proof.
  intros Hplay. pose proof Hplay as (Htidy & Hscore & Hpaced & Hcur & _ & Hnext & Hhold).
  assert (ROWS ≤ length (board st)) as Htall by (destruct Htidy as [[-> _] _]; lia).
  unfold holdCurrentPiece.
  destruct (canHold st); [|by eexists _, _].
  destruct (currentPiece st) as [current|] eqn:Hp; [|by eexists _, _].
  destruct (holdPiece st) as [held|] eqn:Hheld.
  - destruct (spawn_x_solid (hshape held)) as (x & -> & _); [by apply Hhold|].
    cbn [mbind option_bind].
    destruct (checkCollision_spec (board st) x 0 (hshape held) Htall)
      as (hit & Hhit & Hfree).
    cbn [board set_holdPiece set_currentPiece shape]. rewrite Hhit.
    cbn [mbind option_bind].
    assert (solid (base_shape (ptype current))) as Hbase by apply base_shape_solid.
    destruct hit; cbn [playerDied_here]; eexists _, _; (split; [reflexivity|]).
    + split; [done|]. split; [done|]. split; [done|]. split; [done|].
      split; [by left|]. split; [done|]. by intros h [= <-].
    + split; [done|]. split; [done|]. split; [done|]. split.
      { intros q [= <-]. split; [by apply Hfree|]. by apply Hhold. }
      split; [done|]. split; [done|]. by intros h [= <-].
  - destruct (spawnPiece_playable (set_holdPiece st (Some (held_of current))))
      as (st2 & calls & -> & Hplay2 & _); [done|done|done|done| |].
    { intros h [= <-]. apply base_shape_solid. }
    cbn [mbind option_bind]. eexists _, _. split; [reflexivity|].
    by apply (playable_same st2).
Qed.

Lemma ghost_loop_piece fuel board p p' y :
  px p' = px p → shape p' = shape p →
  ghost_loop fuel board p' y = ghost_loop fuel board p y.
Proof.
  intros Hx Hs. revert y. induction fuel as [|fuel IH]; intros y; [done|].
  cbn [ghost_loop]. rewrite Hx, Hs.
  destruct (checkCollision _ _ _ _) as [[|]|]; [done| |done]. apply IH.
Qed.

Lemma landed_here st p : currentPiece st = Some p → landed st p (py p) = st.
Proof.
  intros Hp. unfold landed, add_score.
  destruct st as [b cur nxt hold can sc ln lv gq dc di go r]. cbn in *.
  subst cur. destruct p as [k g c x y]. cbn.
  replace (2 * (y - y))%Z with 0%Z by lia.
  destruct sc as [s|]; cbn; [|done]. by rewrite Z.add_0_r.
Qed.

Lemma landed_step st p g :
  landed (add_score
            (set_currentPiece st (Some (placed_at p (shape p) (px p) (py p + 1))))
            2)
         (placed_at p (shape p) (px p) (py p + 1)) g
  = landed st p g.
Proof.
  unfold landed, add_score.
  destruct st as [b cur nxt hold can sc ln lv gq dc di go r]. cbn.
  destruct sc as [s|]; cbn; [|done].
  by replace (s + 2 + 2 * (g - (py p + 1)))%Z with (s + 2 * (g - py p))%Z by lia.
Qed.

(** The loops of [getGhostY] and [hardDrop] side by side. *)
Lemma hardDrop_loop_spec (n : nat) st p calls :
  ROWS ≤ length (board st) → currentPiece st = Some p →
  (∃ row col c, shape p !! row ≫= (.!! col) = Some c ∧ truthy c = true) →
  (Z.of_nat ROWS - py p ≤ Z.of_nat n)%Z →
  ∃ g, (py p ≤ g)%Z
       ∧ (∀ y', (py p < y' ≤ g)%Z → free (board st) (px p) y' (shape p))
       ∧ ∀ fuel, n < fuel →
           ghost_loop fuel (board st) p (py p) = Ret g
           ∧ hardDrop_loop dice fuel st calls
             = match lockPiece dice (landed st p g) with
               | Some (st', more) => Ret (st', calls ++ more)
               | None => Throw
               end.
Proof.
  intros Htall Hp (row & col & c & Hcell & Hc). revert st p calls Htall Hp Hcell.
  induction n as [|n IH]; intros st p calls Htall Hp Hcell Hn;
    destruct (checkCollision_spec (board st) (px p) (py p + 1) (shape p) Htall)
      as ([|] & Hhit & Hfree).
  - exists (py p). split; [lia|]. split; [intros; lia|].
    intros [|fuel] Hfuel; [lia|]. cbn [ghost_loop hardDrop_loop].
    rewrite Hhit. split; [done|].
    unfold movePiece. rewrite Hp. cbn [mbind option_bind].
    rewrite Z.add_0_r, Hhit. cbn [mbind option_bind negb].
    rewrite (landed_here st p Hp).
    by destruct (lockPiece dice st) as [[st' more]|].
  - destruct (proj1 Hfree eq_refl row col c Hcell Hc) as (_ & Hfloor & _). lia.
  - exists (py p). split; [lia|]. split; [intros; lia|].
    intros [|fuel] Hfuel; [lia|]. cbn [ghost_loop hardDrop_loop].
    rewrite Hhit. split; [done|].
    unfold movePiece. rewrite Hp. cbn [mbind option_bind].
    rewrite Z.add_0_r, Hhit. cbn [mbind option_bind negb].
    rewrite (landed_here st p Hp).
    by destruct (lockPiece dice st) as [[st' more]|].
  - set (p1 := placed_at p (shape p) (px p) (py p + 1)).
    set (st2 := add_score (set_currentPiece st (Some p1)) 2).
    destruct (IH st2 p1 (calls ++ [])) as (g & Hle & Hbetween & Hrun).
    + by destruct st.
    + by destruct st.
    + done.
    + cbn. lia.
    + assert (board st2 = board st) as Hboard by (by destruct st).
      rewrite Hboard in Hbetween. cbn [px py shape p1 placed_at] in Hle, Hbetween.
      exists g. split; [lia|]. split.
      * intros y' Hy'. destruct (decide (y' = py p + 1)%Z) as [->|Hne].
        -- by apply Hfree.
        -- apply Hbetween. lia.
      * intros [|fuel] Hfuel; [lia|]. destruct (Hrun fuel) as [Hghost Hdrop]; [lia|].
        cbn [ghost_loop hardDrop_loop]. rewrite Hhit. split.
        -- rewrite Hboard in Hghost. rewrite <- Hghost.
           symmetry. by apply ghost_loop_piece.
        -- unfold movePiece. rewrite Hp. cbn [mbind option_bind].
           rewrite Z.add_0_r, Hhit. cbn [mbind option_bind negb].
           fold p1. fold st2. rewrite Hdrop. unfold st2, p1.
           rewrite landed_step, app_nil_r. done.
Qed.

Lemma landed_playable st p g :
  playable st → currentPiece st = Some p →
  (py p ≤ g)%Z →
  (∀ y', (py p < y' ≤ g)%Z → free (board st) (px p) y' (shape p)) →
  playable (landed st p g) ∧ currentPiece (landed st p g)
                               = Some (placed_at p (shape p) (px p) g).
Proof.
  intros (Htidy & Hscore & Hpaced & Hcur & _ & Hnext & Hhold) Hp Hle Hbetween.
  destruct (Hcur p Hp) as [Hclear Hsolid].
  split; [|by destruct st].
  unfold landed, add_score.
  split; [by destruct st|]. split.
  { destruct Hscore as [s Hs]. destruct st. cbn in *. subst. by eexists. }
  split; [by destruct st|]. split.
  { intros q Hq. assert (q = placed_at p (shape p) (px p) g) as ->.
    { destruct st. cbn in Hq. congruence. }
    split; [|done]. unfold clear. cbn [px py shape placed_at].
    assert (board (set_score (set_currentPiece st (Some (placed_at p (shape p) (px p) g)))
                             ((λ s, s + 2 * (g - py p))%Z
                              <$> score (set_currentPiece st
                                           (Some (placed_at p (shape p) (px p) g)))))
            = board st) as -> by (by destruct st).
    destruct (decide (g = py p)) as [->|Hne]; [done|]. apply Hbetween. lia. }
  split; [by destruct st|]. split; by destruct st.
Qed.

Lemma hardDrop_playable st p fuel :
  playable st → currentPiece st = Some p →
  Z.to_nat (Z.of_nat ROWS - py p) < fuel →
  ∃ st' calls, hardDrop dice fuel st = Ret (st', calls) ∧ playable st'.
Proof.
  intros Hplay Hp Hfuel. pose proof Hplay as (Htidy & _ & _ & Hcur & _).
  destruct (Hcur p Hp) as [_ Hsolid].
  assert (ROWS ≤ length (board st)) as Htall by (destruct Htidy as [[-> _] _]; lia).
  destruct Hsolid as (_ & _ & _ & _ & _ & Hfilled).
  destruct (hardDrop_loop_spec (Z.to_nat (Z.of_nat ROWS - py p)) st p [] Htall Hp Hfilled)
    as (g & Hle & Hbetween & Hrun); [lia|].
  destruct (Hrun fuel Hfuel) as [_ Hdrop].
  destruct (landed_playable st p g Hplay Hp Hle Hbetween) as [Hplay' Hp'].
  destruct (lockPiece_playable _ _ Hplay' Hp') as (st' & calls & Hlock & Hplay'').
  unfold hardDrop. rewrite Hdrop, Hlock. by eexists _, _.
Qed.

Lemma keydown_playable st key fuel :
  playable st →
  (∀ p, currentPiece st = Some p → Z.to_nat (Z.of_nat ROWS - py p) < fuel) →
  ∃ st' calls, keydown dice fuel st key = Ret (st', calls) ∧ playable st'.
Proof.
  intros Hplay Hfuel. unfold keydown.
  destruct (gameOver st); [by eexists _, _|].
  destruct (String.eqb key "Shift").
  { destruct (holdCurrentPiece_playable st Hplay) as (st' & calls & -> & Hplay').
    by eexists _, _. }
  destruct (currentPiece st) as [p|] eqn:Hp; [|by eexists _, _].
  destruct (String.eqb key "ArrowLeft").
  { destruct (movePiece_playable st p (-1) 0 Hplay Hp)
      as (moved & st' & calls & -> & Hplay'). by eexists _, _. }
  destruct (String.eqb key "ArrowRight").
  { destruct (movePiece_playable st p 1 0 Hplay Hp)
      as (moved & st' & calls & -> & Hplay'). by eexists _, _. }
  destruct (String.eqb key "ArrowDown").
  { destruct (movePiece_playable st p 0 1 Hplay Hp)
      as (moved & st' & calls & -> & Hplay').
    eexists _, _. split; [reflexivity|]. by apply (playable_same st'). }
  destruct (String.eqb key "ArrowUp").
  { destruct (rotateCurrent_playable st p Hplay Hp) as (st' & -> & Hplay').
    by eexists _, _. }
  destruct (String.eqb key " "); [|by eexists _, _].
  apply (hardDrop_playable st p); [done|done|by apply Hfuel].
Qed.

Lemma gameLoop_playable st deltaTime :
  playable st →
  ∃ st' calls, gameLoop dice st deltaTime = Some (st', calls) ∧ playable st'.
Proof.
  intros Hplay. unfold gameLoop.
  destruct (gameOver st) eqn:Hover; [by eexists _, _|].
  assert (∃ st1 calls1,
            match currentPiece st with
            | Some _ => Some (st, [])
            | None => spawnPiece dice st
            end = Some (st1, calls1)
            ∧ playable st1 ∧ is_Some (currentPiece st1))
    as (st1 & calls1 & -> & Hplay1 & p & Hp).
  { destruct (currentPiece st) as [p|] eqn:Hp.
    - eexists _, _. split; [reflexivity|]. split; [done|].
      rewrite Hp. by eexists.
    - destruct Hplay as (Htidy & Hscore & Hpaced & _ & Hnone & Hnext & Hhold).
      destruct (Hnone Hp) as [Hdead|Hblank]; [congruence|].
      destruct (spawnPiece_playable st Htidy Hscore Hpaced Hnext Hhold)
        as (st1 & calls1 & -> & Hplay1 & _ & Hspawned).
      eexists _, _. split; [reflexivity|]. split; [done|].
      by apply Hspawned. }
  cbn [mbind option_bind].
  set (st2 := set_dropCounter st1 (dropCounter st1 + deltaTime)).
  assert (playable st2) as Hplay2 by (by apply (playable_same st1)).
  destruct (dropInterval st2 <? dropCounter st2)%Z; [|by eexists _, _].
  destruct (movePiece_playable st2 p 0 1 Hplay2) as
    (moved & st3 & calls3 & -> & Hplay3); [done|].
  eexists _, _. split; [reflexivity|]. by apply (playable_same st3).
Qed.

Lemma fresh_game_playable : playable fresh_game.
Proof.
  split; [apply blank_tidy|]. split; [by eexists|]. split.
  { split; [cbn; lia|]. split; reflexivity. }
  split; [done|]. split; [by right|]. done.
Qed.

Lemma hardDrop_loop_mono fuel st calls outcome :
  hardDrop_loop dice fuel st calls = Ret outcome →
  hardDrop_loop dice (S fuel) st calls = Ret outcome.
Proof.
  revert st calls. induction fuel as [|fuel IH]; intros st calls; [done|].
  intros Hrun. cbn [hardDrop_loop] in *.
  destruct (movePiece dice st 0 1) as [[[[|] st'] more]|]; [|done..].
  by apply IH.
Qed.

Lemma handle_mono fuel fuel' st ev outcome :
  fuel ≤ fuel' →
  handle dice fuel st ev = Ret outcome → handle dice fuel' st ev = Ret outcome.
Proof.
  intros Hle Hrun. induction Hle as [|fuel' _ IH]; [done|].
  destruct ev as [key|deltaTime|garbageCount|]; [|done..].
  unfold handle, keydown, hardDrop in *.
  destruct (gameOver st); [done|]. destruct (String.eqb key "Shift"); [done|].
  destruct (currentPiece st); [|done].
  repeat (destruct (String.eqb key _); [done|]).
  destruct (String.eqb key " "); [|done]. by apply hardDrop_loop_mono.
Qed.

Lemma handle_playable st ev :
  playable st →
  ∃ st' calls,
    playable st'
    ∧ ∀ fuel, (∀ p, currentPiece st = Some p →
                    Z.to_nat (Z.of_nat ROWS - py p) < fuel) →
              handle dice fuel st ev = Ret (st', calls).
Proof.
  intros Hplay. destruct ev as [key|deltaTime|garbageCount|].
  - set (enough := match currentPiece st with
                   | Some p => S (Z.to_nat (Z.of_nat ROWS - py p))
                   | None => 0
                   end).
    destruct (keydown_playable st key enough Hplay) as (st' & calls & Hrun & Hplay').
    { intros p Hp. subst enough. rewrite Hp. lia. }
    exists st', calls. split; [done|]. intros fuel Hfuel.
    apply (handle_mono enough fuel st (KeyDown key)); [|done].
    subst enough. destruct (currentPiece st) as [p|]; [|lia].
    specialize (Hfuel p eq_refl). lia.
  - destruct (gameLoop_playable st deltaTime Hplay) as (st' & calls & Hrun & Hplay').
    exists st', calls. split; [done|]. intros fuel _. cbn. by rewrite Hrun.
  - eexists _, _. split; [|done]. unfold receiveGarbage.
    destruct (0 <? garbageCount)%Z; [|done]. by apply (playable_same st).
  - eexists _, _. split; [|done].
    destruct Hplay as (Htidy & Hscore & Hpaced & Hcur & _ & Hnext & Hhold).
    split; [done|]. split; [done|]. split; [done|]. split; [done|].
    split; [by left|]. done.
Qed.

Lemma reachable_playable st : reachable dice st → playable st.
Proof.
  induction 1 as [|st ev fuel st' calls _ IH Hrun]; [apply fresh_game_playable|].
  destruct (handle_playable st ev IH) as (st'' & calls'' & Hplay & Hall).
  set (enough := match currentPiece st with
                 | Some p => S (Z.to_nat (Z.of_nat ROWS - py p))
                 | None => 0
                 end).
  assert (handle dice (fuel `max` enough) st ev = Ret (st'', calls'')) as Hbig.
  { apply Hall. intros p Hp. subst enough. rewrite Hp. lia. }
  rewrite (handle_mono fuel (fuel `max` enough) st ev (st', calls)) in Hbig;
    [|lia|done].
  congruence.
Qed.

End Safety.

(** A game with the T piece at the top of a blank board. *)
Definition opening : Play := set_currentPiece fresh_game (Some tee_piece).

Lemma opening_playable : playable opening.
Proof.
  apply playable_moved; [apply fresh_game_playable|apply tee_piece_clear|].
  apply base_shape_solid.
Qed.

(** X22 (js/tetris.js, spawnPiece, getRandomTetromino).  On a board with
    its rows, and with a next piece that is either missing or of a proper
    shape, [spawnPiece] returns.  The piece it spawns is the next piece, or
    a random tetromino when there was none, on row 0 with its first row
    centred; all its cells lie between the side walls.  If it collides with
    nothing it becomes the current piece; otherwise the player dies: the
    game is over and there is no current piece.  Either way the board is
    untouched, a random tetromino becomes the next piece and Hold is
    allowed again.  On a blank board the piece always comes into play. *)
Theorem spawnPiece_centres_or_ends (dice : nat → nat) (st : Play) :
  ROWS ≤ length (board st) →
  (∀ n, nextPiece st = Some n → solid (shape n)) →
  ∃ next x st' calls,
    spawnPiece dice st = Some (st', calls)
    ∧ (nextPiece st = Some next ∨ nextPiece st = None ∧ ∃ k0, next = tetromino k0)
    ∧ x = (Z.of_nat (COLS / 2)
           - Z.of_nat (length (default [] (head (shape next))) / 2))%Z
    ∧ (∀ row col c, shape next !! row ≫= (.!! col) = Some c →
                    (0 ≤ x + Z.of_nat col < Z.of_nat COLS)%Z)
    ∧ board st' = board st
    ∧ canHold st' = true
    ∧ (∃ k, nextPiece st' = Some (tetromino k))
    ∧ (clear (board st) (placed_at next (shape next) x 0)
       ∧ calls = []
       ∧ currentPiece st' = Some (placed_at next (shape next) x 0)
       ∧ gameOver st' = gameOver st
       ∨ ¬ clear (board st) (placed_at next (shape next) x 0)
         ∧ calls = [PlayerDied]
         ∧ currentPiece st' = None
         ∧ gameOver st' = true)
    ∧ (board st = blank → clear (board st) (placed_at next (shape next) x 0)).
Proof.
  intros Htall Hnext.
  destruct (spawnPiece_spec dice st Htall Hnext)
    as (next & x & r & k & Horigin & Hx & Hsolid & Hcases).
  cbn zeta in Hcases.
  destruct (spawn_x_solid _ Hsolid) as (x' & Hx' & Hin).
  assert (x' = x) as -> by congruence.
  assert (x = (Z.of_nat (COLS / 2)
               - Z.of_nat (length (default [] (head (shape next))) / 2))%Z) as Hcentre.
  { unfold spawn_x in Hx. destruct (head (shape next)) as [first|]; [|done].
    cbn in Hx. by injection Hx as <-. }
  assert (board st = blank → clear (board st) (placed_at next (shape next) x 0))
    as Hblank.
  { intros ->. unfold clear. cbn. apply blank_free. intros row col c Hcell.
    destruct (Hin row col c Hcell) as [Hcol Hrow].
    split; [done|]. change ROWS with 20. lia. }
  destruct Hcases as [[Hclear Heq]|[Hhit Heq]].
  - eexists next, x, _, _. split; [exact Heq|]. split; [done|]. split; [done|].
    split; [intros row col c Hcell; by apply (Hin row col c)|].
    split; [done|]. split; [done|]. split; [by exists k|]. split; [|done].
    by left.
  - eexists next, x, _, _. split; [exact Heq|]. split; [done|]. split; [done|].
    split; [intros row col c Hcell; by apply (Hin row col c)|].
    split; [done|]. split; [done|]. split; [by exists k|]. split; [|done].
    by right.
Qed.

Lemma fresh_game_next :
  ∀ n, nextPiece fresh_game = Some n → solid (shape n).
Proof. intros n [=]. Qed.

Lemma spawnPiece_centres_or_ends_witness :
  ROWS ≤ length (board fresh_game)
  ∧ ∃ next x st' calls,
      spawnPiece (λ k, 2 + k) fresh_game = Some (st', calls)
      ∧ (nextPiece fresh_game = Some next
         ∨ nextPiece fresh_game = None ∧ ∃ k0, next = tetromino k0)
      ∧ x = (Z.of_nat (COLS / 2)
             - Z.of_nat (length (default [] (head (shape next))) / 2))%Z
      ∧ (∀ row col c, shape next !! row ≫= (.!! col) = Some c →
                      (0 ≤ x + Z.of_nat col < Z.of_nat COLS)%Z)
      ∧ board st' = board fresh_game
      ∧ canHold st' = true
      ∧ (∃ k, nextPiece st' = Some (tetromino k))
      ∧ (clear (board fresh_game) (placed_at next (shape next) x 0)
         ∧ calls = []
         ∧ currentPiece st' = Some (placed_at next (shape next) x 0)
         ∧ gameOver st' = gameOver fresh_game
         ∨ ¬ clear (board fresh_game) (placed_at next (shape next) x 0)
           ∧ calls = [PlayerDied]
           ∧ currentPiece st' = None
           ∧ gameOver st' = true)
      ∧ (board fresh_game = blank →
         clear (board fresh_game) (placed_at next (shape next) x 0)).
Proof.
  exact (conj blank_tall
              (spawnPiece_centres_or_ends (λ k, 2 + k) fresh_game blank_tall
                                          fresh_game_next)).
Defined.

(** X23 (js/tetris.js, lockPiece).  In a playable game with a current
    piece [lockPiece] returns a playable game.  The piece is written onto
    the board and at most four rows are full then; they are cleared and
    counted into the lines; a pending garbage queue is spent.  The calls
    made are, in order: the garbage sent to the opponents when rows were
    cleared, the upload of the board, score and lines as they are at the
    end, and the death of the player when the piece spawned next
    collides. *)
Theorem lockPiece_settles_the_board (dice : nat → nat) (st : Play) (p : Piece) :
  playable st → currentPiece st = Some p →
  ∃ st' calls board1 n tail,
    lockPiece dice st = Some (st', calls)
    ∧ playable st'
    ∧ stamp p (board st) = Some board1
    ∧ n = count_full board1 ∧ n ≤ 4
    ∧ lines st' = (lines st + Z.of_nat n)%Z
    ∧ garbageQueue st' = Z.min (garbageQueue st) 0
    ∧ calls = (if bool_decide (0 < n) then [SendGarbageToOpponents n] else [])
              ++ UpdateBoardToServer (board st') (score st') (lines st') :: tail
    ∧ (tail = [] ∧ is_Some (currentPiece st') ∧ gameOver st' = gameOver st
       ∨ tail = [PlayerDied] ∧ currentPiece st' = None ∧ gameOver st' = true).
Proof. apply lockPiece_spec. Qed.

Lemma lockPiece_settles_the_board_witness :
  playable opening
  ∧ ∃ st' calls board1 n tail,
      lockPiece (λ k, 2 + k) opening = Some (st', calls)
      ∧ playable st'
      ∧ stamp tee_piece (board opening) = Some board1
      ∧ n = count_full board1 ∧ n ≤ 4
      ∧ lines st' = (lines opening + Z.of_nat n)%Z
      ∧ garbageQueue st' = Z.min (garbageQueue opening) 0
      ∧ calls = (if bool_decide (0 < n) then [SendGarbageToOpponents n] else [])
                ++ UpdateBoardToServer (board st') (score st') (lines st') :: tail
      ∧ (tail = [] ∧ is_Some (currentPiece st') ∧ gameOver st' = gameOver opening
         ∨ tail = [PlayerDied] ∧ currentPiece st' = None ∧ gameOver st' = true).
Proof.
  exact (conj opening_playable
              (lockPiece_settles_the_board (λ k, 2 + k) opening tee_piece
                                           opening_playable eq_refl)).
Defined.

(** X24 (js/tetris.js, hardDrop, movePiece, getGhostY).  For a current
    piece with a filled cell on a board with its rows, [hardDrop] does what
    [lockPiece] does once the piece stands on the row that [getGhostY]
    gives and two points have been added for every row down to it; both
    loops end as soon as they have fuel for the rows below the piece. *)
Theorem hardDrop_lands_on_ghost (dice : nat → nat) (st : Play) (p : Piece) :
  ROWS ≤ length (board st) → currentPiece st = Some p →
  (∃ row col c, shape p !! row ≫= (.!! col) = Some c ∧ truthy c = true) →
  ∃ g, (py p ≤ g)%Z
       ∧ currentPiece (landed st p g) = Some (placed_at p (shape p) (px p) g)
       ∧ score (landed st p g) = (λ s, s + 2 * (g - py p))%Z <$> score st
       ∧ board (landed st p g) = board st
       ∧ ∀ fuel, Z.to_nat (Z.of_nat ROWS - py p) < fuel →
           getGhostY fuel (board st) (Some p) = Ret g
           ∧ hardDrop dice fuel st = settle (lockPiece dice (landed st p g)).
Proof.
  intros Htall Hp Hfilled.
  destruct (hardDrop_loop_spec dice (Z.to_nat (Z.of_nat ROWS - py p)) st p []
              Htall Hp Hfilled) as (g & Hle & _ & Hrun); [lia|].
  exists g. split; [done|]. split; [by destruct st|]. split; [by destruct st|].
  split; [by destruct st|]. intros fuel Hfuel.
  destruct (Hrun fuel Hfuel) as [Hghost Hdrop]. split; [done|].
  unfold hardDrop. rewrite Hdrop.
  by destruct (lockPiece dice (landed st p g)) as [[st' more]|].
Qed.

Lemma hardDrop_lands_on_ghost_witness :
  ROWS ≤ length (board opening)
  ∧ ∃ g, (py tee_piece ≤ g)%Z
         ∧ currentPiece (landed opening tee_piece g)
           = Some (placed_at tee_piece (shape tee_piece) (px tee_piece) g)
         ∧ score (landed opening tee_piece g)
           = (λ s, s + 2 * (g - py tee_piece))%Z <$> score opening
         ∧ board (landed opening tee_piece g) = board opening
         ∧ ∀ fuel, Z.to_nat (Z.of_nat ROWS - py tee_piece) < fuel →
             getGhostY fuel (board opening) (Some tee_piece) = Ret g
             ∧ hardDrop (λ k, 2 + k) fuel opening
               = settle (lockPiece (λ k, 2 + k) (landed opening tee_piece g)).
Proof.
  exact (conj blank_tall
              (hardDrop_lands_on_ghost (λ k, 2 + k) opening tee_piece blank_tall
                                       eq_refl tee_piece_filled)).
Defined.

(** X25 (js/tetris.js, holdCurrentPiece).  In a playable game where Hold
    is allowed and there is a current piece, [holdCurrentPiece] returns a
    playable game.  The piece kept is the current one with the shape of its
    kind as it is drawn in [TETROMINOS], whatever way it was turned.  The
    piece that was kept before, if any, comes back on row 0, centred, when
    it collides with nothing there, and the player dies when it does.  The
    board is untouched, the drop counter is reset, and Hold is no longer
    allowed: a second [holdCurrentPiece] changes nothing. *)
Theorem holdCurrentPiece_once (dice : nat → nat) (st : Play) (p : Piece) :
  playable st → canHold st = true → currentPiece st = Some p →
  ∃ st' calls,
    holdCurrentPiece dice st = Some (st', calls)
    ∧ playable st'
    ∧ holdPiece st'
      = Some {| htype := ptype p; hshape := base_shape (ptype p); hcolor := color p |}
    ∧ canHold st' = false
    ∧ dropCounter st' = 0%Z
    ∧ board st' = board st
    ∧ (∀ held, holdPiece st = Some held →
         ∃ x, spawn_x (hshape held) = Some x
              ∧ (clear (board st)
                       {| ptype := htype held; shape := hshape held;
                          color := hcolor held; px := x; py := 0 |} →
                 calls = []
                 ∧ currentPiece st'
                   = Some {| ptype := htype held; shape := hshape held;
                             color := hcolor held; px := x; py := 0 |})
              ∧ (¬ clear (board st)
                         {| ptype := htype held; shape := hshape held;
                            color := hcolor held; px := x; py := 0 |} →
                 calls = [PlayerDied]
                 ∧ currentPiece st' = None ∧ gameOver st' = true))
    ∧ holdCurrentPiece dice st' = Some (st', []).
Proof.
  intros Hplay Hcan Hp.
  pose proof Hplay as (Htidy & Hscore & Hpaced & Hcur & _ & Hnext & Hhold).
  assert (ROWS ≤ length (board st)) as Htall by (destruct Htidy as [[-> _] _]; lia).
  assert (∀ st0, canHold st0 = false → holdCurrentPiece dice st0 = Some (st0, []))
    as Hagain by (intros st0 Hno; unfold holdCurrentPiece; by rewrite Hno).
  unfold holdCurrentPiece at 1. rewrite Hcan, Hp.
  destruct (holdPiece st) as [held|] eqn:Hheld.
  - destruct (spawn_x_solid (hshape held)) as (x & Hx & _); [by apply Hhold|].
    rewrite Hx. cbn [mbind option_bind].
    destruct (checkCollision_spec (board st) x 0 (hshape held) Htall)
      as (hit & Hhit & Hfree).
    cbn [board set_holdPiece set_currentPiece shape]. rewrite Hhit.
    cbn [mbind option_bind].
    assert (solid (base_shape (ptype p))) as Hbase by apply base_shape_solid.
    destruct hit; cbn [playerDied_here]; eexists _, _; (split; [reflexivity|]).
    + split.
      { split; [done|]. split; [done|]. split; [done|]. split; [done|].
        split; [by left|]. split; [done|]. by intros h [= <-]. }
      split; [done|]. split; [done|]. split; [done|]. split; [done|].
      split; [|by apply Hagain].
      intros held' [= <-]. exists x. split; [done|]. split.
      * intros Hclear. by apply Hfree in Hclear.
      * done.
    + split.
      { split; [done|]. split; [done|]. split; [done|]. split.
        { intros q [= <-]. split; [by apply Hfree|]. by apply Hhold. }
        split; [done|]. split; [done|]. by intros h [= <-]. }
      split; [done|]. split; [done|]. split; [done|]. split; [done|].
      split; [|by apply Hagain].
      intros held' [= <-]. exists x. split; [done|]. split.
      * done.
      * intros Hhit'. exfalso. apply Hhit'. by apply Hfree.
  - destruct (spawnPiece_playable dice (set_holdPiece st (Some (held_of p))))
      as (st2 & calls & Hspawn & Hplay2 & Hheld2 & _); [done|done|done|done| |].
    { intros h [= <-]. apply base_shape_solid. }
    destruct (spawnPiece_report dice (set_holdPiece st (Some (held_of p))) st2 calls)
      as (Hboard2 & _); [done|done|done|].
    rewrite Hspawn. cbn [mbind option_bind]. eexists _, _. split; [reflexivity|].
    split; [by apply (playable_same st2)|]. split; [done|]. split; [done|].
    split; [done|]. split; [done|]. split; [done|]. by apply Hagain.
Qed.

Lemma holdCurrentPiece_once_witness :
  playable opening
  ∧ ∃ st' calls,
      holdCurrentPiece (λ k, 2 + k) opening = Some (st', calls)
      ∧ playable st'
      ∧ holdPiece st'
        = Some {| htype := ptype tee_piece; hshape := base_shape (ptype tee_piece);
                  hcolor := color tee_piece |}
      ∧ canHold st' = false
      ∧ dropCounter st' = 0%Z
      ∧ board st' = board opening
      ∧ (∀ held, holdPiece opening = Some held →
           ∃ x, spawn_x (hshape held) = Some x
                ∧ (clear (board opening)
                         {| ptype := htype held; shape := hshape held;
                            color := hcolor held; px := x; py := 0 |} →
                   calls = []
                   ∧ currentPiece st'
                     = Some {| ptype := htype held; shape := hshape held;
                               color := hcolor held; px := x; py := 0 |})
                ∧ (¬ clear (board opening)
                           {| ptype := htype held; shape := hshape held;
                              color := hcolor held; px := x; py := 0 |} →
                   calls = [PlayerDied]
                   ∧ currentPiece st' = None ∧ gameOver st' = true))
      ∧ holdCurrentPiece (λ k, 2 + k) st' = Some (st', []).
Proof.
  exact (conj opening_playable
              (holdCurrentPiece_once (λ k, 2 + k) opening tee_piece
                                     opening_playable eq_refl eq_refl)).
Defined.

(** X26 (js/tetris.js, keydown listener, gameLoop, game listener).  In a
    playable game every key, every frame, every arrival of garbage and the
    end of the game are handled without a [TypeError] and leave a playable
    game; the only loop that needs fuel is the one of the hard drop, for
    the rows below the current piece. *)
Theorem every_event_keeps_playable (dice : nat → nat) (st : Play) (ev : Event) :
  playable st →
  ∃ st' calls,
    playable st'
    ∧ ∀ fuel, (∀ p, currentPiece st = Some p →
                    Z.to_nat (Z.of_nat ROWS - py p) < fuel) →
              handle dice fuel st ev = Ret (st', calls).
Proof. apply handle_playable. Qed.

Lemma every_event_keeps_playable_witness :
  playable opening
  ∧ ∃ st' calls,
      playable st'
      ∧ ∀ fuel, (∀ p, currentPiece opening = Some p →
                      Z.to_nat (Z.of_nat ROWS - py p) < fuel) →
                handle (λ k, 2 + k) fuel opening (KeyDown " ") = Ret (st', calls).
Proof.
  exact (conj opening_playable
              (every_event_keeps_playable (λ k, 2 + k) opening (KeyDown " ")
                                          opening_playable)).
Defined.

(** X27 (js/tetris.js, the player's game as a whole).  Whatever keys are
    pressed, frames are drawn and garbage arrives from a fresh game on, and
    whatever [Math.random] gives: the board has [ROWS] rows of [COLS] cells and no
    full row; the score is a number; the level is one more than the tens of
    lines cleared and the drop interval is the one of the level; the
    current piece collides with nothing; when there is no current piece the
    game is over or has not begun; and the shapes of the current, next and
    held pieces are rectangles of at most four by four cells. *)
Theorem reachable_games_are_playable (dice : nat → nat) (st : Play) :
  reachable dice st →
  tidy (board st)
  ∧ is_Some (score st)
  ∧ paced st
  ∧ (∀ p, currentPiece st = Some p → clear (board st) p ∧ solid (shape p))
  ∧ (currentPiece st = None → gameOver st = true ∨ board st = blank)
  ∧ (∀ n, nextPiece st = Some n → solid (shape n))
  ∧ (∀ h, holdPiece st = Some h → solid (hshape h)).
Proof. apply reachable_playable. Qed.

(** The game after the first frame, with a die that starts at 2. *)
Definition first_frame : Play :=
  match handle (λ k, 2 + k) 0 fresh_game (Frame 16) with
  | Ret (st, _) => st
  | _ => fresh_game
  end.

Lemma first_frame_reachable : reachable (λ k, 2 + k) first_frame.
Proof.
  apply (reachable_step _ fresh_game (Frame 16) 0 first_frame []);
    [apply reachable_start|]. vm_compute. reflexivity.
Qed.

Lemma reachable_games_are_playable_witness :
  reachable (λ k, 2 + k) first_frame
  ∧ tidy (board first_frame)
  ∧ is_Some (score first_frame)
  ∧ paced first_frame
  ∧ (∀ p, currentPiece first_frame = Some p →
          clear (board first_frame) p ∧ solid (shape p))
  ∧ (currentPiece first_frame = None →
     gameOver first_frame = true ∨ board first_frame = blank)
  ∧ (∀ n, nextPiece first_frame = Some n → solid (shape n))
  ∧ (∀ h, holdPiece first_frame = Some h → solid (hshape h)).
Proof.
  exact (conj first_frame_reachable
              (reachable_games_are_playable (λ k, 2 + k) first_frame
                                            first_frame_reachable)).
Defined.

End TetrisPlay.

(* ===================================================================== *)
(** * Garbage from one Tetris client to another (js/tetris.js)            *)
(* ===================================================================== *)

Module TetrisGarbage.
Import Js.
Import LocalDb.
Import Tetris.

(** Numbers are doubles.  Among the integers, the doubles are those with
    at most 53 significant bits; [nearest_double z] is the double nearest to
    the integer [z], a tie going to the even significand. *)
Definition nearest_double (z : Z) : Z :=
  let a := Z.abs z in
  if (a <=? 2 ^ 53)%Z then z
  else
    let unit := (2 ^ (Z.log2 a - 52))%Z in
    let q := (a / unit)%Z in
    let r := (a mod unit)%Z in
    let q' := if (unit <? 2 * r)%Z || ((unit =? 2 * r)%Z && Z.odd q)
              then (q + 1)%Z else q in
    (Z.sgn z * (q' * unit))%Z.

(** The spacing of the doubles around an integer beyond 2^53. *)
Definition spacing (z : Z) : Z := (2 ^ (Z.log2 (Z.abs z) - 52))%Z.

(** A sum this large is rounded to an infinity, which [Value] does not
    have. *)
Definition overflows (z : Z) : bool := (2 ^ 1024 - 2 ^ 970 <=? Z.abs z)%Z.

(** [a + b] on two numbers that are integers: the exact sum, rounded to the
    nearest double.  Adding zero is exact. *)
Definition add_numbers (a b : Z) : Z :=
  if (a =? 0)%Z then b
  else if (b =? 0)%Z then a
  else nearest_double (a + b).

(** [(stored || 0) + linesCleared], where [stored] is what the counter
    holds: a number is added to, a string or an object is concatenated
    with.  [undefined] does not come out of [|| 0]. *)
Definition raised (stored : Value) (linesCleared : Z) : Value :=
  match or_else stored (VNum 0) with
  | VNum m => VNum (add_numbers m linesCleared)
  | VBool b => VNum (add_numbers (if b then 1 else 0) linesCleared)
  | VStr s => VStr (s +:+ pretty linesCleared)
  | VObj _ => VStr ("[object Object]" +:+ pretty linesCleared)
  | VUndef | VNull => VNum linesCleared
  end.

(** Beyond 2^53, [nearest_double z] is a significand of 53 bits times the
    spacing, and no further from [z] than half the spacing. *)
Lemma nearest_double_near (z : Z) :
  (2 ^ 53 < Z.abs z)%Z →
  (∃ q, Z.abs (nearest_double z) = q * spacing z ∧ 2 ^ 52 ≤ q ≤ 2 ^ 53)%Z
  ∧ (2 * Z.abs (nearest_double z - z) ≤ spacing z)%Z.
Proof.
  intros Hbig. unfold nearest_double, spacing.
  assert ((Z.abs z <=? 2 ^ 53)%Z = false) as -> by by apply Z.leb_gt.
  cbv zeta.
  set (a := Z.abs z) in *.
  assert (53 ≤ Z.log2 a)%Z as Hlog.
  { apply Z.log2_le_pow2; lia. }
  set (unit := (2 ^ (Z.log2 a - 52))%Z).
  assert (0 < unit)%Z as Hunit by (apply Z.pow_pos_nonneg; lia).
  pose proof (Z.div_mod a unit ltac:(lia)) as Hdiv.
  pose proof (Z.mod_pos_bound a unit Hunit) as Hmod.
  destruct (Z.log2_spec a ltac:(lia)) as [Hlow Hhigh].
  assert (2 ^ Z.log2 a = 2 ^ 52 * unit)%Z as Hsplit.
  { unfold unit. rewrite <- Z.pow_add_r by lia. f_equal. lia. }
  replace (Z.succ (Z.log2 a)) with (1 + Z.log2 a)%Z in Hhigh by lia.
  rewrite Z.pow_add_r, Hsplit in Hhigh by lia. rewrite Hsplit in Hlow.
  change (2 ^ 1)%Z with 2%Z in Hhigh.
  set (q := (a / unit)%Z) in *. set (r := (a mod unit)%Z) in *.
  assert (2 ^ 52 ≤ q < 2 ^ 53)%Z as Hq.
  { change (2 ^ 52)%Z with 4503599627370496%Z in *.
    change (2 ^ 53)%Z with 9007199254740992%Z in *. nia. }
  set (q' := if (unit <? 2 * r)%Z || (unit =? 2 * r)%Z && Z.odd q
             then (q + 1)%Z else q).
  assert (q ≤ q' ≤ q + 1)%Z as Hq' by (unfold q'; destruct (_ || _); lia).
  assert (2 * Z.abs (q' * unit - a) ≤ unit)%Z as Hnear.
  { unfold q'.
    destruct ((unit <? 2 * r)%Z || (unit =? 2 * r)%Z && Z.odd q) eqn:Hup.
    - assert (unit ≤ 2 * r)%Z as Hle.
      { apply orb_true_iff in Hup as [H|H].
        - apply Z.ltb_lt in H. lia.
        - apply andb_true_iff in H as [H _]. apply Z.eqb_eq in H. lia. }
      nia.
    - assert (2 * r ≤ unit)%Z as Hle.
      { apply orb_false_iff in Hup as [H _]. apply Z.ltb_ge in H. lia. }
      nia. }
  clearbody q'.
  destruct (Z.abs_spec z) as [[Hz Ha]|[Hz Ha]]; fold a in Ha.
  - assert (Z.sgn z = 1)%Z as -> by (apply Z.sgn_pos; lia).
    split; [exists q'; split; [nia|lia]|].
    replace (1 * (q' * unit) - z)%Z with (q' * unit - a)%Z by lia. done.
  - assert (Z.sgn z = -1)%Z as -> by (apply Z.sgn_neg; lia).
    split; [exists q'; split; [nia|lia]|].
    replace (-1 * (q' * unit) - z)%Z with (- (q' * unit - a))%Z by lia.
    by rewrite Z.abs_opp.
Qed.

(** On doubles, the sum is the nearest double to the exact sum. *)
Lemma add_numbers_rounds (a b : Z) :
  nearest_double a = a → nearest_double b = b →
  add_numbers a b = nearest_double (a + b).
Proof.
  intros Ha Hb. unfold add_numbers.
  destruct (a =? 0)%Z eqn:Hza.
  { apply Z.eqb_eq in Hza as ->. by rewrite Z.add_0_l, Hb. }
  destruct (b =? 0)%Z eqn:Hzb; [|done].
  apply Z.eqb_eq in Hzb as ->. by rewrite Z.add_0_r, Ha.
Qed.

(** Up to 2^53 in absolute value every integer is a double, so the sum is
    the sum of the integers. *)
Lemma add_numbers_exact (a b : Z) :
  (Z.abs (a + b) ≤ 2 ^ 53)%Z → add_numbers a b = (a + b)%Z.
Proof.
  intros Hsmall. unfold add_numbers.
  destruct (a =? 0)%Z eqn:Ha; [apply Z.eqb_eq in Ha; lia|].
  destruct (b =? 0)%Z eqn:Hb; [apply Z.eqb_eq in Hb; lia|].
  unfold nearest_double. apply Z.leb_le in Hsmall. by rewrite Hsmall.
Qed.

(** [Object.values(gameState.players).filter(p => p.id !== gameState.playerId && p.alive)] *)
Definition opponents (st : GameState) : list Player :=
  List.filter (λ p, negb (is_str (id p) (playerId st)) && truthy (alive p))
              (players st).*2.

(** One round of the loop of [sendGarbageToOpponents]: the counter of the
    opponent is read and written back raised.  The callbacks that the
    write wakes are left out. *)
Definition send_one (st : GameState) (linesCleared : Z) (db : LocalDatabase)
           (opponent : Player) : LocalDatabase :=
  let path := garbage_path st (to_string (id opponent)) in
  (set db path (raised (get db path) linesCleared)).1.

(** [sendGarbageToOpponents] run against the local store. *)
Definition sendGarbageToOpponents (st : GameState) (linesCleared : Z)
           (db : LocalDatabase) : LocalDatabase :=
  foldl (send_one st linesCleared) db (opponents st).

(** Neither path lies below the other. *)
Definition apart (p q : string) : Prop :=
  ¬ keys_of p `prefix_of` keys_of q ∧ ¬ keys_of q `prefix_of` keys_of p.

(** The counter of a player as the store holds it. *)
Definition counter (st : GameState) (db : LocalDatabase) (pid : string) : Value :=
  get db (garbage_path st pid).

Section Sending.
Context (room : string) (Hroom : segment room).
Context (st : GameState) (Hst : roomId st = room).
Implicit Types (db : LocalDatabase) (o : Player) (s t q : string).

Lemma garbage_paths_apart s t :
  segment s → segment t → s ≠ t →
  apart (garbage_path st s) (garbage_path st t).
Proof.
  intros Hs Ht Hne. unfold apart.
  rewrite !(keys_of_garbage_path room Hroom) by done.
  split; intros Hpre; apply prefix_app_inv in Hpre;
    apply prefix_cons_inv_2 in Hpre; apply prefix_cons_inv_1 in Hpre; congruence.
Qed.

Lemma send_one_same n db o s :
  id o = VStr s → segment s →
  counter st (send_one st n db o) s = raised (counter st db s) n.
Proof.
  intros Hid Hs. unfold counter, send_one. rewrite Hid. cbn [to_string].
  apply LocalRefs.set_get_laws.
  rewrite (keys_of_garbage_path room Hroom) by done.
  by destruct (game_keys room).
Qed.

Lemma send_one_frame n db o q :
  apart (garbage_path st (to_string (id o))) q →
  get (send_one st n db o) q = get db q.
Proof.
  intros [H1 H2]. unfold send_one.
  apply LocalRefs.set_get_laws; [|done|done].
  destruct (keys_of (garbage_path st (to_string (id o)))) eqn:Hk; [|done].
  destruct H1. apply prefix_nil.
Qed.

Lemma send_all n (os : list Player) db :
  Forall (λ o, ∃ s, id o = VStr s ∧ segment s) os →
  NoDup (id <$> os) →
  (∀ o s, o ∈ os → id o = VStr s →
          counter st (foldl (send_one st n) db os) s = raised (counter st db s) n)
  ∧ (∀ q, (∀ o, o ∈ os → apart (garbage_path st (to_string (id o))) q) →
          get (foldl (send_one st n) db os) q = get db q).
Proof.
  revert db. induction os as [|o rest IH]; intros db Hok Hnd.
  { split; [intros o s Ho; by apply elem_of_nil in Ho|done]. }
  apply Forall_cons in Hok as [(so & Hido & Hso) Hrest].
  cbn [fmap list_fmap] in Hnd. apply NoDup_cons in Hnd as [Hfresh Hnd].
  destruct (IH (send_one st n db o) Hrest Hnd) as [IHsame IHframe].
  cbn [foldl]. split.
  - intros o' s Ho' Hid'. apply elem_of_cons in Ho' as [->|Ho'].
    + assert (s = so) as -> by congruence.
      unfold counter at 1. rewrite IHframe; [by apply send_one_same|].
      intros o2 Ho2.
      destruct (proj1 (Forall_forall _ _) Hrest o2 Ho2) as (s2 & Hid2 & Hs2).
      rewrite Hid2. cbn [to_string]. apply garbage_paths_apart; [done|done|].
      intros ->. apply Hfresh. rewrite Hido, <- Hid2.
      by apply list_elem_of_fmap_2.
    + rewrite (IHsame o' s Ho' Hid'). f_equal.
      destruct (proj1 (Forall_forall _ _) Hrest o' Ho') as (s' & Hid'' & Hs').
      assert (s' = s) as -> by congruence.
      unfold counter. apply send_one_frame. rewrite Hido. cbn [to_string].
      apply garbage_paths_apart; [done|done|].
      intros ->. apply Hfresh. rewrite Hido, <- Hid'.
      by apply list_elem_of_fmap_2.
  - intros q Hq. rewrite IHframe.
    + apply send_one_frame, Hq, list_elem_of_here.
    + intros o' Ho'. by apply Hq, list_elem_of_further.
Qed.

(** What the game listener reads off the game node for a player is the
    counter of the store. *)
Lemma counter_snapshot db st' pid :
  roomId st' = room → segment pid →
  prop (prop (get db (game_path st')) "garbage") pid = counter st db pid.
Proof.
  intros Hst' Hpid. unfold counter, get.
  rewrite (keys_of_garbage_path room Hroom st pid Hst Hpid).
  rewrite (keys_of_game_path room Hroom st' Hst').
  rewrite get_keys_app. by rewrite !get_keys_cons_prop.
Qed.

Lemma opponents_other o s :
  o ∈ opponents st → id o = VStr s → s ≠ playerId st.
Proof.
  intros Ho Hid. unfold opponents in Ho.
  apply list_elem_of_In, List.filter_In in Ho as [_ Ho].
  apply andb_true_iff in Ho as [Ho _]. rewrite Hid in Ho. cbn in Ho.
  apply negb_true_iff in Ho. by apply String.eqb_neq in Ho.
Qed.

End Sending.

(** X28 (js/tetris.js, sendGarbageToOpponents).  Run against the local
    store in a room whose identifier is a path segment, with opponents
    whose identifiers are distinct path segments: the counter of every
    living opponent is raised by the lines cleared.  A missing or falsy
    counter counts as 0; a numeric counter [m] becomes the double nearest
    to [m + n] (for doubles [m] and [n] whose sum does not round to an
    infinity), which is [m + n] itself as long as [m + n] is at most 2^53
    in absolute value, and is not beyond: a counter at 2^53 raised by one
    line stays at 2^53.  Every path that lies neither below nor above the
    counter of a living opponent reads as before, and so does the sender's
    own counter. *)
Theorem sendGarbage_raises_counters
        (room : string) (st : GameState) (n : Z) (db : LocalDatabase) :
  segment room → roomId st = room →
  Forall (λ o, ∃ s, id o = VStr s ∧ segment s) (opponents st) →
  NoDup (id <$> opponents st) →
  (∀ o s, o ∈ opponents st → id o = VStr s →
     counter st (sendGarbageToOpponents st n db) s = raised (counter st db s) n
     ∧ (∀ m, counter st db s = VNum m →
             nearest_double m = m → nearest_double n = n →
             overflows (m + n) = false →
             counter st (sendGarbageToOpponents st n db) s
             = VNum (nearest_double (m + n)))
     ∧ (∀ m, counter st db s = VNum m → (Z.abs (m + n) ≤ 2 ^ 53)%Z →
             counter st (sendGarbageToOpponents st n db) s = VNum (m + n))
     ∧ (truthy (counter st db s) = false →
        counter st (sendGarbageToOpponents st n db) s = VNum n))
  ∧ (∀ q, (∀ o, o ∈ opponents st → apart (garbage_path st (to_string (id o))) q) →
          get (sendGarbageToOpponents st n db) q = get db q)
  ∧ (segment (playerId st) →
     counter st (sendGarbageToOpponents st n db) (playerId st)
     = counter st db (playerId st))
  ∧ raised (VNum (2 ^ 53)) 1 = VNum (2 ^ 53)
  ∧ raised (VNum (2 ^ 53 + 2)) 1 = VNum (2 ^ 53 + 4).
Proof.
  intros Hroom Hst Hok Hnd.
  destruct (send_all room Hroom st Hst n (opponents st) db Hok Hnd) as [Hsame Hframe].
  assert (∀ m, raised (VNum m) n = VNum (add_numbers m n)) as Hnum.
  { intros m. unfold raised, or_else. cbn [truthy].
    destruct (m =? 0)%Z eqn:Hz; cbn [negb]; [|done].
    apply Z.eqb_eq in Hz as ->. done. }
  split; [|split; [|split; [|split]]].
  - intros o s Ho Hid. pose proof (Hsame o s Ho Hid) as Hraised.
    unfold sendGarbageToOpponents. split; [done|]. split; [|split].
    + intros m Hm Hdm Hdn _. by rewrite Hraised, Hm, Hnum, add_numbers_rounds.
    + intros m Hm Hsmall. by rewrite Hraised, Hm, Hnum, add_numbers_exact.
    + intros Hfalsy. rewrite Hraised. unfold raised, or_else. by rewrite Hfalsy.
  - done.
  - intros Hme. unfold counter. apply Hframe. intros o Ho.
    destruct (proj1 (Forall_forall _ _) Hok o Ho) as (s & Hid & Hs).
    rewrite Hid. cbn [to_string].
    apply (garbage_paths_apart room Hroom st Hst); [done|done|].
    by apply (opponents_other st o).
  - by vm_compute.
  - by vm_compute.
Qed.

Lemma room_segment : segment "r1".
Proof. by split. Qed.

Lemma duel_opponents_ok :
  Forall (λ o, ∃ s, id o = VStr s ∧ segment s) (opponents (duel "ann" true)).
Proof. repeat constructor. by exists "bob". Qed.

Lemma duel_opponents_NoDup : NoDup (id <$> opponents (duel "ann" true)).
Proof. apply NoDup_singleton. Qed.

Lemma sendGarbage_raises_counters_witness :
  segment "r1"
  ∧ (∀ o s, o ∈ opponents (duel "ann" true) → id o = VStr s →
       counter (duel "ann" true)
               (sendGarbageToOpponents (duel "ann" true) 2 empty_store) s
       = raised (counter (duel "ann" true) empty_store s) 2
       ∧ (∀ m, counter (duel "ann" true) empty_store s = VNum m →
               nearest_double m = m → nearest_double 2 = 2%Z →
               overflows (m + 2) = false →
               counter (duel "ann" true)
                       (sendGarbageToOpponents (duel "ann" true) 2 empty_store) s
               = VNum (nearest_double (m + 2)))
       ∧ (∀ m, counter (duel "ann" true) empty_store s = VNum m →
               (Z.abs (m + 2) ≤ 2 ^ 53)%Z →
               counter (duel "ann" true)
                       (sendGarbageToOpponents (duel "ann" true) 2 empty_store) s
               = VNum (m + 2))
       ∧ (truthy (counter (duel "ann" true) empty_store s) = false →
          counter (duel "ann" true)
                  (sendGarbageToOpponents (duel "ann" true) 2 empty_store) s
          = VNum 2)).
Proof.
  exact (conj room_segment
              (proj1 (sendGarbage_raises_counters
                        "r1" (duel "ann" true) 2 empty_store room_segment eq_refl
                        duel_opponents_ok duel_opponents_NoDup))).
Defined.

(** X29 (js/tetris.js, sendGarbageToOpponents and the game listener).
    Garbage sent is garbage received: when a client has sent [n > 0] lines
    to a living opponent whose counter was missing or 0, the game listener
    of that opponent, fed with the game node of the store, adds [n] to the
    opponent's garbage queue and writes the counter back to 0, which the
    store then holds. *)
Theorem garbage_sent_is_received
        (room : string) (sender receiver : GameState) (o : Player)
        (n : Z) (db : LocalDatabase) :
  segment room → roomId sender = room → roomId receiver = room →
  Forall (λ o, ∃ s, id o = VStr s ∧ segment s) (opponents sender) →
  NoDup (id <$> opponents sender) →
  o ∈ opponents sender → id o = VStr (playerId receiver) →
  truthy (counter sender db (playerId receiver)) = false →
  (0 < n)%Z →
  garbageQueue (gameListener receiver
                  (get (sendGarbageToOpponents sender n db) (game_path receiver))).1
  = (garbageQueue receiver + n)%Z
  ∧ (gameListener receiver
       (get (sendGarbageToOpponents sender n db) (game_path receiver))).2
    = [Store (WSet (garbage_path receiver (playerId receiver)) (VNum 0))]
  ∧ counter receiver
      (perform (sendGarbageToOpponents sender n db)
         (gameListener receiver
            (get (sendGarbageToOpponents sender n db) (game_path receiver))).2)
      (playerId receiver)
    = VNum 0.
Proof.
  intros Hroom Hsender Hreceiver Hok Hnd Ho Hid Hfalsy Hn.
  destruct (proj1 (Forall_forall _ _) Hok o Ho) as (s & Hid' & Hs).
  assert (s = playerId receiver) as -> by congruence.
  destruct (send_all room Hroom sender Hsender n (opponents sender) db Hok Hnd)
    as [Hsame _].
  pose proof (Hsame o _ Ho Hid) as Hcount.
  fold (sendGarbageToOpponents sender n db) in Hcount.
  set (db' := sendGarbageToOpponents sender n db) in *.
  assert (counter sender db' (playerId receiver) = VNum n) as Hraised.
  { rewrite Hcount. unfold raised, or_else. by rewrite Hfalsy. }
  pose proof (counter_snapshot room Hroom sender Hsender db' receiver
                               (playerId receiver) Hreceiver Hs) as Hsnap.
  rewrite Hraised in Hsnap.
  set (gameData := get db' (game_path receiver)) in *.
  assert (truthy gameData = true) as Hdata.
  { destruct gameData as [| |b|m|t|m]; try done. }
  assert (∀ st0, garbageQueue (handleGameOver st0 (prop gameData "rankings"))
                 = garbageQueue st0) as Hover.
  { intros st0. unfold handleGameOver. by destruct (_ || _). }
  assert (∃ st', gameListener receiver gameData
                 = (st', [Store (WSet (garbage_path receiver (playerId receiver))
                                      (VNum 0))])
                 ∧ garbageQueue st' = (garbageQueue receiver + n)%Z)
    as (st' & Hout & Hqueue).
  { unfold gameListener. rewrite Hdata. cbn [negb]. rewrite Hsnap.
    assert ((0 <? n)%Z = true) as -> by (by apply Z.ltb_lt).
    destruct (truthy (prop gameData "players"));
      destruct (truthy (prop gameData "gameFinished"));
      eexists; (split; [reflexivity|]); rewrite ?Hover; done. }
  rewrite Hout. cbn [fst snd]. split; [done|]. split; [done|].
  cbn [perform foldl apply_write]. unfold counter.
  apply LocalRefs.set_get_laws.
  rewrite (keys_of_garbage_path room Hroom receiver _ Hreceiver Hs).
  by destruct (game_keys room).
Qed.

Lemma garbage_sent_is_received_witness :
  segment "r1"
  ∧ garbageQueue
      (gameListener (duel "bob" false)
         (get (sendGarbageToOpponents (duel "ann" true) 2 empty_store)
              (game_path (duel "bob" false)))).1
    = (garbageQueue (duel "bob" false) + 2)%Z.
Proof.
  refine (conj room_segment
            (proj1 (garbage_sent_is_received
                      "r1" (duel "ann" true) (duel "bob" false) (living "bob")
                      2 empty_store room_segment eq_refl eq_refl
                      duel_opponents_ok duel_opponents_NoDup _ eq_refl eq_refl _))).
  - apply list_elem_of_here.
  - reflexivity.
Defined.

End TetrisGarbage.
